(** * run_gpu.c: a shallow embedding of the GPU inference engine

    The host program drives OpenGL ES compute shaders.  The embedding has
    three layers:

    - the xorshift random number generator of the host (64-bit state as [Z]);
    - a model of the part of the GL state machine the program uses (named
      buffer objects, indexed shader-storage binding points, the current
      program, per-program uniforms) together with the compute kernels,
      translated statement by statement from the embedded GLSL sources;
    - the host functions ([rmsnorm], [softmax], [transformer], [argmax],
      [sample_topp], [malloc_run_state], ...) as sequences of GL calls.

    Floating point values are kept abstract: every definition is
    parametrised by a structure [FloatOps] giving the arithmetic the
    shaders and the host use, so the data-flow theorems hold for every
    interpretation of the operations.  Closed statements instantiate the
    structure with the real numbers. *)

From Stdlib Require Import ZArith Znumtheory QArith Qround Reals Lra Lia.
From stdpp Require Import base decidable option list gmap strings.

#[local] Open Scope Z_scope.

(** ** Machine integers *)

Module Int.

Definition two64 : Z := 2 ^ 64.
Definition two32 : Z := 2 ^ 32.

(** Conversion to [unsigned long long]. *)
Definition u64 (z : Z) : Z := z mod two64.

(** Conversion to [unsigned int] / [GLuint]. *)
Definition u32 (z : Z) : Z := z mod two32.

(** Conversion to [int]: the low 32 bits in two's complement.  The
    arithmetic of [int] is read as wrapping. *)
Definition s32 (z : Z) : Z := (z + 2 ^ 31) mod two32 - 2 ^ 31.

(** [INT_MAX] *)
Definition int_max : Z := 2 ^ 31 - 1.

(** The step of every reduction loop:
    [next = cur / 2; if (cur % 2 == 1) next += 1;]
    with C's truncating division and remainder. *)
Definition halve (cur : Z) : Z :=
  let next := Z.quot cur 2 in
  if Z.rem cur 2 =? 1 then next + 1 else next.

End Int.

(** ** The random number generator *)

Module Rng.

(** [rng_seed ^= rng_seed >> 12;] *)
Definition step1 (s : Z) : Z := Z.lxor s (Z.shiftr s 12).
(** [rng_seed ^= rng_seed << 25;] (the shift wraps at 64 bits) *)
Definition step2 (s : Z) : Z := Z.lxor s (Int.u64 (Z.shiftl s 25)).
(** [rng_seed ^= rng_seed >> 27;] *)
Definition step3 (s : Z) : Z := Z.lxor s (Z.shiftr s 27).

(** The value of [rng_seed] after one call of [random_u32]. *)
Definition next_seed (s : Z) : Z := step3 (step2 (step1 s)).

(** [random_u32]: the new seed and the returned [unsigned int]. *)
Definition random_u32 (rng_seed : Z) : Z * Z :=
  let s := next_seed rng_seed in
  (s, Int.u32 (Z.shiftr (Int.u64 (s * 0x2545F4914F6CDD1D)) 32)).

(** The seed after [n] calls. *)
Fixpoint seed_after (n : nat) (s : Z) : Z :=
  match n with
  | O => s
  | S k => seed_after k (next_seed s)
  end.

Definition is_u64 (s : Z) : Prop := 0 <= s < Int.two64.

End Rng.

(** ** Floating point arithmetic

    The shaders and the host compute on 32-bit floats.  The operations are
    a parameter of the whole development. *)

Record FloatOps (F : Type) : Type := {
  fconst : Q -> F;           (* a literal such as [0.0] or [0.00001] *)
  of_int : Z -> F;           (* [float(i)] *)
  to_int : F -> Z;           (* [int(f)], truncating *)
  fadd : F -> F -> F;
  fsub : F -> F -> F;
  fmul : F -> F -> F;
  fdiv : F -> F -> F;
  fexp : F -> F;
  fsqrt : F -> F;
  fmax : F -> F -> F;
  fmin : F -> F -> F;
  fltb : F -> F -> bool;     (* [a < b] *)
  fleb : F -> F -> bool;     (* [a <= b] *)
  feqb : F -> F -> bool      (* [a == b] *)
}.

Arguments fconst {F} _ _.
Arguments of_int {F} _ _.
Arguments to_int {F} _ _.
Arguments fadd {F} _ _ _.
Arguments fsub {F} _ _ _.
Arguments fmul {F} _ _ _.
Arguments fdiv {F} _ _ _.
Arguments fexp {F} _ _.
Arguments fsqrt {F} _ _.
Arguments fmax {F} _ _ _.
Arguments fmin {F} _ _ _.
Arguments fltb {F} _ _ _.
Arguments fleb {F} _ _ _.
Arguments feqb {F} _ _ _.

(** The real numbers as the exact interpretation. *)
Definition R_to_int (r : R) : Z :=
  if Rle_dec 0 r then Int_part r else - Int_part (- r).

Definition R_ops : FloatOps R := {|
  fconst := Q2R;
  of_int := IZR;
  to_int := R_to_int;
  fadd := Rplus;
  fsub := Rminus;
  fmul := Rmult;
  fdiv := Rdiv;
  fexp := exp;
  fsqrt := sqrt;
  fmax := Rmax;
  fmin := Rmin;
  fltb := fun a b => if Rlt_dec a b then true else false;
  fleb := fun a b => if Rle_dec a b then true else false;
  feqb := fun a b => if Req_dec_T a b then true else false
|}.

(** ** The compute programs *)

(** One constructor per embedded shader source. *)
Inductive Shader : Set :=
| shader_matmul
| shader_rmsnorm_squares_and_sum
| shader_softmax_exp_and_sum
| shader_softmax_normalize
| shader_sum
| shader_max
| shader_argmax_set_index
| shader_argmax
| shader_min
| shader_rmsnorm_normalize_and_scale
| shader_rmsnorm_normalize_and_scale_currentPos
| shader_accum
| shader_positionalEncoding
| shader_transformer_silu_and_mulW3
| shader_transformer_get_query_vector
| shader_transformer_build_attMat
| shader_transformer_softmax_input
| shader_transformer_softmax_output
| shader_temperature.

#[global] Instance Shader_eq_dec : EqDecision Shader.
Proof. solve_decision. Defined.

Inductive UType : Set := UInt | UFloat.

#[global] Instance UType_eq_dec : EqDecision UType.
Proof. solve_decision. Defined.

(** The [uniform] declarations of each source, in order. *)
Definition uniform_decls (sh : Shader) : list (string * UType) :=
  match sh with
  | shader_matmul => [("n", UInt); ("x_offset", UInt); ("w_offset", UInt)]
  | shader_rmsnorm_squares_and_sum => [("insize", UInt)]
  | shader_softmax_exp_and_sum => [("insize", UInt); ("shape0", UInt)]
  | shader_softmax_normalize => [("shape0", UInt)]
  | shader_sum => [("insize", UInt); ("shape0", UInt)]
  | shader_max => [("insize", UInt); ("shape0", UInt)]
  | shader_argmax_set_index => [("insize", UInt)]
  | shader_argmax => [("insize", UInt); ("shape0", UInt)]
  | shader_min => [("insize", UInt); ("shape0", UInt)]
  | shader_rmsnorm_normalize_and_scale => [("size", UInt); ("weight_offset", UInt)]
  | shader_rmsnorm_normalize_and_scale_currentPos =>
      [("size", UInt); ("weight_offset", UInt)]
  | shader_accum => []
  | shader_positionalEncoding =>
      [("pos", UInt); ("dim", UInt); ("hidden_dim", UInt);
       ("freq_cis_idx_delta", UInt); ("head_size", UInt)]
  | shader_transformer_silu_and_mulW3 => []
  | shader_transformer_get_query_vector =>
      [("seq_len", UInt); ("pos", UInt); ("head_size", UInt); ("dim", UInt);
       ("layer_idx", UInt)]
  | shader_transformer_build_attMat =>
      [("seq_len", UInt); ("pos", UInt); ("head_size", UInt); ("dim", UInt);
       ("layer_idx", UInt)]
  | shader_transformer_softmax_input => [("seq_len", UInt); ("pos", UInt)]
  | shader_transformer_softmax_output => [("seq_len", UInt); ("pos", UInt)]
  | shader_temperature => [("temperature", UFloat)]
  end.

(** Whether the GLSL compiler accepts the source.  [shader_argmax] assigns
    floats to [int] variables and lacks the semicolons after
    [b.data[...] = v0] and [b.data[...] = v1]; it is rejected. *)
Definition compiles (sh : Shader) : bool :=
  match sh with
  | shader_argmax => false
  | _ => true
  end.

(** A program handle: [None] is the handle 0. *)
Definition GLprogram : Set := option Shader.

(** [createComputeProgram]: 0 when the shader fails to compile. *)
Definition createComputeProgram (pComputeSource : Shader) : GLprogram :=
  if compiles pComputeSource then Some pComputeSource else None.

(** [GPUProgram]: the struct has one field per shader; [prog sh] is the
    field named [sh]. *)
Definition GPUProgram : Set := Shader -> GLprogram.

Definition compile_GPUProgram : GPUProgram :=
  fun sh => createComputeProgram sh.

(** Uniform locations: the position of the declaration, -1 when the
    program is 0 or the name is not declared. *)
Fixpoint index_of (name : string) (l : list (string * UType)) (i : Z) : Z :=
  match l with
  | [] => -1
  | (nm, _) :: tl => if decide (nm = name) then i else index_of name tl (i + 1)
  end.

Definition glGetUniformLocation (program : GLprogram) (name : string) : Z :=
  match program with
  | None => -1
  | Some sh => index_of name (uniform_decls sh) 0
  end.

Definition uniform_at (sh : Shader) (location : Z) : option (string * UType) :=
  if location <? 0 then None else uniform_decls sh !! Z.to_nat location.

(** ** The GL state machine *)

(** Buffer names, sizes and offsets are [GLuint], [GLsizeiptr], [GLintptr]. *)
Definition GLuint : Set := Z.

Definition sizeof_float : Z := 4.

(** A buffer object's data store: its size in bytes and the floats in it. *)
Record Buffer (F : Type) : Type := mkBuffer {
  buf_size : Z;
  buf_data : list F
}.
Arguments mkBuffer {F} _ _.
Arguments buf_size {F} _.
Arguments buf_data {F} _.

(** One entry of the dispatch log: the program in use, the number of work
    groups, the values of its [int] uniforms and the buffers bound to the
    binding points 0..3 when [glDispatchCompute] was called. *)
Record Dispatch : Set := mkDispatch {
  d_program : Shader;
  d_groups : Z * Z * Z;
  d_uniforms : list (string * Z);
  d_ssbo : list GLuint
}.

Record GLState (F : Type) : Type := mkGL {
  gl_buffers : gmap Z (Buffer F);      (* named buffer objects *)
  gl_next_name : GLuint;               (* next name [glGenBuffers] returns *)
  gl_bound : GLuint;                   (* GL_SHADER_STORAGE_BUFFER target *)
  gl_ssbo : nat -> GLuint;             (* indexed binding points *)
  gl_program : GLprogram;              (* program in use *)
  gl_uniform_i : Shader -> string -> Z;
  gl_uniform_f : Shader -> string -> F;
  gl_log : list Dispatch
}.
Arguments mkGL {F} _ _ _ _ _ _ _ _.
Arguments gl_buffers {F} _.
Arguments gl_next_name {F} _.
Arguments gl_bound {F} _.
Arguments gl_ssbo {F} _ _.
Arguments gl_program {F} _.
Arguments gl_uniform_i {F} _ _ _.
Arguments gl_uniform_f {F} _ _ _.
Arguments gl_log {F} _.

(** ** The host structs *)

Module Config.
Record t : Set := mk {
  dim : Z;         (* transformer dimension *)
  hidden_dim : Z;  (* for ffn layers *)
  n_layers : Z;    (* number of layers *)
  n_heads : Z;     (* number of query heads *)
  n_kv_heads : Z;  (* number of key/value heads *)
  vocab_size : Z;  (* vocabulary size *)
  seq_len : Z      (* max sequence length *)
}.
End Config.

(** [RunState]: the buffer names and their byte lengths.  The host array
    [probindex] is passed to [sample_topp] separately. *)
Module RunState.
Record t : Set := mk {
  x : GLuint;  x_len : GLuint;
  xb : GLuint;  xb_len : GLuint;
  xb2 : GLuint;  xb2_len : GLuint;
  hb : GLuint;  hb_len : GLuint;
  hb2 : GLuint;  hb2_len : GLuint;
  q : GLuint;  q_len : GLuint;
  k : GLuint;  k_len : GLuint;
  v : GLuint;  v_len : GLuint;
  att : GLuint;  att_len : GLuint;
  logits : GLuint;  logits_len : GLuint;
  key_cache : GLuint;  key_cache_len : GLuint;
  value_cache : GLuint;  value_cache_len : GLuint;
  mulBuffer_1 : GLuint;
  mulBuffer_2 : GLuint;
  mulBuffer_3 : GLuint;
  mulBuffer_4 : GLuint;
  mulBuffer_len : GLuint
}.

(** The buffers the forward pass and the samplers write. *)
Definition activations (s : t) : list GLuint :=
  [x s; xb s; xb2 s; hb s; hb2 s; q s; k s; v s; att s; logits s;
   mulBuffer_1 s; mulBuffer_2 s; mulBuffer_3 s; mulBuffer_4 s].

Definition names (s : t) : list GLuint :=
  activations s ++ [key_cache s; value_cache s].
End RunState.

(** [TransformerWeights_gpu]; the length fields are not used by the
    forward pass and are left out. *)
Module Weights.
Record t (F : Type) : Type := mk {
  token_embedding_table : list F;  (* on the host *)
  rms_att_weight : GLuint;
  rms_ffn_weight : GLuint;
  wq : GLuint;
  wk : GLuint;
  wv : GLuint;
  wo : GLuint;
  w1 : GLuint;
  w2 : GLuint;
  w3 : GLuint;
  rms_final_weight : GLuint;
  freq_cis_real : GLuint;
  freq_cis_imag : GLuint;
  wcls : GLuint
}.
Arguments token_embedding_table {F} _.
Arguments rms_att_weight {F} _.
Arguments rms_ffn_weight {F} _.
Arguments wq {F} _.
Arguments wk {F} _.
Arguments wv {F} _.
Arguments wo {F} _.
Arguments w1 {F} _.
Arguments w2 {F} _.
Arguments w3 {F} _.
Arguments rms_final_weight {F} _.
Arguments freq_cis_real {F} _.
Arguments freq_cis_imag {F} _.
Arguments wcls {F} _.
End Weights.

(** [TransformerWeights_local]: the arrays in the mapped checkpoint. *)
Module LocalWeights.
Record t (F : Type) : Type := mk {
  token_embedding_table : list F;
  rms_att_weight : list F;
  rms_ffn_weight : list F;
  wq : list F;
  wk : list F;
  wv : list F;
  wo : list F;
  w1 : list F;
  w2 : list F;
  w3 : list F;
  rms_final_weight : list F;
  freq_cis_real : list F;
  freq_cis_imag : list F;
  wcls : list F
}.
Arguments token_embedding_table {F} _.
Arguments rms_att_weight {F} _.
Arguments rms_ffn_weight {F} _.
Arguments wq {F} _.
Arguments wk {F} _.
Arguments wv {F} _.
Arguments wo {F} _.
Arguments w1 {F} _.
Arguments w2 {F} _.
Arguments w3 {F} _.
Arguments rms_final_weight {F} _.
Arguments freq_cis_real {F} _.
Arguments freq_cis_imag {F} _.
Arguments wcls {F} _.
End LocalWeights.

(** [ProbIndex], used when sorting probabilities during top-p sampling. *)
Record ProbIndex (F : Type) : Type := mkProbIndex {
  prob : F;
  index : Z
}.
Arguments mkProbIndex {F} _ _.
Arguments prob {F} _.
Arguments index {F} _.

Section GL.

Context {F : Type} (ops : FloatOps F).

#[local] Abbreviation State := (GLState F).

(** *** Field updates *)

Definition set_buffers (f : gmap Z (Buffer F) -> gmap Z (Buffer F)) (st : State) : State :=
  mkGL (f (gl_buffers st)) (gl_next_name st) (gl_bound st) (gl_ssbo st)
    (gl_program st) (gl_uniform_i st) (gl_uniform_f st) (gl_log st).

Definition set_next_name (n : GLuint) (st : State) : State :=
  mkGL (gl_buffers st) n (gl_bound st) (gl_ssbo st)
    (gl_program st) (gl_uniform_i st) (gl_uniform_f st) (gl_log st).

Definition set_bound (b : GLuint) (st : State) : State :=
  mkGL (gl_buffers st) (gl_next_name st) b (gl_ssbo st)
    (gl_program st) (gl_uniform_i st) (gl_uniform_f st) (gl_log st).

Definition set_ssbo (index : nat) (b : GLuint) (st : State) : State :=
  mkGL (gl_buffers st) (gl_next_name st) (gl_bound st)
    (fun i => if decide (i = index) then b else gl_ssbo st i)
    (gl_program st) (gl_uniform_i st) (gl_uniform_f st) (gl_log st).

Definition set_program (p : GLprogram) (st : State) : State :=
  mkGL (gl_buffers st) (gl_next_name st) (gl_bound st) (gl_ssbo st)
    p (gl_uniform_i st) (gl_uniform_f st) (gl_log st).

Definition set_uniform_i (sh : Shader) (name : string) (v : Z) (st : State) : State :=
  mkGL (gl_buffers st) (gl_next_name st) (gl_bound st) (gl_ssbo st)
    (gl_program st)
    (fun sh' nm => if decide (sh' = sh /\ nm = name) then v else gl_uniform_i st sh' nm)
    (gl_uniform_f st) (gl_log st).

Definition set_uniform_f (sh : Shader) (name : string) (v : F) (st : State) : State :=
  mkGL (gl_buffers st) (gl_next_name st) (gl_bound st) (gl_ssbo st)
    (gl_program st) (gl_uniform_i st)
    (fun sh' nm => if decide (sh' = sh /\ nm = name) then v else gl_uniform_f st sh' nm)
    (gl_log st).

Definition add_log (d : Dispatch) (st : State) : State :=
  mkGL (gl_buffers st) (gl_next_name st) (gl_bound st) (gl_ssbo st)
    (gl_program st) (gl_uniform_i st) (gl_uniform_f st) (gl_log st ++ [d]).

(** *** Buffer access from a shader

    [data[i]] of the block at binding point [b].  An access outside the
    data store (or through a binding point without buffer) reads 0.0
    and writes nothing. *)

Definition data_of (st : State) (name : GLuint) : list F :=
  match gl_buffers st !! name with
  | Some buf => buf_data buf
  | None => []
  end.

Definition rd (st : State) (b : nat) (i : Z) : F :=
  if i <? 0 then fconst ops 0
  else default (fconst ops 0) (data_of st (gl_ssbo st b) !! Z.to_nat i).

Definition store (name : GLuint) (i : Z) (v : F) (st : State) : State :=
  if i <? 0 then st
  else match gl_buffers st !! name with
       | Some buf =>
           set_buffers
             (insert name (mkBuffer (buf_size buf) (<[Z.to_nat i := v]> (buf_data buf))))
             st
       | None => st
       end.

Definition wr (b : nat) (i : Z) (v : F) (st : State) : State :=
  store (gl_ssbo st b) i v st.

(** The shaders' [for (int j = 0; j < n; j++) acc += term j]. *)
Definition sum_loop (n : Z) (term : Z -> F) : F :=
  foldl (fun acc j => fadd ops acc (term j)) (fconst ops 0) (seqZ 0 n).

(** *** The kernels

    [gl_GlobalInvocationID] is the triple [(idx, idy, idz)]; every local
    size is 1.  Each definition follows the [main] of the source of the
    same name; bindings are the [layout(binding = ...)] numbers.  The
    shaders' [int] arithmetic is carried out on [Z]. *)

#[local] Notation "a +. b" := (fadd ops a b) (at level 50, left associativity).
#[local] Notation "a -. b" := (fsub ops a b) (at level 50, left associativity).
#[local] Notation "a *. b" := (fmul ops a b) (at level 40, left associativity).
#[local] Notation "a /. b" := (fdiv ops a b) (at level 40, left associativity).

Section Kernels.

Variable gid : Z * Z * Z.
Let idx : Z := gid.1.1.
Let idy : Z := gid.1.2.
Let idz : Z := gid.2.

Definition main_matmul (st : State) : State :=
  let n := gl_uniform_i st shader_matmul "n" in
  let x_offset := gl_uniform_i st shader_matmul "x_offset" in
  let w_offset := gl_uniform_i st shader_matmul "w_offset" in
  let i := idx in
  let val := sum_loop n (fun j =>
               rd st 1 (i * n + j + w_offset) *. rd st 0 (j + x_offset)) in
  wr 2 i val st.

Definition main_rmsnorm_squares_and_sum (st : State) : State :=
  let insize := gl_uniform_i st shader_rmsnorm_squares_and_sum "insize" in
  let st := wr 1 idx (rd st 0 (idx * 2) *. rd st 0 (idx * 2)) st in
  if idx * 2 + 1 <? insize then
    wr 1 idx (rd st 1 idx +. rd st 0 (idx * 2 + 1) *. rd st 0 (idx * 2 + 1)) st
  else st.

Definition main_softmax_exp_and_sum (st : State) : State :=
  let insize := gl_uniform_i st shader_softmax_exp_and_sum "insize" in
  let shape0 := gl_uniform_i st shader_softmax_exp_and_sum "shape0" in
  let i0 := idx * 2 + insize * idy in
  let i1 := i0 + 1 in
  let max_val := rd st 1 0 in
  let st := wr 2 (idx + shape0 * idy) (fexp ops (rd st 0 i0 -. max_val)) st in
  if i1 <? insize then
    wr 2 (idx + shape0 * idy)
      (rd st 2 (idx + shape0 * idy) +. fexp ops (rd st 0 i1 -. max_val)) st
  else st.

Definition main_softmax_normalize (st : State) : State :=
  let shape0 := gl_uniform_i st shader_softmax_normalize "shape0" in
  let max_val := rd st 1 0 in
  wr 2 (idx + shape0 * idy) (rd st 2 (idx + shape0 * idy) /. rd st 0 0) st.

Definition main_sum (st : State) : State :=
  let insize := gl_uniform_i st shader_sum "insize" in
  let shape0 := gl_uniform_i st shader_sum "shape0" in
  let st := wr 1 (idx + shape0 * idy) (rd st 0 (insize * idy + idx * 2)) st in
  if idx * 2 + 1 <? insize then
    wr 1 (idx + shape0 * idy)
      (rd st 1 (idx + shape0 * idy) +. rd st 0 (insize * idy + idx * 2 + 1)) st
  else st.

Definition main_max (st : State) : State :=
  let insize := gl_uniform_i st shader_max "insize" in
  let shape0 := gl_uniform_i st shader_max "shape0" in
  if idx * 2 + 1 <? insize then
    wr 1 (idx + shape0 * idy)
      (fmax ops (rd st 0 (insize * idy + idx * 2))
                (rd st 0 (insize * idy + idx * 2 + 1))) st
  else
    wr 1 (idx + shape0 * idy) (rd st 0 (insize * idy + idx * 2)) st.

Definition main_argmax_set_index (st : State) : State :=
  let insize := gl_uniform_i st shader_argmax_set_index "insize" in
  wr 1 (idx + insize * idy) (of_int ops idx) st.

(** This source is rejected by the compiler ([compiles]); the body
    reads its [int v0 = a.data[...]] as a truncating conversion. *)
Definition main_argmax (st : State) : State :=
  let insize := gl_uniform_i st shader_argmax "insize" in
  let shape0 := gl_uniform_i st shader_argmax "shape0" in
  if idx * 2 + 1 <? insize then
    let v0 := to_int ops (rd st 0 (insize * idy + idx * 2)) in
    let v1 := to_int ops (rd st 0 (insize * idy + idx * 2 + 1)) in
    if v0 >? v1 then
      let st := wr 2 (idx + shape0 * idy) (of_int ops v0) st in
      wr 3 (idx + shape0 * idy) (rd st 1 (insize * idy + idx * 2)) st
    else
      let st := wr 2 (idx + shape0 * idy) (of_int ops v1) st in
      wr 3 (idx + shape0 * idy) (rd st 1 (insize * idy + idx * 2 + 1)) st
  else
    let st := wr 2 (idx + shape0 * idy) (rd st 0 (insize * idy + idx * 2)) st in
    wr 3 (idx + shape0 * idy) (rd st 1 (insize * idy + idx * 2)) st.

Definition main_min (st : State) : State :=
  let insize := gl_uniform_i st shader_min "insize" in
  let shape0 := gl_uniform_i st shader_min "shape0" in
  if idx * 2 + 1 <? insize then
    wr 1 (idx + shape0 * idy)
      (fmin ops (rd st 0 (insize * idy + idx * 2))
                (rd st 0 (insize * idy + idx * 2 + 1))) st
  else
    wr 1 (idx + shape0 * idy) (rd st 0 (insize * idy + idx * 2)) st.

(** [ss /= float(size); ss += 0.00001; ss = 1.0f / sqrt(ss);] *)
Definition inv_rms (ss : F) (size : Z) : F :=
  let ss := ss /. of_int ops size in
  let ss := ss +. fconst ops 0.00001 in
  fconst ops 1 /. fsqrt ops ss.

Definition main_rmsnorm_normalize_and_scale (st : State) : State :=
  let size := gl_uniform_i st shader_rmsnorm_normalize_and_scale "size" in
  let weight_offset :=
    gl_uniform_i st shader_rmsnorm_normalize_and_scale "weight_offset" in
  let ss := inv_rms (rd st 0 0) size in
  wr 3 idx (rd st 1 (idx + weight_offset) *. (ss *. rd st 2 idx)) st.

Definition main_rmsnorm_normalize_and_scale_currentPos (st : State) : State :=
  let size := gl_uniform_i st shader_rmsnorm_normalize_and_scale_currentPos "size" in
  let weight_offset :=
    gl_uniform_i st shader_rmsnorm_normalize_and_scale_currentPos "weight_offset" in
  let ss := inv_rms (rd st 0 0) size in
  wr 2 idx (rd st 1 (idx + weight_offset) *. (ss *. rd st 2 idx)) st.

Definition main_accum (st : State) : State :=
  wr 0 idx (rd st 0 idx +. rd st 1 idx) st.

(** The block [q] is at binding 2 and the block [k] at binding 3. *)
Definition main_positionalEncoding (st : State) : State :=
  let freq_cis_idx_delta :=
    gl_uniform_i st shader_positionalEncoding "freq_cis_idx_delta" in
  let head_size := gl_uniform_i st shader_positionalEncoding "head_size" in
  let i := idx * 2 in
  let q0 := rd st 2 i in
  let q1 := rd st 2 (i + 1) in
  let k0 := rd st 3 i in
  let k1 := rd st 3 (i + 1) in
  let fcr := rd st 0 (freq_cis_idx_delta + Z.quot (Z.rem i head_size) 2) in
  let fci := rd st 1 (freq_cis_idx_delta + Z.quot (Z.rem i head_size) 2) in
  let st := wr 2 i (q0 *. fcr -. q1 *. fci) st in
  let st := wr 2 (i + 1) (q0 *. fci +. q1 *. fcr) st in
  let st := wr 3 i (k0 *. fcr -. k1 *. fci) st in
  wr 3 (i + 1) (k0 *. fci +. k1 *. fcr) st.

(** Both blocks, [hb] and [hb2], are declared [layout(binding = 0)];
    the exponent is [exp(v)]. *)
Definition main_transformer_silu_and_mulW3 (st : State) : State :=
  let v := rd st 0 idx in
  let v := v *. (fconst ops 1 /. (fconst ops 1 +. fexp ops v)) in
  let v := v *. rd st 0 idx in
  wr 0 idx v st.

Definition main_transformer_get_query_vector (st : State) : State :=
  let seq_len := gl_uniform_i st shader_transformer_get_query_vector "seq_len" in
  let head_size := gl_uniform_i st shader_transformer_get_query_vector "head_size" in
  let dim := gl_uniform_i st shader_transformer_get_query_vector "dim" in
  let layer_idx := gl_uniform_i st shader_transformer_get_query_vector "layer_idx" in
  let h := idx in
  let t := idy in
  let loff := layer_idx * seq_len * dim in
  let q_offset := h * head_size in
  let att_offset := h * seq_len in
  let k_offset := loff + t * dim + h * head_size in
  let score := sum_loop head_size (fun i =>
                 rd st 0 (i + q_offset) *. rd st 1 (i + k_offset)) in
  let score := score /. fsqrt ops (of_int ops head_size) in
  wr 2 (t + att_offset) score st.

Definition main_transformer_build_attMat (st : State) : State :=
  let seq_len := gl_uniform_i st shader_transformer_build_attMat "seq_len" in
  let pos := gl_uniform_i st shader_transformer_build_attMat "pos" in
  let head_size := gl_uniform_i st shader_transformer_build_attMat "head_size" in
  let dim := gl_uniform_i st shader_transformer_build_attMat "dim" in
  let layer_idx := gl_uniform_i st shader_transformer_build_attMat "layer_idx" in
  let h := idx in
  let i := idy in
  let t := idz in
  let loff := layer_idx * seq_len * dim in
  let att_offset := h * seq_len in
  let v_offset := loff + t * dim + h * head_size in
  let a := rd st 1 (t + att_offset) in
  let attMatVal := a *. rd st 0 (i + v_offset) in
  wr 2 (h * pos * head_size + i * pos + t) attMatVal st.

Definition main_transformer_softmax_input (st : State) : State :=
  let seq_len := gl_uniform_i st shader_transformer_softmax_input "seq_len" in
  let pos := gl_uniform_i st shader_transformer_softmax_input "pos" in
  let h := idx in
  let t := idy in
  let srcIdx := h * seq_len + t in
  let dstIdx := h * (pos + 1) + t in
  wr 1 dstIdx (rd st 0 srcIdx) st.

Definition main_transformer_softmax_output (st : State) : State :=
  let seq_len := gl_uniform_i st shader_transformer_softmax_output "seq_len" in
  let pos := gl_uniform_i st shader_transformer_softmax_output "pos" in
  let h := idx in
  let t := idy in
  let dstIdx := h * seq_len + t in
  let srcIdx := h * (pos + 1) + t in
  wr 1 dstIdx (rd st 0 srcIdx) st.

Definition main_temperature (st : State) : State :=
  let temperature := gl_uniform_f st shader_temperature "temperature" in
  let index := idx in
  wr 0 index (rd st 0 index /. temperature) st.

(** The [main] of a program. *)
Definition kernel_main (sh : Shader) : State -> State :=
  match sh with
  | shader_matmul => main_matmul
  | shader_rmsnorm_squares_and_sum => main_rmsnorm_squares_and_sum
  | shader_softmax_exp_and_sum => main_softmax_exp_and_sum
  | shader_softmax_normalize => main_softmax_normalize
  | shader_sum => main_sum
  | shader_max => main_max
  | shader_argmax_set_index => main_argmax_set_index
  | shader_argmax => main_argmax
  | shader_min => main_min
  | shader_rmsnorm_normalize_and_scale => main_rmsnorm_normalize_and_scale
  | shader_rmsnorm_normalize_and_scale_currentPos =>
      main_rmsnorm_normalize_and_scale_currentPos
  | shader_accum => main_accum
  | shader_positionalEncoding => main_positionalEncoding
  | shader_transformer_silu_and_mulW3 => main_transformer_silu_and_mulW3
  | shader_transformer_get_query_vector => main_transformer_get_query_vector
  | shader_transformer_build_attMat => main_transformer_build_attMat
  | shader_transformer_softmax_input => main_transformer_softmax_input
  | shader_transformer_softmax_output => main_transformer_softmax_output
  | shader_temperature => main_temperature
  end.

End Kernels.

(** The binding points a program writes through. *)
Definition written_bindings (sh : Shader) : list nat :=
  match sh with
  | shader_matmul => [2%nat]
  | shader_rmsnorm_squares_and_sum => [1%nat]
  | shader_softmax_exp_and_sum => [2%nat]
  | shader_softmax_normalize => [2%nat]
  | shader_sum | shader_max | shader_min => [1%nat]
  | shader_argmax_set_index => [1%nat]
  | shader_argmax => [2%nat; 3%nat]
  | shader_rmsnorm_normalize_and_scale => [3%nat]
  | shader_rmsnorm_normalize_and_scale_currentPos => [2%nat]
  | shader_accum => [0%nat]
  | shader_positionalEncoding => [2%nat; 3%nat]
  | shader_transformer_silu_and_mulW3 => [0%nat]
  | shader_transformer_get_query_vector => [2%nat]
  | shader_transformer_build_attMat => [2%nat]
  | shader_transformer_softmax_input => [1%nat]
  | shader_transformer_softmax_output => [1%nat]
  | shader_temperature => [0%nat]
  end.

(** *** The host's view: GL calls as a state monad

    A computation may fail to return ([None]): the [while] loops below
    run on fuel. *)

Definition GL (A : Type) : Type := State -> option (A * State).

#[global] Instance GL_ret : MRet GL := fun A a st => Some (a, st).
#[global] Instance GL_bind : MBind GL := fun A B f m st =>
  match m st with
  | Some (a, st') => f a st'
  | None => None
  end.

(** A call that changes the state and returns nothing. *)
Definition modify (f : State -> State) : GL unit := fun st => Some (tt, f st).

(** The final state of a run. *)
Definition exec {A} (m : GL A) (st : State) : option State :=
  snd <$> m st.

(** The effect of each call on the state comes first, the call itself
    second. *)

Definition bind_buffer_base (index : nat) (buffer : GLuint) (st : State) : State :=
  set_bound buffer (set_ssbo index buffer st).

(** [glUniform1i] acts on the program in use; a location that is -1 or
    does not name an [int] uniform of that program changes nothing. *)
Definition uniform1i (location : Z) (v0 : Z) (st : State) : State :=
  match gl_program st with
  | Some sh =>
      match uniform_at sh location with
      | Some (name, UInt) => set_uniform_i sh name v0 st
      | _ => st
      end
  | None => st
  end.

Definition uniform1f (location : Z) (v0 : F) (st : State) : State :=
  match gl_program st with
  | Some sh =>
      match uniform_at sh location with
      | Some (name, UFloat) => set_uniform_f sh name v0 st
      | _ => st
      end
  | None => st
  end.

(** The invocations of a dispatch; with a zero count there is none. *)
Definition work_groups (num_groups_x num_groups_y num_groups_z : Z)
  : list (Z * Z * Z) :=
  z ← seqZ 0 num_groups_z;
  y ← seqZ 0 num_groups_y;
  x ← seqZ 0 num_groups_x;
  [(x, y, z)].

Definition int_uniforms (st : State) (sh : Shader) : list (string * Z) :=
  (fun d => (d.1, gl_uniform_i st sh d.1)) <$>
    filter (fun d => d.2 = UInt) (uniform_decls sh).

Definition run_kernel (sh : Shader) (groups : list (Z * Z * Z)) (st : State) : State :=
  foldl (fun s gid => kernel_main gid sh s) st groups.

(** [glDispatchCompute]: the invocations run one after the other.
    Without a program in use nothing is dispatched. *)
Definition dispatch (num_groups_x num_groups_y num_groups_z : Z) (st : State)
  : State :=
  match gl_program st with
  | Some sh =>
      let d := mkDispatch sh (num_groups_x, num_groups_y, num_groups_z)
                 (int_uniforms st sh) (gl_ssbo st <$> [0; 1; 2; 3]%nat) in
      run_kernel sh (work_groups num_groups_x num_groups_y num_groups_z)
        (add_log d st)
  | None => st
  end.

Definition floats_of (bytes : Z) : nat := Z.to_nat (bytes / sizeof_float).

(** [glBufferData] on the bound buffer; with [data = NULL] the store is
    left uninitialised, which the model fills with 0.0. *)
Definition buffer_data (size : Z) (data : option (list F)) (st : State) : State :=
  if size <? 0 then st
  else
    let zeros := replicate (floats_of size) (fconst ops 0) in
    let contents :=
      match data with
      | Some l => take (floats_of size) (l ++ zeros)
      | None => zeros
      end in
    set_buffers (insert (gl_bound st) (mkBuffer size contents)) st.

Definition in_range (buf : Buffer F) (offset size : Z) : bool :=
  (0 <=? offset) && (0 <=? size) && (offset + size <=? buf_size buf).

Definition buffer_sub_data (offset size : Z) (data : list F) (st : State) : State :=
  match gl_buffers st !! gl_bound st with
  | Some buf =>
      if in_range buf offset size then
        set_buffers
          (insert (gl_bound st)
             (mkBuffer (buf_size buf)
                (list_inserts (floats_of offset) (take (floats_of size) data)
                   (buf_data buf))))
          st
      else st
  | None => st
  end.

(** The buffer binding targets of OpenGL ES 3.2, numbered as in
    [GLES3/gl32.h]. *)
Definition GL_SHADER_STORAGE_BUFFER : Z := 0x90D2.

Definition buffer_targets : list Z :=
  [0x8892 (* GL_ARRAY_BUFFER *); 0x8893 (* GL_ELEMENT_ARRAY_BUFFER *);
   0x88EB (* GL_PIXEL_PACK_BUFFER *); 0x88EC (* GL_PIXEL_UNPACK_BUFFER *);
   0x8A11 (* GL_UNIFORM_BUFFER *); 0x8C2A (* GL_TEXTURE_BUFFER *);
   0x8C8E (* GL_TRANSFORM_FEEDBACK_BUFFER *); 0x8F36 (* GL_COPY_READ_BUFFER *);
   0x8F37 (* GL_COPY_WRITE_BUFFER *); 0x8F3F (* GL_DRAW_INDIRECT_BUFFER *);
   0x90D2 (* GL_SHADER_STORAGE_BUFFER *); 0x90EE (* GL_DISPATCH_INDIRECT_BUFFER *);
   0x92C0 (* GL_ATOMIC_COUNTER_BUFFER *)].

(** The buffer bound to [target], [None] when [target] is not a buffer
    binding target.  The program binds buffers to
    [GL_SHADER_STORAGE_BUFFER] only; the other targets hold 0, as in a
    new context. *)
Definition target_binding (target : Z) (st : State) : option GLuint :=
  if target =? GL_SHADER_STORAGE_BUFFER then Some (gl_bound st)
  else if bool_decide (target ∈ buffer_targets) then Some 0
  else None.

(** [glCopyBufferSubData(readTarget, writeTarget, readOffset,
    writeOffset, size)] copies between the buffers bound to the two
    targets.  It changes nothing when it raises an error:
    [GL_INVALID_ENUM] for an argument that is not a target,
    [GL_INVALID_OPERATION] for a target that holds 0, and
    [GL_INVALID_VALUE] for a range outside a data store or, within one
    buffer, for ranges that overlap. *)
Definition copy_buffer_sub_data (readTarget writeTarget : Z)
    (readOffset writeOffset size : Z) (st : State) : State :=
  match target_binding readTarget st, target_binding writeTarget st with
  | Some read, Some write =>
      if (read =? 0) || (write =? 0) then st
      else
        match gl_buffers st !! read, gl_buffers st !! write with
        | Some rbuf, Some wbuf =>
            if in_range rbuf readOffset size && in_range wbuf writeOffset size
               && negb ((read =? write) && (readOffset <? writeOffset + size)
                        && (writeOffset <? readOffset + size)) then
              set_buffers
                (insert write
                   (mkBuffer (buf_size wbuf)
                      (list_inserts (floats_of writeOffset)
                         (take (floats_of size)
                            (drop (floats_of readOffset) (buf_data rbuf)))
                         (buf_data wbuf))))
                st
            else st
        | _, _ => st
        end
  | _, _ => st
  end.

(** [glMapBufferRange] for reading: the floats of the range, [None] for
    the NULL pointer. *)
Definition map_buffer_range (offset length : Z) (st : State) : option (list F) :=
  match gl_buffers st !! gl_bound st with
  | Some buf =>
      if in_range buf offset length && (0 <? length) then
        Some (take (floats_of length) (drop (floats_of offset) (buf_data buf)))
      else None
  | None => None
  end.

Definition glBindBuffer (buffer : GLuint) : GL unit :=
  modify (set_bound buffer).

Definition glBindBufferBase (index : nat) (buffer : GLuint) : GL unit :=
  modify (bind_buffer_base index buffer).

Definition glUseProgram (program : GLprogram) : GL unit :=
  modify (set_program program).

Definition glUniform1i (location : Z) (v0 : Z) : GL unit :=
  modify (uniform1i location v0).

Definition glUniform1f (location : Z) (v0 : F) : GL unit :=
  modify (uniform1f location v0).

Definition glDispatchCompute (num_groups_x num_groups_y num_groups_z : Z)
  : GL unit :=
  modify (dispatch num_groups_x num_groups_y num_groups_z).

Definition glMemoryBarrier : GL unit := mret tt.

(** [GPU_CHECK()] reads the error flag and prints a line when it is set.
    The state holds neither the error flag nor the standard output:
    what is stated about a run is stated about the GL objects. *)
Definition GPU_CHECK : GL unit := mret tt.

Definition glGenBuffers : GL GLuint := fun st =>
  Some (gl_next_name st, set_next_name (gl_next_name st + 1) st).

Definition glBufferData (size : Z) (data : option (list F)) : GL unit :=
  modify (buffer_data size data).

Definition glBufferSubData (offset size : Z) (data : list F) : GL unit :=
  modify (buffer_sub_data offset size data).

Definition glCopyBufferSubData (readTarget writeTarget : Z)
    (readOffset writeOffset size : Z) : GL unit :=
  modify (copy_buffer_sub_data readTarget writeTarget readOffset writeOffset size).

(** The [n] floats that the host reads at [a + off]: outside the array
    [a] the read is undefined, and the model has no result. *)
Definition host_floats (a : list F) (off n : Z) : GL (list F) := fun st =>
  if (0 <=? off) && (off + n <=? Z.of_nat (length a)) then
    Some (take (Z.to_nat n) (drop (Z.to_nat off) a), st)
  else None.

Definition glMapBufferRange (offset length : Z) : GL (option (list F)) :=
  fun st => Some (map_buffer_range offset length st, st).

Definition glUnmapBuffer : GL unit := mret tt.

(** [create_GPU_buffer(ptr, size, usage, data)] *)
Definition create_GPU_buffer (size : Z) (data : option (list F)) : GL GLuint :=
  ptr ← glGenBuffers;
  glBindBuffer ptr;;
  glBufferData size data;;
  GPU_CHECK;;
  mret ptr.

(** *** Loops *)

(** [while (cond) body] on the local variables [s]. *)
Fixpoint while_loop {S : Type} (fuel : nat) (cond : S -> bool)
    (body : S -> GL S) (s : S) : GL S :=
  match fuel with
  | O => fun _ => None
  | Datatypes.S fuel' =>
      if cond s then s' ← body s; while_loop fuel' cond body s'
      else mret s
  end.

(** [do body while (cond)] *)
Definition do_while {S : Type} (fuel : nat) (cond : S -> bool)
    (body : S -> GL S) (s : S) : GL S :=
  s' ← body s; while_loop fuel cond body s'.

(** [for (int l = lo; l < hi; l++) body] *)
Definition for_range (lo hi : Z) (body : Z -> GL unit) : GL unit :=
  foldr (fun l rest => body l;; rest) (mret tt) (seqZ lo (hi - lo)).

(** *** Neural net blocks *)

(** The local variables of a reduction loop. *)
Record Reduce : Set := mkReduce {
  currentStepSize : Z;
  nextStepSize : Z;
  currentBuffer : GLuint;
  nextBuffer : GLuint
}.

(** The head of every loop body: swap current and next, then
    [currentStepSize = nextStepSize; nextStepSize = currentStepSize / 2;
     if (currentStepSize % 2 == 1) nextStepSize += 1;] *)
Definition advance (r : Reduce) : Reduce :=
  {| currentStepSize := nextStepSize r;
     nextStepSize := Int.halve (nextStepSize r);
     currentBuffer := nextBuffer r;
     nextBuffer := currentBuffer r |}.

Definition not_done (r : Reduce) : bool := negb (nextStepSize r =? 1).

Section Host.

Variable fuel : nat.
Variable prog : GPUProgram.
Variable state : RunState.t.

Definition accum (a b : GLuint) (size : Z) : GL unit :=
  glBindBufferBase 0 a;;
  glBindBufferBase 1 b;;
  glUseProgram (prog shader_accum);;
  glDispatchCompute size 1 1;;
  glMemoryBarrier;;
  GPU_CHECK.

(** One pass of [shader_sum] or [shader_max] from [currentBuffer] to
    [out], with [size_y] rows. *)
Definition reduce_pass (sh : Shader) (r : Reduce) (out : GLuint) (size_y : Z)
  : GL unit :=
  glBindBufferBase 0 (currentBuffer r);;
  glBindBufferBase 1 out;;
  glUseProgram (prog sh);;
  let insize := glGetUniformLocation (prog sh) "insize" in
  glUniform1i insize (currentStepSize r);;
  let shape0 := glGetUniformLocation (prog sh) "shape0" in
  glUniform1i shape0 (nextStepSize r);;
  glDispatchCompute (nextStepSize r) size_y 1;;
  glMemoryBarrier;;
  GPU_CHECK.

(** The body shared by the [while] loops of [rmsnorm] and [softmax]. *)
Definition reduce_step (sh : Shader) (size_y : Z) (r : Reduce) : GL Reduce :=
  let r := advance r in
  reduce_pass sh r (nextBuffer r) size_y;;
  mret r.

Definition rmsnorm (o x weight : GLuint) (size weight_offset : Z) : GL unit :=
  let r := {| currentStepSize := size;
              nextStepSize := Int.halve size;
              currentBuffer := RunState.mulBuffer_1 state;
              nextBuffer := RunState.mulBuffer_2 state |} in
  glBindBufferBase 0 x;;
  glBindBufferBase 1 (nextBuffer r);;
  glUseProgram (prog shader_rmsnorm_squares_and_sum);;
  let insize := glGetUniformLocation (prog shader_rmsnorm_squares_and_sum) "insize" in
  glUniform1i insize (currentStepSize r);;
  glDispatchCompute (nextStepSize r) 1 1;;
  glMemoryBarrier;;
  GPU_CHECK;;
  r ← while_loop fuel not_done (reduce_step shader_sum 1) r;
  if decide (o = x) then
    let sh := shader_rmsnorm_normalize_and_scale_currentPos in
    glBindBufferBase 0 (nextBuffer r);;
    glBindBufferBase 1 weight;;
    glBindBufferBase 2 x;;
    glUseProgram (prog sh);;
    let size_p := glGetUniformLocation (prog sh) "size" in
    glUniform1i size_p size;;
    let weight_offset_p := glGetUniformLocation (prog sh) "weight_offset" in
    glUniform1i weight_offset_p weight_offset;;
    glDispatchCompute size 1 1;;
    glMemoryBarrier;;
    GPU_CHECK
  else
    let sh := shader_rmsnorm_normalize_and_scale in
    glBindBufferBase 0 (nextBuffer r);;
    glBindBufferBase 1 weight;;
    glBindBufferBase 2 x;;
    glBindBufferBase 3 o;;
    glUseProgram (prog sh);;
    let size_p := glGetUniformLocation (prog sh) "size" in
    glUniform1i size_p size;;
    let weight_offset_p := glGetUniformLocation (prog sh) "weight_offset" in
    glUniform1i weight_offset_p weight_offset;;
    glDispatchCompute size 1 1;;
    glMemoryBarrier;;
    GPU_CHECK.

Definition softmax (x : GLuint) (size_x size_y : Z) : GL unit :=
  (* find max value (for numerical stability) *)
  let r := {| currentStepSize := 0;
              nextStepSize := size_x;
              currentBuffer := RunState.mulBuffer_1 state;
              nextBuffer := RunState.mulBuffer_2 state |} in
  r ← do_while fuel not_done (reduce_step shader_max size_y) r;
  let resBuffer_max := nextBuffer r in
  (* exp and sum *)
  let r := {| currentStepSize := size_x;
              nextStepSize := Int.halve size_x;
              currentBuffer := currentBuffer r;
              nextBuffer := RunState.mulBuffer_3 state |} in
  glBindBufferBase 0 x;;
  glBindBufferBase 1 resBuffer_max;;
  glBindBufferBase 2 (nextBuffer r);;
  glUseProgram (prog shader_softmax_exp_and_sum);;
  let insize := glGetUniformLocation (prog shader_softmax_exp_and_sum) "insize" in
  glUniform1i insize (currentStepSize r);;
  let shape0 := glGetUniformLocation (prog shader_softmax_exp_and_sum) "shape0" in
  glUniform1i shape0 (nextStepSize r);;
  glDispatchCompute (nextStepSize r) size_y 1;;
  glMemoryBarrier;;
  GPU_CHECK;;
  r ← while_loop fuel not_done (reduce_step shader_sum size_y) r;
  let resBuffer_sum := nextBuffer r in
  (* normalize *)
  glBindBufferBase 0 resBuffer_sum;;
  glBindBufferBase 1 resBuffer_max;;
  glBindBufferBase 2 x;;
  glUseProgram (prog shader_softmax_normalize);;
  let shape0 := glGetUniformLocation (prog shader_softmax_normalize) "shape0" in
  glUniform1i shape0 size_x;;
  glDispatchCompute size_x size_y 1;;
  glMemoryBarrier;;
  GPU_CHECK.

Definition transformer_softmax (x : GLuint) (pos seq_len n_heads : Z) : GL unit :=
  glBindBufferBase 0 x;;
  glBindBufferBase 1 (RunState.mulBuffer_4 state);;
  glUseProgram (prog shader_transformer_softmax_input);;
  let uniformVar := glGetUniformLocation (prog shader_transformer_softmax_input) "seq_len" in
  glUniform1i uniformVar seq_len;;
  let uniformVar := glGetUniformLocation (prog shader_transformer_softmax_input) "pos" in
  glUniform1i uniformVar pos;;
  glDispatchCompute (pos + 1) 1 1;;
  glMemoryBarrier;;
  GPU_CHECK;;
  softmax (RunState.mulBuffer_4 state) (pos + 1) n_heads;;
  glBindBufferBase 0 (RunState.mulBuffer_4 state);;
  glBindBufferBase 1 x;;
  glUseProgram (prog shader_transformer_softmax_output);;
  let uniformVar := glGetUniformLocation (prog shader_transformer_softmax_output) "seq_len" in
  glUniform1i uniformVar seq_len;;
  let uniformVar := glGetUniformLocation (prog shader_transformer_softmax_output) "pos" in
  glUniform1i uniformVar pos;;
  glDispatchCompute (pos + 1) 1 1;;
  glMemoryBarrier;;
  GPU_CHECK.

(** The last pass writes to [xb] instead of [nextBuffer]. *)
Definition transformer_sum_step (xb : GLuint) (head_size n_heads : Z)
    (r : Reduce) : GL Reduce :=
  let r := advance r in
  reduce_pass shader_sum r
    (if nextStepSize r =? 1 then xb else nextBuffer r) (n_heads * head_size);;
  mret r.

Definition transformer_sum (xb attMat : GLuint) (pos head_size n_heads : Z)
  : GL unit :=
  let r := {| currentStepSize := 0;
              nextStepSize := pos;
              currentBuffer := RunState.mulBuffer_1 state;
              nextBuffer := attMat |} in
  r ← while_loop fuel not_done (transformer_sum_step xb head_size n_heads) r;
  mret tt.

Definition matmul (xout x w : GLuint) (n d x_offset w_offset : Z) : GL unit :=
  glBindBufferBase 0 x;;
  glBindBufferBase 1 w;;
  glBindBufferBase 2 xout;;
  glUseProgram (prog shader_matmul);;
  let n_gpu := glGetUniformLocation (prog shader_matmul) "n" in
  glUniform1i n_gpu n;;
  let x_offset_gpu := glGetUniformLocation (prog shader_matmul) "x_offset" in
  glUniform1i x_offset_gpu x_offset;;
  let w_offset_gpu := glGetUniformLocation (prog shader_matmul) "w_offset" in
  glUniform1i w_offset_gpu w_offset;;
  glDispatchCompute d 1 1;;
  glMemoryBarrier;;
  GPU_CHECK.

(** *** The forward pass *)

(** The body of [for (int l = 0; l < p->n_layers; l++)] in [transformer]
    is cut into the blocks the source separates by comments; each block
    is the sequence of GL calls of the lines given. *)

(** Lines 1334-1359, "RoPE relative positional encoding": the second
    [glBindBufferBase] also names binding point 2. *)
Definition rope (pos : Z) (p : Config.t) (w : Weights.t F) : GL unit :=
  let s := state in
  let dim := Config.dim p in
  let hidden_dim := Config.hidden_dim p in
  let head_size := Z.quot dim (Config.n_heads p) in
  let freq_cis_idx_delta := Z.quot (pos * head_size) 2 in
  glBindBufferBase 0 (Weights.freq_cis_real w);;
  glBindBufferBase 1 (Weights.freq_cis_imag w);;
  glBindBufferBase 2 (RunState.q s);;
  glBindBufferBase 2 (RunState.k s);;
  glUseProgram (prog shader_positionalEncoding);;
  let uniformVar := glGetUniformLocation (prog shader_positionalEncoding) "pos" in
  glUniform1i uniformVar pos;;
  let uniformVar := glGetUniformLocation (prog shader_positionalEncoding) "dim" in
  glUniform1i uniformVar dim;;
  let uniformVar := glGetUniformLocation (prog shader_positionalEncoding) "hidden_dim" in
  glUniform1i uniformVar hidden_dim;;
  let uniformVar :=
    glGetUniformLocation (prog shader_positionalEncoding) "freq_cis_idx_delta" in
  glUniform1i uniformVar freq_cis_idx_delta;;
  let uniformVar := glGetUniformLocation (prog shader_positionalEncoding) "head_size" in
  glUniform1i uniformVar head_size;;
  glDispatchCompute (Z.quot dim 2) 1 1;;
  glMemoryBarrier;;
  GPU_CHECK.

(** Lines 1361-1366, "save key,value at this time step (pos) to our kv
    cache".  The offsets are [int]s, the product with [sizeof(float)]
    is taken in [size_t]; the buffer names are passed where
    [glCopyBufferSubData] takes its two targets. *)
Definition save_kv (pos : Z) (p : Config.t) (l : Z) : GL unit :=
  let s := state in
  let dim := Config.dim p in
  let loff := Int.s32 (l * Config.seq_len p * dim) in
  let key_offset :=
    Int.s32 (Int.u64 (sizeof_float * Int.u64 (Int.s32 (loff + pos * dim)))) in
  let value_offset :=
    Int.s32 (Int.u64 (sizeof_float * Int.u64 (Int.s32 (loff + pos * dim)))) in
  glCopyBufferSubData (RunState.k s) (RunState.key_cache s) 0 key_offset
    (Int.u64 (Int.u64 dim * sizeof_float));;
  glCopyBufferSubData (RunState.v s) (RunState.value_cache s) 0 value_offset
    (Int.u64 (Int.u64 dim * sizeof_float)).

(** Lines 1370-1393, the attention scores: the dispatch has
    [(n_heads, head_size, 1)] work groups. *)
Definition attention_scores (pos : Z) (p : Config.t) (l : Z) : GL unit :=
  let s := state in
  let dim := Config.dim p in
  let head_size := Z.quot dim (Config.n_heads p) in
  let sh := shader_transformer_get_query_vector in
  glBindBufferBase 0 (RunState.q s);;
  glBindBufferBase 1 (RunState.key_cache s);;
  glBindBufferBase 2 (RunState.att s);;
  glUseProgram (prog sh);;
  let uniformVar := glGetUniformLocation (prog sh) "seq_len" in
  glUniform1i uniformVar (Config.seq_len p);;
  let uniformVar := glGetUniformLocation (prog sh) "pos" in
  glUniform1i uniformVar pos;;
  let uniformVar := glGetUniformLocation (prog sh) "head_size" in
  glUniform1i uniformVar head_size;;
  let uniformVar := glGetUniformLocation (prog sh) "dim" in
  glUniform1i uniformVar dim;;
  let uniformVar := glGetUniformLocation (prog sh) "layer_idx" in
  glUniform1i uniformVar l;;
  glDispatchCompute (Config.n_heads p) head_size 1;;
  glMemoryBarrier;;
  GPU_CHECK.

(** Lines 1398-1421, "weighted sum of the values": the products. *)
Definition build_attMat (pos : Z) (p : Config.t) (l : Z) : GL unit :=
  let s := state in
  let dim := Config.dim p in
  let head_size := Z.quot dim (Config.n_heads p) in
  let sh := shader_transformer_build_attMat in
  glBindBufferBase 0 (RunState.value_cache s);;
  glBindBufferBase 1 (RunState.att s);;
  glBindBufferBase 2 (RunState.mulBuffer_4 s);;
  glUseProgram (prog sh);;
  let uniformVar := glGetUniformLocation (prog sh) "seq_len" in
  glUniform1i uniformVar (Config.seq_len p);;
  let uniformVar := glGetUniformLocation (prog sh) "pos" in
  glUniform1i uniformVar pos;;
  let uniformVar := glGetUniformLocation (prog sh) "head_size" in
  glUniform1i uniformVar head_size;;
  let uniformVar := glGetUniformLocation (prog sh) "dim" in
  glUniform1i uniformVar dim;;
  let uniformVar := glGetUniformLocation (prog sh) "layer_idx" in
  glUniform1i uniformVar l;;
  glDispatchCompute (Config.n_heads p) head_size (pos + 1);;
  glMemoryBarrier;;
  GPU_CHECK.

(** Lines 1439-1446, "F.silu ... elementwise multiply with w3(x)". *)
Definition silu_and_mulW3 (p : Config.t) : GL unit :=
  let s := state in
  glBindBufferBase 0 (RunState.hb s);;
  glBindBufferBase 1 (RunState.hb2 s);;
  glUseProgram (prog shader_transformer_silu_and_mulW3);;
  glDispatchCompute (Config.hidden_dim p) 1 1;;
  glMemoryBarrier;;
  GPU_CHECK.

(** One iteration of [for (int l = 0; l < p->n_layers; l++)]. *)
Definition transformer_layer (pos : Z) (p : Config.t) (w : Weights.t F)
    (l : Z) : GL unit :=
  let s := state in
  let x := RunState.x s in
  let dim := Config.dim p in
  let hidden_dim := Config.hidden_dim p in
  let head_size := Z.quot dim (Config.n_heads p) in
  (* attention rmsnorm *)
  rmsnorm (RunState.xb s) x (Weights.rms_att_weight w) dim (l * dim);;
  (* qkv matmuls for this position *)
  matmul (RunState.q s) (RunState.xb s) (Weights.wq w) dim dim 0 (l * dim * dim);;
  matmul (RunState.k s) (RunState.xb s) (Weights.wk w) dim dim 0 (l * dim * dim);;
  matmul (RunState.v s) (RunState.xb s) (Weights.wv w) dim dim 0 (l * dim * dim);;
  rope pos p w;;
  save_kv pos p l;;
  (* multihead attention *)
  attention_scores pos p l;;
  (* softmax the scores to get attention weights *)
  transformer_softmax (RunState.att s) (pos + 1) (Config.seq_len p) (Config.n_heads p);;
  build_attMat pos p l;;
  transformer_sum (RunState.xb s) (RunState.mulBuffer_4 s) (pos + 1) head_size
    (Config.n_heads p);;
  (* final matmul to get the output of the attention *)
  matmul (RunState.xb2 s) (RunState.xb s) (Weights.wo w) dim dim 0 (l * dim * dim);;
  (* residual connection back into x *)
  accum x (RunState.xb2 s) dim;;
  (* ffn rmsnorm *)
  rmsnorm (RunState.xb s) x (Weights.rms_ffn_weight w) dim (l * dim);;
  matmul (RunState.hb s) (RunState.xb s) (Weights.w1 w) dim hidden_dim 0
    (l * dim * hidden_dim);;
  matmul (RunState.hb2 s) (RunState.xb s) (Weights.w3 w) dim hidden_dim 0
    (l * dim * hidden_dim);;
  silu_and_mulW3 p;;
  (* final matmul to get the output of the ffn *)
  matmul (RunState.xb s) (RunState.hb s) (Weights.w2 w) hidden_dim dim 0
    (l * dim * hidden_dim);;
  (* residual connection *)
  accum x (RunState.xb s) dim.

Definition transformer (token pos : Z) (p : Config.t) (w : Weights.t F)
  : GL unit :=
  let s := state in
  let x := RunState.x s in
  let dim := Config.dim p in
  (* copy the token embedding into x *)
  content_row ←
    host_floats (Weights.token_embedding_table w) (Int.s32 (token * dim)) dim;
  glBindBuffer x;;
  glBufferSubData 0 (dim * sizeof_float) content_row;;
  (* forward all the layers *)
  for_range 0 (Config.n_layers p) (transformer_layer pos p w);;
  (* final rmsnorm *)
  rmsnorm x x (Weights.rms_final_weight w) dim 0;;
  (* classifier into logits *)
  matmul (RunState.logits s) x (Weights.wcls w) (Config.dim p)
    (Config.vocab_size p) 0 0.

(** *** Sampling *)

(** The local variables of the loop of [argmax]. *)
Record ArgReduce : Set := mkArgReduce {
  a_currentStepSize : Z;
  a_nextStepSize : Z;
  currentBuffer_v : GLuint;
  currentBuffer_i : GLuint;
  nextBuffer_v : GLuint;
  nextBuffer_i : GLuint
}.

(** The pass of [argmax]: the program put in use is
    [shader_rmsnorm_squares_and_sum], the uniform locations are those
    of [shader_argmax]. *)
Definition argmax_pass (in_v : GLuint) (a : ArgReduce) : GL unit :=
  glBindBufferBase 0 in_v;;
  glBindBufferBase 1 (currentBuffer_i a);;
  glBindBufferBase 2 (nextBuffer_v a);;
  glBindBufferBase 3 (nextBuffer_i a);;
  glUseProgram (prog shader_rmsnorm_squares_and_sum);;
  let uniformVar := glGetUniformLocation (prog shader_argmax) "insize" in
  glUniform1i uniformVar (a_currentStepSize a);;
  let uniformVar := glGetUniformLocation (prog shader_argmax) "shape0" in
  glUniform1i uniformVar (a_nextStepSize a);;
  glDispatchCompute (a_nextStepSize a) 1 1;;
  glMemoryBarrier;;
  GPU_CHECK.

Definition argmax_step (a : ArgReduce) : GL ArgReduce :=
  let a := {| a_currentStepSize := a_nextStepSize a;
              a_nextStepSize := Int.halve (a_nextStepSize a);
              currentBuffer_v := nextBuffer_v a;
              currentBuffer_i := nextBuffer_i a;
              nextBuffer_v := currentBuffer_v a;
              nextBuffer_i := currentBuffer_i a |} in
  argmax_pass (currentBuffer_v a) a;;
  mret a.

Definition argmax (probabilities : GLuint) (n : Z) : GL Z :=
  let a := {| a_currentStepSize := n;
              a_nextStepSize := Int.halve n;
              currentBuffer_v := RunState.mulBuffer_1 state;
              currentBuffer_i := RunState.mulBuffer_2 state;
              nextBuffer_v := RunState.mulBuffer_3 state;
              nextBuffer_i := RunState.mulBuffer_4 state |} in
  (* init index *)
  glBindBufferBase 0 probabilities;;
  glBindBufferBase 1 (currentBuffer_i a);;
  glUseProgram (prog shader_argmax_set_index);;
  let uniformVar := glGetUniformLocation (prog shader_argmax_set_index) "insize" in
  glUniform1i uniformVar n;;
  glDispatchCompute n 1 1;;
  glMemoryBarrier;;
  GPU_CHECK;;
  (* first step *)
  argmax_pass probabilities a;;
  a ← while_loop fuel (fun a => negb (a_nextStepSize a =? 1)) argmax_step a;
  glBindBuffer (nextBuffer_i a);;
  pOut ← glMapBufferRange 0 sizeof_float;
  GPU_CHECK;;
  let res := match pOut with
             | Some (v :: _) => to_int ops v
             | _ => -1
             end in
  glUnmapBuffer;;
  mret res.

(** [random_f32]: [(random_u32() >> 8) / 16777216.0f].  The numerator
    is below 2^24, so on 32-bit floats the conversion and the division
    by 2^24 are exact. *)
Definition random_f32 (rng_seed : Z) : Z * F :=
  let '(rng_seed, u) := Rng.random_u32 rng_seed in
  (rng_seed, of_int ops (Z.shiftr u 8) /. fconst ops 16777216).

(** [for (i = 0; i < n; i++) { cdf += p[i]; if (r < cdf) { res = i; break; } }]
    on the entries from [i] on. *)
Fixpoint sample_scan (p : list F) (i : Z) (r cdf : F) (res : Z) : Z :=
  match p with
  | [] => res
  | pi :: p' =>
      let cdf := cdf +. pi in
      if fltb ops r cdf then i else sample_scan p' (i + 1) r cdf res
  end.

(** The host part of [sample], on the mapped probabilities. *)
Definition sample_host (probabilities : list F) (n : Z) (rng_seed : Z) : Z * Z :=
  let res := n - 1 in
  let '(rng_seed, r) := random_f32 rng_seed in
  (sample_scan (take (Z.to_nat n) probabilities) 0 r (fconst ops 0) res, rng_seed).

(** [sample]: the result and the new [rng_seed]. *)
Definition sample (probabilities_gpu : GLuint) (n : Z) (rng_seed : Z)
  : GL (Z * Z) :=
  glBindBuffer probabilities_gpu;;
  probabilities ← glMapBufferRange 0 (n * sizeof_float);
  GPU_CHECK;;
  let res := n - 1 in
  let '(res, rng_seed) :=
    match probabilities with
    | Some p => sample_host p n rng_seed
    | None => (res, rng_seed)
    end in
  glUnmapBuffer;;
  mret (res, rng_seed).

Definition compare (a_ b_ : ProbIndex F) : Z :=
  if fltb ops (prob b_) (prob a_) then -1
  else if fltb ops (prob a_) (prob b_) then 1
  else 0.

(** [qsort(probindex, n, sizeof(ProbIndex), compare)]; the order of
    entries that compare equal is not specified by the C library, the
    model sorts by insertion. *)
Fixpoint qsort_insert (e : ProbIndex F) (l : list (ProbIndex F))
  : list (ProbIndex F) :=
  match l with
  | [] => [e]
  | e' :: l' => if compare e e' <? 0 then e :: l else e' :: qsort_insert e l'
  end.

Definition qsort (l : list (ProbIndex F)) : list (ProbIndex F) :=
  foldr qsort_insert [] l.

(** [probindex[i].index = i; probindex[i].prob = probabilities[i];] *)
Definition fill_probindex (probabilities : list F) : list (ProbIndex F) :=
  imap (fun i p => mkProbIndex p (Z.of_nat i)) probabilities.

(** The truncation loop: the final [cumulative_prob] and [last_idx]. *)
Fixpoint truncate_scan (l : list (ProbIndex F)) (i : Z) (topp : F)
    (cumulative_prob : F) (last_idx : Z) : F * Z :=
  match l with
  | [] => (cumulative_prob, last_idx)
  | e :: l' =>
      let cumulative_prob := cumulative_prob +. prob e in
      if fltb ops topp cumulative_prob then (cumulative_prob, i)
      else truncate_scan l' (i + 1) topp cumulative_prob last_idx
  end.

(** The sampling loop over [probindex[0..last_idx]]. *)
Fixpoint topp_scan (l : list (ProbIndex F)) (r cdf : F) (res : Z) : Z :=
  match l with
  | [] => res
  | e :: l' =>
      let cdf := cdf +. prob e in
      if fltb ops r cdf then index e else topp_scan l' r cdf res
  end.

Definition probindex_at (probindex : list (ProbIndex F)) (i : Z) : ProbIndex F :=
  default (mkProbIndex (fconst ops 0) 0) (probindex !! Z.to_nat i).

(** The host part of [sample_topp], on the mapped probabilities: the
    assignment after the sampling loop overwrites [res]. *)
Definition sample_topp_host (probabilities : list F) (n : Z) (topp : F)
    (rng_seed : Z) : Z * Z :=
  let res := n - 1 in
  let probindex := fill_probindex (take (Z.to_nat n) probabilities) in
  let probindex := qsort probindex in
  (* truncate the list where cumulative probability exceeds topp *)
  let '(cumulative_prob, last_idx) :=
    truncate_scan probindex 0 topp (fconst ops 0) 0 in
  (* sample from the truncated list *)
  let '(rng_seed, r0) := random_f32 rng_seed in
  let r := r0 *. cumulative_prob in
  let res :=
    topp_scan (take (Z.to_nat (last_idx + 1)) probindex) r (fconst ops 0) res in
  let res := index (probindex_at probindex last_idx) in
  (res, rng_seed).

(** [sample_topp]: the result and the new [rng_seed]. *)
Definition sample_topp (probabilities_gpu : GLuint) (n : Z) (topp : F)
    (rng_seed : Z) : GL (Z * Z) :=
  glBindBuffer probabilities_gpu;;
  probabilities ← glMapBufferRange 0 (n * sizeof_float);
  GPU_CHECK;;
  let res := n - 1 in
  let '(res, rng_seed) :=
    match probabilities with
    | Some p => sample_topp_host p n topp rng_seed
    | None => (res, rng_seed)
    end in
  glUnmapBuffer;;
  mret (res, rng_seed).

(** *** The temperature path of [main] *)

(** Lines 1893-1903 of [main]: "apply the temperature to the logits",
    then "apply softmax to the logits"; the call passes 0 rows. *)
Definition apply_temperature (config : Config.t) (temperature : F) : GL unit :=
  glBindBufferBase 0 (RunState.logits state);;
  glUseProgram (prog shader_temperature);;
  let temperature_gpu := glGetUniformLocation (prog shader_temperature) "temperature" in
  glUniform1f temperature_gpu temperature;;
  glDispatchCompute (Config.vocab_size config) 1 1;;
  glMemoryBarrier;;
  GPU_CHECK;;
  softmax (RunState.logits state) (Config.vocab_size config) 0.

End Host.

(** *** Allocation of the run state *)

(** [s->mulBuffer_len = p->dim * p->seq_len * sizeof(float);
     if (p->vocab_size > s->mulBuffer_len) s->mulBuffer_len = p->vocab_size;]
    [mulBuffer_len] is a [GLuint], and so is the comparison. *)
Definition mulBuffer_len_of (p : Config.t) : GLuint :=
  let mulBuffer_len := Int.u32 (Config.dim p * Config.seq_len p * sizeof_float) in
  if Int.u32 (Config.vocab_size p) >? mulBuffer_len
  then Int.u32 (Config.vocab_size p) else mulBuffer_len.

Definition malloc_run_state (p : Config.t) : GL RunState.t :=
  let dim := Config.dim p in
  let x_len := Int.u32 (sizeof_float * dim) in
  x ← create_GPU_buffer x_len None;
  let xb_len := Int.u32 (sizeof_float * dim) in
  xb ← create_GPU_buffer xb_len None;
  let xb2_len := Int.u32 (sizeof_float * dim) in
  xb2 ← create_GPU_buffer xb2_len None;
  let hb_len := Int.u32 (sizeof_float * Config.hidden_dim p) in
  hb ← create_GPU_buffer hb_len None;
  let hb2_len := Int.u32 (sizeof_float * Config.hidden_dim p) in
  hb2 ← create_GPU_buffer hb2_len None;
  let q_len := Int.u32 (sizeof_float * dim) in
  q ← create_GPU_buffer q_len None;
  let k_len := Int.u32 (sizeof_float * dim) in
  k ← create_GPU_buffer k_len None;
  let v_len := Int.u32 (sizeof_float * dim) in
  v ← create_GPU_buffer v_len None;
  let att_len := Int.u32 (sizeof_float * Config.n_heads p * Config.seq_len p) in
  att ← create_GPU_buffer att_len None;
  let logits_len := Int.u32 (sizeof_float * Config.vocab_size p) in
  logits ← create_GPU_buffer logits_len None;
  let key_cache_len :=
    Int.u32 (sizeof_float * Config.n_layers p * Config.seq_len p * dim) in
  key_cache ← create_GPU_buffer key_cache_len None;
  let value_cache_len :=
    Int.u32 (sizeof_float * Config.n_layers p * Config.seq_len p * dim) in
  value_cache ← create_GPU_buffer value_cache_len None;
  (* max(config.seq_len , config.vocab_size , config.dim) *)
  let mulBuffer_len := mulBuffer_len_of p in
  mulBuffer_1 ← create_GPU_buffer mulBuffer_len None;
  mulBuffer_2 ← create_GPU_buffer mulBuffer_len None;
  mulBuffer_3 ← create_GPU_buffer mulBuffer_len None;
  mulBuffer_4 ← create_GPU_buffer mulBuffer_len None;
  mret {| RunState.x := x; RunState.x_len := x_len;
          RunState.xb := xb; RunState.xb_len := xb_len;
          RunState.xb2 := xb2; RunState.xb2_len := xb2_len;
          RunState.hb := hb; RunState.hb_len := hb_len;
          RunState.hb2 := hb2; RunState.hb2_len := hb2_len;
          RunState.q := q; RunState.q_len := q_len;
          RunState.k := k; RunState.k_len := k_len;
          RunState.v := v; RunState.v_len := v_len;
          RunState.att := att; RunState.att_len := att_len;
          RunState.logits := logits; RunState.logits_len := logits_len;
          RunState.key_cache := key_cache;
          RunState.key_cache_len := key_cache_len;
          RunState.value_cache := value_cache;
          RunState.value_cache_len := value_cache_len;
          RunState.mulBuffer_1 := mulBuffer_1;
          RunState.mulBuffer_2 := mulBuffer_2;
          RunState.mulBuffer_3 := mulBuffer_3;
          RunState.mulBuffer_4 := mulBuffer_4;
          RunState.mulBuffer_len := mulBuffer_len |}.

(** *** Upload of the weights *)

Definition upload_weights (local : LocalWeights.t F) (p : Config.t)
  : GL (Weights.t F) :=
  let dim := Config.dim p in
  let n_layers := Config.n_layers p in
  let hidden_dim := Config.hidden_dim p in
  rms_att_weight ← create_GPU_buffer (Int.u32 (sizeof_float * n_layers * dim))
    (Some (LocalWeights.rms_att_weight local));
  wq ← create_GPU_buffer (Int.u32 (sizeof_float * n_layers * dim * dim))
    (Some (LocalWeights.wq local));
  wk ← create_GPU_buffer (Int.u32 (sizeof_float * n_layers * dim * dim))
    (Some (LocalWeights.wk local));
  wv ← create_GPU_buffer (Int.u32 (sizeof_float * n_layers * dim * dim))
    (Some (LocalWeights.wv local));
  wo ← create_GPU_buffer (Int.u32 (sizeof_float * n_layers * dim * dim))
    (Some (LocalWeights.wo local));
  rms_ffn_weight ← create_GPU_buffer (Int.u32 (sizeof_float * n_layers * dim))
    (Some (LocalWeights.rms_ffn_weight local));
  w1 ← create_GPU_buffer (Int.u32 (sizeof_float * n_layers * dim * hidden_dim))
    (Some (LocalWeights.w1 local));
  w2 ← create_GPU_buffer (Int.u32 (sizeof_float * n_layers * hidden_dim * dim))
    (Some (LocalWeights.w2 local));
  w3 ← create_GPU_buffer (Int.u32 (sizeof_float * n_layers * dim * hidden_dim))
    (Some (LocalWeights.w3 local));
  rms_final_weight ← create_GPU_buffer (Int.u32 (sizeof_float * dim))
    (Some (LocalWeights.rms_final_weight local));
  let head_size := Z.quot dim (Config.n_heads p) in
  freq_cis_real ←
    create_GPU_buffer (Int.u32 (sizeof_float * Config.seq_len p * head_size / 2))
      (Some (LocalWeights.freq_cis_real local));
  freq_cis_imag ←
    create_GPU_buffer (Int.u32 (sizeof_float * Config.seq_len p * head_size / 2))
      (Some (LocalWeights.freq_cis_imag local));
  wcls ← create_GPU_buffer (Int.u32 (sizeof_float * dim * Config.vocab_size p))
    (Some (LocalWeights.wcls local));
  mret {| Weights.token_embedding_table := LocalWeights.token_embedding_table local;
          Weights.rms_att_weight := rms_att_weight;
          Weights.rms_ffn_weight := rms_ffn_weight;
          Weights.wq := wq; Weights.wk := wk; Weights.wv := wv; Weights.wo := wo;
          Weights.w1 := w1; Weights.w2 := w2; Weights.w3 := w3;
          Weights.rms_final_weight := rms_final_weight;
          Weights.freq_cis_real := freq_cis_real;
          Weights.freq_cis_imag := freq_cis_imag;
          Weights.wcls := wcls |}.

(** The GL state of a fresh context; names start at 1. *)
Definition gl_init : State :=
  mkGL ∅ 1 0 (fun _ => 0) None (fun _ _ => 0) (fun _ _ => fconst ops 0) [].

(** *** Small runs

    The host writes a buffer with [glBufferSubData] and reads it back
    through [glMapBufferRange]; the runs below start from a fresh
    context, allocate the run state and execute one block. *)

Definition upload (name : GLuint) (data : list F) : GL unit :=
  glBindBuffer name;;
  glBufferSubData 0 (sizeof_float * Z.of_nat (length data)) data.

Definition download (name : GLuint) (n : Z) : GL (option (list F)) :=
  glBindBuffer name;;
  glMapBufferRange 0 (n * sizeof_float).

(** The result of a run from the fresh context. *)
Definition from_fresh {A} (m : GL A) : option A := fst <$> m gl_init.

(** Attention scores at position 1 with one head of size 1 and two
    positions. *)
Definition scores_config : Config.t := Config.mk 1 1 1 1 1 1 2.

Definition scores_run (q0 k0 k1 a0 a1 : F) : option (option (list F)) :=
  from_fresh
    (s ← malloc_run_state scores_config;
     upload (RunState.q s) [q0];;
     upload (RunState.key_cache s) [k0; k1];;
     upload (RunState.att s) [a0; a1];;
     attention_scores compile_GPUProgram s 1 scores_config 0;;
     download (RunState.att s) 2).

(** One layer up to RoPE at position 0, one head of size 2; before the
    RoPE dispatch the buffers [q], [k] and [xb] are given known
    contents. *)
Definition rope_config : Config.t := Config.mk 2 1 1 1 1 1 1.

Definition rope_weights (fcr fci : F) : LocalWeights.t F :=
  let z := fconst ops 0 in
  {| LocalWeights.token_embedding_table := [z; z];
     LocalWeights.rms_att_weight := [z; z];
     LocalWeights.rms_ffn_weight := [z; z];
     LocalWeights.wq := [z; z; z; z];
     LocalWeights.wk := [z; z; z; z];
     LocalWeights.wv := [z; z; z; z];
     LocalWeights.wo := [z; z; z; z];
     LocalWeights.w1 := [z; z];
     LocalWeights.w2 := [z; z];
     LocalWeights.w3 := [z; z];
     LocalWeights.rms_final_weight := [z; z];
     LocalWeights.freq_cis_real := [fcr];
     LocalWeights.freq_cis_imag := [fci];
     LocalWeights.wcls := [z; z] |}.

Definition rope_run (fuel : nat) (fcr fci q0 q1 k0 k1 x0 x1 : F)
  : option (option (list F) * option (list F) * option (list F)) :=
  let p := rope_config in
  let dim := Config.dim p in
  from_fresh
    (w ← upload_weights (rope_weights fcr fci) p;
     s ← malloc_run_state p;
     rmsnorm fuel compile_GPUProgram s (RunState.xb s) (RunState.x s)
       (Weights.rms_att_weight w) dim 0;;
     matmul compile_GPUProgram (RunState.q s) (RunState.xb s) (Weights.wq w) dim dim 0 0;;
     matmul compile_GPUProgram (RunState.k s) (RunState.xb s) (Weights.wk w) dim dim 0 0;;
     matmul compile_GPUProgram (RunState.v s) (RunState.xb s) (Weights.wv w) dim dim 0 0;;
     upload (RunState.q s) [q0; q1];;
     upload (RunState.k s) [k0; k1];;
     upload (RunState.xb s) [x0; x1];;
     rope compile_GPUProgram s 0 p w;;
     q' ← download (RunState.q s) 2;
     k' ← download (RunState.k s) 2;
     xb' ← download (RunState.xb s) 2;
     mret (q', k', xb')).

(** SiLU and multiply on one hidden unit. *)
Definition silu_config : Config.t := Config.mk 1 1 1 1 1 1 1.

Definition silu_run (h h2 : F) : option (option (list F) * option (list F)) :=
  from_fresh
    (s ← malloc_run_state silu_config;
     upload (RunState.hb s) [h];;
     upload (RunState.hb2 s) [h2];;
     silu_and_mulW3 compile_GPUProgram s silu_config;;
     hb' ← download (RunState.hb s) 1;
     hb2' ← download (RunState.hb2 s) 1;
     mret (hb', hb2')).

(** Temperature and softmax on two logits. *)
Definition temperature_config : Config.t := Config.mk 1 1 1 1 1 2 1.

Definition temperature_run (fuel : nat) (l0 l1 temperature : F)
  : option (option (list F)) :=
  from_fresh
    (s ← malloc_run_state temperature_config;
     upload (RunState.logits s) [l0; l1];;
     apply_temperature fuel compile_GPUProgram s temperature_config temperature;;
     download (RunState.logits s) 2).

(** Greedy sampling of three logits after the final [rmsnorm] of a
    forward pass of width 2. *)
Definition argmax_config : Config.t := Config.mk 2 1 1 1 1 3 2.

Definition argmax_run (fuel : nat) (l0 l1 l2 : F) : option Z :=
  let p := argmax_config in
  from_fresh
    (w ← upload_weights (rope_weights (fconst ops 0) (fconst ops 0)) p;
     s ← malloc_run_state p;
     rmsnorm fuel compile_GPUProgram s (RunState.x s) (RunState.x s)
       (Weights.rms_final_weight w) (Config.dim p) 0;;
     upload (RunState.logits s) [l0; l1; l2];;
     argmax fuel compile_GPUProgram s (RunState.logits s) (Config.vocab_size p)).

End GL.

Arguments GL F A : clear implicits.

(** ** Vocabulary of the statements *)

(** What a log entry tells about the shape of a dispatch: the program, the
    work group counts and the [int] uniforms. *)
Definition Shape : Set := Shader * (Z * Z * Z) * list (string * Z).

Definition shape (d : Dispatch) : Shape := (d_program d, d_groups d, d_uniforms d).

(** [dispatched st st' e]: from [st] to [st'] the dispatches of shapes [e]
    were issued, in this order. *)
Definition dispatched {F} (st st' : GLState F) (e : list Shape) : Prop :=
  exists l, gl_log st' = gl_log st ++ l /\ shape <$> l = e.

(** The step sizes of the specification: [n, ⌈n/2⌉, ⌈⌈n/2⌉/2⌉, ...]. *)
Definition ceil_half (c : Z) : Z := (c + 1) / 2.

Definition step_seq (n : Z) (i : nat) : Z := Nat.iter i ceil_half n.

(** A reduction pass from [cur] to [next] values per row, on [rows] rows. *)
Definition pass_shape (sh : Shader) (rows : Z) (i : nat) (n : Z) : Shape :=
  (sh, (step_seq n (S i), rows, 1),
   [("insize", step_seq n i); ("shape0", step_seq n (S i))]).

(** The passes number [from], ..., [from + len - 1]. *)
Definition passes (sh : Shader) (rows : Z) (n : Z) (from len : nat) : list Shape :=
  (fun i => pass_shape sh rows i n) <$> seq from len.

(** [effect W st st']: the data stores of the buffers outside [W] are the
    same, and binding point 3 is the same or holds a buffer of [W]. *)
Definition effect {F} (W : list GLuint) (st st' : GLState F) : Prop :=
  (forall h, h ∉ W -> gl_buffers st' !! h = gl_buffers st !! h) /\
  (gl_ssbo st' 3%nat = gl_ssbo st 3%nat \/ gl_ssbo st' 3%nat ∈ W).

(** [only_buffers W st st']: [st'] differs from [st] at most in the data
    stores of the buffers named in [W]. *)
Definition only_buffers {F} (W : list GLuint) (st st' : GLState F) : Prop :=
  gl_next_name st' = gl_next_name st /\
  gl_bound st' = gl_bound st /\
  gl_ssbo st' = gl_ssbo st /\
  gl_program st' = gl_program st /\
  gl_uniform_i st' = gl_uniform_i st /\
  gl_uniform_f st' = gl_uniform_f st /\
  gl_log st' = gl_log st /\
  forall h, h ∉ W -> gl_buffers st' !! h = gl_buffers st !! h.

(** The last program of [rmsnorm]: in place when [o == x]. *)
Definition normalize_shader (o x : GLuint) : Shader :=
  if decide (o = x) then shader_rmsnorm_normalize_and_scale_currentPos
  else shader_rmsnorm_normalize_and_scale.

(** The dispatches of [rmsnorm] on [n] values when the reduction takes [k]
    passes. *)
Definition rmsnorm_shapes (o x : GLuint) (n weight_offset : Z) (k : nat)
  : list Shape :=
  [(shader_rmsnorm_squares_and_sum, (step_seq n 1, 1, 1), [("insize", n)])]
  ++ passes shader_sum 1 n 1 (k - 1)
  ++ [(normalize_shader o x, (n, 1, 1),
       [("size", n); ("weight_offset", weight_offset)])].

(** The dispatches of [softmax] on [size_y] rows of [n] values. *)
Definition softmax_shapes (n size_y : Z) (k : nat) : list Shape :=
  passes shader_max size_y n 0 k
  ++ [pass_shape shader_softmax_exp_and_sum size_y 0 n]
  ++ passes shader_sum size_y n 1 (k - 1)
  ++ [(shader_softmax_normalize, (n, size_y, 1), [("shape0", n)])].

(** The binding point through which a reducing program writes. *)
Definition out_binding (sh : Shader) : nat :=
  match sh with
  | shader_softmax_exp_and_sum => 2
  | _ => 1
  end.

(** The indices of a cache that the forward pass at position [pos] writes:
    for each layer the [dim] floats from [l*seq_len*dim + pos*dim] on. *)
Definition in_slab (p : Config.t) (pos : Z) (i : nat) : Prop :=
  exists l, 0 <= l < Config.n_layers p /\
    l * Config.seq_len p * Config.dim p + pos * Config.dim p <= Z.of_nat i
      < l * Config.seq_len p * Config.dim p + pos * Config.dim p + Config.dim p.

(** [kv_frame s W slab st st']: outside [slab] the key cache and the value
    cache hold the same floats in [st'] as in [st]. *)
Definition kv_frame {F} (s : RunState.t) (W : list GLuint) (slab : nat -> Prop)
    (st st' : GLState F) : Prop :=
  (forall i, ~ slab i ->
     data_of st' (RunState.key_cache s) !! i = data_of st (RunState.key_cache s) !! i) /\
  (forall i, ~ slab i ->
     data_of st' (RunState.value_cache s) !! i
     = data_of st (RunState.value_cache s) !! i) /\
  (gl_ssbo st' 3%nat = gl_ssbo st 3%nat \/ gl_ssbo st' 3%nat ∈ W).

(** Ping-pong buffers of a reduction on [size_y] rows are in [W]. *)
Definition pingpong (W : list GLuint) (size_y : Z) (r : Reduce) : Prop :=
  size_y = 0 \/ (currentBuffer r ∈ W /\ nextBuffer r ∈ W).

(** The index in a cache of the float [j] of position [t] in layer [l]. *)
Definition cache_index (p : Config.t) (l t j : Z) : nat :=
  Z.to_nat (l * Config.seq_len p * Config.dim p + t * Config.dim p + j).

(** The forward pass computes its offsets and sizes in [int] and the
    model computes them in [Z]; the two agree for a configuration in which
    no product leaves the range of [int]. *)
Definition config_in_int (p : Config.t) : Prop :=
  0 <= Config.hidden_dim p /\ 0 <= Config.n_layers p /\
  Config.seq_len p * Config.dim p <= Int.int_max /\
  Config.vocab_size p * Config.dim p <= Int.int_max /\
  sizeof_float * (Config.n_layers p * Config.seq_len p * Config.dim p) <= Int.int_max /\
  Config.n_layers p * Config.dim p * Config.dim p <= Int.int_max /\
  Config.n_layers p * Config.dim p * Config.hidden_dim p <= Int.int_max.

(** The two caches hold the same floats at index [i] in [st] and [st']. *)
Definition same_kv {F} (s : RunState.t) (st st' : GLState F) (i : nat) : Prop :=
  data_of st' (RunState.key_cache s) !! i = data_of st (RunState.key_cache s) !! i /\
  data_of st' (RunState.value_cache s) !! i = data_of st (RunState.value_cache s) !! i.

(** The run state [malloc_run_state] returns when [first] is the next
    unused buffer name. *)
Definition fresh_run_state (first : GLuint) (p : Config.t) : RunState.t :=
  let dim := Config.dim p in
  let kv_len := Int.u32 (sizeof_float * Config.n_layers p * Config.seq_len p * dim) in
  {| RunState.x := first; RunState.x_len := Int.u32 (sizeof_float * dim);
     RunState.xb := first + 1; RunState.xb_len := Int.u32 (sizeof_float * dim);
     RunState.xb2 := first + 2; RunState.xb2_len := Int.u32 (sizeof_float * dim);
     RunState.hb := first + 3;
     RunState.hb_len := Int.u32 (sizeof_float * Config.hidden_dim p);
     RunState.hb2 := first + 4;
     RunState.hb2_len := Int.u32 (sizeof_float * Config.hidden_dim p);
     RunState.q := first + 5; RunState.q_len := Int.u32 (sizeof_float * dim);
     RunState.k := first + 6; RunState.k_len := Int.u32 (sizeof_float * dim);
     RunState.v := first + 7; RunState.v_len := Int.u32 (sizeof_float * dim);
     RunState.att := first + 8;
     RunState.att_len := Int.u32 (sizeof_float * Config.n_heads p * Config.seq_len p);
     RunState.logits := first + 9;
     RunState.logits_len := Int.u32 (sizeof_float * Config.vocab_size p);
     RunState.key_cache := first + 10; RunState.key_cache_len := kv_len;
     RunState.value_cache := first + 11; RunState.value_cache_len := kv_len;
     RunState.mulBuffer_1 := first + 12;
     RunState.mulBuffer_2 := first + 13;
     RunState.mulBuffer_3 := first + 14;
     RunState.mulBuffer_4 := first + 15;
     RunState.mulBuffer_len := mulBuffer_len_of p |}.

(** The four scratch buffers of a run state. *)
Definition mulBuffers (s : RunState.t) : list GLuint :=
  [RunState.mulBuffer_1 s; RunState.mulBuffer_2 s; RunState.mulBuffer_3 s;
   RunState.mulBuffer_4 s].

(** The byte size of a buffer object, if it has a data store. *)
Definition size_of {F} (st : GLState F) (name : GLuint) : option Z :=
  buf_size <$> gl_buffers st !! name.

(** ** The values the statements are compared with

    The formulas of the specification over the reals, for the comparison
    with the runs of the code under [R_ops]. *)

Definition sum_R (l : list R) : R := foldr Rplus 0%R l.

Definition nth_R (l : list R) (i : Z) : R := nth (Z.to_nat i) l 0%R.

(** The score of head [h] against position [t] in layer [l]. *)
Definition claimed_score (p : Config.t) (q key_cache : list R) (l h t : Z) : R :=
  let head_size := Config.dim p / Config.n_heads p in
  (sum_R ((fun i =>
             nth_R q (h * head_size + i) *
             nth_R key_cache
               (l * Config.seq_len p * Config.dim p + t * Config.dim p
                + h * head_size + i))%R
          <$> seqZ 0 head_size)
   / sqrt (IZR head_size))%R.

(** The rotation of the pair [(q0, q1)] by [(fcr, fci)]. *)
Definition claimed_rotation (fcr fci q0 q1 : R) : list R :=
  [(q0 * fcr - q1 * fci)%R; (q0 * fci + q1 * fcr)%R].

Definition sigma (x : R) : R := (1 / (1 + exp (- x)))%R.

Definition claimed_silu_mul (h h2 : R) : R := ((h * sigma h) * h2)%R.

(** A probability distribution, up to [1e-5] on the sum. *)
Definition is_distribution (l : list R) : Prop :=
  Forall (fun x => (0 <= x)%R) l /\ (Rabs (sum_R l - 1) <= Q2R (1 # 100000))%R.

(** [i] is the index of a maximum of [l]. *)
Definition is_argmax (l : list R) (i : Z) : Prop :=
  0 <= i /\ exists v, l !! Z.to_nat i = Some v /\ Forall (fun x => (x <= v)%R) l.

(** Top-p sampling where the sampling loop decides and
    [probindex[last_idx].index] is the value when the loop finds nothing. *)
Definition claimed_sample_topp {F} (ops : FloatOps F) (probabilities : list F)
    (n : Z) (topp : F) (rng_seed : Z) : Z :=
  let probindex := qsort ops (fill_probindex (take (Z.to_nat n) probabilities)) in
  let '(cumulative_prob, last_idx) :=
    truncate_scan ops probindex 0 topp (fconst ops 0) 0 in
  let '(_, r0) := random_f32 ops rng_seed in
  topp_scan ops (take (Z.to_nat (last_idx + 1)) probindex)
    (fmul ops r0 cumulative_prob) (fconst ops 0)
    (index (probindex_at ops probindex last_idx)).

(** The bytes of [max(dim * seq_len, vocab_size)] floats. *)
Definition claimed_mulBuffer_len (p : Config.t) : Z :=
  Z.max (Config.dim p * Config.seq_len p) (Config.vocab_size p) * sizeof_float.

(** ** Example inputs *)

(** Two positions of width 2, one layer, one head, three tokens. *)
Definition kv_config : Config.t := Config.mk 2 1 1 1 1 3 2.

(** Weights whose buffers follow the run state allocated at name 1. *)
Definition kv_weights : Weights.t R :=
  Weights.mk R [0; 0; 0; 0; 0; 0]%R 17 18 19 20 21 22 23 24 25 26 27 28 29.

(** A context with the sixteen buffers of the run state allocated at name
    1 for [kv_config] and the thirteen buffers of [kv_weights]; the caches
    hold the floats 11 to 14 and 21 to 24. *)
Definition kv_state : GLState R :=
  set_next_name 30 (set_buffers
    (fun _ => list_to_map
       [(1, mkBuffer 8 [1; 2]%R); (2, mkBuffer 8 [0; 0]%R); (3, mkBuffer 8 [0; 0]%R);
        (4, mkBuffer 4 [0]%R); (5, mkBuffer 4 [0]%R); (6, mkBuffer 8 [0; 0]%R);
        (7, mkBuffer 8 [5; 6]%R); (8, mkBuffer 8 [7; 8]%R); (9, mkBuffer 8 [0; 0]%R);
        (10, mkBuffer 12 [1; 2; 3]%R);
        (11, mkBuffer 16 [11; 12; 13; 14]%R); (12, mkBuffer 16 [21; 22; 23; 24]%R);
        (13, mkBuffer 16 [0; 0; 0; 0]%R); (14, mkBuffer 16 [0; 0; 0; 0]%R);
        (15, mkBuffer 16 [0; 0; 0; 0]%R); (16, mkBuffer 16 [0; 0; 0; 0]%R);
        (17, mkBuffer 8 [1; 1]%R); (18, mkBuffer 8 [1; 1]%R);
        (19, mkBuffer 16 [1; 2; 3; 4]%R); (20, mkBuffer 16 [1; 0; 0; 1]%R);
        (21, mkBuffer 16 [1; 0; 0; 1]%R); (22, mkBuffer 16 [1; 0; 0; 1]%R);
        (23, mkBuffer 8 [1; 1]%R); (24, mkBuffer 8 [1; 1]%R); (25, mkBuffer 8 [1; 1]%R);
        (26, mkBuffer 8 [1; 1]%R); (27, mkBuffer 8 [1; 1]%R); (28, mkBuffer 8 [0; 0]%R);
        (29, mkBuffer 24 [1; 0; 0; 1; 1; 1]%R)])
    (gl_init R_ops)).

(** A configuration of the size of a small checkpoint, with a short
    context. *)
Definition short_context_config : Config.t := Config.mk 64 172 5 8 4 32000 16.

(** ** The tokenizer

    C strings are the characters before the terminating NUL; [vocab] is the
    array of [vocab_size] strings read from [tokenizer.bin] and
    [vocab_scores] the array of their scores. *)

(** [str_lookup]: "find the first perfect match for str in vocab, return
    its index or -1 if not found"; the loop from index [i] on. *)
Fixpoint str_lookup_from (i : Z) (str : string) (vocab : list string) : Z :=
  match vocab with
  | [] => -1
  | v :: vocab' =>
      if String.eqb str v then i else str_lookup_from (i + 1) str vocab'
  end.

Definition str_lookup (str : string) (vocab : list string) (vocab_size : Z) : Z :=
  str_lookup_from 0 str (take (Z.to_nat vocab_size) vocab).

(** How a call ends that can leave through [exit] or write past the end of
    a buffer. *)
Inductive Exit (A : Type) : Type :=
| Return (a : A)     (* the call returns *)
| Exit_failure       (* [exit(EXIT_FAILURE)] *)
| Overflow.          (* [sprintf] writes past the end of [str_buffer] *)
Arguments Return {A} _.
Arguments Exit_failure {A}.
Arguments Overflow {A}.

(** The local variables of the search for the best pair. *)
Record Best (F : Type) : Type := mkBest {
  best_score : F;
  best_id : Z;
  best_idx : Z
}.
Arguments mkBest {F} _ _ _.
Arguments best_score {F} _.
Arguments best_id {F} _.
Arguments best_idx {F} _.

Section Tokenizer.

Context {F : Type} (ops : FloatOps F).
Variable vocab : list string.
Variable vocab_scores : list F.
Variable vocab_size : Z.
Variable max_token_length : Z.

(** [malloc((max_token_length * 2 + 1) * sizeof(char))], computed on
    [unsigned int]. *)
Definition str_buffer_size : Z := Int.u32 (max_token_length * 2 + 1).

(** Whether [sprintf(str_buffer, ...)] of the string [s] and its
    terminating NUL stays inside [str_buffer]. *)
Definition fits (s : string) : bool :=
  Z.of_nat (String.length s) + 1 <=? str_buffer_size.

(** [vocab[t]] and [vocab_scores[id]]. *)
Definition vocab_at (t : Z) : string :=
  default EmptyString (vocab !! Z.to_nat t).

Definition score_at (id : Z) : F :=
  default (fconst ops 0) (vocab_scores !! Z.to_nat id).

(** "first encode every individual byte in the input string" *)
Fixpoint encode_bytes (text : string) : Exit (list Z) :=
  match text with
  | EmptyString => Return []
  | String c text' =>
      let str_buffer := String c EmptyString in
      if fits str_buffer then
        let id := str_lookup str_buffer vocab vocab_size in
        if id =? -1 then Exit_failure
        else match encode_bytes text' with
             | Return tokens => Return (id :: tokens)
             | e => e
             end
      else Overflow
  end.

(** [for (int i = 0; i < n_tokens - 1; i++)]: the pairs from index
    [i] on, [tokens] being [tokens[i..n_tokens)]. *)
Fixpoint scan_pairs (i : Z) (tokens : list Z) (b : Best F) : Exit (Best F) :=
  match tokens with
  | t0 :: (t1 :: _) as rest =>
      (* check if we can merge the pair (tokens[i], tokens[i+1]) *)
      let str_buffer := String.append (vocab_at t0) (vocab_at t1) in
      if fits str_buffer then
        let id := str_lookup str_buffer vocab vocab_size in
        let b :=
          if negb (id =? -1) && fltb ops (best_score b) (score_at id)
          then mkBest (score_at id) id i
          else b in
        scan_pairs (i + 1) rest b
      else Overflow
  | _ => Return b
  end.

(** [for (int i = best_idx + 1; i < n_tokens - 1; i++)
       tokens[i] = tokens[i + 1];
     n_tokens--;] *)
Definition shift_back (best_idx : Z) (tokens : list Z) : list Z :=
  let n_tokens := Z.of_nat (length tokens) in
  let tokens :=
    foldl (fun tokens i =>
             <[Z.to_nat i := default 0 (tokens !! Z.to_nat (i + 1))]> tokens)
      tokens (seqZ (best_idx + 1) (n_tokens - 1 - (best_idx + 1))) in
  take (Z.to_nat (n_tokens - 1)) tokens.

(** The loop [while (1)]: "merge the best consecutive pair each
    iteration, according the scores in vocab_scores". *)
Fixpoint merge_loop (fuel : nat) (tokens : list Z) : option (Exit (list Z)) :=
  match fuel with
  | O => None
  | S fuel' =>
      match scan_pairs 0 tokens (mkBest (fconst ops (-10000000000)) (-1) (-1)) with
      | Return b =>
          if best_idx b =? -1 then Some (Return tokens)
          else
            (* merge the consecutive pair (best_idx, best_idx+1) *)
            let tokens := <[Z.to_nat (best_idx b) := best_id b]> tokens in
            merge_loop fuel' (shift_back (best_idx b) tokens)
      | Exit_failure => Some Exit_failure
      | Overflow => Some Overflow
      end
  end.

(** [bpe_encode(text, ...)]: the tokens [tokens[0..n_tokens)]. *)
Definition bpe_encode (fuel : nat) (text : string) : option (Exit (list Z)) :=
  match encode_bytes text with
  | Return tokens => merge_loop fuel tokens
  | Exit_failure => Some Exit_failure
  | Overflow => Some Overflow
  end.

(** The string a token sequence stands for. *)
Definition decode (tokens : list Z) : string :=
  foldr (fun t s => String.append (vocab_at t) s) EmptyString tokens.

(** The pair at [i] can be merged: its concatenation is in the
    vocabulary with a score above [-1e10]. *)
Definition mergeable (t0 t1 : Z) : bool :=
  let id := str_lookup (String.append (vocab_at t0) (vocab_at t1)) vocab vocab_size in
  negb (id =? -1) && fltb ops (fconst ops (-10000000000)) (score_at id).

End Tokenizer.

(** A token that names an entry of the vocabulary. *)
Definition valid_token (vocab : list string) (vocab_size : Z) (t : Z) : Prop :=
  0 <= t < vocab_size /\ t < Z.of_nat (length vocab).

(** The one-character string of [c] is an entry of the vocabulary. *)
Definition known_byte (vocab : list string) (vocab_size : Z) (c : Ascii.ascii) : Prop :=
  String c EmptyString ∈ take (Z.to_nat vocab_size) vocab.

(** A vocabulary of three entries, with a score for each. *)
Definition example_vocab : list string := ["a"; "b"; "ab"]%string.

Definition example_scores : list R := [0; 0; 1]%R.

(** ** Vocabulary of the sampling statements *)

(** The running sum [cdf] after [k] entries, added from the left as the
    loops of the samplers do. *)
Definition cdf {F} (ops : FloatOps F) (p : list F) (k : nat) : F :=
  foldl (fadd ops) (fconst ops 0) (take k p).

(** ** Vocabulary of the kernel statements *)

(** [data[i]] of the buffer [name] as a shader reads it: 0.0 outside the
    data store. *)
Definition peek {F} (ops : FloatOps F) (st : GLState F) (name : GLuint) (i : Z) : F :=
  if i <? 0 then fconst ops 0
  else default (fconst ops 0) (data_of st name !! Z.to_nat i).

(** The data store of [name] after a dispatch in which the invocation [i],
    for [0 <= i < d], has written [val i] to the element [i]. *)
Definition written_by {F} (d : Z) (val : Z -> F) (before after : list F) : Prop :=
  forall i : nat,
    after !! i =
    if decide (Z.of_nat i < d) then (fun _ => val (Z.of_nat i)) <$> before !! i
    else before !! i.

(** ** Release of the GPU objects *)

Section Release.

Context {F : Type}.

(** [glDeleteBuffers(1, &name)]: the object is deleted and the binding
    points of the context that hold it revert to 0. *)
Definition delete_buffer (name : GLuint) (st : GLState F) : GLState F :=
  mkGL (delete name (gl_buffers st)) (gl_next_name st)
    (if decide (gl_bound st = name) then 0 else gl_bound st)
    (fun i => if decide (gl_ssbo st i = name) then 0 else gl_ssbo st i)
    (gl_program st) (gl_uniform_i st) (gl_uniform_f st) (gl_log st).

Definition glDeleteBuffers (name : GLuint) : GL F unit :=
  modify (delete_buffer name).

(** [free_run_state]; [free(s->probindex)] is host memory. *)
Definition free_run_state (s : RunState.t) : GL F unit :=
  glDeleteBuffers (RunState.x s);;
  glDeleteBuffers (RunState.xb s);;
  glDeleteBuffers (RunState.xb2 s);;
  glDeleteBuffers (RunState.hb s);;
  glDeleteBuffers (RunState.hb2 s);;
  glDeleteBuffers (RunState.q s);;
  glDeleteBuffers (RunState.k s);;
  glDeleteBuffers (RunState.v s);;
  glDeleteBuffers (RunState.att s);;
  glDeleteBuffers (RunState.logits s);;
  glDeleteBuffers (RunState.key_cache s);;
  glDeleteBuffers (RunState.value_cache s);;
  glDeleteBuffers (RunState.mulBuffer_1 s);;
  glDeleteBuffers (RunState.mulBuffer_2 s);;
  glDeleteBuffers (RunState.mulBuffer_3 s).

Definition free_gpu_weight (gpu : Weights.t F) : GL F unit :=
  glDeleteBuffers (Weights.rms_att_weight gpu);;
  glDeleteBuffers (Weights.rms_ffn_weight gpu);;
  glDeleteBuffers (Weights.wq gpu);;
  glDeleteBuffers (Weights.wk gpu);;
  glDeleteBuffers (Weights.wv gpu);;
  glDeleteBuffers (Weights.wo gpu);;
  glDeleteBuffers (Weights.w1 gpu);;
  glDeleteBuffers (Weights.w2 gpu);;
  glDeleteBuffers (Weights.w3 gpu);;
  glDeleteBuffers (Weights.rms_final_weight gpu);;
  glDeleteBuffers (Weights.freq_cis_real gpu);;
  glDeleteBuffers (Weights.freq_cis_imag gpu);;
  glDeleteBuffers (Weights.wcls gpu).

(** The names of the weight buffers. *)
Definition weight_names (w : Weights.t F) : list GLuint :=
  [Weights.rms_att_weight w; Weights.rms_ffn_weight w; Weights.wq w; Weights.wk w;
   Weights.wv w; Weights.wo w; Weights.w1 w; Weights.w2 w; Weights.w3 w;
   Weights.rms_final_weight w; Weights.freq_cis_real w; Weights.freq_cis_imag w;
   Weights.wcls w].

(** No buffer object has a name that [glGenBuffers] has yet to return. *)
Definition names_fresh (st : GLState F) : Prop :=
  forall h, gl_next_name st <= h -> gl_buffers st !! h = None.

End Release.

(** ** The checkpoint *)

Section Checkpoint.

Context {F : Type}.

(** A [float*] into the mapped file [f]: the floats from [ptr] on. *)
Definition at_ptr (f : list F) (ptr : Z) : list F := drop (Z.to_nat ptr) f.

(** [ptr += n] on a [float*] into the mapped floats [f], as an offset from
    their start.  A pointer that leaves the mapped floats (one past their
    end is allowed) is undefined in C and has no value here. *)
Definition ptr_add (f : list F) (ptr n : Z) : option Z :=
  let ptr := ptr + n in
  if (0 <=? ptr) && (ptr <=? Z.of_nat (length f)) then Some ptr else None.

(** [a / b] on [int]: truncating, and a trap when [b] is 0 or the quotient
    is not an [int]. *)
Definition int_div (a b : Z) : option Z :=
  if (b =? 0) || ((a =? - 2 ^ 31) && (b =? -1)) then None else Some (Z.quot a b).

(** The products are those of [int], which wrap; the division by
    [p->n_heads] traps at 0. *)
Definition checkpoint_init_weights (p : Config.t) (f : list F) (shared_weights : Z)
  : option (LocalWeights.t F) :=
  let dim := Config.dim p in
  let n_layers := Config.n_layers p in
  let hidden_dim := Config.hidden_dim p in
  let ptr := 0 in
  let token_embedding_table := at_ptr f ptr in
  ptr ← ptr_add f ptr (Int.s32 (Config.vocab_size p * dim));
  let rms_att_weight := at_ptr f ptr in
  ptr ← ptr_add f ptr (Int.s32 (n_layers * dim));
  let wq := at_ptr f ptr in
  ptr ← ptr_add f ptr (Int.s32 (Int.s32 (n_layers * dim) * dim));
  let wk := at_ptr f ptr in
  ptr ← ptr_add f ptr (Int.s32 (Int.s32 (n_layers * dim) * dim));
  let wv := at_ptr f ptr in
  ptr ← ptr_add f ptr (Int.s32 (Int.s32 (n_layers * dim) * dim));
  let wo := at_ptr f ptr in
  ptr ← ptr_add f ptr (Int.s32 (Int.s32 (n_layers * dim) * dim));
  let rms_ffn_weight := at_ptr f ptr in
  ptr ← ptr_add f ptr (Int.s32 (n_layers * dim));
  let w1 := at_ptr f ptr in
  ptr ← ptr_add f ptr (Int.s32 (Int.s32 (n_layers * dim) * hidden_dim));
  let w2 := at_ptr f ptr in
  ptr ← ptr_add f ptr (Int.s32 (Int.s32 (n_layers * hidden_dim) * dim));
  let w3 := at_ptr f ptr in
  ptr ← ptr_add f ptr (Int.s32 (Int.s32 (n_layers * dim) * hidden_dim));
  let rms_final_weight := at_ptr f ptr in
  ptr ← ptr_add f ptr dim;
  let freq_cis_real := at_ptr f ptr in
  head_size ← int_div dim (Config.n_heads p);
  ptr ← ptr_add f ptr (Z.quot (Int.s32 (Config.seq_len p * head_size)) 2);
  let freq_cis_imag := at_ptr f ptr in
  ptr ← ptr_add f ptr (Z.quot (Int.s32 (Config.seq_len p * head_size)) 2);
  let wcls := if shared_weights =? 0 then at_ptr f ptr else token_embedding_table in
  Some {| LocalWeights.token_embedding_table := token_embedding_table;
          LocalWeights.rms_att_weight := rms_att_weight;
          LocalWeights.rms_ffn_weight := rms_ffn_weight;
          LocalWeights.wq := wq; LocalWeights.wk := wk; LocalWeights.wv := wv;
          LocalWeights.wo := wo;
          LocalWeights.w1 := w1; LocalWeights.w2 := w2; LocalWeights.w3 := w3;
          LocalWeights.rms_final_weight := rms_final_weight;
          LocalWeights.freq_cis_real := freq_cis_real;
          LocalWeights.freq_cis_imag := freq_cis_imag;
          LocalWeights.wcls := wcls |}.

(** The number of floats of each array, in the order of the file. *)
Definition checkpoint_sizes (p : Config.t) : list Z :=
  let dim := Config.dim p in
  let n_layers := Config.n_layers p in
  let hidden_dim := Config.hidden_dim p in
  let head_size := Z.quot dim (Config.n_heads p) in
  [Config.vocab_size p * dim; n_layers * dim;
   n_layers * dim * dim; n_layers * dim * dim; n_layers * dim * dim;
   n_layers * dim * dim;
   n_layers * dim; n_layers * dim * hidden_dim; n_layers * hidden_dim * dim;
   n_layers * dim * hidden_dim; dim;
   Z.quot (Config.seq_len p * head_size) 2; Z.quot (Config.seq_len p * head_size) 2].

(** The arrays in the order of the file. *)
Definition checkpoint_arrays (w : LocalWeights.t F) : list (list F) :=
  [LocalWeights.token_embedding_table w; LocalWeights.rms_att_weight w;
   LocalWeights.wq w; LocalWeights.wk w; LocalWeights.wv w; LocalWeights.wo w;
   LocalWeights.rms_ffn_weight w; LocalWeights.w1 w; LocalWeights.w2 w;
   LocalWeights.w3 w; LocalWeights.rms_final_weight w;
   LocalWeights.freq_cis_real w; LocalWeights.freq_cis_imag w].

End Checkpoint.

(** ** Vocabulary of the reductions *)

Section Trees.

Context {F : Type}.

(** One pass over [n] values: neighbours are combined by [op], a last
    value without neighbour is kept. *)
Definition pairs_by (op : F -> F -> F) (n : Z) (a : Z -> F) (i : Z) : F :=
  if i * 2 + 1 <? n then op (a (i * 2)) (a (i * 2 + 1)) else a (i * 2).

(** The value left after the passes on [n] values. *)
Fixpoint tree_reduce (op : F -> F -> F) (fuel : nat) (n : Z) (a : Z -> F) : F :=
  match fuel with
  | O => a 0
  | S fuel' =>
      if n =? 1 then a 0 else tree_reduce op fuel' (Int.halve n) (pairs_by op n a)
  end.

Definition tree_by (op : F -> F -> F) (n : Z) (a : Z -> F) : F :=
  tree_reduce op (Z.to_nat n) n a.

Variable ops : FloatOps F.

Definition pairs (n : Z) (a : Z -> F) (i : Z) : F := pairs_by (fadd ops) n a i.

Definition squares (a : Z -> F) (j : Z) : F := fmul ops (a j) (a j).

Definition tree_sum (n : Z) (a : Z -> F) : F := tree_by (fadd ops) n a.

Definition tree_max (n : Z) (a : Z -> F) : F := tree_by (fmax ops) n a.

End Trees.

(** A context with a vector (3, 4) in the buffer 1, weights (1, 1) in the
    buffer 17 and two floats in each of the scratch buffers 13 and 14. *)
Definition norm_state : GLState R :=
  set_buffers
    (fun _ => list_to_map
       [(1, mkBuffer 8 [3; 4]%R); (17, mkBuffer 8 [1; 1]%R);
        (13, mkBuffer 8 [0; 0]%R); (14, mkBuffer 8 [0; 0]%R)])
    (gl_init R_ops).

(** ** The weights on the GPU *)

Section Uploads.

Context {F : Type}.

(** The weight buffers, the arrays they are created from and the number
    of floats of each, in the order of [upload_weights]. *)
Definition upload_names (w : Weights.t F) : list GLuint :=
  [Weights.rms_att_weight w; Weights.wq w; Weights.wk w; Weights.wv w; Weights.wo w;
   Weights.rms_ffn_weight w; Weights.w1 w; Weights.w2 w; Weights.w3 w;
   Weights.rms_final_weight w; Weights.freq_cis_real w; Weights.freq_cis_imag w;
   Weights.wcls w].

Definition upload_arrays (local : LocalWeights.t F) : list (list F) :=
  drop 1 (checkpoint_arrays local) ++ [LocalWeights.wcls local].

Definition upload_sizes (p : Config.t) : list Z :=
  drop 1 (checkpoint_sizes p) ++ [Config.dim p * Config.vocab_size p].

End Uploads.

(** ** Dispatches with rows *)

(** The operation of a reducing program. *)
Definition reduce_op {F} (ops : FloatOps F) (sh : Shader) : F -> F -> F :=
  match sh with
  | shader_max => fmax ops
  | _ => fadd ops
  end.

(** The element the invocation [gid] writes when a row has [d] elements. *)
Definition row_index (d : Z) (gid : Z * Z * Z) : Z := gid.1.1 + d * gid.1.2.

(** A context with two rows (1, 2) and (3, 4) in the buffer 16 and two
    floats in the buffer 2 and in each of the scratch buffers 13, 14
    and 15. *)
Definition rows_state : GLState R :=
  set_buffers
    (fun _ => list_to_map
       [(16, mkBuffer 16 [1; 2; 3; 4]%R); (2, mkBuffer 8 [0; 0]%R);
        (13, mkBuffer 8 [0; 0]%R); (14, mkBuffer 8 [0; 0]%R);
        (15, mkBuffer 8 [0; 0]%R)])
    (gl_init R_ops).

(** * The random number generator *)

Import Rng.

Section RngFacts.

Lemma shiftr_fix_zero (s k : Z) : 0 <= s -> 0 < k -> Z.shiftr s k = s -> s = 0.
Proof.
  intros Hs Hk E. rewrite Z.shiftr_div_pow2 in E by lia.
  assert (1 < 2 ^ k) by (apply Z.pow_gt_1; lia).
  destruct (Z.eq_dec s 0) as [|Hn]; [assumption|].
  assert (s / 2 ^ k < s) by (apply Z.div_lt; lia). lia.
Qed.

Lemma shiftl_fix_zero (s : Z) :
  is_u64 s -> Int.u64 (Z.shiftl s 25) = s -> s = 0.
Proof.
  unfold is_u64, Int.u64, Int.two64. intros Hs E.
  rewrite Z.shiftl_mul_pow2 in E by lia.
  assert (D : (2 ^ 64 | (2 ^ 25 - 1) * s)).
  { exists ((s * 2 ^ 25) / 2 ^ 64).
    pose proof (Z.div_mod (s * 2 ^ 25) (2 ^ 64)). lia. }
  apply Z.gauss in D; [|reflexivity].
  destruct D as [q Hq]. lia.
Qed.

Lemma lxor_u64 (a b : Z) : is_u64 a -> is_u64 b -> is_u64 (Z.lxor a b).
Proof.
  unfold is_u64, Int.two64. intros Ha Hb.
  assert (0 <= Z.lxor a b) by (apply Z.lxor_nonneg; lia).
  split; [assumption|].
  destruct (Z.eq_dec (Z.lxor a b) 0) as [->|Hn]; [lia|].
  apply Z.log2_lt_pow2; [lia|].
  pose proof (Z.log2_lxor a b ltac:(lia) ltac:(lia)).
  assert (Z.log2 a < 64).
  { destruct (Z.eq_dec a 0) as [->|]; [simpl; lia|]. apply Z.log2_lt_pow2; lia. }
  assert (Z.log2 b < 64).
  { destruct (Z.eq_dec b 0) as [->|]; [simpl; lia|]. apply Z.log2_lt_pow2; lia. }
  lia.
Qed.

Lemma shiftr_u64 (s k : Z) : 0 <= k -> is_u64 s -> is_u64 (Z.shiftr s k).
Proof.
  unfold is_u64. intros Hk [H0 H1]. rewrite Z.shiftr_div_pow2 by lia.
  assert (0 < 2 ^ k) by (apply Z.pow_pos_nonneg; lia).
  split; [apply Z.div_pos; lia|].
  apply Z.le_lt_trans with s; [|assumption].
  apply Z.div_le_upper_bound; nia.
Qed.

Lemma u64_is_u64 (z : Z) : is_u64 (Int.u64 z).
Proof. unfold is_u64, Int.u64, Int.two64. apply Z.mod_pos_bound. lia. Qed.

Lemma step1_u64 s : is_u64 s -> is_u64 (step1 s).
Proof. intros. apply lxor_u64; [|apply shiftr_u64]; auto; lia. Qed.
Lemma step2_u64 s : is_u64 s -> is_u64 (step2 s).
Proof. intros. apply lxor_u64; [|apply u64_is_u64]; auto. Qed.
Lemma step3_u64 s : is_u64 s -> is_u64 (step3 s).
Proof. intros. apply lxor_u64; [|apply shiftr_u64]; auto; lia. Qed.

Lemma next_seed_u64 s : is_u64 s -> is_u64 (next_seed s).
Proof. intros. apply step3_u64, step2_u64, step1_u64. assumption. Qed.

Lemma step1_nonzero s : is_u64 s -> s <> 0 -> step1 s <> 0.
Proof.
  intros [H0 _] Hn E. apply Z.lxor_eq in E. symmetry in E.
  apply shiftr_fix_zero in E; lia.
Qed.
Lemma step2_nonzero s : is_u64 s -> s <> 0 -> step2 s <> 0.
Proof.
  intros Hs Hn E. apply Z.lxor_eq in E. symmetry in E.
  apply shiftl_fix_zero in E; auto.
Qed.
Lemma step3_nonzero s : is_u64 s -> s <> 0 -> step3 s <> 0.
Proof.
  intros [H0 _] Hn E. apply Z.lxor_eq in E. symmetry in E.
  apply shiftr_fix_zero in E; lia.
Qed.

Lemma next_seed_nonzero s : is_u64 s -> s <> 0 -> next_seed s <> 0.
Proof.
  intros Hs Hn. unfold next_seed.
  apply step3_nonzero; [auto using step1_u64, step2_u64|].
  apply step2_nonzero; [auto using step1_u64|].
  apply step1_nonzero; assumption.
Qed.

(** Linearity over GF(2): each step commutes with xor. *)
Lemma land_lxor_distr (a b c : Z) :
  Z.land (Z.lxor a b) c = Z.lxor (Z.land a c) (Z.land b c).
Proof.
  apply Z.bits_inj'. intros n _.
  rewrite !Z.lxor_spec, !Z.land_spec, !Z.lxor_spec.
  destruct (Z.testbit a n), (Z.testbit b n), (Z.testbit c n); reflexivity.
Qed.

Lemma u64_lxor (a b : Z) : Int.u64 (Z.lxor a b) = Z.lxor (Int.u64 a) (Int.u64 b).
Proof.
  unfold Int.u64, Int.two64. rewrite <- !Z.land_ones by lia. apply land_lxor_distr.
Qed.

Lemma step1_lxor a b : step1 (Z.lxor a b) = Z.lxor (step1 a) (step1 b).
Proof.
  unfold step1. rewrite Z.shiftr_lxor.
  apply Z.bits_inj'. intros n _. rewrite !Z.lxor_spec.
  destruct (Z.testbit a n), (Z.testbit b n), (Z.testbit (Z.shiftr a 12) n),
    (Z.testbit (Z.shiftr b 12) n); reflexivity.
Qed.
Lemma step3_lxor a b : step3 (Z.lxor a b) = Z.lxor (step3 a) (step3 b).
Proof.
  unfold step3. rewrite Z.shiftr_lxor.
  apply Z.bits_inj'. intros n _. rewrite !Z.lxor_spec.
  destruct (Z.testbit a n), (Z.testbit b n), (Z.testbit (Z.shiftr a 27) n),
    (Z.testbit (Z.shiftr b 27) n); reflexivity.
Qed.
Lemma step2_lxor a b : step2 (Z.lxor a b) = Z.lxor (step2 a) (step2 b).
Proof.
  unfold step2. rewrite Z.shiftl_lxor, u64_lxor.
  apply Z.bits_inj'. intros n _. rewrite !Z.lxor_spec.
  destruct (Z.testbit a n), (Z.testbit b n),
    (Z.testbit (Int.u64 (Z.shiftl a 25)) n),
    (Z.testbit (Int.u64 (Z.shiftl b 25)) n); reflexivity.
Qed.

Lemma linear_injective (f : Z -> Z) :
  (forall a b, f (Z.lxor a b) = Z.lxor (f a) (f b)) ->
  (forall s, is_u64 s -> s <> 0 -> f s <> 0) ->
  forall a b, is_u64 a -> is_u64 b -> f a = f b -> a = b.
Proof.
  intros Hlin Hnz a b Ha Hb E.
  apply Z.lxor_eq.
  destruct (Z.eq_dec (Z.lxor a b) 0) as [|Hn]; [assumption|exfalso].
  apply (Hnz (Z.lxor a b)); [apply lxor_u64; assumption|assumption|].
  rewrite Hlin, E. apply Z.lxor_nilpotent.
Qed.

Lemma seed_after_nonzero n : forall s, is_u64 s -> s <> 0 ->
  is_u64 (seed_after n s) /\ seed_after n s <> 0.
Proof.
  induction n as [|n IH]; intros s Hs Hn; simpl; [auto|].
  apply IH; [apply next_seed_u64 | apply next_seed_nonzero]; assumption.
Qed.

Lemma random_u32_range s : 0 <= snd (random_u32 s) < Int.two32.
Proof. unfold random_u32; simpl. apply Z.mod_pos_bound. reflexivity. Qed.

Lemma random_f32_range s :
  (0 <= snd (random_f32 R_ops s) < 1)%R.
Proof.
  unfold random_f32.
  pose proof (random_u32_range s) as Hu.
  destruct (random_u32 s) as [s' u]; simpl in *.
  assert (H : 0 <= Z.shiftr u 8 < 16777216).
  { rewrite Z.shiftr_div_pow2 by lia. unfold Int.two32 in Hu. split.
    - apply Z.div_pos; lia.
    - apply Z.div_lt_upper_bound; lia. }
  destruct H as [H0 H1]. apply IZR_le in H0. apply IZR_lt in H1.
  unfold Q2R. simpl. rewrite Rinv_1, Rmult_1_r.
  split.
  - apply Rmult_le_pos; [exact H0|]. left. apply Rinv_0_lt_compat. lra.
  - apply Rmult_lt_reg_r with 16777216%R; [lra|].
    unfold Rdiv. rewrite Rmult_assoc, Rinv_l by lra. lra.
Qed.

End RngFacts.

(** C10.  A nonzero 64-bit seed stays nonzero (and 64-bit) through
    [random_u32]; the seed is nonzero after any number of calls; each of
    the three xorshift steps is linear over GF(2) and injective on 64-bit
    states; and [random_f32] returns a value in [0, 1) from every seed. *)
Theorem rng_seed_nonzero_invariant (s : Z) :
  is_u64 s -> s <> 0 ->
  (is_u64 (fst (random_u32 s)) /\ fst (random_u32 s) <> 0) /\
  (forall n, seed_after n s <> 0) /\
  (forall f, In f [step1; step2; step3] ->
     (forall a b, f (Z.lxor a b) = Z.lxor (f a) (f b)) /\
     (forall a b, is_u64 a -> is_u64 b -> f a = f b -> a = b)) /\
  (forall s', fst (random_f32 R_ops s') = fst (random_u32 s') /\
     (0 <= snd (random_f32 R_ops s') < 1)%R).
Proof.
  intros Hs Hn. split; [|split; [|split]].
  - split; [apply next_seed_u64, Hs | apply next_seed_nonzero; assumption].
  - intros n. apply seed_after_nonzero; assumption.
  - intros f [<-|[<-|[<-|[]]]]; split.
    + apply step1_lxor.
    + apply linear_injective; auto using step1_lxor, step1_nonzero.
    + apply step2_lxor.
    + apply linear_injective; auto using step2_lxor, step2_nonzero.
    + apply step3_lxor.
    + apply linear_injective; auto using step3_lxor, step3_nonzero.
  - intros s'. split; [|apply random_f32_range].
    unfold random_f32. destruct (random_u32 s'); reflexivity.
Qed.

Lemma rng_seed_nonzero_invariant_witness :
  fst (random_u32 1234) <> 0 /\ (forall n, seed_after n 1234 <> 0).
Proof.
  destruct (rng_seed_nonzero_invariant 1234) as ([_ H1] & H2 & _).
  - unfold is_u64, Int.two64. lia.
  - lia.
  - split; [exact H1 | exact H2].
Defined.
(** * Facts about the GL state machine *)

Section StateFacts.

Context {F : Type} (ops : FloatOps F).

#[local] Abbreviation State := (GLState F).

Lemma only_buffers_refl W (st : State) : only_buffers W st st.
Proof. unfold only_buffers; auto 10. Qed.

Lemma only_buffers_trans W (st1 st2 st3 : State) :
  only_buffers W st1 st2 -> only_buffers W st2 st3 -> only_buffers W st1 st3.
Proof.
  unfold only_buffers.
  intros (?&?&?&?&?&?&?&Ha) (?&?&?&?&?&?&?&Hb).
  repeat split; try congruence.
  intros h Hh. rewrite Hb, Ha; auto.
Qed.

Lemma only_buffers_mono W W' (st st' : State) :
  W ⊆ W' -> only_buffers W st st' -> only_buffers W' st st'.
Proof.
  unfold only_buffers. intros HW (?&?&?&?&?&?&?&Ha).
  repeat split; auto.
Qed.

Lemma store_only_buffers name i v (st : State) :
  only_buffers [name] st (store name i v st).
Proof.
  unfold store. destruct (i <? 0); [apply only_buffers_refl|].
  destruct (gl_buffers st !! name) as [buf|] eqn:E; [|apply only_buffers_refl].
  unfold only_buffers; simpl. repeat split; auto.
  intros h Hh. apply lookup_insert_ne. intros <-. apply Hh. left.
Qed.

Lemma wr_only_buffers W b i v (st : State) :
  gl_ssbo st b ∈ W -> only_buffers W st (wr b i v st).
Proof.
  intros Hb. unfold wr.
  eapply only_buffers_mono; [|apply store_only_buffers]. set_solver.
Qed.

Lemma wr_ssbo b i v (st : State) : gl_ssbo (wr b i v st) = gl_ssbo st.
Proof. apply (wr_only_buffers [gl_ssbo st b]). set_solver. Qed.

(** A kernel invocation writes only through the written bindings of its
    program. *)
Lemma kernel_main_only_buffers W gid sh (st : State) :
  Forall (fun b => gl_ssbo st b ∈ W) (written_bindings sh) ->
  only_buffers W st (kernel_main ops gid sh st).
Proof.
  intros HW.
  assert (Hstep : forall b i v (s : State), gl_ssbo s = gl_ssbo st ->
            b ∈ written_bindings sh -> only_buffers W s (wr b i v s)).
  { intros b i v s Hs Hb. apply wr_only_buffers. rewrite Hs.
    rewrite Forall_forall in HW. auto. }
  destruct sh; cbn [kernel_main written_bindings] in *;
    unfold main_matmul, main_rmsnorm_squares_and_sum, main_softmax_exp_and_sum,
      main_softmax_normalize, main_sum, main_max, main_argmax_set_index,
      main_argmax, main_min, main_rmsnorm_normalize_and_scale,
      main_rmsnorm_normalize_and_scale_currentPos, main_accum,
      main_positionalEncoding, main_transformer_silu_and_mulW3,
      main_transformer_get_query_vector, main_transformer_build_attMat,
      main_transformer_softmax_input, main_transformer_softmax_output,
      main_temperature; cbv zeta;
    repeat match goal with
           | |- context [if ?c then _ else _] => destruct c
           end;
    repeat first
      [ apply only_buffers_refl
      | apply Hstep; [reflexivity | set_solver]
      | eapply only_buffers_trans;
        [| apply Hstep; [rewrite ?wr_ssbo; reflexivity | set_solver] ] ].
Qed.

Lemma run_kernel_only_buffers W sh groups : forall (st : State),
  Forall (fun b => gl_ssbo st b ∈ W) (written_bindings sh) ->
  only_buffers W st (run_kernel ops sh groups st).
Proof.
  induction groups as [|gid groups IH]; intros st HW; simpl.
  - apply only_buffers_refl.
  - pose proof (kernel_main_only_buffers W gid sh st HW) as H1.
    eapply only_buffers_trans; [exact H1|].
    apply IH. destruct H1 as (_&_&->&_). exact HW.
Qed.

End StateFacts.

(** * Running host code *)

Section RunFacts.

Context {F : Type} (ops : FloatOps F).

#[local] Abbreviation State := (GLState F).

(** *** Projections of the state after a call *)

Lemma program_bind_buffer_base i h (s : State) :
  gl_program (bind_buffer_base i h s) = gl_program s.
Proof. reflexivity. Qed.

Lemma program_uniform1i l v (s : State) :
  gl_program (uniform1i l v s) = gl_program s.
Proof.
  unfold uniform1i. destruct (gl_program s) as [sh|] eqn:E; [|assumption].
  destruct (uniform_at sh l) as [[nm []]|]; simpl; auto.
Qed.

Lemma program_uniform1f l v (s : State) :
  gl_program (uniform1f l v s) = gl_program s.
Proof.
  unfold uniform1f. destruct (gl_program s) as [sh|] eqn:E; [|assumption].
  destruct (uniform_at sh l) as [[nm []]|]; simpl; auto.
Qed.

Lemma ssbo_uniform1i l v (s : State) : gl_ssbo (uniform1i l v s) = gl_ssbo s.
Proof.
  unfold uniform1i. destruct (gl_program s) as [sh|]; [|reflexivity].
  destruct (uniform_at sh l) as [[nm []]|]; reflexivity.
Qed.

Lemma ssbo_uniform1f l v (s : State) : gl_ssbo (uniform1f l v s) = gl_ssbo s.
Proof.
  unfold uniform1f. destruct (gl_program s) as [sh|]; [|reflexivity].
  destruct (uniform_at sh l) as [[nm []]|]; reflexivity.
Qed.

Lemma buffers_uniform1i l v (s : State) :
  gl_buffers (uniform1i l v s) = gl_buffers s.
Proof.
  unfold uniform1i. destruct (gl_program s) as [sh|]; [|reflexivity].
  destruct (uniform_at sh l) as [[nm []]|]; reflexivity.
Qed.

Lemma buffers_uniform1f l v (s : State) :
  gl_buffers (uniform1f l v s) = gl_buffers s.
Proof.
  unfold uniform1f. destruct (gl_program s) as [sh|]; [|reflexivity].
  destruct (uniform_at sh l) as [[nm []]|]; reflexivity.
Qed.

Lemma log_uniform1i l v (s : State) : gl_log (uniform1i l v s) = gl_log s.
Proof.
  unfold uniform1i. destruct (gl_program s) as [sh|]; [|reflexivity].
  destruct (uniform_at sh l) as [[nm []]|]; reflexivity.
Qed.

Lemma log_uniform1f l v (s : State) : gl_log (uniform1f l v s) = gl_log s.
Proof.
  unfold uniform1f. destruct (gl_program s) as [sh|]; [|reflexivity].
  destruct (uniform_at sh l) as [[nm []]|]; reflexivity.
Qed.

Lemma ssbo_copy_buffer_sub_data rd_ wr_ roff woff size (s : State) :
  gl_ssbo (copy_buffer_sub_data rd_ wr_ roff woff size s) = gl_ssbo s.
Proof.
  unfold copy_buffer_sub_data.
  destruct (target_binding rd_ s) as [r|]; [|reflexivity].
  destruct (target_binding wr_ s) as [w|]; [|reflexivity].
  destruct (_ || _); [reflexivity|].
  destruct (gl_buffers s !! r); [|reflexivity].
  destruct (gl_buffers s !! w); [|reflexivity].
  destruct (_ && _); reflexivity.
Qed.

Lemma ssbo_buffer_sub_data off size data (s : State) :
  gl_ssbo (buffer_sub_data off size data s) = gl_ssbo s.
Proof.
  unfold buffer_sub_data.
  destruct (gl_buffers s !! gl_bound s) as [buf|]; [|reflexivity].
  destruct (in_range buf off size); reflexivity.
Qed.

Lemma ssbo_bind_buffer_base i h (s : State) j :
  gl_ssbo (bind_buffer_base i h s) j = if decide (j = i) then h else gl_ssbo s j.
Proof. reflexivity. Qed.

(** The state a dispatch leaves, in terms of the kernel run. *)
Lemma dispatch_only_buffers W gx gy gz sh (s : State) :
  gl_program s = Some sh ->
  Forall (fun b => gl_ssbo s b ∈ W) (written_bindings sh) ->
  only_buffers W
    (add_log (mkDispatch sh (gx, gy, gz) (int_uniforms s sh)
                (gl_ssbo s <$> [0; 1; 2; 3]%nat)) s)
    (dispatch ops gx gy gz s).
Proof.
  intros Hp HW. unfold dispatch. rewrite Hp.
  apply run_kernel_only_buffers. exact HW.
Qed.

Lemma dispatch_no_program gx gy gz (s : State) :
  gl_program s = None -> dispatch ops gx gy gz s = s.
Proof. intros Hp. unfold dispatch. rewrite Hp. reflexivity. Qed.

Lemma program_dispatch gx gy gz (s : State) :
  gl_program (dispatch ops gx gy gz s) = gl_program s.
Proof.
  destruct (gl_program s) as [sh|] eqn:Hp.
  - unfold dispatch. rewrite Hp.
    pose proof (run_kernel_only_buffers ops (gl_ssbo s <$> written_bindings sh) sh
                  (work_groups gx gy gz)
                  (add_log (mkDispatch sh (gx, gy, gz) (int_uniforms s sh)
                              (gl_ssbo s <$> [0; 1; 2; 3]%nat)) s)) as H.
    destruct H as (_&_&_&->&_); [|exact Hp].
    apply Forall_forall. intros b Hb. apply list_elem_of_fmap. eauto.
  - rewrite dispatch_no_program; assumption.
Qed.

Lemma ssbo_dispatch gx gy gz (s : State) :
  gl_ssbo (dispatch ops gx gy gz s) = gl_ssbo s.
Proof.
  destruct (gl_program s) as [sh|] eqn:Hp.
  - unfold dispatch. rewrite Hp.
    pose proof (run_kernel_only_buffers ops (gl_ssbo s <$> written_bindings sh) sh
                  (work_groups gx gy gz)
                  (add_log (mkDispatch sh (gx, gy, gz) (int_uniforms s sh)
                              (gl_ssbo s <$> [0; 1; 2; 3]%nat)) s)) as H.
    destruct H as (_&_&->&_); [|reflexivity].
    apply Forall_forall. intros b Hb. apply list_elem_of_fmap. eauto.
  - rewrite dispatch_no_program; auto.
Qed.

Lemma uniform_i_dispatch gx gy gz (s : State) :
  gl_uniform_i (dispatch ops gx gy gz s) = gl_uniform_i s.
Proof.
  destruct (gl_program s) as [sh|] eqn:Hp.
  - unfold dispatch. rewrite Hp.
    pose proof (run_kernel_only_buffers ops (gl_ssbo s <$> written_bindings sh) sh
                  (work_groups gx gy gz)
                  (add_log (mkDispatch sh (gx, gy, gz) (int_uniforms s sh)
                              (gl_ssbo s <$> [0; 1; 2; 3]%nat)) s)) as H.
    destruct H as (_&_&_&_&->&_); [|reflexivity].
    apply Forall_forall. intros b Hb. apply list_elem_of_fmap. eauto.
  - rewrite dispatch_no_program; auto.
Qed.

Lemma log_dispatch gx gy gz sh (s : State) :
  gl_program s = Some sh ->
  gl_log (dispatch ops gx gy gz s) =
  gl_log s ++ [mkDispatch sh (gx, gy, gz) (int_uniforms s sh)
                 (gl_ssbo s <$> [0; 1; 2; 3]%nat)].
Proof.
  intros Hp.
  pose proof (dispatch_only_buffers (gl_ssbo s <$> written_bindings sh)
                gx gy gz sh s Hp) as H.
  destruct H as (_&_&_&_&_&_&->&_); [|reflexivity].
  apply Forall_forall. intros b Hb. apply list_elem_of_fmap. eauto.
Qed.

(** With a zero count in one dimension no invocation runs. *)
Lemma work_groups_zero_y gx gz : work_groups gx 0 gz = [].
Proof.
  unfold work_groups. induction (seqZ 0 gz) as [|z l IH]; [reflexivity|].
  simpl. exact IH.
Qed.

Lemma buffers_dispatch_zero_y gx gz (s : State) :
  gl_buffers (dispatch ops gx 0 gz s) = gl_buffers s.
Proof.
  unfold dispatch. destruct (gl_program s); [|reflexivity].
  rewrite work_groups_zero_y. reflexivity.
Qed.

(** The uniforms a pass sets are the ones the dispatch sees. *)
Lemma uniform1i_value sh nm l v (s : State) sh' nm' :
  gl_program s = Some sh -> uniform_at sh l = Some (nm, UInt) ->
  gl_uniform_i (uniform1i l v s) sh' nm' =
  if decide (sh' = sh /\ nm' = nm) then v else gl_uniform_i s sh' nm'.
Proof. intros Hp Hu. unfold uniform1i. rewrite Hp, Hu. reflexivity. Qed.

Lemma int_uniforms_eval (s : State) sh :
  int_uniforms s sh =
  (fun d => (d.1, gl_uniform_i s sh d.1)) <$>
    filter (fun d => d.2 = UInt) (uniform_decls sh).
Proof. reflexivity. Qed.

(** *** Loops *)

Lemma while_loop_unfold {S : Type} fuel (cond : S -> bool) (body : S -> GL F S)
    s (st : State) :
  while_loop (Datatypes.S fuel) cond body s st =
  if cond s then
    match body s st with
    | Some (s', st') => while_loop fuel cond body s' st'
    | None => None
    end
  else Some (s, st).
Proof. simpl. destruct (cond s); reflexivity. Qed.

Lemma run_bind {A B} (m : GL F A) (f : A -> GL F B) (st : State) :
  (m ≫= f) st =
  match m st with
  | Some (a, st') => f a st'
  | None => None
  end.
Proof. reflexivity. Qed.

(** Total correctness of a [while] loop from an invariant and a
    variant. *)
Lemma while_loop_total {S : Type} (Inv : S -> State -> Prop) (measure : S -> nat)
    (cond : S -> bool) (body : S -> GL F S) :
  (forall s st, Inv s st -> cond s = true ->
     exists s' st', body s st = Some (s', st') /\ Inv s' st' /\
                    (measure s' < measure s)%nat) ->
  forall fuel s st, Inv s st -> (measure s < fuel)%nat ->
  exists s' st', while_loop fuel cond body s st = Some (s', st') /\
                 Inv s' st' /\ cond s' = false.
Proof.
  intros Hbody fuel. induction fuel as [|fuel IH]; intros s st HI Hm; [lia|].
  simpl. destruct (cond s) eqn:Hc.
  - destruct (Hbody s st HI Hc) as (s1 & st1 & Hb & HI1 & Hlt).
    destruct (IH s1 st1 HI1 ltac:(lia)) as (s2 & st2 & Hw & HI2 & Hc2).
    exists s2, st2. split; [|auto].
    unfold mbind, GL_bind. rewrite Hb. exact Hw.
  - exists s, st. auto.
Qed.

(** A loop whose condition never fails does not return. *)
Lemma while_loop_diverges {S : Type} (Inv : S -> Prop)
    (cond : S -> bool) (body : S -> GL F S) :
  (forall s, Inv s -> cond s = true) ->
  (forall s st s' st', Inv s -> body s st = Some (s', st') -> Inv s') ->
  forall fuel s st, Inv s -> while_loop fuel cond body s st = None.
Proof.
  intros Hc Hb fuel. induction fuel as [|fuel IH]; intros s st HI; [reflexivity|].
  simpl. rewrite (Hc s HI). unfold mbind, GL_bind.
  destruct (body s st) as [[s' st']|] eqn:E; [|reflexivity].
  apply IH. eapply Hb; eauto.
Qed.

(** *** The halving step *)

Lemma halve_spec c : 0 <= c -> Int.halve c = (c + 1) / 2.
Proof.
  intros Hc. unfold Int.halve.
  rewrite Z.quot_div_nonneg, Z.rem_mod_nonneg by lia.
  pose proof (Z.div_mod c 2 ltac:(lia)).
  pose proof (Z.mod_pos_bound c 2 ltac:(lia)).
  destruct (c mod 2 =? 1) eqn:E.
  - apply Z.eqb_eq in E. apply Z.div_unique with 0; lia.
  - apply Z.eqb_neq in E. apply Z.div_unique with 1; lia.
Qed.

Lemma halve_bounds c : 2 <= c -> 1 <= Int.halve c < c.
Proof.
  intros Hc. rewrite halve_spec by lia.
  pose proof (Z.div_mod (c + 1) 2 ltac:(lia)).
  pose proof (Z.mod_pos_bound (c + 1) 2 ltac:(lia)). lia.
Qed.

Lemma halve_one : Int.halve 1 = 1.
Proof. reflexivity. Qed.

Lemma halve_pos c : 1 <= c -> 1 <= Int.halve c.
Proof.
  intros Hc. destruct (Z.eq_dec c 1) as [->|]; [rewrite halve_one; lia|].
  apply halve_bounds. lia.
Qed.

Lemma halve_nonpos c : c <= 0 -> Int.halve c <= 0.
Proof.
  intros Hc. unfold Int.halve.
  assert (Z.rem c 2 <= 0) by (apply Z.rem_nonpos; lia).
  destruct (Z.rem c 2 =? 1) eqn:E; [apply Z.eqb_eq in E; lia|].
  apply Z.quot_le_upper_bound; lia.
Qed.

End RunFacts.

Section Effects.

Context {F : Type} (ops : FloatOps F).

#[local] Abbreviation State := (GLState F).

Lemma effect_refl W (st : State) : effect W st st.
Proof. split; auto. Qed.

Lemma effect_trans W (st1 st2 st3 : State) :
  effect W st1 st2 -> effect W st2 st3 -> effect W st1 st3.
Proof.
  intros [Ha Ha3] [Hb Hb3]. split.
  - intros h Hh. rewrite Hb, Ha; auto.
  - destruct Hb3 as [->|]; auto.
Qed.

Lemma effect_mono W W' (st st' : State) : W ⊆ W' -> effect W st st' -> effect W' st st'.
Proof.
  intros HW [Ha Ha3]. split.
  - intros h Hh. apply Ha. intros Hin. apply Hh, HW, Hin.
  - destruct Ha3; auto.
Qed.

Lemma effect_set_bound W (st s : State) b :
  effect W st s -> effect W st (set_bound b s).
Proof. intros H. exact H. Qed.

Lemma effect_set_program W (st s : State) p :
  effect W st s -> effect W st (set_program p s).
Proof. intros H. exact H. Qed.

Lemma effect_bind_buffer_base W (st s : State) i h :
  (i <> 3%nat \/ h ∈ W) -> effect W st s -> effect W st (bind_buffer_base i h s).
Proof.
  intros Hi [Ha Ha3]. split; [exact Ha|].
  rewrite ssbo_bind_buffer_base. destruct (decide (3%nat = i)) as [<-|Hne]; [|exact Ha3].
  destruct Hi; [congruence|auto].
Qed.

Lemma effect_uniform1i W (st s : State) l v :
  effect W st s -> effect W st (uniform1i l v s).
Proof.
  intros [Ha Ha3]. split.
  - rewrite buffers_uniform1i. exact Ha.
  - rewrite ssbo_uniform1i. exact Ha3.
Qed.

Lemma effect_uniform1f W (st s : State) l v :
  effect W st s -> effect W st (uniform1f l v s).
Proof.
  intros [Ha Ha3]. split.
  - rewrite buffers_uniform1f. exact Ha.
  - rewrite ssbo_uniform1f. exact Ha3.
Qed.

Lemma effect_dispatch W (st s : State) gx gy gz :
  (gy = 0 \/
   match gl_program s with
   | Some sh => Forall (fun b => gl_ssbo s b ∈ W) (written_bindings sh)
   | None => True
   end) ->
  effect W st s -> effect W st (dispatch ops gx gy gz s).
Proof.
  intros Hw [Ha Ha3]. split.
  - destruct Hw as [->|Hw]; [rewrite buffers_dispatch_zero_y; exact Ha|].
    destruct (gl_program s) as [sh|] eqn:Hp;
      [|rewrite dispatch_no_program by assumption; exact Ha].
    destruct (dispatch_only_buffers ops W gx gy gz sh s Hp Hw) as (_&_&_&_&_&_&_&Hb).
    intros h Hh. rewrite Hb by assumption. apply Ha, Hh.
  - rewrite ssbo_dispatch. exact Ha3.
Qed.

Lemma effect_buffer_sub_data W (st s : State) off size data :
  gl_bound s ∈ W -> effect W st s -> effect W st (buffer_sub_data off size data s).
Proof.
  intros Hb [Ha Ha3]. unfold buffer_sub_data.
  destruct (gl_buffers s !! gl_bound s) as [buf|]; [|split; assumption].
  destruct (in_range buf off size); [|split; assumption].
  split; [|exact Ha3]. intros h Hh. simpl.
  rewrite lookup_insert_ne; [apply Ha, Hh|]. intros <-. contradiction.
Qed.

(** A copy between two different targets raises an error: one of them is
    not [GL_SHADER_STORAGE_BUFFER], and holds no buffer or is no
    target. *)
Lemma copy_buffer_sub_data_targets rd_ wr_ roff woff size (s : State) :
  rd_ <> wr_ -> copy_buffer_sub_data rd_ wr_ roff woff size s = s.
Proof.
  intros Hne. unfold copy_buffer_sub_data, target_binding.
  destruct (Z.eqb_spec rd_ GL_SHADER_STORAGE_BUFFER) as [Er|_];
    destruct (Z.eqb_spec wr_ GL_SHADER_STORAGE_BUFFER) as [Ew|_];
    [congruence| | |].
  - destruct (bool_decide _); [|reflexivity].
    rewrite orb_true_r. reflexivity.
  - destruct (bool_decide _); reflexivity.
  - destruct (bool_decide _); [|reflexivity].
    destruct (bool_decide _); reflexivity.
Qed.

Lemma effect_copy_buffer_sub_data W (st s : State) rd_ wr_ roff woff size :
  rd_ <> wr_ -> effect W st s ->
  effect W st (copy_buffer_sub_data rd_ wr_ roff woff size s).
Proof. intros Hne He. rewrite copy_buffer_sub_data_targets by exact Hne. exact He. Qed.

(** The row [token] of a table of [vocab_size] rows is inside the
    table. *)
Lemma host_floats_row (a : list F) token dim vocab_size (s : State) :
  0 <= dim -> 0 <= token < vocab_size ->
  vocab_size * dim <= Int.int_max ->
  vocab_size * dim <= Z.of_nat (length a) ->
  host_floats a (Int.s32 (token * dim)) dim s =
  Some (take (Z.to_nat dim) (drop (Z.to_nat (token * dim)) a), s).
Proof.
  intros Hdim Htok Hint Hlen.
  assert (H0 : 0 <= token * dim) by nia.
  assert (H1 : token * dim + dim <= vocab_size * dim) by nia.
  assert (Es : Int.s32 (token * dim) = token * dim).
  { unfold Int.s32, Int.two32, Int.int_max in *.
    rewrite Z.mod_small by lia. lia. }
  unfold host_floats. rewrite Es.
  destruct (Z.leb_spec 0 (token * dim)); [|lia].
  destruct (Z.leb_spec (token * dim + dim) (Z.of_nat (length a))); [|lia].
  reflexivity.
Qed.

End Effects.

(** Symbolic execution of straight-line host code. *)
Ltac gl_run :=
  cbv beta iota zeta delta
    [mbind mret GL_bind GL_ret modify glBindBuffer glBindBufferBase glUseProgram
     glUniform1i glUniform1f glDispatchCompute glMemoryBarrier GPU_CHECK
     glBufferData glBufferSubData glCopyBufferSubData glMapBufferRange
     glUnmapBuffer];
  cbn [currentStepSize nextStepSize currentBuffer nextBuffer].

Ltac effect_step :=
  lazymatch goal with
  | |- effect _ _ (bind_buffer_base _ _ _) => apply effect_bind_buffer_base
  | |- effect _ _ (set_bound _ _) => apply effect_set_bound
  | |- effect _ _ (set_program _ _) => apply effect_set_program
  | |- effect _ _ (uniform1i _ _ _) => apply effect_uniform1i
  | |- effect _ _ (uniform1f _ _ _) => apply effect_uniform1f
  | |- effect _ _ (dispatch _ _ _ _ _) => apply effect_dispatch
  | |- effect _ _ (buffer_sub_data _ _ _ _) => apply effect_buffer_sub_data
  | |- effect _ _ (copy_buffer_sub_data _ _ _ _ _ _) =>
      apply effect_copy_buffer_sub_data
  end.

(** Projections of a state built by GL calls. *)
Ltac gl_proj :=
  repeat first
    [ rewrite program_uniform1i
    | rewrite program_uniform1f
    | rewrite program_dispatch
    | rewrite program_bind_buffer_base
    | rewrite ssbo_uniform1i
    | rewrite ssbo_uniform1f
    | rewrite ssbo_dispatch
    | rewrite ssbo_copy_buffer_sub_data
    | rewrite ssbo_buffer_sub_data
    | rewrite log_uniform1i
    | rewrite log_uniform1f
    | rewrite uniform_i_dispatch ];
  cbn [gl_program gl_ssbo gl_log gl_bound gl_buffers gl_uniform_i
       set_program set_bound set_ssbo bind_buffer_base].

(** The shape of a logged dispatch, from the uniforms set before it. *)
Ltac uniform_values :=
  repeat (erewrite uniform1i_value; [|gl_proj; reflexivity|reflexivity]);
  repeat first
    [ rewrite decide_True by (split; reflexivity)
    | rewrite decide_False by (intros [? ?]; discriminate) ].

Ltac log_entry :=
  unfold shape; cbn [fmap list_fmap d_program d_groups d_uniforms];
  rewrite ?int_uniforms_eval;
  repeat match goal with
         | |- context [filter ?P (uniform_decls ?sh)] =>
             let v := eval vm_compute in (filter P (uniform_decls sh)) in
             change (filter P (uniform_decls sh)) with v
         end;
  cbn [fmap list_fmap fst snd];
  uniform_values;
  try reflexivity.

(** A block that ends in one dispatch adds one entry to the log. *)
Ltac log_block :=
  eexists; split;
  [ erewrite log_dispatch by (gl_proj; reflexivity); gl_proj; reflexivity
  | log_entry ].

(** Side conditions of [effect_step]. *)
Ltac mem_side :=
  first [ assumption | (left; discriminate) | (right; assumption) | (left; reflexivity)
        | (gl_proj; assumption) ].

Ltac dispatch_side :=
  first
    [ left; first [reflexivity | assumption]
    | right; gl_proj;
      cbv [compile_GPUProgram createComputeProgram compiles];
      cbn [written_bindings];
      repeat constructor; gl_proj;
      repeat (destruct (decide _) as [?|?]; try discriminate; try congruence);
      try assumption ].

Ltac effect_block :=
  repeat (effect_step; [try solve [mem_side | dispatch_side] .. |]);
  try apply effect_refl.


(** * The reduction loops *)

Section Reductions.

Context {F : Type} (ops : FloatOps F).
Variable state : RunState.t.

#[local] Abbreviation State := (GLState F).
#[local] Abbreviation prog := compile_GPUProgram.

Lemma dispatched_refl (st : State) : dispatched st st [].
Proof. exists []. rewrite app_nil_r. auto. Qed.

Lemma dispatched_trans (st1 st2 st3 : State) e1 e2 :
  dispatched st1 st2 e1 -> dispatched st2 st3 e2 -> dispatched st1 st3 (e1 ++ e2).
Proof.
  intros (l1 & H1 & <-) (l2 & H2 & <-). exists (l1 ++ l2).
  rewrite H2, H1, fmap_app, app_assoc. auto.
Qed.

Lemma dispatched_same_log (st st' : State) :
  gl_log st' = gl_log st -> dispatched st st' [].
Proof. intros E. exists []. rewrite app_nil_r. auto. Qed.

Lemma reduce_pass_log sh r out size_y (st : State) :
  sh = shader_sum \/ sh = shader_max ->
  exists st', reduce_pass ops prog sh r out size_y st = Some (tt, st') /\
    dispatched st st'
      [(sh, (nextStepSize r, size_y, 1),
        [("insize", currentStepSize r); ("shape0", nextStepSize r)])].
Proof.
  intros Hsh. unfold reduce_pass. gl_run.
  eexists. split; [reflexivity|].
  eexists. split.
  - destruct Hsh as [-> | ->]; (erewrite log_dispatch; [|gl_proj; reflexivity]);
      gl_proj; reflexivity.
  - destruct Hsh as [-> | ->]; log_entry.
Qed.

(** *** The step sequence *)

Lemma ceil_half_bounds c : 2 <= c -> 1 <= ceil_half c < c.
Proof.
  intros Hc. unfold ceil_half.
  pose proof (Z.div_mod (c + 1) 2 ltac:(lia)).
  pose proof (Z.mod_pos_bound (c + 1) 2 ltac:(lia)). lia.
Qed.

Lemma ceil_half_one : ceil_half 1 = 1.
Proof. reflexivity. Qed.

Lemma ceil_half_pos c : 1 <= c -> 1 <= ceil_half c <= c.
Proof.
  intros Hc. destruct (Z.eq_dec c 1) as [->|]; [rewrite ceil_half_one; lia|].
  pose proof (ceil_half_bounds c). lia.
Qed.

Lemma step_seq_S n i : step_seq n (S i) = ceil_half (step_seq n i).
Proof. reflexivity. Qed.

Lemma step_seq_shift n i : step_seq n (S i) = step_seq (ceil_half n) i.
Proof. unfold step_seq. apply Nat.iter_succ_r. Qed.

Lemma step_seq_pos n i : 1 <= n -> 1 <= step_seq n i.
Proof.
  intros Hn. induction i as [|i IH]; [exact Hn|].
  rewrite step_seq_S. apply ceil_half_pos, IH.
Qed.

(** From [m >= 1] the sequence hits 1 after at most [m - 1] steps. *)
Lemma hitting_time (b : nat) : forall m, 1 <= m -> (Z.to_nat m <= b)%nat ->
  exists d, (d <= Z.to_nat m - 1)%nat /\ step_seq m d = 1 /\
            forall i, (i < d)%nat -> step_seq m i <> 1.
Proof.
  induction b as [|b IH]; intros m Hm Hb; [lia|].
  destruct (Z.eq_dec m 1) as [->|Hne].
  - exists O. repeat split; [lia|]. intros i Hi. lia.
  - pose proof (ceil_half_bounds m ltac:(lia)) as Hc.
    destruct (IH (ceil_half m) ltac:(lia) ltac:(lia)) as (d & Hd & H1 & Hmin).
    exists (S d). rewrite step_seq_shift. repeat split; [lia|exact H1|].
    intros [|i] Hi; [exact Hne|]. rewrite step_seq_shift. apply Hmin. lia.
Qed.

(** The number of passes of a reduction of [n >= 1] values: the first
    index [k >= 1] at which the sequence is 1. *)
Lemma passes_exist n : 1 <= n ->
  exists k, (1 <= k <= Z.to_nat n)%nat /\ step_seq n k = 1 /\
            forall i, (1 <= i < k)%nat -> step_seq n i <> 1.
Proof.
  intros Hn. pose proof (ceil_half_pos n Hn) as Hc.
  destruct (hitting_time (Z.to_nat (ceil_half n)) (ceil_half n) ltac:(lia) ltac:(lia))
    as (d & Hd & H1 & Hmin).
  exists (S d). rewrite step_seq_shift. repeat split; [lia|lia|exact H1|].
  intros [|i] Hi; [lia|]. rewrite step_seq_shift. apply Hmin. lia.
Qed.

(** *** The [while] loops of the reductions *)

(** From pass [j] on, the loop issues the passes [j .. k - 1] and stops
    with [nextStepSize = 1]. *)
Lemma reduce_step_run sh size_y r (st : State) :
  reduce_step ops prog sh size_y r st =
  match reduce_pass ops prog sh (advance r) (nextBuffer (advance r)) size_y st with
  | Some (_, st') => Some (advance r, st')
  | None => None
  end.
Proof. reflexivity. Qed.

Lemma halving_loop sh size_y n k (Hn : 1 <= n)
    (Hsh : sh = shader_sum \/ sh = shader_max)
    (Hk : step_seq n k = 1) :
  forall (d j : nat) fuel r (st : State),
    (j + d = k)%nat ->
    (forall i, (j <= i < k)%nat -> step_seq n i <> 1) ->
    nextStepSize r = step_seq n j ->
    (d < fuel)%nat ->
    exists r' st',
      while_loop fuel not_done (reduce_step ops prog sh size_y) r st = Some (r', st') /\
      nextStepSize r' = 1 /\
      dispatched st st' (passes sh size_y n j d).
Proof.
  induction d as [|d IH]; intros j fuel r st Hjk Hmin Hr Hfuel;
    (destruct fuel as [|fuel]; [lia|]); rewrite while_loop_unfold.
  - assert (j = k) by lia. subst j.
    unfold not_done. rewrite Hr, Hk. simpl.
    exists r, st. repeat split; [congruence|]. apply dispatched_refl.
  - unfold not_done. rewrite Hr.
    pose proof (Hmin j ltac:(lia)) as Hj.
    apply Z.eqb_neq in Hj. rewrite Hj. simpl negb. cbv iota.
    rewrite reduce_step_run.
    destruct (reduce_pass_log sh (advance r) (nextBuffer (advance r)) size_y st Hsh)
      as (st1 & Hrun & Hlog).
    rewrite Hrun.
    destruct (IH (S j) fuel (advance r) st1) as (r' & st' & Hw & Hone & Hlog');
      [lia| intros; apply Hmin; lia | | lia |].
    { cbn [advance nextStepSize]. rewrite Hr, step_seq_S.
      apply halve_spec. pose proof (step_seq_pos n j Hn). lia. }
    exists r', st'. split; [exact Hw|]. split; [exact Hone|].
    replace (passes sh size_y n j (S d))
      with ([pass_shape sh size_y j n] ++ passes sh size_y n (S j) d) by reflexivity.
    eapply dispatched_trans; [|exact Hlog'].
    cbn [advance nextStepSize currentStepSize] in Hlog.
    unfold pass_shape. rewrite step_seq_S, <- Hr.
    rewrite halve_spec in Hlog by (rewrite Hr; pose proof (step_seq_pos n j Hn); lia).
    exact Hlog.
Qed.

(** *** [rmsnorm] and [softmax] *)

Lemma rmsnorm_log n k fuel o x weight weight_offset (st : State) :
  1 <= n -> (1 <= k)%nat -> step_seq n k = 1 ->
  (forall i, (1 <= i < k)%nat -> step_seq n i <> 1) ->
  (k <= fuel)%nat ->
  exists st',
    rmsnorm ops fuel prog state o x weight n weight_offset st = Some (tt, st') /\
    dispatched st st'
      ([(shader_rmsnorm_squares_and_sum, (step_seq n 1, 1, 1), [("insize", n)])]
       ++ passes shader_sum 1 n 1 (k - 1)
       ++ [(normalize_shader o x, (n, 1, 1),
            [("size", n); ("weight_offset", weight_offset)])]).
Proof.
  intros Hn Hk1 Hk Hmin Hfuel. unfold rmsnorm. gl_run.
  match goal with
  | |- context [while_loop _ _ _ ?r ?s] => set (r0 := r); set (s1 := s)
  end.
  destruct (halving_loop shader_sum 1 n k Hn ltac:(auto) Hk (k - 1)%nat 1%nat
              fuel r0 s1) as (r' & st1 & Hw & _ & Hlog);
    [lia | exact Hmin | apply halve_spec; lia | lia |].
  rewrite Hw.
  assert (H1 : dispatched st s1
            [(shader_rmsnorm_squares_and_sum, (step_seq n 1, 1, 1), [("insize", n)])]).
  { subst s1. change (step_seq n 1) with (ceil_half n).
    unfold ceil_half. rewrite <- halve_spec by lia. log_block. }
  unfold normalize_shader.
  destruct (decide (o = x)); (eexists; split; [reflexivity|]);
    (eapply dispatched_trans; [exact H1|]);
    (eapply dispatched_trans; [exact Hlog|]); log_block.
Qed.

Lemma softmax_log n k fuel x size_y (st : State) :
  1 <= n -> (1 <= k)%nat -> step_seq n k = 1 ->
  (forall i, (1 <= i < k)%nat -> step_seq n i <> 1) ->
  (k <= fuel)%nat ->
  exists st',
    softmax ops fuel prog state x n size_y st = Some (tt, st') /\
    dispatched st st'
      (passes shader_max size_y n 0 k
       ++ [pass_shape shader_softmax_exp_and_sum size_y 0 n]
       ++ passes shader_sum size_y n 1 (k - 1)
       ++ [(shader_softmax_normalize, (n, size_y, 1), [("shape0", n)])]).
Proof.
  intros Hn Hk1 Hk Hmin Hfuel. unfold softmax, do_while.
  do 2 rewrite run_bind.
  match goal with
  | |- context [reduce_step _ _ _ _ ?r st] => set (r00 := r)
  end.
  rewrite reduce_step_run.
  destruct (reduce_pass_log shader_max (advance r00) (nextBuffer (advance r00))
              size_y st ltac:(auto)) as (s0 & Hrun0 & Hlog0).
  rewrite Hrun0.
  destruct (halving_loop shader_max size_y n k Hn ltac:(auto) Hk (k - 1)%nat 1%nat
              fuel (advance r00) s0) as (r1 & s1 & Hw1 & _ & Hlog1);
    [lia | exact Hmin | subst r00; cbn [advance nextStepSize]; apply halve_spec; lia
    | lia |].
  rewrite Hw1. gl_run.
  match goal with
  | |- context [while_loop _ _ _ ?r ?s] => set (r2 := r); set (s2 := s)
  end.
  destruct (halving_loop shader_sum size_y n k Hn ltac:(auto) Hk (k - 1)%nat 1%nat
              fuel r2 s2) as (r3 & s3 & Hw3 & _ & Hlog3);
    [lia | exact Hmin | apply halve_spec; lia | lia |].
  rewrite Hw3.
  eexists; split; [reflexivity|].
  replace (passes shader_max size_y n 0 k)
    with ([pass_shape shader_max size_y 0 n] ++ passes shader_max size_y n 1 (k - 1)).
  2:{ destruct k as [|k']; [lia|]. simpl. rewrite Nat.sub_0_r. reflexivity. }
  rewrite <- app_assoc.
  eapply dispatched_trans.
  { cbn [advance nextStepSize currentStepSize r00] in Hlog0.
    unfold pass_shape. change (step_seq n 0) with n.
    change (step_seq n 1) with (ceil_half n).
    unfold ceil_half. rewrite <- halve_spec by lia. exact Hlog0. }
  eapply dispatched_trans; [exact Hlog1|].
  eapply dispatched_trans.
  { instantiate (1 := s2). subst s2.
    unfold pass_shape. change (step_seq n 0) with n.
    change (step_seq n 1) with (ceil_half n).
    unfold ceil_half. rewrite <- halve_spec by lia. log_block. }
  eapply dispatched_trans; [exact Hlog3|].
  log_block.
Qed.

(** *** One output value per row *)

Lemma store_store name i v1 v2 (st : State) :
  store name i v2 (store name i v1 st) = store name i v2 st.
Proof.
  unfold store. destruct (i <? 0) eqn:Hi; [reflexivity|].
  destruct (gl_buffers st !! name) as [buf|] eqn:E; [|rewrite E; reflexivity].
  cbn [gl_buffers set_buffers]. rewrite lookup_insert_eq.
  unfold set_buffers. cbn. rewrite insert_insert_eq, list_insert_insert_eq.
  reflexivity.
Qed.

Lemma wr_wr b i v1 v2 (st : State) : wr b i v2 (wr b i v1 st) = wr b i v2 st.
Proof. unfold wr at 1. rewrite wr_ssbo. unfold wr. apply store_store. Qed.

Lemma work_groups_one_per_row rows :
  work_groups 1 rows 1 = (fun y => (0, y, 0)) <$> seqZ 0 rows.
Proof.
  unfold work_groups. change (seqZ 0 1) with [0]. cbn [mbind list_bind].
  rewrite app_nil_r.
  induction (seqZ 0 rows) as [|y l IH]; [reflexivity|].
  cbn [mbind list_bind fmap list_fmap] in *. rewrite IH. reflexivity.
Qed.

(** With one work group per row and [shape0 = 1] the invocation of row
    [y] writes the element [y] of the output, and nothing else. *)
Lemma one_value_per_row sh y (st : State) :
  sh ∈ [shader_sum; shader_max; shader_softmax_exp_and_sum] ->
  gl_uniform_i st sh "shape0" = 1 ->
  exists v, kernel_main ops (0, y, 0) sh st = wr (out_binding sh) y v st.
Proof.
  intros Hsh H1.
  assert (Hy : 0 + 1 * y = y) by lia.
  apply list_elem_of_In in Hsh. destruct Hsh as [<-|[<-|[<-|[]]]];
    cbn [kernel_main out_binding];
    unfold main_sum, main_max, main_softmax_exp_and_sum; cbv zeta;
    cbn [fst snd]; rewrite H1, Hy;
    repeat match goal with
           | |- context [if ?c then _ else _] => destruct c
           end;
    rewrite ?wr_wr; eauto.
Qed.

(** The first kernel of [rmsnorm] has one row and, dispatched on one work
    group, writes the element 0. *)
Lemma squares_one_value (st : State) :
  exists v, kernel_main ops (0, 0, 0) shader_rmsnorm_squares_and_sum st = wr 1 0 v st.
Proof.
  cbn [kernel_main]. unfold main_rmsnorm_squares_and_sum. cbv zeta. cbn [fst snd].
  match goal with
  | |- context [if ?c then _ else _] => destruct c
  end; rewrite ?wr_wr; eauto.
Qed.

End Reductions.

(** C8.  For every reduction length [n >= 1] the loops of [rmsnorm] and
    [softmax] return; the passes they dispatch follow the step sizes
    [n, ⌈n/2⌉, ⌈⌈n/2⌉/2⌉, ...] up to the first index [k >= 1] at which the
    sequence is 1 (the sum loop of [rmsnorm] after the squares kernel, the
    max loop and the sum loop of [softmax]); the last pass runs one work
    group per row with [shape0 = 1], and such an invocation writes exactly
    the element of its row. *)
Theorem reduction_step_sequence {F : Type} (ops : FloatOps F) (n : Z) :
  1 <= n ->
  exists k : nat,
    (1 <= k <= Z.to_nat n)%nat /\
    step_seq n k = 1 /\
    (forall i, (1 <= i < k)%nat -> step_seq n i <> 1) /\
    (forall fuel state (st : GLState F), (k <= fuel)%nat ->
       (forall o x weight weight_offset, exists st',
          rmsnorm ops fuel compile_GPUProgram state o x weight n weight_offset st
            = Some (tt, st') /\
          dispatched st st' (rmsnorm_shapes o x n weight_offset k)) /\
       (forall x size_y, exists st',
          softmax ops fuel compile_GPUProgram state x n size_y st = Some (tt, st') /\
          dispatched st st' (softmax_shapes n size_y k))) /\
    (forall sh rows,
       pass_shape sh rows (k - 1) n =
       (sh, (1, rows, 1), [("insize", step_seq n (k - 1)); ("shape0", 1)])) /\
    (forall rows, work_groups 1 rows 1 = (fun y => (0, y, 0)) <$> seqZ 0 rows) /\
    (forall sh y (st : GLState F),
       sh ∈ [shader_sum; shader_max; shader_softmax_exp_and_sum] ->
       gl_uniform_i st sh "shape0" = 1 ->
       exists v, kernel_main ops (0, y, 0) sh st = wr (out_binding sh) y v st).
Proof.
  intros Hn. destruct (passes_exist n Hn) as (k & Hk & H1 & Hmin).
  exists k. split; [exact Hk|]. split; [exact H1|]. split; [exact Hmin|].
  split; [|split; [|split]].
  - intros fuel state st Hfuel. split.
    + intros o x weight weight_offset.
      apply rmsnorm_log; auto; lia.
    + intros x size_y. apply softmax_log; auto; lia.
  - intros sh rows. unfold pass_shape.
    replace (S (k - 1)) with k by lia. rewrite H1. reflexivity.
  - apply work_groups_one_per_row.
  - intros sh y st. apply one_value_per_row.
Qed.

Lemma reduction_step_sequence_witness :
  exists k : nat, (1 <= k <= 5)%nat /\ step_seq 5 k = 1.
Proof.
  destruct (reduction_step_sequence R_ops 5) as (k & Hk & H1 & _).
  - lia.
  - exists k. split; [exact Hk | exact H1].
Defined.

(** * What the forward pass writes *)

Section Frames.

Context {F : Type} (ops : FloatOps F).
Variable state : RunState.t.
Variable W : list GLuint.

#[local] Abbreviation State := (GLState F).
#[local] Abbreviation prog := compile_GPUProgram.

Lemma accum_effect a b size (st : State) :
  a ∈ W ->
  exists st', accum ops prog a b size st = Some (tt, st') /\ effect W st st'.
Proof.
  intros Ha. unfold accum. gl_run. eexists; split; [reflexivity|].
  effect_block.
Qed.

Lemma matmul_effect xout x w n d x_offset w_offset (st : State) :
  xout ∈ W ->
  exists st', matmul ops prog xout x w n d x_offset w_offset st = Some (tt, st') /\
              effect W st st'.
Proof.
  intros Ha. unfold matmul. gl_run. eexists; split; [reflexivity|].
  effect_block.
Qed.

Lemma reduce_pass_effect sh r out size_y (st : State) :
  sh = shader_sum \/ sh = shader_max ->
  size_y = 0 \/ out ∈ W ->
  exists st', reduce_pass ops prog sh r out size_y st = Some (tt, st') /\
              effect W st st'.
Proof.
  intros Hsh Hout. unfold reduce_pass. gl_run. eexists; split; [reflexivity|].
  destruct Hsh as [-> | ->]; destruct Hout as [-> | Hout]; effect_block.
Qed.

(** A loop of halving passes returns when it starts from a positive step
    size; it writes the buffers of its passes. *)
Lemma halving_loop_effect (body : Reduce -> GL F Reduce) (Bufs : Reduce -> Prop) :
  (forall r, Bufs r -> Bufs (advance r)) ->
  (forall r (st : State), Bufs r ->
     exists st', body r st = Some (advance r, st') /\ effect W st st') ->
  forall fuel r (st : State),
    Bufs r -> 1 <= nextStepSize r -> (Z.to_nat (nextStepSize r) < fuel)%nat ->
    exists r' st', while_loop fuel not_done body r st = Some (r', st') /\
                   effect W st st' /\ Bufs r' /\ nextStepSize r' = 1.
Proof.
  intros Hadv Hbody fuel r st HB H1 Hfuel.
  destruct (while_loop_total
              (fun r' st' => effect W st st' /\ Bufs r' /\ 1 <= nextStepSize r')
              (fun r' => Z.to_nat (nextStepSize r')) not_done body)
    with (fuel := fuel) (s := r) (st := st)
    as (r' & st' & Hw & (He & HB' & H1') & Hc).
  - intros r1 st1 (He & HB1 & Hn1) Hc.
    unfold not_done in Hc. apply negb_true_iff, Z.eqb_neq in Hc.
    destruct (Hbody r1 st1 HB1) as (st2 & Hrun & He2).
    exists (advance r1), st2. split; [exact Hrun|].
    pose proof (halve_bounds (nextStepSize r1) ltac:(lia)) as Hh.
    cbn [advance nextStepSize]. split; [split; [|split]|].
    + eapply effect_trans; eassumption.
    + apply Hadv, HB1.
    + lia.
    + lia.
  - split; [apply effect_refl|]. split; [exact HB | exact H1].
  - exact Hfuel.
  - exists r', st'. split; [exact Hw|]. split; [exact He|]. split; [exact HB'|].
    unfold not_done in Hc. apply negb_false_iff, Z.eqb_eq in Hc. exact Hc.
Qed.

Lemma pingpong_advance size_y r :
  pingpong W size_y r -> pingpong W size_y (advance r).
Proof. intros [?|[? ?]]; [left|right]; cbn [advance currentBuffer nextBuffer]; auto. Qed.

Lemma reduce_step_effect sh size_y r (st : State) :
  sh = shader_sum \/ sh = shader_max ->
  pingpong W size_y r ->
  exists st', reduce_step ops prog sh size_y r st = Some (advance r, st') /\
              effect W st st'.
Proof.
  intros Hsh HB. rewrite reduce_step_run.
  destruct (reduce_pass_effect sh (advance r) (nextBuffer (advance r)) size_y st Hsh)
    as (st' & -> & He).
  - destruct HB as [?|[? ?]]; [left|right]; cbn [advance nextBuffer]; auto.
  - eauto.
Qed.

Lemma softmax_effect fuel x size_x size_y (st : State) :
  size_y = 0 \/
  (x ∈ W /\ RunState.mulBuffer_1 state ∈ W /\ RunState.mulBuffer_2 state ∈ W /\
   RunState.mulBuffer_3 state ∈ W) ->
  1 <= size_x -> (Z.to_nat size_x < fuel)%nat ->
  exists st',
    softmax ops fuel prog state x size_x size_y st = Some (tt, st') /\
    effect W st st'.
Proof.
  intros Hx Hsize Hfuel. unfold softmax, do_while.
  pose proof (halve_pos size_x Hsize) as Hh.
  assert (Hle : Int.halve size_x <= size_x).
  { rewrite halve_spec by lia. pose proof (ceil_half_pos size_x Hsize) as Hc.
    unfold ceil_half in Hc. lia. }
  do 2 rewrite run_bind.
  match goal with
  | |- context [reduce_step _ _ _ _ ?r st] => set (r00 := r)
  end.
  assert (HB00 : pingpong W size_y r00).
  { destruct Hx as [?|(? & ? & ? & ?)]; [left|right]; auto. }
  destruct (reduce_step_effect shader_max size_y r00 st ltac:(auto) HB00)
    as (s0 & -> & He0).
  destruct (halving_loop_effect (reduce_step ops prog shader_max size_y)
              (pingpong W size_y) (pingpong_advance size_y)
              (fun r st => reduce_step_effect shader_max size_y r st ltac:(auto))
              fuel (advance r00) s0) as (r1 & s1 & Hw1 & He1 & HB1 & _).
  { apply pingpong_advance, HB00. }
  { exact Hh. }
  { cbn [r00 advance nextStepSize]. lia. }
  rewrite Hw1. gl_run.
  match goal with
  | |- context [while_loop _ _ _ ?r ?s] => set (r2 := r); set (s2 := s)
  end.
  assert (HB2 : pingpong W size_y r2).
  { destruct HB1 as [?|[? ?]]; [left; assumption|].
    destruct Hx as [?|(? & ? & ? & ?)]; [left; assumption|].
    right. cbn [r2 currentBuffer nextBuffer]. auto. }
  assert (He2 : effect W s1 s2).
  { subst s2. destruct Hx as [-> | (? & ? & ? & ?)]; effect_block. }
  destruct (halving_loop_effect (reduce_step ops prog shader_sum size_y)
              (pingpong W size_y) (pingpong_advance size_y)
              (fun r st => reduce_step_effect shader_sum size_y r st ltac:(auto))
              fuel r2 s2) as (r3 & s3 & Hw3 & He3 & HB3 & _).
  { exact HB2. }
  { exact Hh. }
  { cbn [r2 nextStepSize]. lia. }
  rewrite Hw3. eexists; split; [reflexivity|].
  eapply effect_trans; [exact He0|]. eapply effect_trans; [exact He1|].
  eapply effect_trans; [exact He2|]. eapply effect_trans; [exact He3|].
  destruct Hx as [-> | (? & ? & ? & ?)]; effect_block.
Qed.

Hypothesis Hm1 : RunState.mulBuffer_1 state ∈ W.
Hypothesis Hm2 : RunState.mulBuffer_2 state ∈ W.
Hypothesis Hm3 : RunState.mulBuffer_3 state ∈ W.
Hypothesis Hm4 : RunState.mulBuffer_4 state ∈ W.

Lemma rmsnorm_effect fuel o x weight size weight_offset (st : State) :
  o ∈ W -> 1 <= size -> (Z.to_nat size < fuel)%nat ->
  exists st',
    rmsnorm ops fuel prog state o x weight size weight_offset st = Some (tt, st') /\
    effect W st st' /\ (o <> x -> gl_ssbo st' 3%nat = o).
Proof.
  intros Ho Hsize Hfuel. unfold rmsnorm. gl_run.
  match goal with
  | |- context [while_loop _ _ _ ?r ?s] => set (r0 := r); set (s1 := s)
  end.
  pose proof (halve_pos size Hsize) as Hh.
  assert (Hle : Int.halve size <= size).
  { rewrite halve_spec by lia. pose proof (ceil_half_pos size Hsize) as Hc.
    unfold ceil_half in Hc. lia. }
  destruct (halving_loop_effect (reduce_step ops prog shader_sum 1) (pingpong W 1)
              (pingpong_advance 1)
              (fun r st => reduce_step_effect shader_sum 1 r st ltac:(auto))
              fuel r0 s1) as (r' & st1 & Hw & He & HB & _).
  { right. split; assumption. }
  { exact Hh. }
  { cbn [r0 nextStepSize]. lia. }
  rewrite Hw.
  assert (He0 : effect W st s1) by (subst s1; effect_block).
  destruct HB as [?|[HB1 HB2]]; [lia|].
  destruct (decide (o = x)) as [->|Hne]; (eexists; split; [reflexivity|]); split.
  - eapply effect_trans; [exact He0|]. eapply effect_trans; [exact He|].
    effect_block.
  - congruence.
  - eapply effect_trans; [exact He0|]. eapply effect_trans; [exact He|].
    effect_block.
  - intros _. gl_proj. reflexivity.
Qed.

Lemma transformer_softmax_effect fuel x pos seq_len n_heads (st : State) :
  x ∈ W -> 0 <= pos -> (Z.to_nat (pos + 1) < fuel)%nat ->
  exists st',
    transformer_softmax ops fuel prog state x pos seq_len n_heads st = Some (tt, st') /\
    effect W st st'.
Proof.
  intros Hx Hpos Hfuel. unfold transformer_softmax. gl_run.
  match goal with
  | |- context [softmax _ _ _ _ _ _ _ ?s] => set (s1 := s)
  end.
  assert (He1 : effect W st s1) by (subst s1; effect_block).
  destruct (softmax_effect fuel (RunState.mulBuffer_4 state) (pos + 1) n_heads s1)
    as (s2 & -> & He2); [auto 6 | lia | lia |].
  eexists; split; [reflexivity|].
  eapply effect_trans; [exact He1|]. eapply effect_trans; [exact He2|].
  effect_block.
Qed.

Lemma transformer_sum_step_effect xb head_size n_heads r (st : State) :
  xb ∈ W -> currentBuffer r ∈ W /\ nextBuffer r ∈ W ->
  exists st', transformer_sum_step ops prog xb head_size n_heads r st
                = Some (advance r, st') /\ effect W st st'.
Proof.
  intros Hxb [Hc Hn]. unfold transformer_sum_step. rewrite run_bind.
  destruct (reduce_pass_effect shader_sum (advance r)
              (if nextStepSize (advance r) =? 1 then xb else nextBuffer (advance r))
              (n_heads * head_size) st ltac:(auto)) as (st' & -> & He).
  - right. destruct (_ =? 1); [exact Hxb | exact Hc].
  - eauto.
Qed.

Lemma transformer_sum_effect fuel xb attMat pos head_size n_heads (st : State) :
  xb ∈ W -> attMat ∈ W -> 1 <= pos -> (Z.to_nat pos < fuel)%nat ->
  exists st',
    transformer_sum ops fuel prog state xb attMat pos head_size n_heads st
      = Some (tt, st') /\
    effect W st st'.
Proof.
  intros Hxb Hatt Hpos Hfuel. unfold transformer_sum. rewrite run_bind.
  match goal with
  | |- context [while_loop _ _ _ ?r st] => set (r0 := r)
  end.
  destruct (halving_loop_effect (transformer_sum_step ops prog xb head_size n_heads)
              (fun r => currentBuffer r ∈ W /\ nextBuffer r ∈ W)
              (fun r H => conj (proj2 H) (proj1 H))
              (fun r st H => transformer_sum_step_effect xb head_size n_heads r st Hxb H)
              fuel r0 st) as (r' & st' & -> & He & _).
  - split; assumption.
  - exact Hpos.
  - exact Hfuel.
  - eexists; split; [reflexivity | exact He].
Qed.

Hypothesis Hx : RunState.x state ∈ W.
Hypothesis Hxb : RunState.xb state ∈ W.
Hypothesis Hxb2 : RunState.xb2 state ∈ W.
Hypothesis Hhb : RunState.hb state ∈ W.
Hypothesis Hhb2 : RunState.hb2 state ∈ W.
Hypothesis Hq : RunState.q state ∈ W.
Hypothesis Hk : RunState.k state ∈ W.
Hypothesis Hv : RunState.v state ∈ W.
Hypothesis Hatt : RunState.att state ∈ W.
Hypothesis Hlogits : RunState.logits state ∈ W.

(** The RoPE dispatch writes through binding points 2 and 3. *)
Lemma rope_effect pos p w (st : State) :
  gl_ssbo st 3%nat ∈ W ->
  exists st', rope ops prog state pos p w st = Some (tt, st') /\ effect W st st'.
Proof.
  intros H3. unfold rope. gl_run. eexists; split; [reflexivity|].
  effect_block.
Qed.

Lemma attention_scores_effect pos p l (st : State) :
  exists st', attention_scores ops prog state pos p l st = Some (tt, st') /\
              effect W st st'.
Proof.
  unfold attention_scores. gl_run. eexists; split; [reflexivity|].
  effect_block.
Qed.

Lemma build_attMat_effect pos p l (st : State) :
  exists st', build_attMat ops prog state pos p l st = Some (tt, st') /\
              effect W st st'.
Proof.
  unfold build_attMat. gl_run. eexists; split; [reflexivity|].
  effect_block.
Qed.

Lemma silu_and_mulW3_effect p (st : State) :
  exists st', silu_and_mulW3 ops prog state p st = Some (tt, st') /\
              effect W st st'.
Proof.
  unfold silu_and_mulW3. gl_run. eexists; split; [reflexivity|].
  effect_block.
Qed.

Lemma effect_binding3 (st st' : State) :
  effect W st st' -> gl_ssbo st 3%nat ∈ W -> gl_ssbo st' 3%nat ∈ W.
Proof. intros [_ [->|H]] H3; assumption. Qed.

(** *** The caches *)

Hypothesis Hkc : RunState.key_cache state ∉ W.
Hypothesis Hvc : RunState.value_cache state ∉ W.
Hypothesis Hkv : RunState.key_cache state <> RunState.value_cache state.

Variable slab : nat -> Prop.

Lemma kv_frame_refl (st : State) : kv_frame state W slab st st.
Proof. repeat split; auto. Qed.

Lemma kv_frame_trans (st1 st2 st3 : State) :
  kv_frame state W slab st1 st2 -> kv_frame state W slab st2 st3 ->
  kv_frame state W slab st1 st3.
Proof.
  intros (Ha & Hb & Hc) (Ha' & Hb' & Hc'). split; [|split].
  - intros i Hi. rewrite Ha', Ha; auto.
  - intros i Hi. rewrite Hb', Hb; auto.
  - destruct Hc' as [->|]; auto.
Qed.

Lemma effect_kv_frame (st st' : State) :
  effect W st st' -> kv_frame state W slab st st'.
Proof.
  intros [Hb H3]. unfold kv_frame, data_of. rewrite !Hb by assumption. auto.
Qed.

Lemma kv_frame_binding3 (st st' : State) :
  kv_frame state W slab st st' -> gl_ssbo st 3%nat ∈ W -> gl_ssbo st' 3%nat ∈ W.
Proof. intros (_ & _ & [->|H]) H3; assumption. Qed.

(** [save_kv] passes the names of [k] and [key_cache], and of [v] and
    [value_cache], as the targets of its copies: with different names
    both calls raise an error and no buffer changes. *)
Lemma save_kv_copies_nothing pos p l (st : State) :
  RunState.k state <> RunState.key_cache state ->
  RunState.v state <> RunState.value_cache state ->
  save_kv state pos p l st = Some (tt, st).
Proof.
  intros Hk' Hv'. unfold save_kv. gl_run.
  rewrite !copy_buffer_sub_data_targets by assumption. reflexivity.
Qed.

Lemma save_kv_frame pos p l (st : State) :
  exists st', save_kv state pos p l st = Some (tt, st') /\
              kv_frame state W slab st st'.
Proof.
  exists st. split; [|apply kv_frame_refl].
  apply save_kv_copies_nothing.
  - intros E. apply Hkc. rewrite <- E. exact Hk.
  - intros E. apply Hvc. rewrite <- E. exact Hv.
Qed.

(** [for (l = lo; l < hi; l++)] of bodies that return. *)
Lemma for_range_total (R : State -> State -> Prop) lo hi (body : Z -> GL F unit) :
  (forall st, R st st) ->
  (forall st1 st2 st3, R st1 st2 -> R st2 st3 -> R st1 st3) ->
  (forall l st, lo <= l < hi -> exists st', body l st = Some (tt, st') /\ R st st') ->
  forall st, exists st', for_range lo hi body st = Some (tt, st') /\ R st st'.
Proof.
  intros Hrefl Htrans Hbody. unfold for_range.
  assert (Hall : Forall (fun l => lo <= l < hi) (seqZ lo (hi - lo))).
  { apply Forall_forall. intros l Hl. apply elem_of_seqZ in Hl. lia. }
  induction Hall as [|l ls Hl _ IH]; intros st; cbn [foldr].
  - eexists; split; [reflexivity | apply Hrefl].
  - rewrite run_bind. destruct (Hbody l st Hl) as (s1 & -> & H1).
    destruct (IH s1) as (s2 & H2 & HR). exists s2. split; [exact H2|].
    eapply Htrans; eassumption.
Qed.

Hypothesis Hxbx : RunState.xb state <> RunState.x state.

(** Extend the frame accumulated in [Hacc] by the effect [He]. *)
Ltac kv_next Hacc He :=
  let H := fresh "H" in
  pose proof (kv_frame_trans _ _ _ Hacc (effect_kv_frame _ _ He)) as H;
  clear Hacc He; rename H into Hacc.

(** One layer of the forward pass at position [pos] returns, and in the
    caches it changes at most the slab of the layer. *)
Lemma transformer_layer_kv fuel pos p w l (st : State) :
  (forall i : nat,
     l * Config.seq_len p * Config.dim p + pos * Config.dim p <= Z.of_nat i
       < l * Config.seq_len p * Config.dim p + pos * Config.dim p + Config.dim p ->
     slab i) ->
  1 <= Config.dim p -> 0 <= Config.seq_len p -> 0 <= l -> 0 <= pos ->
  (Z.to_nat (Config.dim p) < fuel)%nat -> (Z.to_nat (pos + 2) < fuel)%nat ->
  exists st', transformer_layer ops fuel prog state pos p w l st = Some (tt, st') /\
              kv_frame state W slab st st'.
Proof.
  intros Hslab Hdim Hseq Hl Hpos Hf1 Hf2. unfold transformer_layer. cbv zeta.
  pose proof (kv_frame_refl st) as Hacc.
  rewrite run_bind.
  destruct (rmsnorm_effect fuel (RunState.xb state) (RunState.x state)
              (Weights.rms_att_weight w) (Config.dim p) (l * Config.dim p) st)
    as (s1 & -> & He & H3); [assumption | lia | lia |].
  specialize (H3 Hxbx). assert (HB : gl_ssbo s1 3%nat ∈ W) by (rewrite H3; exact Hxb).
  clear H3. kv_next Hacc He.
  rewrite run_bind.
  destruct (matmul_effect (RunState.q state) (RunState.xb state) (Weights.wq w)
              (Config.dim p) (Config.dim p) 0 (l * Config.dim p * Config.dim p) s1 Hq)
    as (s2 & -> & He).
  apply (effect_binding3 _ _ He) in HB. kv_next Hacc He.
  rewrite run_bind.
  destruct (matmul_effect (RunState.k state) (RunState.xb state) (Weights.wk w)
              (Config.dim p) (Config.dim p) 0 (l * Config.dim p * Config.dim p) s2 Hk)
    as (s3 & -> & He).
  apply (effect_binding3 _ _ He) in HB. kv_next Hacc He.
  rewrite run_bind.
  destruct (matmul_effect (RunState.v state) (RunState.xb state) (Weights.wv w)
              (Config.dim p) (Config.dim p) 0 (l * Config.dim p * Config.dim p) s3 Hv)
    as (s4 & -> & He).
  apply (effect_binding3 _ _ He) in HB. kv_next Hacc He.
  rewrite run_bind.
  destruct (rope_effect pos p w s4 HB) as (s5 & -> & He).
  clear HB. kv_next Hacc He.
  rewrite run_bind.
  destruct (save_kv_frame pos p l s5) as (s6 & -> & He).
  pose proof (kv_frame_trans _ _ _ Hacc He) as Hacc'. clear Hacc He.
  rename Hacc' into Hacc.
  rewrite run_bind.
  destruct (attention_scores_effect pos p l s6) as (s7 & -> & He).
  kv_next Hacc He.
  rewrite run_bind.
  destruct (transformer_softmax_effect fuel (RunState.att state) (pos + 1)
              (Config.seq_len p) (Config.n_heads p) s7 Hatt ltac:(lia)
              ltac:(replace (pos + 1 + 1) with (pos + 2) by lia; exact Hf2))
    as (s8 & -> & He).
  kv_next Hacc He.
  rewrite run_bind.
  destruct (build_attMat_effect pos p l s8) as (s9 & -> & He).
  kv_next Hacc He.
  rewrite run_bind.
  destruct (transformer_sum_effect fuel (RunState.xb state) (RunState.mulBuffer_4 state)
              (pos + 1) (Z.quot (Config.dim p) (Config.n_heads p)) (Config.n_heads p)
              s9 Hxb Hm4 ltac:(lia) ltac:(lia))
    as (s10 & -> & He).
  kv_next Hacc He.
  rewrite run_bind.
  destruct (matmul_effect (RunState.xb2 state) (RunState.xb state) (Weights.wo w)
              (Config.dim p) (Config.dim p) 0 (l * Config.dim p * Config.dim p) s10 Hxb2)
    as (s11 & -> & He).
  kv_next Hacc He.
  rewrite run_bind.
  destruct (accum_effect (RunState.x state) (RunState.xb2 state) (Config.dim p) s11 Hx)
    as (s12 & -> & He).
  kv_next Hacc He.
  rewrite run_bind.
  destruct (rmsnorm_effect fuel (RunState.xb state) (RunState.x state)
              (Weights.rms_ffn_weight w) (Config.dim p) (l * Config.dim p) s12)
    as (s13 & -> & He & _); [assumption | lia | lia |].
  kv_next Hacc He.
  rewrite run_bind.
  destruct (matmul_effect (RunState.hb state) (RunState.xb state) (Weights.w1 w)
              (Config.dim p) (Config.hidden_dim p) 0
              (l * Config.dim p * Config.hidden_dim p) s13 Hhb)
    as (s14 & -> & He).
  kv_next Hacc He.
  rewrite run_bind.
  destruct (matmul_effect (RunState.hb2 state) (RunState.xb state) (Weights.w3 w)
              (Config.dim p) (Config.hidden_dim p) 0
              (l * Config.dim p * Config.hidden_dim p) s14 Hhb2)
    as (s15 & -> & He).
  kv_next Hacc He.
  rewrite run_bind.
  destruct (silu_and_mulW3_effect p s15) as (s16 & -> & He).
  kv_next Hacc He.
  rewrite run_bind.
  destruct (matmul_effect (RunState.xb state) (RunState.hb state) (Weights.w2 w)
              (Config.hidden_dim p) (Config.dim p) 0
              (l * Config.dim p * Config.hidden_dim p) s16 Hxb)
    as (s17 & -> & He).
  kv_next Hacc He.
  destruct (accum_effect (RunState.x state) (RunState.xb state) (Config.dim p) s17 Hx)
    as (s18 & -> & He).
  kv_next Hacc He.
  exists s18. split; [reflexivity | exact Hacc].
Qed.

(** The forward pass returns and changes the caches at most in the slabs
    of position [pos]. *)
Lemma transformer_kv fuel token pos p w (st : State) :
  (forall i, in_slab p pos i -> slab i) ->
  1 <= Config.dim p -> 0 <= Config.seq_len p -> 0 <= pos ->
  0 <= token < Config.vocab_size p ->
  Config.vocab_size p * Config.dim p <= Int.int_max ->
  Config.vocab_size p * Config.dim p
    <= Z.of_nat (length (Weights.token_embedding_table w)) ->
  (Z.to_nat (Config.dim p) < fuel)%nat -> (Z.to_nat (pos + 2) < fuel)%nat ->
  exists st', transformer ops fuel prog state token pos p w st = Some (tt, st') /\
              kv_frame state W slab st st'.
Proof.
  intros Hslab Hdim Hseq Hpos Htok Hint Htab Hf1 Hf2. unfold transformer.
  rewrite run_bind, (host_floats_row _ token (Config.dim p) (Config.vocab_size p)) by (assumption || lia). gl_run.
  match goal with
  | |- context [for_range _ _ _ ?s] => set (s0 := s)
  end.
  assert (He0 : effect W st s0) by (subst s0; effect_block).
  pose proof (effect_kv_frame _ _ He0) as Hacc. clear He0.
  destruct (for_range_total (kv_frame state W slab) 0 (Config.n_layers p)
              (transformer_layer ops fuel prog state pos p w)
              kv_frame_refl kv_frame_trans) with (st := s0) as (s1 & -> & He).
  { intros l s Hl. apply transformer_layer_kv; try lia.
    intros i Hi. apply Hslab. exists l. split; [lia | exact Hi]. }
  pose proof (kv_frame_trans _ _ _ Hacc He) as Hacc'. clear Hacc He.
  rename Hacc' into Hacc.
  destruct (rmsnorm_effect fuel (RunState.x state) (RunState.x state)
              (Weights.rms_final_weight w) (Config.dim p) 0 s1)
    as (s2 & -> & He & _); [assumption | lia | lia |].
  kv_next Hacc He.
  destruct (matmul_effect (RunState.logits state) (RunState.x state) (Weights.wcls w)
              (Config.dim p) (Config.vocab_size p) 0 0 s2 Hlogits)
    as (s3 & -> & He).
  kv_next Hacc He.
  exists s3. split; [reflexivity | exact Hacc].
Qed.

(** *** The samplers *)

Lemma argmax_pass_effect in_v a (st : State) :
  currentBuffer_i a ∈ W -> nextBuffer_i a ∈ W ->
  exists st', argmax_pass ops prog in_v a st = Some (tt, st') /\ effect W st st'.
Proof.
  intros Hc Hn. unfold argmax_pass. gl_run. eexists; split; [reflexivity|].
  effect_block.
Qed.

Lemma argmax_effect fuel probabilities n (st : State) :
  1 <= n -> (Z.to_nat n < fuel)%nat ->
  exists res st', argmax ops fuel prog state probabilities n st = Some (res, st') /\
                  effect W st st'.
Proof.
  intros Hn Hfuel. unfold argmax. gl_run.
  match goal with
  | |- context [argmax_pass _ _ _ ?a _] => set (a0 := a)
  end.
  match goal with
  | |- context [argmax_pass _ _ _ _ ?s] => set (s0 := s)
  end.
  assert (He0 : effect W st s0) by (subst s0; effect_block).
  destruct (argmax_pass_effect probabilities a0 s0 Hm2 Hm4) as (s1 & -> & He1).
  pose proof (halve_pos n Hn) as Hh.
  assert (Hle : Int.halve n <= n).
  { rewrite halve_spec by lia. pose proof (ceil_half_pos n Hn) as Hc.
    unfold ceil_half in Hc. lia. }
  destruct (while_loop_total
              (fun a s => effect W s1 s /\ 1 <= a_nextStepSize a /\
                          currentBuffer_i a ∈ W /\ nextBuffer_i a ∈ W)
              (fun a => Z.to_nat (a_nextStepSize a))
              (fun a => negb (a_nextStepSize a =? 1)) (argmax_step ops prog))
    with (fuel := fuel) (s := a0) (st := s1)
    as (a' & s2 & -> & (He2 & _ & _ & _) & _).
  - intros a s (He & H1 & Hc & Hn') Hcond.
    apply negb_true_iff, Z.eqb_neq in Hcond.
    unfold argmax_step. rewrite run_bind.
    match goal with
    | |- context [argmax_pass _ _ ?v ?a' s] =>
        destruct (argmax_pass_effect v a' s Hn' Hc) as (s' & -> & He')
    end.
    eexists _, s'. split; [reflexivity|].
    pose proof (halve_bounds (a_nextStepSize a) ltac:(lia)).
    cbn [a_nextStepSize currentBuffer_i nextBuffer_i].
    split; [split; [|split; [|split]]|]; auto; try lia.
    eapply effect_trans; eassumption.
  - split; [apply effect_refl|]. cbn [a0 a_nextStepSize currentBuffer_i nextBuffer_i].
    auto.
  - cbn [a0 a_nextStepSize]. lia.
  - eexists _, _. split; [reflexivity|].
    eapply effect_trans; [exact He0|]. eapply effect_trans; [exact He1|].
    eapply effect_trans; [exact He2|]. effect_block.
Qed.

Lemma apply_temperature_effect fuel config temperature (st : State) :
  1 <= Config.vocab_size config -> (Z.to_nat (Config.vocab_size config) < fuel)%nat ->
  exists st', apply_temperature ops fuel prog state config temperature st
                = Some (tt, st') /\
              effect W st st'.
Proof.
  intros Hn Hfuel. unfold apply_temperature. gl_run.
  match goal with
  | |- context [softmax _ _ _ _ _ _ _ ?s] => set (s0 := s)
  end.
  assert (He0 : effect W st s0) by (subst s0; effect_block).
  destruct (softmax_effect fuel (RunState.logits state) (Config.vocab_size config) 0 s0)
    as (s1 & -> & He1); [auto | lia | lia |].
  eexists; split; [reflexivity|].
  eapply effect_trans; eassumption.
Qed.

Lemma sample_effect probabilities_gpu n seed (st : State) :
  exists res st', sample ops probabilities_gpu n seed st = Some (res, st') /\
                  effect W st st'.
Proof.
  unfold sample. gl_run.
  destruct (map_buffer_range 0 (n * sizeof_float) (set_bound probabilities_gpu st));
    [destruct (sample_host ops _ n seed)|];
    (eexists _, _; split; [reflexivity|]; effect_block).
Qed.

Lemma sample_topp_effect probabilities_gpu n topp seed (st : State) :
  exists res st', sample_topp ops probabilities_gpu n topp seed st = Some (res, st') /\
                  effect W st st'.
Proof.
  unfold sample_topp. gl_run.
  destruct (map_buffer_range 0 (n * sizeof_float) (set_bound probabilities_gpu st));
    [destruct (sample_topp_host ops _ n topp seed)|];
    (eexists _, _; split; [reflexivity|]; effect_block).
Qed.

End Frames.


(** * The KV cache *)

Lemma cache_index_not_in_slab (p : Config.t) (pos l t j : Z) :
  0 <= l -> 0 <= t < Config.seq_len p -> 0 <= pos < Config.seq_len p ->
  0 <= j < Config.dim p -> t <> pos ->
  ~ in_slab p pos (cache_index p l t j).
Proof.
  intros Hl Ht Hpos Hj Hne (l' & Hl' & Hlo & Hhi).
  unfold cache_index in *.
  set (S := Config.seq_len p) in *. set (D := Config.dim p) in *.
  assert (H0 : 0 <= l * S * D) by (repeat apply Z.mul_nonneg_nonneg; lia).
  assert (H1 : 0 <= t * D) by (apply Z.mul_nonneg_nonneg; lia).
  rewrite Z2Nat.id in Hlo, Hhi by lia.
  assert (Hlo' : (l' * S + pos) * D < (l * S + t + 1) * D) by lia.
  assert (Hhi' : (l * S + t) * D < (l' * S + pos + 1) * D) by lia.
  apply Z.mul_lt_mono_pos_r in Hlo'; [|lia].
  apply Z.mul_lt_mono_pos_r in Hhi'; [|lia].
  assert (Hab : (l - l') * S = pos - t) by lia.
  assert (l = l') by nia. subst l'. lia.
Qed.

Lemma names_distinct (s : RunState.t) :
  NoDup (RunState.names s) ->
  Forall (fun h => h ∈ RunState.activations s) (RunState.activations s) /\
  (RunState.key_cache s ∉ RunState.activations s) /\
  (RunState.value_cache s ∉ RunState.activations s) /\
  RunState.key_cache s <> RunState.value_cache s /\
  RunState.xb s <> RunState.x s.
Proof.
  intros Hnd. unfold RunState.names in Hnd.
  apply NoDup_app in Hnd. destruct Hnd as (Hact & Hdisj & Hkv).
  split; [apply Forall_forall; auto|].
  split.
  { intros Hin. apply (Hdisj _ Hin). left. }
  split.
  { intros Hin. apply (Hdisj _ Hin). right. left. }
  split.
  - apply NoDup_cons in Hkv. destruct Hkv as [Hn _]. intros E. apply Hn.
    rewrite E. left.
  - unfold RunState.activations in Hact.
    apply NoDup_cons in Hact. destruct Hact as [Hn _]. intros E. apply Hn.
    rewrite <- E. left.
Qed.

(** C7.  With distinct buffer names, a configuration whose offsets fit in
    [int] and a token of the vocabulary, the forward pass at position [pos]
    returns and changes the two caches at most in the [dim]-float slabs at
    [l*seq_len*dim + pos*dim]; in particular every entry of a position
    [t <> pos] is unchanged, and so are the entries of the positions
    [0, p] in a forward pass at a later position [pos > p]. *)
Theorem kv_cache_monotone {F : Type} (ops : FloatOps F) (fuel : nat)
    (s : RunState.t) (p : Config.t) (w : Weights.t F) :
  NoDup (RunState.names s) ->
  1 <= Config.dim p -> 1 <= Config.n_heads p -> 0 <= Config.seq_len p ->
  config_in_int p ->
  Config.vocab_size p * Config.dim p
    <= Z.of_nat (length (Weights.token_embedding_table w)) ->
  (Z.to_nat (Config.dim p) < fuel)%nat ->
  (Z.to_nat (Config.seq_len p + 1) < fuel)%nat ->
  forall token pos (st : GLState F),
    0 <= pos < Config.seq_len p -> 0 <= token < Config.vocab_size p ->
    exists st',
      transformer ops fuel compile_GPUProgram s token pos p w st = Some (tt, st') /\
      (forall i, ~ in_slab p pos i -> same_kv s st st' i) /\
      (forall l t j,
         0 <= l < Config.n_layers p -> 0 <= t < Config.seq_len p -> t <> pos ->
         0 <= j < Config.dim p ->
         same_kv s st st' (cache_index p l t j)) /\
      (forall l t j,
         0 <= l < Config.n_layers p -> 0 <= t < pos -> 0 <= j < Config.dim p ->
         same_kv s st st' (cache_index p l t j)).
Proof.
  intros Hnd Hdim Hheads Hseq Hint Htab Hf1 Hf3.
  destruct Hint as (_ & _ & _ & Hvd & _).
  destruct (names_distinct s Hnd) as (HW & Hkc & Hvc & Hkv & Hxbx).
  intros token pos st Hpos Htok.
  pose proof HW as HW'. unfold RunState.activations in HW' at 2.
  repeat match goal with
         | H : Forall _ (_ :: _) |- _ => apply Forall_cons in H; destruct H as [? H]
         end.
  destruct (transformer_kv ops s (RunState.activations s) ltac:(assumption)
              ltac:(assumption) ltac:(assumption) ltac:(assumption)
              ltac:(assumption) ltac:(assumption) ltac:(assumption)
              ltac:(assumption) ltac:(assumption) ltac:(assumption)
              ltac:(assumption) ltac:(assumption) ltac:(assumption)
              ltac:(assumption) Hkc Hvc (in_slab p pos) Hxbx
              fuel token pos p w st) as (st' & Hrun & Hk & Hv & _); try lia; auto.
  assert (Hother : forall l t j,
            0 <= l < Config.n_layers p -> 0 <= t < Config.seq_len p -> t <> pos ->
            0 <= j < Config.dim p -> same_kv s st st' (cache_index p l t j)).
  { intros l t j Hl Ht Hne Hj.
    assert (Hout : ~ in_slab p pos (cache_index p l t j))
      by (apply cache_index_not_in_slab; lia).
    split; [apply Hk | apply Hv]; exact Hout. }
  exists st'. split; [exact Hrun|]. split; [|split].
  - intros i Hi. split; [apply Hk | apply Hv]; exact Hi.
  - exact Hother.
  - intros l t j Hl Ht Hj. apply Hother; lia.
Qed.

(** * Allocation *)

Section Allocation.

Context {F : Type} (ops : FloatOps F).

#[local] Abbreviation State := (GLState F).

Lemma u32_nonneg z : 0 <= Int.u32 z.
Proof. unfold Int.u32, Int.two32. apply Z.mod_pos_bound. lia. Qed.

Lemma mulBuffer_len_nonneg p : 0 <= mulBuffer_len_of p.
Proof. unfold mulBuffer_len_of. destruct (_ >? _); apply u32_nonneg. Qed.

(** [create_GPU_buffer] takes the next name and gives it a store of the
    size asked for. *)
Lemma create_GPU_buffer_run size (st : State) :
  0 <= size ->
  exists st',
    create_GPU_buffer ops size None st = Some (gl_next_name st, st') /\
    gl_next_name st' = gl_next_name st + 1 /\
    size_of st' (gl_next_name st) = Some size /\
    (forall h, h <> gl_next_name st -> size_of st' h = size_of st h).
Proof.
  intros Hsize. unfold create_GPU_buffer, glGenBuffers. gl_run.
  unfold buffer_data. cbn [gl_bound set_bound set_next_name].
  destruct (size <? 0) eqn:E; [apply Z.ltb_lt in E; lia|].
  eexists. split; [reflexivity|]. unfold size_of. cbn [gl_buffers gl_next_name set_buffers].
  split; [reflexivity|]. split.
  - rewrite lookup_insert_eq. reflexivity.
  - intros h Hh. rewrite lookup_insert_ne by auto. reflexivity.
Qed.

Ltac alloc_step :=
  rewrite run_bind;
  let st' := fresh "s" in
  let Hn := fresh "Hn" in
  let Hs := fresh "Hs" in
  let Ho := fresh "Ho" in
  match goal with
  | |- context [create_GPU_buffer _ ?size None ?st] =>
      destruct (create_GPU_buffer_run size st
                  ltac:(first [apply u32_nonneg | apply mulBuffer_len_nonneg]))
        as (st' & -> & Hn & Hs & Ho)
  end.

(** [malloc_run_state] returns; the names are consecutive and each of the
    four scratch buffers has [mulBuffer_len_of p] bytes. *)
Lemma malloc_run_state_spec p (st : State) :
  exists st',
    malloc_run_state ops p st = Some (fresh_run_state (gl_next_name st) p, st') /\
    Forall (fun h => size_of st' h = Some (mulBuffer_len_of p))
      (mulBuffers (fresh_run_state (gl_next_name st) p)).
Proof.
  unfold malloc_run_state. cbv zeta.
  do 16 alloc_step.
  eexists. split.
  - cbv [mret GL_ret]. unfold fresh_run_state. cbv zeta.
    repeat match goal with
           | H : gl_next_name _ = _ |- _ => rewrite H; clear H
           end.
    apply f_equal. apply f_equal2; [|reflexivity]. f_equal; lia.
  - unfold mulBuffers, fresh_run_state. cbv zeta.
    cbn [RunState.mulBuffer_1 RunState.mulBuffer_2 RunState.mulBuffer_3
         RunState.mulBuffer_4].
    repeat match goal with
           | H : gl_next_name ?s = _ |- _ => rewrite H in *; clear H
           end.
    repeat constructor.
    + rewrite Ho14, Ho13, Ho12 by lia.
      replace (gl_next_name st + 12)
        with (gl_next_name st + 1 + 1 + 1 + 1 + 1 + 1 + 1 + 1 + 1 + 1 + 1 + 1) by lia.
      exact Hs11.
    + rewrite Ho14, Ho13 by lia.
      replace (gl_next_name st + 13)
        with (gl_next_name st + 1 + 1 + 1 + 1 + 1 + 1 + 1 + 1 + 1 + 1 + 1 + 1 + 1)
        by lia.
      exact Hs12.
    + rewrite Ho14 by lia.
      replace (gl_next_name st + 14)
        with (gl_next_name st + 1 + 1 + 1 + 1 + 1 + 1 + 1 + 1 + 1 + 1 + 1 + 1 + 1 + 1)
        by lia.
      exact Hs13.
    + replace (gl_next_name st + 15)
        with (gl_next_name st + 1 + 1 + 1 + 1 + 1 + 1 + 1 + 1 + 1 + 1 + 1 + 1 + 1 + 1
              + 1) by lia.
      exact Hs14.
Qed.

Lemma fresh_run_state_distinct first p :
  NoDup (RunState.names (fresh_run_state first p)).
Proof.
  unfold RunState.names, RunState.activations, fresh_run_state. cbv zeta.
  cbn [RunState.x RunState.xb RunState.xb2 RunState.hb RunState.hb2 RunState.q
       RunState.k RunState.v RunState.att RunState.logits RunState.key_cache
       RunState.value_cache RunState.mulBuffer_1 RunState.mulBuffer_2
       RunState.mulBuffer_3 RunState.mulBuffer_4 app].
  repeat (apply NoDup_cons_2; [rewrite ?elem_of_cons, elem_of_nil; lia|]).
  apply NoDup_nil_2.
Qed.

(** Without wrap-around the length is the maximum of the bytes of
    [dim * seq_len] floats and the number [vocab_size]. *)
Lemma mulBuffer_len_in_range p :
  0 <= Config.dim p * Config.seq_len p * sizeof_float < Int.two32 ->
  0 <= Config.vocab_size p < Int.two32 ->
  mulBuffer_len_of p =
  Z.max (Config.dim p * Config.seq_len p * sizeof_float) (Config.vocab_size p).
Proof.
  intros H1 H2. unfold mulBuffer_len_of, Int.u32.
  rewrite !Z.mod_small by assumption.
  destruct (_ >? _) eqn:E; [apply Z.gtb_lt in E | rewrite Z.gtb_ltb in E;
                                                   apply Z.ltb_ge in E]; lia.
Qed.

End Allocation.

(** * Runs of single blocks *)

Section Runs.
Context {F : Type} (ops : FloatOps F).

#[local] Abbreviation prog := compile_GPUProgram.

(** The score dispatch has [(n_heads, head_size, 1)] work groups,
    whatever the position is. *)
Lemma attention_scores_log state pos p l (st : GLState F) :
  exists st',
    attention_scores ops prog state pos p l st = Some (tt, st') /\
    dispatched st st'
      [(shader_transformer_get_query_vector,
        (Config.n_heads p, Z.quot (Config.dim p) (Config.n_heads p), 1),
        [("seq_len", Config.seq_len p); ("pos", pos);
         ("head_size", Z.quot (Config.dim p) (Config.n_heads p));
         ("dim", Config.dim p); ("layer_idx", l)])].
Proof.
  unfold attention_scores. gl_run. eexists. split; [reflexivity|].
  log_block.
Qed.

(** At the RoPE dispatch binding point 2 holds [k] and binding point 3
    the buffer that was there before. *)
Lemma rope_bindings state pos p w (st : GLState F) :
  exists st' d,
    rope ops prog state pos p w st = Some (tt, st') /\
    gl_log st' = gl_log st ++ [d] /\
    d_program d = shader_positionalEncoding /\
    d_groups d = (Z.quot (Config.dim p) 2, 1, 1) /\
    d_ssbo d = [Weights.freq_cis_real w; Weights.freq_cis_imag w;
                RunState.k state; gl_ssbo st 3%nat].
Proof.
  unfold rope. gl_run. eexists. eexists. split; [reflexivity|].
  split.
  - erewrite log_dispatch by (gl_proj; reflexivity). gl_proj. reflexivity.
  - cbn [d_program d_groups d_ssbo fmap list_fmap]. gl_proj. auto.
Qed.

(** A softmax on zero rows returns and changes no buffer. *)
Lemma softmax_zero_rows fuel state x size_x (st : GLState F) :
  1 <= size_x -> (Z.to_nat size_x < fuel)%nat ->
  exists st',
    softmax ops fuel prog state x size_x 0 st = Some (tt, st') /\
    forall h, gl_buffers st' !! h = gl_buffers st !! h.
Proof.
  intros Hs Hf.
  destruct (softmax_effect ops state [] fuel x size_x 0 st (or_introl eq_refl) Hs Hf)
    as (st' & Hrun & Hb & _).
  exists st'. split; [exact Hrun|].
  intros h. apply Hb. apply not_elem_of_nil.
Qed.

(** The score dispatch at position 1 with [head_size = 1] computes the
    score of position 0 and leaves the entry of position 1 as it was. *)
Lemma scores_run_eval (q0 k0 k1 a0 a1 : F) :
  scores_run ops q0 k0 k1 a0 a1 =
  Some (Some [fdiv ops (fadd ops (fconst ops 0) (fmul ops q0 k0))
                (fsqrt ops (of_int ops 1)); a1]).
Proof. vm_compute. reflexivity. Qed.

(** The RoPE dispatch leaves [q] as it was and rotates [k] and [xb]. *)
Lemma rope_run_eval (fcr fci q0 q1 k0 k1 x0 x1 : F) :
  rope_run ops 8 fcr fci q0 q1 k0 k1 x0 x1 =
  Some (Some [q0; q1],
        Some [fsub ops (fmul ops k0 fcr) (fmul ops k1 fci);
              fadd ops (fmul ops k0 fci) (fmul ops k1 fcr)],
        Some [fsub ops (fmul ops x0 fcr) (fmul ops x1 fci);
              fadd ops (fmul ops x0 fci) (fmul ops x1 fcr)]).
Proof. vm_compute. reflexivity. Qed.

Lemma silu_run_eval (h h2 : F) :
  silu_run ops h h2 =
  Some (Some [fmul ops
                (fmul ops h
                   (fdiv ops (fconst ops 1) (fadd ops (fconst ops 1) (fexp ops h))))
                h],
        Some [h2]).
Proof. vm_compute. reflexivity. Qed.

Lemma temperature_run_eval (l0 l1 temperature : F) :
  temperature_run ops 8 l0 l1 temperature =
  Some (Some [fdiv ops l0 temperature; fdiv ops l1 temperature]).
Proof. vm_compute. reflexivity. Qed.

Lemma argmax_run_eval (l0 l1 l2 : F) :
  argmax_run ops 8 l0 l1 l2 =
  Some (to_int ops (fadd ops (fmul ops l0 l0) (fmul ops l1 l1))).
Proof. vm_compute. reflexivity. Qed.

(** The value [sample_topp] returns does not depend on the draw. *)
Lemma sample_topp_host_fallback (probabilities : list F) (n : Z) (topp : F)
    (rng_seed : Z) :
  fst (sample_topp_host ops probabilities n topp rng_seed) =
  let probindex := qsort ops (fill_probindex (take (Z.to_nat n) probabilities)) in
  index (probindex_at ops probindex
           (snd (truncate_scan ops probindex 0 topp (fconst ops 0) 0))).
Proof.
  unfold sample_topp_host. cbv zeta.
  destruct (truncate_scan _ _ _ _ _ _) as [c i].
  destruct (random_f32 _ _) as [s r]. reflexivity.
Qed.

End Runs.

(** * The exact interpretation *)

Section Exact.
#[local] Open Scope R_scope.

Lemma fltb_R_true (a b : R) : a < b -> fltb R_ops a b = true.
Proof. intros H. cbn. destruct (Rlt_dec a b); [reflexivity | contradiction]. Qed.

Lemma fltb_R_false (a b : R) : b <= a -> fltb R_ops a b = false.
Proof. intros H. cbn. destruct (Rlt_dec a b); [lra | reflexivity]. Qed.

Lemma R_to_int_IZR (z : Z) : (0 <= z)%Z -> R_to_int (IZR z) = z.
Proof.
  intros Hz. unfold R_to_int.
  destruct (Rle_dec 0 (IZR z)) as [_|Hn].
  - symmetry. apply Int_part_spec. lra.
  - exfalso. apply Hn. apply IZR_le. exact Hz.
Qed.

Lemma Q2R_Z (z : Z) : Q2R (z # 1) = IZR z.
Proof. unfold Q2R. cbn. rewrite Rinv_1. lra. Qed.

Lemma inv_one_plus_exp_1 : 1 / (1 + exp 1) < 1 / 2.
Proof.
  pose proof (exp_increasing 0 1 ltac:(lra)) as H. rewrite exp_0 in H.
  apply Rmult_lt_compat_l; [lra|].
  apply Rinv_lt_contravar; lra.
Qed.

Lemma sigma_1 : 1 / 2 < sigma 1.
Proof.
  unfold sigma.
  assert (H0 : 0 < exp (- (1))) by apply exp_pos.
  pose proof (exp_increasing (- (1)) 0 ltac:(lra)) as H. rewrite exp_0 in H.
  apply Rmult_lt_compat_l; [lra|].
  apply Rinv_lt_contravar; lra.
Qed.

End Exact.

(** Decides one comparison of the goal. *)
Ltac exact_arith :=
  cbn [R_ops fadd fsub fmul fdiv fconst of_int]; rewrite ?Q2R_Z; lra.

Ltac decide_fltb :=
  match goal with
  | |- context [fltb R_ops ?a ?b] =>
      first [ rewrite (fltb_R_true a b) by exact_arith
            | rewrite (fltb_R_false a b) by exact_arith ]
  end.

(** * Where the code departs from the stated behaviour *)

#[local] Open Scope R_scope.

(** C1.  The attention-score dispatch does not produce a score for every
    position [t <= pos]: its grid is [(n_heads, head_size, 1)] at every
    position.  With one head of size 1 at position 1 the one invocation
    writes the score of position 0 and leaves [att[1]] as it was; with
    [q = [1]] and keys [[1; 1]] the entry stays [0] where the stated score
    is [1]. *)
Theorem attention_scores_skip_positions :
  (forall (F : Type) (ops : FloatOps F) state pos p l (st : GLState F),
     exists st',
       attention_scores ops compile_GPUProgram state pos p l st = Some (tt, st') /\
       dispatched st st'
         [(shader_transformer_get_query_vector,
           (Config.n_heads p, Z.quot (Config.dim p) (Config.n_heads p), 1%Z),
           [("seq_len", Config.seq_len p); ("pos", pos);
            ("head_size", Z.quot (Config.dim p) (Config.n_heads p));
            ("dim", Config.dim p); ("layer_idx", l)])]) /\
  (forall q0 k0 k1 a0 a1 : R,
     scores_run R_ops q0 k0 k1 a0 a1 =
     Some (Some [claimed_score scores_config [q0] [k0; k1] 0 0 0; a1])) /\
  scores_run R_ops 1 1 1 0 0 = Some (Some [1; 0]) /\
  claimed_score scores_config [1] [1; 1] 0 0 1 = 1.
Proof.
  assert (E : forall q k0 k1 t, (0 <= t < 2)%Z ->
            claimed_score scores_config [q] [k0; k1] 0 0 t =
            (Q2R 0 + q * nth_R [k0; k1] t) / sqrt (IZR 1)).
  { intros q k0 k1 t Ht. unfold claimed_score, sum_R, nth_R.
    change (Config.dim scores_config / Config.n_heads scores_config)%Z with 1%Z.
    change (seqZ 0 1) with [0%Z].
    cbn [fmap list_fmap foldr Config.seq_len Config.dim scores_config].
    rewrite RMicromega.Q2R_0.
    replace (0 * 2 * 1 + t * 1 + 0 * 1 + 0)%Z with t by lia.
    change (nth (Z.to_nat (0 * 1 + 0)) [q] 0) with q.
    f_equal. lra. }
  split; [|split; [|split]].
  - intros. apply attention_scores_log.
  - intros q0 k0 k1 a0 a1. rewrite scores_run_eval, E by lia. reflexivity.
  - rewrite scores_run_eval. cbn [R_ops fdiv fadd fmul fconst fsqrt of_int].
    rewrite RMicromega.Q2R_0, sqrt_1. do 3 f_equal. lra.
  - rewrite E by lia. change (nth_R [1; 1] 1) with 1.
    rewrite RMicromega.Q2R_0, sqrt_1. lra.
Qed.

(** C2.  The RoPE dispatch does not rotate [q], and it modifies [xb]: at
    the dispatch binding point 2 holds [k] and binding point 3 the buffer
    bound there before, and [q] is bound by none of the four calls that
    remain in effect.  In a layer of width 2 the run leaves [q] as it was
    and stores the rotated pairs in [k] and in [xb]; with [fcr = 0] and
    [fci = 1] the pair [(1, 0)] of [q] stays where its rotation is another
    pair. *)
Theorem rope_rotates_k_and_xb_not_q :
  (forall (F : Type) (ops : FloatOps F) state pos p w (st : GLState F),
     exists st' d,
       rope ops compile_GPUProgram state pos p w st = Some (tt, st') /\
       gl_log st' = gl_log st ++ [d] /\
       d_program d = shader_positionalEncoding /\
       d_groups d = (Z.quot (Config.dim p) 2, 1, 1)%Z /\
       d_ssbo d = [Weights.freq_cis_real w; Weights.freq_cis_imag w;
                   RunState.k state; gl_ssbo st 3%nat]) /\
  (forall fcr fci q0 q1 k0 k1 x0 x1 : R,
     rope_run R_ops 8 fcr fci q0 q1 k0 k1 x0 x1 =
     Some (Some [q0; q1],
           Some (claimed_rotation fcr fci k0 k1),
           Some (claimed_rotation fcr fci x0 x1))) /\
  claimed_rotation 0 1 1 0 <> [1; 0].
Proof.
  split; [|split].
  - intros. apply rope_bindings.
  - intros. rewrite rope_run_eval. reflexivity.
  - unfold claimed_rotation. intros E. inversion E as [[E0 E1]]. lra.
Qed.

(** C3.  The SiLU dispatch stores [h * (1 / (1 + exp h)) * h] in [hb]: the
    exponent has the sign of [h] and the second factor is [hb] itself, not
    [hb2].  For [h = 1] and [hb2 = 2] the stored value is below [1/2] and
    the stated one is above [1]. *)
Theorem silu_and_mul_stored_value :
  (forall h h2 : R,
     silu_run R_ops h h2 = Some (Some [h * (1 / (1 + exp h)) * h], Some [h2])) /\
  (exists v, silu_run R_ops 1 2 = Some (Some [v], Some [2]) /\
             v < 1 / 2 /\ 1 < claimed_silu_mul 1 2).
Proof.
  assert (E : forall h h2 : R,
            silu_run R_ops h h2 = Some (Some [h * (1 / (1 + exp h)) * h], Some [h2])).
  { intros h h2. rewrite silu_run_eval. cbn [R_ops fdiv fadd fmul fconst fexp].
    rewrite RMicromega.Q2R_1. reflexivity. }
  split; [exact E|].
  eexists. split; [apply E|].
  pose proof inv_one_plus_exp_1. pose proof sigma_1.
  unfold claimed_silu_mul. split; lra.
Qed.

(** C4.  After the temperature dispatch and the call
    [softmax(logits, vocab_size, 0)] the logits buffer holds the logits
    divided by the temperature: the softmax on zero rows dispatches no
    invocation.  For the logits [[1; 2]] at temperature 1 the entries sum
    to 3. *)
Theorem temperature_path_not_normalised :
  (forall (F : Type) (ops : FloatOps F) fuel state x size_x (st : GLState F),
     (1 <= size_x)%Z -> (Z.to_nat size_x < fuel)%nat ->
     exists st',
       softmax ops fuel compile_GPUProgram state x size_x 0 st = Some (tt, st') /\
       forall h, gl_buffers st' !! h = gl_buffers st !! h) /\
  (forall l0 l1 temperature : R,
     temperature_run R_ops 8 l0 l1 temperature =
     Some (Some [l0 / temperature; l1 / temperature])) /\
  (exists l, temperature_run R_ops 8 1 2 1 = Some (Some l) /\ ~ is_distribution l).
Proof.
  assert (E : forall l0 l1 temperature : R,
            temperature_run R_ops 8 l0 l1 temperature =
            Some (Some [l0 / temperature; l1 / temperature])).
  { intros. rewrite temperature_run_eval. reflexivity. }
  split; [|split; [exact E|]].
  { intros. apply softmax_zero_rows; assumption. }
  eexists. split; [apply E|].
  intros [_ H]. unfold sum_R in H. cbn [foldr] in H.
  replace (1 / 1 + (2 / 1 + 0) - 1) with 2 in H by lra.
  rewrite Rabs_right in H by lra.
  unfold Q2R in H. cbn [Qnum Qden] in H. lra.
Qed.

(** C5.  [argmax] selects the program of [rmsnorm]'s first pass; the
    uniform locations it asks of [shader_argmax] are -1, so the uniforms
    stay as the preceding [rmsnorm] left them, and the function returns the
    integer part of the sum of squares of the first entries.  For the
    logits [[0; 0; 5]] it returns 0 where the maximum is at index 2. *)
Theorem argmax_returns_sum_of_squares :
  (forall name, glGetUniformLocation (compile_GPUProgram shader_argmax) name = (-1)%Z) /\
  (forall l0 l1 l2 : R,
     argmax_run R_ops 8 l0 l1 l2 = Some (R_to_int (l0 * l0 + l1 * l1))) /\
  argmax_run R_ops 8 0 0 5 = Some 0%Z /\
  is_argmax [0; 0; 5] 2 /\ ~ is_argmax [0; 0; 5] 0.
Proof.
  assert (E : forall l0 l1 l2 : R,
            argmax_run R_ops 8 l0 l1 l2 = Some (R_to_int (l0 * l0 + l1 * l1))).
  { intros. rewrite argmax_run_eval. reflexivity. }
  split; [reflexivity|].
  split; [exact E|]. split; [|split].
  - rewrite E. replace (0 * 0 + 0 * 0) with (IZR 0) by lra.
    rewrite R_to_int_IZR by lia. reflexivity.
  - split; [lia|]. exists 5. split; [reflexivity|].
    repeat constructor; lra.
  - intros (_ & v & Hv & Hall). cbn in Hv. injection Hv as <-.
    apply Forall_cons in Hall. destruct Hall as [_ Hall].
    apply Forall_cons in Hall. destruct Hall as [_ Hall].
    apply Forall_cons in Hall. destruct Hall as [Hall _]. lra.
Qed.

(** C6.  [sample_topp] returns [probindex[last_idx].index] whatever the
    draw is: the assignment after the sampling loop overwrites the index
    the loop selected.  For the probabilities [[3/4; 1/4]], [topp = 9/10]
    and seed 1 the draw selects index 0 and the function returns 1. *)
Theorem sample_topp_ignores_draw :
  (forall (F : Type) (ops : FloatOps F) (probabilities : list F) (n : Z) (topp : F)
          (seed seed' : Z),
     fst (sample_topp_host ops probabilities n topp seed) =
     fst (sample_topp_host ops probabilities n topp seed')) /\
  fst (sample_topp_host R_ops [3 / 4; 1 / 4] 2 (9 / 10) 1) = 1%Z /\
  claimed_sample_topp R_ops [3 / 4; 1 / 4] 2 (9 / 10) 1 = 0%Z.
Proof.
  assert (Hsort : qsort R_ops (fill_probindex (take (Z.to_nat 2) [3 / 4; 1 / 4])) =
                  [mkProbIndex (3 / 4) 0%Z; mkProbIndex (1 / 4) 1%Z]).
  { cbv [Z.to_nat Pos.to_nat Pos.iter_op Nat.add take fill_probindex imap
         qsort foldr qsort_insert compare prob Z.of_nat Pos.of_succ_nat Pos.succ
         compose Init.Nat.add].
    decide_fltb. reflexivity. }
  assert (Htrunc : truncate_scan R_ops
                     [mkProbIndex (3 / 4) 0%Z; mkProbIndex (1 / 4) 1%Z] 0 (9 / 10)
                     (fconst R_ops 0) 0 = (Q2R 0 + 3 / 4 + 1 / 4, 1%Z)).
  { cbv [truncate_scan prob]. do 2 decide_fltb. reflexivity. }
  split; [|split].
  - intros. rewrite !sample_topp_host_fallback. reflexivity.
  - rewrite sample_topp_host_fallback. cbv zeta. rewrite Hsort, Htrunc. reflexivity.
  - unfold claimed_sample_topp. cbv zeta. rewrite Hsort, Htrunc.
    unfold random_f32.
    change (Rng.random_u32 1) with (33554433%Z, snd (Rng.random_u32 1)).
    cbv iota beta.
    replace (Z.shiftr (snd (Rng.random_u32 1)) 8) with 4711630%Z
      by (vm_compute; reflexivity).
    change (Z.to_nat (1 + 1)) with 2%nat.
    cbv [take topp_scan prob index]. decide_fltb. reflexivity.
Qed.

(** C9.  [malloc_run_state] gives each of the four scratch buffers
    [mulBuffer_len_of p] bytes, the larger of the bytes of [dim * seq_len]
    floats and the number [vocab_size]: the vocabulary size is not
    multiplied by the size of a float.  For [dim = 64], [seq_len = 16] and
    [vocab_size = 32000] that is 32000 bytes where the bytes of
    [max (dim * seq_len) vocab_size] floats are 128000. *)
Theorem mulBuffer_len_mixes_bytes_and_floats :
  (forall (F : Type) (ops : FloatOps F) (p : Config.t) (st : GLState F),
     exists st',
       malloc_run_state ops p st = Some (fresh_run_state (gl_next_name st) p, st') /\
       Forall (fun h => size_of st' h = Some (mulBuffer_len_of p))
         (mulBuffers (fresh_run_state (gl_next_name st) p))) /\
  (forall p,
     (0 <= Config.dim p * Config.seq_len p * sizeof_float < Int.two32)%Z ->
     (0 <= Config.vocab_size p < Int.two32)%Z ->
     mulBuffer_len_of p =
     Z.max (Config.dim p * Config.seq_len p * sizeof_float) (Config.vocab_size p)) /\
  mulBuffer_len_of short_context_config = 32000%Z /\
  claimed_mulBuffer_len short_context_config = 128000%Z.
Proof.
  split; [|split; [|split]].
  - intros. apply malloc_run_state_spec.
  - intros. apply mulBuffer_len_in_range; assumption.
  - vm_compute. reflexivity.
  - vm_compute. reflexivity.
Qed.

#[local] Open Scope Z_scope.

(** The forward pass at position 1 of [kv_config], in a context that holds
    the buffers of the run state and of the weights: it returns and leaves
    the cache entries of position 0 as they were. *)
Lemma kv_cache_monotone_witness :
  exists st',
    transformer R_ops 8 compile_GPUProgram (fresh_run_state 1 kv_config) 2 1
      kv_config kv_weights kv_state = Some (tt, st') /\
    same_kv (fresh_run_state 1 kv_config) kv_state st' (cache_index kv_config 0 0 0) /\
    data_of st' 11 !! cache_index kv_config 0 0 0 = Some 11%R /\
    data_of st' 12 !! cache_index kv_config 0 0 0 = Some 21%R.
Proof.
  destruct (kv_cache_monotone R_ops 8 (fresh_run_state 1 kv_config) kv_config
              kv_weights) with (token := 2) (pos := 1) (st := kv_state)
    as (st' & Hrun & _ & Hkv & _).
  - apply (bool_decide_unpack _). vm_compute. reflexivity.
  - vm_compute. discriminate.
  - vm_compute. discriminate.
  - vm_compute. discriminate.
  - unfold config_in_int. apply (bool_decide_unpack _). vm_compute. reflexivity.
  - vm_compute. discriminate.
  - vm_compute. lia.
  - vm_compute. lia.
  - vm_compute. split; [discriminate | reflexivity].
  - vm_compute. split; [discriminate | reflexivity].
  - assert (H0 : same_kv (fresh_run_state 1 kv_config) kv_state st'
                   (cache_index kv_config 0 0 0)).
    { apply Hkv.
      + vm_compute. split; [discriminate | reflexivity].
      + vm_compute. split; [discriminate | reflexivity].
      + discriminate.
      + vm_compute. split; [discriminate | reflexivity]. }
    exists st'. split; [exact Hrun|]. split; [exact H0|].
    destruct H0 as [Hk Hv].
    split; (etransitivity; [first [exact Hk | exact Hv] | reflexivity]).
Defined.

(** * The tokenizer *)

Section Lookup.

Lemma str_lookup_from_spec (str : string) (vocab : list string) : forall i,
  0 <= i ->
  let r := str_lookup_from i str vocab in
  (r = -1 \/ i <= r < i + Z.of_nat (length vocab)) /\
  (i <= r ->
   vocab !! Z.to_nat (r - i) = Some str /\
   forall j, (j < Z.to_nat (r - i))%nat -> vocab !! j <> Some str) /\
  (r < i -> str ∉ vocab).
Proof.
  induction vocab as [|v vocab IH]; intros i Hi; cbn [str_lookup_from length].
  - split; [left; reflexivity|]. split; [lia|]. intros _. apply not_elem_of_nil.
  - destruct (String.eqb_spec str v) as [->|Hne].
    + split; [right; lia|]. split; [|lia]. intros _.
      replace (i - i) with 0 by lia. split; [reflexivity|]. intros j Hj. simpl in Hj. lia.
    + specialize (IH (i + 1) ltac:(lia)). cbv zeta in IH.
      set (r := str_lookup_from (i + 1) str vocab) in *.
      destruct IH as (Hr & Hfound & Hnot).
      split; [|split].
      * destruct Hr as [Hr|Hr]; [left; exact Hr | right; lia].
      * intros Hle. destruct Hr as [Hr|Hr].
        { assert (r < i + 1) by lia.
          exfalso. assert (r = i \/ i < r) as [E|E] by lia; lia. }
        destruct (Hfound ltac:(lia)) as [Hat Hbefore].
        replace (Z.to_nat (r - i)) with (S (Z.to_nat (r - (i + 1)))) by lia.
        split; [exact Hat|].
        intros [|j] Hj; cbn; [congruence|]. apply Hbefore. lia.
      * intros Hlt. apply not_elem_of_cons. split; [exact Hne|].
        apply Hnot. lia.
Qed.

Lemma str_lookup_cases (str : string) (vocab : list string) (vocab_size : Z) :
  let r := str_lookup str vocab vocab_size in
  (r = -1 /\ str ∉ take (Z.to_nat vocab_size) vocab) \/
  (0 <= r < vocab_size /\ r < Z.of_nat (length vocab) /\
   vocab !! Z.to_nat r = Some str /\
   forall j, (j < Z.to_nat r)%nat -> vocab !! j <> Some str).
Proof.
  cbv zeta. unfold str_lookup.
  pose proof (str_lookup_from_spec str (take (Z.to_nat vocab_size) vocab) 0
                ltac:(lia)) as H.
  cbv zeta in H.
  set (r := str_lookup_from 0 str (take (Z.to_nat vocab_size) vocab)) in *.
  destruct H as (Hr & Hfound & Hnot).
  rewrite length_take in Hr.
  destruct Hr as [Hr|Hr].
  - left. split; [exact Hr|]. apply Hnot. lia.
  - right. destruct (Hfound ltac:(lia)) as [Hat Hbefore].
    replace (r - 0) with r in * by lia.
    split; [lia|]. split; [lia|].
    split.
    + rewrite lookup_take_lt in Hat by lia. exact Hat.
    + intros j Hj. specialize (Hbefore j Hj).
      rewrite lookup_take_lt in Hbefore by lia. exact Hbefore.
Qed.

End Lookup.

(** X1.  [str_lookup] returns -1 exactly when the string is not among the
    first [vocab_size] entries; otherwise it returns the index of the first
    entry equal to the string, an index in [[0, vocab_size)]. *)
Theorem str_lookup_first_match (str : string) (vocab : list string) (vocab_size : Z) :
  let r := str_lookup str vocab vocab_size in
  (r = -1 /\ str ∉ take (Z.to_nat vocab_size) vocab) \/
  (0 <= r < vocab_size /\ r < Z.of_nat (length vocab) /\
   vocab !! Z.to_nat r = Some str /\
   forall j, (j < Z.to_nat r)%nat -> vocab !! j <> Some str).
Proof. apply str_lookup_cases. Qed.

Section Strings.

Lemma length_append (a b : string) :
  String.length (String.append a b) = (String.length a + String.length b)%nat.
Proof.
  induction a as [|c a IH]; [reflexivity|].
  change (String.append (String c a) b) with (String c (String.append a b)).
  cbn [String.length]. rewrite IH. reflexivity.
Qed.

Lemma append_assoc (a b c : string) :
  String.append (String.append a b) c = String.append a (String.append b c).
Proof.
  induction a as [|x a IH]; [reflexivity|].
  change (String.append (String.append (String x a) b) c)
    with (String x (String.append (String.append a b) c)).
  rewrite IH. reflexivity.
Qed.

End Strings.

Section ShiftBack.

(** The shifting loop after [m] steps. *)
Lemma shift_steps (k : nat) (l : list Z) : forall m : nat,
  (k + 1 + m <= length l - 1)%nat ->
  let l' := foldl (fun tokens i =>
                     <[Z.to_nat i := default 0 (tokens !! Z.to_nat (i + 1))]> tokens)
              l (seqZ (Z.of_nat k + 1) (Z.of_nat m)) in
  length l' = length l /\
  forall j, l' !! j = if decide (k + 1 <= j < k + 1 + m)%nat then l !! S j else l !! j.
Proof.
  induction m as [|m IH]; intros Hm; cbv zeta.
  - cbn. split; [reflexivity|]. intros j. destruct (decide _); [lia | reflexivity].
  - rewrite seqZ_S, foldl_app. cbn [foldl].
    destruct (IH ltac:(lia)) as [Hlen Hlook].
    set (l' := foldl _ l (seqZ (Z.of_nat k + 1) (Z.of_nat m))) in *.
    replace (Z.to_nat (Z.of_nat k + 1 + Z.of_nat m)) with (k + 1 + m)%nat by lia.
    replace (Z.to_nat (Z.of_nat k + 1 + Z.of_nat m + 1)) with (S (k + 1 + m)) by lia.
    split; [rewrite length_insert; exact Hlen|].
    intros j. destruct (decide (j = k + 1 + m)%nat) as [->|Hne].
    + rewrite list_lookup_insert_eq by lia.
      rewrite Hlook. destruct (decide _); [lia|]. destruct (decide _); [|lia].
      destruct (l !! S (k + 1 + m)) eqn:E; [reflexivity|].
      apply lookup_ge_None in E. lia.
    + rewrite list_lookup_insert_ne by lia. rewrite Hlook.
      destruct (decide _), (decide _); try reflexivity; lia.
Qed.

(** The merge replaces the pair at [k] by one token. *)
Lemma shift_back_merge (k : nat) (id : Z) (l : list Z) :
  (k + 1 < length l)%nat ->
  shift_back (Z.of_nat k) (<[k := id]> l) = take k l ++ id :: drop (k + 2) l.
Proof.
  intros Hk. unfold shift_back. rewrite length_insert.
  set (n := length l) in *.
  replace (Z.of_nat n - 1 - (Z.of_nat k + 1)) with (Z.of_nat (n - 1 - (k + 1))) by lia.
  destruct (shift_steps k (<[k := id]> l) (n - 1 - (k + 1))) as [Hlen Hlook].
  { rewrite length_insert. fold n. lia. }
  set (l' := foldl _ _ _) in *.
  rewrite length_insert in Hlen. fold n in Hlen.
  replace (Z.to_nat (Z.of_nat n - 1)) with (n - 1)%nat by lia.
  apply list_eq. intros j.
  destruct (decide (j < n - 1)%nat) as [Hj|Hj].
  - rewrite lookup_take_lt by lia. rewrite Hlook.
    destruct (decide (j < k)%nat) as [Hjk|Hjk].
    + destruct (decide _); [lia|].
      rewrite list_lookup_insert_ne by lia.
      rewrite lookup_app_l by (rewrite length_take; lia).
      rewrite lookup_take_lt by lia. reflexivity.
    + rewrite lookup_app_r by (rewrite length_take; lia).
      rewrite length_take. replace (j - k `min` length l)%nat with (j - k)%nat by lia.
      destruct (decide (j = k)) as [->|Hne].
      * destruct (decide _); [lia|].
        rewrite list_lookup_insert_eq by lia.
        replace (k - k)%nat with 0%nat by lia. reflexivity.
      * destruct (decide _); [|lia].
        rewrite list_lookup_insert_ne by lia.
        rewrite lookup_cons_ne_0 by lia.
        rewrite lookup_drop. f_equal. lia.
  - rewrite lookup_take_ge by lia. symmetry. apply lookup_ge_None.
    rewrite length_app, length_take. cbn [length]. rewrite length_drop. lia.
Qed.

End ShiftBack.

Section Encode.

Context {F : Type} (ops : FloatOps F).
Variable vocab : list string.
Variable vocab_scores : list F.
Variable vocab_size : Z.
Variable max_token_length : Z.

Hypothesis Hmax : 1 <= max_token_length /\ max_token_length * 2 + 1 < Int.two32.
Hypothesis Hlen :
  Forall (fun s => Z.of_nat (String.length s) <= max_token_length)
    (take (Z.to_nat vocab_size) vocab).

#[local] Abbreviation valid := (valid_token vocab vocab_size).
#[local] Abbreviation known := (known_byte vocab vocab_size).
#[local] Abbreviation lookup_str := (fun s => str_lookup s vocab vocab_size).

Lemma str_buffer_size_eq : str_buffer_size max_token_length = max_token_length * 2 + 1.
Proof. unfold str_buffer_size, Int.u32. apply Z.mod_small. lia. Qed.

Lemma fits_byte c : fits max_token_length (String c EmptyString) = true.
Proof.
  unfold fits. rewrite str_buffer_size_eq. cbn [String.length].
  apply Z.leb_le. lia.
Qed.

Lemma valid_length t :
  valid t -> Z.of_nat (String.length (vocab_at vocab t)) <= max_token_length.
Proof.
  intros [Ht Hl]. unfold vocab_at.
  destruct (vocab !! Z.to_nat t) as [s|] eqn:E.
  - cbn. rewrite Forall_forall in Hlen. apply Hlen.
    apply list_elem_of_lookup. exists (Z.to_nat t).
    rewrite lookup_take_lt by lia. exact E.
  - cbn. lia.
Qed.

Lemma fits_pair t0 t1 :
  valid t0 -> valid t1 ->
  fits max_token_length (String.append (vocab_at vocab t0) (vocab_at vocab t1)) = true.
Proof.
  intros H0 H1. unfold fits. rewrite str_buffer_size_eq, length_append.
  pose proof (valid_length t0 H0). pose proof (valid_length t1 H1).
  apply Z.leb_le. lia.
Qed.

(** A successful lookup returns a valid token that stands for the
    string. *)
Lemma lookup_found s :
  lookup_str s <> -1 -> valid (lookup_str s) /\ vocab_at vocab (lookup_str s) = s.
Proof.
  intros Hne. destruct (str_lookup_cases s vocab vocab_size) as [[E _]|(Hr & Hl & Hat & _)].
  - contradiction.
  - split; [split; assumption|]. unfold vocab_at. rewrite Hat. reflexivity.
Qed.

Lemma lookup_known c : known c -> lookup_str (String c EmptyString) <> -1.
Proof.
  intros Hk E.
  destruct (str_lookup_cases (String c EmptyString) vocab vocab_size)
    as [[_ Hn]|(Hr & _)]; [contradiction|].
  cbv beta in E. lia.
Qed.

Lemma lookup_unknown c : ~ known c -> lookup_str (String c EmptyString) = -1.
Proof.
  intros Hk.
  destruct (str_lookup_cases (String c EmptyString) vocab vocab_size)
    as [[E _]|(Hr & Hl & Hat & _)]; [exact E|].
  exfalso. apply Hk. unfold known_byte. apply list_elem_of_lookup.
  exists (Z.to_nat (str_lookup (String c EmptyString) vocab vocab_size)).
  rewrite lookup_take_lt by lia. exact Hat.
Qed.

Lemma decode_app a b :
  decode vocab (a ++ b) = String.append (decode vocab a) (decode vocab b).
Proof.
  induction a as [|t a IH]; [reflexivity|].
  cbn [app decode foldr]. fold (decode vocab (a ++ b)). fold (decode vocab a).
  rewrite IH, append_assoc. reflexivity.
Qed.

(** *** The bytes *)

Lemma encode_bytes_known (text : string) :
  Forall known (String.list_ascii_of_string text) ->
  exists tokens,
    encode_bytes vocab vocab_size max_token_length text = Return tokens /\
    decode vocab tokens = text /\
    length tokens = String.length text /\
    Forall valid tokens.
Proof.
  induction text as [|c text IH]; intros Hk.
  - exists []. repeat split; constructor.
  - cbn [String.list_ascii_of_string] in Hk. apply Forall_cons in Hk. destruct Hk as [Hc Hk].
    destruct (IH Hk) as (tokens & He & Hd & Hl & Hv).
    cbn [encode_bytes]. rewrite fits_byte, He.
    pose proof (lookup_known c Hc) as Hne.
    destruct (lookup_found _ Hne) as [Hvalid Hat].
    cbv beta in Hne, Hvalid, Hat.
    destruct (Z.eqb_spec (str_lookup (String c EmptyString) vocab vocab_size) (-1));
      [contradiction|].
    eexists. split; [reflexivity|]. split; [|split].
    + cbn [decode foldr]. fold (decode vocab tokens). rewrite Hat, Hd. reflexivity.
    + cbn [length String.length]. rewrite Hl. reflexivity.
    + constructor; assumption.
Qed.

Lemma encode_bytes_unknown (text : string) :
  Exists (fun c => ~ known c) (String.list_ascii_of_string text) ->
  encode_bytes vocab vocab_size max_token_length text = Exit_failure.
Proof.
  induction text as [|c text IH]; intros Hk.
  - cbn in Hk. apply Exists_nil in Hk. contradiction.
  - cbn [String.list_ascii_of_string] in Hk. apply Exists_cons in Hk.
    cbn [encode_bytes]. rewrite fits_byte.
    destruct (Z.eqb_spec (str_lookup (String c EmptyString) vocab vocab_size) (-1))
      as [E|Hne]; [reflexivity|].
    destruct Hk as [Hc|Hk].
    + exfalso. apply Hne. apply lookup_unknown. exact Hc.
    + rewrite (IH Hk). reflexivity.
Qed.

(** *** The search for the best pair *)

(** The condition under which the pair [(t0, t1)] replaces the best
    one. *)
#[local] Abbreviation better := (fun (b : Best F) (t0 t1 : Z) =>
  let id := str_lookup (String.append (vocab_at vocab t0) (vocab_at vocab t1))
              vocab vocab_size in
  negb (id =? -1) && fltb ops (best_score b) (score_at ops vocab_scores id)).

(** The best pair found so far is a pair of [all] and its token stands
    for the concatenation. *)
#[local] Abbreviation good := (fun (all : list Z) (b : Best F) =>
  best_idx b = -1 \/
  exists (k : nat) t0 t1,
    best_idx b = Z.of_nat k /\ all !! k = Some t0 /\ all !! S k = Some t1 /\
    valid (best_id b) /\
    vocab_at vocab (best_id b) = String.append (vocab_at vocab t0) (vocab_at vocab t1)).

Lemma scan_pairs_spec : forall tokens pre b,
  Forall valid (pre ++ tokens) -> good (pre ++ tokens) b ->
  exists b',
    scan_pairs ops vocab vocab_scores vocab_size max_token_length
      (Z.of_nat (length pre)) tokens b = Return b' /\
    good (pre ++ tokens) b' /\
    (best_idx b' = -1 ->
     b' = b /\
     forall j t0 t1, tokens !! j = Some t0 -> tokens !! S j = Some t1 ->
                     better b t0 t1 = false).
Proof.
  induction tokens as [|t0 tokens IH]; intros pre b Hv Hg.
  - exists b. split; [reflexivity|]. split; [exact Hg|].
    intros _. split; [reflexivity|]. intros j t0 t1 H. rewrite lookup_nil in H. discriminate.
  - destruct tokens as [|t1 rest].
    + exists b. split; [reflexivity|]. split; [exact Hg|].
      intros _. split; [reflexivity|]. intros [|j] t0' t1' H0 H1; cbn in H1; discriminate.
    + assert (Hv0 : valid t0).
      { rewrite Forall_app in Hv. destruct Hv as [_ Hv].
        apply Forall_cons in Hv. tauto. }
      assert (Hv1 : valid t1).
      { rewrite Forall_app in Hv. destruct Hv as [_ Hv].
        apply Forall_cons in Hv. destruct Hv as [_ Hv].
        apply Forall_cons in Hv. tauto. }
      cbn [scan_pairs]. rewrite (fits_pair t0 t1 Hv0 Hv1).
      set (str := String.append (vocab_at vocab t0) (vocab_at vocab t1)).
      set (id := str_lookup str vocab vocab_size).
      set (b1 := if negb (id =? -1) && fltb ops (best_score b) (score_at ops vocab_scores id)
                 then mkBest (score_at ops vocab_scores id) id (Z.of_nat (length pre))
                 else b).
      assert (Eall : pre ++ t0 :: t1 :: rest = (pre ++ [t0]) ++ t1 :: rest)
        by (rewrite <- app_assoc; reflexivity).
      assert (Hg1 : good ((pre ++ [t0]) ++ t1 :: rest) b1).
      { rewrite <- Eall. subst b1.
        destruct (negb (id =? -1) && fltb ops (best_score b) (score_at ops vocab_scores id))
          eqn:Hc; [|exact Hg].
        right. exists (length pre), t0, t1.
        apply andb_true_iff in Hc. destruct Hc as [Hid _].
        apply negb_true_iff, Z.eqb_neq in Hid.
        destruct (lookup_found str Hid) as [Hvid Hat].
        cbn [best_idx best_id]. split; [reflexivity|].
        split; [rewrite lookup_app_r by lia; rewrite Nat.sub_diag; reflexivity|].
        split.
        { rewrite lookup_app_r by lia.
          replace (S (length pre) - length pre)%nat with 1%nat by lia. reflexivity. }
        split; [exact Hvid | exact Hat]. }
      destruct (IH (pre ++ [t0]) b1) as (b' & Hrun & Hg' & Hnone).
      { rewrite <- Eall. exact Hv. }
      { exact Hg1. }
      rewrite length_app in Hrun. cbn [length] in Hrun.
      replace (Z.of_nat (length pre + 1)) with (Z.of_nat (length pre) + 1) in Hrun by lia.
      exists b'. split; [exact Hrun|]. split; [rewrite Eall; exact Hg'|].
      intros Hb'. destruct (Hnone Hb') as [-> Hrest].
      assert (Hc : negb (id =? -1) &&
                   fltb ops (best_score b) (score_at ops vocab_scores id) = false).
      { destruct (negb (id =? -1) && fltb ops (best_score b) (score_at ops vocab_scores id))
          eqn:Hc; [|reflexivity].
        exfalso. subst b1. try rewrite Hc in Hb'. cbn [best_idx] in Hb'. lia. }
      subst b1. rewrite Hc in *.
      split; [reflexivity|].
      intros [|j] t0' t1' H0 H1.
      * cbn in H0, H1. injection H0 as <-. injection H1 as <-. exact Hc.
      * cbn in H0. apply (Hrest j t0' t1'); [exact H0 | exact H1].
Qed.

(** *** The merging loop *)

Lemma merge_loop_spec : forall fuel tokens,
  Forall valid tokens -> (length tokens < fuel)%nat ->
  exists out,
    merge_loop ops vocab vocab_scores vocab_size max_token_length fuel tokens
      = Some (Return out) /\
    decode vocab out = decode vocab tokens /\
    (length out <= length tokens)%nat /\
    Forall valid out /\
    forall j t0 t1, out !! j = Some t0 -> out !! S j = Some t1 ->
                    mergeable ops vocab vocab_scores vocab_size t0 t1 = false.
Proof.
  induction fuel as [|fuel IH]; intros tokens Hv Hf; [lia|].
  cbn [merge_loop].
  set (b0 := mkBest (fconst ops (-10000000000)) (-1) (-1)).
  destruct (scan_pairs_spec tokens [] b0 Hv) as (b & Hrun & Hg & Hnone).
  { left. reflexivity. }
  cbn [length app] in Hrun, Hg. change (Z.of_nat 0) with 0 in Hrun. rewrite Hrun.
  destruct (Z.eqb_spec (best_idx b) (-1)) as [E|Hne].
  - exists tokens. split; [reflexivity|]. split; [reflexivity|]. split; [lia|].
    split; [exact Hv|]. destruct (Hnone E) as [_ Hpairs]. exact Hpairs.
  - destruct Hg as [Hg|(k & t0 & t1 & Hk & H0 & H1 & Hvid & Hat)]; [contradiction|].
    rewrite Hk, Nat2Z.id.
    assert (Hlen' : (k + 1 < length tokens)%nat).
    { apply lookup_lt_Some in H1. lia. }
    rewrite shift_back_merge by exact Hlen'.
    set (tokens' := take k tokens ++ best_id b :: drop (k + 2) tokens).
    assert (Esplit : tokens = take k tokens ++ t0 :: t1 :: drop (k + 2) tokens).
    { rewrite <- (take_drop k tokens) at 1. f_equal.
      erewrite drop_S by exact H0. f_equal.
      replace (k + 2)%nat with (S (S k)) by lia.
      erewrite drop_S by exact H1. reflexivity. }
    assert (Hv' : Forall valid tokens').
    { subst tokens'. rewrite Esplit in Hv.
      apply Forall_app in Hv. destruct Hv as [Hva Hvb].
      apply Forall_cons in Hvb. destruct Hvb as [_ Hvb].
      apply Forall_cons in Hvb. destruct Hvb as [_ Hvb].
      apply Forall_app. split; [exact Hva|]. constructor; assumption. }
    assert (Hl' : S (length tokens') = length tokens).
    { subst tokens'. rewrite length_app, length_take. cbn [length].
      rewrite length_drop. lia. }
    destruct (IH tokens' Hv' ltac:(lia)) as (out & Ho & Hd & Hl & Hvo & Hst).
    exists out. split; [exact Ho|]. split; [|split; [lia|split; assumption]].
    rewrite Hd. subst tokens'. rewrite Esplit at 3.
    rewrite !decode_app. f_equal.
    cbn [decode foldr]. rewrite Hat, append_assoc. reflexivity.
Qed.

Lemma bpe_encode_spec (fuel : nat) (text : string) :
  Forall known (String.list_ascii_of_string text) ->
  (String.length text < fuel)%nat ->
  exists tokens,
    bpe_encode ops vocab vocab_scores vocab_size max_token_length fuel text
      = Some (Return tokens) /\
    decode vocab tokens = text /\
    (length tokens <= String.length text)%nat /\
    Forall valid tokens /\
    forall j t0 t1, tokens !! j = Some t0 -> tokens !! S j = Some t1 ->
                    mergeable ops vocab vocab_scores vocab_size t0 t1 = false.
Proof.
  intros Hk Hf. unfold bpe_encode.
  destruct (encode_bytes_known text Hk) as (tokens & -> & Hd & Hl & Hv).
  destruct (merge_loop_spec fuel tokens Hv ltac:(lia)) as (out & -> & Hd' & Hl' & Hv' & Hst).
  exists out. split; [reflexivity|]. split; [congruence|]. split; [lia|].
  split; assumption.
Qed.

Lemma bpe_encode_exits (fuel : nat) (text : string) :
  Exists (fun c => ~ known c) (String.list_ascii_of_string text) ->
  bpe_encode ops vocab vocab_scores vocab_size max_token_length fuel text
    = Some Exit_failure.
Proof.
  intros Hk. unfold bpe_encode. rewrite (encode_bytes_unknown text Hk). reflexivity.
Qed.

End Encode.

(** X2.  When every byte of the text is an entry of the vocabulary and no
    entry is longer than [max_token_length], [bpe_encode] returns; the
    strings of the returned tokens, concatenated, are the text; there are
    at most [strlen(text)] tokens, the size of the array [main] allocates,
    and each is an index into [vocab]. *)
Theorem bpe_encode_round_trip {F : Type} (ops : FloatOps F) (vocab : list string)
    (vocab_scores : list F) (vocab_size max_token_length : Z) (fuel : nat)
    (text : string) :
  1 <= max_token_length /\ max_token_length * 2 + 1 < Int.two32 ->
  Forall (fun s => Z.of_nat (String.length s) <= max_token_length)
    (take (Z.to_nat vocab_size) vocab) ->
  Forall (known_byte vocab vocab_size) (String.list_ascii_of_string text) ->
  (String.length text < fuel)%nat ->
  exists tokens,
    bpe_encode ops vocab vocab_scores vocab_size max_token_length fuel text
      = Some (Return tokens) /\
    decode vocab tokens = text /\
    (length tokens <= String.length text)%nat /\
    Forall (valid_token vocab vocab_size) tokens.
Proof.
  intros Hmax Hlen Hk Hf.
  destruct (bpe_encode_spec ops vocab vocab_scores vocab_size max_token_length
              Hmax Hlen fuel text Hk Hf) as (tokens & Hrun & Hd & Hl & Hv & _).
  exists tokens. auto.
Qed.

Lemma bpe_encode_round_trip_witness :
  exists tokens,
    bpe_encode R_ops example_vocab example_scores 3 2 3 "ab" = Some (Return tokens) /\
    decode example_vocab tokens = "ab"%string /\
    (length tokens <= 2)%nat /\
    Forall (valid_token example_vocab 3) tokens.
Proof.
  apply (bpe_encode_round_trip R_ops example_vocab example_scores 3 2 3 "ab").
  - vm_compute. split; [discriminate | reflexivity].
  - apply (bool_decide_unpack _). vm_compute. reflexivity.
  - unfold known_byte. apply (bool_decide_unpack _). vm_compute. reflexivity.
  - vm_compute. lia.
Defined.

(** X3.  Under the same conditions no pair of neighbours in the returned
    tokens can be merged: their concatenation is not in the vocabulary, or
    its score is not above [-1e10]. *)
Theorem bpe_encode_no_mergeable_pair {F : Type} (ops : FloatOps F) (vocab : list string)
    (vocab_scores : list F) (vocab_size max_token_length : Z) (fuel : nat)
    (text : string) :
  1 <= max_token_length /\ max_token_length * 2 + 1 < Int.two32 ->
  Forall (fun s => Z.of_nat (String.length s) <= max_token_length)
    (take (Z.to_nat vocab_size) vocab) ->
  Forall (known_byte vocab vocab_size) (String.list_ascii_of_string text) ->
  (String.length text < fuel)%nat ->
  exists tokens,
    bpe_encode ops vocab vocab_scores vocab_size max_token_length fuel text
      = Some (Return tokens) /\
    forall j t0 t1, tokens !! j = Some t0 -> tokens !! S j = Some t1 ->
                    mergeable ops vocab vocab_scores vocab_size t0 t1 = false.
Proof.
  intros Hmax Hlen Hk Hf.
  destruct (bpe_encode_spec ops vocab vocab_scores vocab_size max_token_length
              Hmax Hlen fuel text Hk Hf) as (tokens & Hrun & _ & _ & _ & Hst).
  exists tokens. auto.
Qed.

Lemma bpe_encode_no_mergeable_pair_witness :
  exists tokens,
    bpe_encode R_ops example_vocab example_scores 3 2 3 "ab" = Some (Return tokens) /\
    forall j t0 t1, tokens !! j = Some t0 -> tokens !! S j = Some t1 ->
                    mergeable R_ops example_vocab example_scores 3 t0 t1 = false.
Proof.
  apply (bpe_encode_no_mergeable_pair R_ops example_vocab example_scores 3 2 3 "ab").
  - vm_compute. split; [discriminate | reflexivity].
  - apply (bool_decide_unpack _). vm_compute. reflexivity.
  - unfold known_byte. apply (bool_decide_unpack _). vm_compute. reflexivity.
  - vm_compute. lia.
Defined.

(** X4.  When some byte of the text is not an entry of the vocabulary,
    [bpe_encode] leaves the program through [exit(EXIT_FAILURE)], whatever
    the rest of the text is. *)
Theorem bpe_encode_unknown_byte {F : Type} (ops : FloatOps F) (vocab : list string)
    (vocab_scores : list F) (vocab_size max_token_length : Z) (fuel : nat)
    (text : string) :
  1 <= max_token_length /\ max_token_length * 2 + 1 < Int.two32 ->
  Exists (fun c => ~ known_byte vocab vocab_size c) (String.list_ascii_of_string text) ->
  bpe_encode ops vocab vocab_scores vocab_size max_token_length fuel text
    = Some Exit_failure.
Proof. intros Hmax Hk. apply bpe_encode_exits; assumption. Qed.

Lemma bpe_encode_unknown_byte_witness :
  bpe_encode R_ops example_vocab example_scores 3 2 0 "abc" = Some Exit_failure.
Proof.
  apply (bpe_encode_unknown_byte R_ops example_vocab example_scores 3 2 0 "abc").
  - vm_compute. split; [discriminate | reflexivity].
  - unfold known_byte. apply (bool_decide_unpack _). vm_compute. reflexivity.
Defined.

(** * The samplers *)

Section Samplers.

Context {F : Type} (ops : FloatOps F).

Lemma sample_scan_spec (r : F) (res : Z) : forall (p : list F) (i : Z) (c : F),
  let out := sample_scan ops p i r c res in
  (exists k : nat,
     out = i + Z.of_nat k /\ (k < length p)%nat /\
     fltb ops r (foldl (fadd ops) c (take (S k) p)) = true /\
     forall j, (j < k)%nat -> fltb ops r (foldl (fadd ops) c (take (S j) p)) = false) \/
  (out = res /\
   forall j, (j < length p)%nat ->
             fltb ops r (foldl (fadd ops) c (take (S j) p)) = false).
Proof.
  induction p as [|pi p IH]; intros i c; cbv zeta.
  - right. split; [reflexivity|]. intros j Hj. cbn in Hj. lia.
  - cbn [sample_scan]. destruct (fltb ops r (fadd ops c pi)) eqn:E.
    + left. exists 0%nat. split; [lia|]. split; [cbn; lia|].
      split; [exact E|]. intros j Hj. lia.
    + destruct (IH (i + 1) (fadd ops c pi)) as [(k & Ho & Hk & Ht & Hb)|[Ho Hb]].
      * left. exists (S k). split; [lia|]. split; [cbn; lia|].
        split; [exact Ht|]. intros [|j] Hj; [exact E|]. apply Hb. lia.
      * right. split; [exact Ho|]. intros [|j] Hj; [exact E|].
        apply Hb. cbn in Hj. lia.
Qed.

Lemma sample_host_cases (probabilities : list F) (n seed : Z) :
  let probs := take (Z.to_nat n) probabilities in
  let r := snd (random_f32 ops seed) in
  let res := fst (sample_host ops probabilities n seed) in
  (exists k : nat,
     res = Z.of_nat k /\ (k < length probs)%nat /\
     fltb ops r (cdf ops probs (S k)) = true /\
     forall j, (j < k)%nat -> fltb ops r (cdf ops probs (S j)) = false) \/
  (res = n - 1 /\
   forall j, (j < length probs)%nat -> fltb ops r (cdf ops probs (S j)) = false).
Proof.
  cbv zeta. unfold sample_host, cdf.
  destruct (random_f32 ops seed) as [seed' r]. cbn [fst snd].
  exact (sample_scan_spec r (n - 1) (take (Z.to_nat n) probabilities) 0 (fconst ops 0)).
Qed.

Lemma sample_host_range (probabilities : list F) (n seed : Z) :
  1 <= n -> 0 <= fst (sample_host ops probabilities n seed) < n.
Proof.
  intros Hn.
  destruct (sample_host_cases probabilities n seed) as [(k & -> & Hk & _)|[-> _]]; [|lia].
  rewrite length_take in Hk. lia.
Qed.

(** *** Top-p *)

#[local] Abbreviation in_range := (fun (m : nat) (e : ProbIndex F) =>
  0 <= index e < Z.of_nat m).

Lemma fill_probindex_range (l : list F) :
  Forall (in_range (length l)) (fill_probindex l).
Proof.
  apply Forall_lookup. intros i e He. unfold fill_probindex in He.
  rewrite list_lookup_imap in He.
  destruct (l !! i) as [x|] eqn:E; [|discriminate].
  cbn in He. injection He as <-. cbn [index].
  apply lookup_lt_Some in E. lia.
Qed.

Lemma qsort_insert_Forall (P : ProbIndex F -> Prop) e l :
  P e -> Forall P l -> Forall P (qsort_insert ops e l).
Proof.
  intros He Hl. induction Hl as [|e' l He' Hl IH]; cbn [qsort_insert].
  - constructor; [exact He | constructor].
  - destruct (compare ops e e' <? 0); constructor; auto.
Qed.

Lemma qsort_Forall (P : ProbIndex F -> Prop) l : Forall P l -> Forall P (qsort ops l).
Proof.
  intros Hl. unfold qsort. induction Hl as [|e l He Hl IH]; cbn [foldr].
  - constructor.
  - apply qsort_insert_Forall; assumption.
Qed.

Lemma qsort_insert_length e l : length (qsort_insert ops e l) = S (length l).
Proof.
  induction l as [|e' l IH]; cbn [qsort_insert]; [reflexivity|].
  destruct (compare ops e e' <? 0); cbn [length]; [reflexivity | rewrite IH; reflexivity].
Qed.

Lemma qsort_length l : length (qsort ops l) = length l.
Proof.
  unfold qsort. induction l as [|e l IH]; cbn [foldr length]; [reflexivity|].
  rewrite qsort_insert_length, IH. reflexivity.
Qed.

Lemma truncate_scan_range (topp : F) (last : Z) : forall l i c,
  let last_idx := snd (truncate_scan ops l i topp c last) in
  last_idx = last \/ i <= last_idx < i + Z.of_nat (length l).
Proof.
  induction l as [|e l IH]; intros i c; cbv zeta; cbn [truncate_scan].
  - left. reflexivity.
  - destruct (fltb ops topp (fadd ops c (prob e))).
    + right. cbn [snd length]. lia.
    + destruct (IH (i + 1) (fadd ops c (prob e))) as [H|H]; [left; exact H|].
      right. cbn [length]. lia.
Qed.

Lemma sample_topp_host_range (probabilities : list F) (n : Z) (topp : F) (seed : Z) :
  1 <= n -> 0 <= fst (sample_topp_host ops probabilities n topp seed) < n.
Proof.
  intros Hn. rewrite sample_topp_host_fallback. cbv zeta.
  set (l := take (Z.to_nat n) probabilities).
  set (sorted := qsort ops (fill_probindex l)).
  pose proof (truncate_scan_range topp 0 sorted 0 (fconst ops 0)) as Hlast.
  cbv zeta in Hlast.
  set (last_idx := snd (truncate_scan ops sorted 0 topp (fconst ops 0) 0)) in *.
  assert (Hall : Forall (in_range (length l)) sorted)
    by (apply qsort_Forall, fill_probindex_range).
  assert (Hll : (length l <= Z.to_nat n)%nat) by (subst l; rewrite length_take; lia).
  unfold probindex_at.
  destruct (sorted !! Z.to_nat last_idx) as [e|] eqn:E; simpl; [|lia].
  rewrite Forall_lookup in Hall. specialize (Hall _ _ E). cbv beta in Hall. lia.
Qed.

End Samplers.

(** X5.  [sample] draws by the inverse of the running sum: the index it
    returns is the first one at which the draw [r] is below the sum of the
    probabilities up to and including it; when there is none among the [n]
    entries it returns [n - 1]. *)
Theorem sample_inverse_cdf {F : Type} (ops : FloatOps F) (probabilities : list F)
    (n seed : Z) :
  let probs := take (Z.to_nat n) probabilities in
  let r := snd (random_f32 ops seed) in
  let res := fst (sample_host ops probabilities n seed) in
  (exists k : nat,
     res = Z.of_nat k /\ (k < length probs)%nat /\
     fltb ops r (cdf ops probs (S k)) = true /\
     forall j, (j < k)%nat -> fltb ops r (cdf ops probs (S j)) = false) \/
  (res = n - 1 /\
   forall j, (j < length probs)%nat -> fltb ops r (cdf ops probs (S j)) = false).
Proof. apply sample_host_cases. Qed.

(** X6.  For [n >= 1] both samplers return an index of the [n]
    probabilities, whatever the probabilities, the threshold and the seed
    are. *)
Theorem samplers_in_range {F : Type} (ops : FloatOps F) (probabilities : list F)
    (n : Z) (topp : F) (seed : Z) :
  1 <= n ->
  0 <= fst (sample_host ops probabilities n seed) < n /\
  0 <= fst (sample_topp_host ops probabilities n topp seed) < n.
Proof.
  intros Hn. split; [apply sample_host_range | apply sample_topp_host_range]; exact Hn.
Qed.

Lemma samplers_in_range_witness :
  0 <= fst (sample_host R_ops [1 / 2; 1 / 2]%R 2 7) < 2 /\
  0 <= fst (sample_topp_host R_ops [1 / 2; 1 / 2]%R 2 (9 / 10)%R 7) < 2.
Proof.
  apply (samplers_in_range R_ops [1 / 2; 1 / 2]%R 2 (9 / 10)%R 7). lia.
Defined.

(** * Element-wise kernels *)

Section Pointwise.

Context {F : Type} (ops : FloatOps F).

#[local] Abbreviation State := (GLState F).
#[local] Abbreviation prog := compile_GPUProgram.

Lemma rd_peek (st : State) b i : rd ops st b i = peek ops st (gl_ssbo st b) i.
Proof. reflexivity. Qed.

Lemma data_of_store name j v (st : State) name' :
  data_of (store name j v st) name' =
  if decide (name' = name) then
    if j <? 0 then data_of st name else <[Z.to_nat j := v]> (data_of st name)
  else data_of st name'.
Proof.
  unfold store. destruct (j <? 0) eqn:Hj.
  - destruct (decide (name' = name)) as [->|]; reflexivity.
  - unfold data_of at 1. destruct (gl_buffers st !! name) as [buf|] eqn:E.
    + cbn [gl_buffers set_buffers].
      destruct (decide (name' = name)) as [->|Hne].
      * rewrite lookup_insert_eq. cbn [buf_data]. unfold data_of. rewrite E. reflexivity.
      * rewrite lookup_insert_ne by congruence. reflexivity.
    + destruct (decide (name' = name)) as [->|Hne]; [|reflexivity].
      unfold data_of. rewrite E. reflexivity.
Qed.

Lemma peek_store_buffer name j v (st : State) name' i :
  name' <> name -> peek ops (store name j v st) name' i = peek ops st name' i.
Proof.
  intros Hne. unfold peek. rewrite data_of_store.
  destruct (decide (name' = name)); [contradiction | reflexivity].
Qed.

Lemma peek_store_index name j v (st : State) name' i :
  i <> j -> peek ops (store name j v st) name' i = peek ops st name' i.
Proof.
  intros Hne. unfold peek. rewrite data_of_store.
  destruct (i <? 0) eqn:Hi; [reflexivity|]. apply Z.ltb_ge in Hi.
  destruct (decide (name' = name)) as [->|]; [|reflexivity].
  destruct (j <? 0) eqn:Hj; [reflexivity|]. apply Z.ltb_ge in Hj.
  rewrite list_lookup_insert_ne by lia. reflexivity.
Qed.

Lemma sum_loop_ext n (f g : Z -> F) :
  (forall j, f j = g j) -> sum_loop ops n f = sum_loop ops n g.
Proof.
  intros H. unfold sum_loop. generalize (fconst ops 0).
  induction (seqZ 0 n) as [|j l IH]; intros acc; [reflexivity|].
  cbn [foldl]. rewrite H. apply IH.
Qed.

Lemma work_groups_row d : work_groups d 1 1 = (fun x => (x, 0, 0)) <$> seqZ 0 d.
Proof.
  unfold work_groups. change (seqZ 0 1) with [0]. cbn [mbind list_bind].
  rewrite !app_nil_r.
  induction (seqZ 0 d) as [|x l IH]; [reflexivity|].
  cbn [mbind list_bind fmap list_fmap] in *. rewrite IH. reflexivity.
Qed.

(** A dispatch of [d] work groups in which the invocation [i] stores
    [val i] at the element [i] of [out], where [val i] does not read
    what the other invocations write. *)
Lemma run_kernel_pointwise sh out (val : Z -> State -> F) (st0 : State) d :
  (forall i s, only_buffers [out] st0 s ->
               kernel_main ops (i, 0, 0) sh s = store out i (val i s) s) ->
  (forall i j v s, i <> j -> val i (store out j v s) = val i s) ->
  let st' := run_kernel ops sh (work_groups d 1 1) st0 in
  only_buffers [out] st0 st' /\
  written_by d (fun i => val i st0) (data_of st0 out) (data_of st' out).
Proof.
  intros Hker Hval. cbv zeta. rewrite work_groups_row. unfold run_kernel.
  rewrite foldl_fmap.
  destruct (Z.le_gt_cases d 0) as [Hd|Hd].
  { rewrite seqZ_nil by lia. cbn [foldl]. split; [apply only_buffers_refl|].
    intros i. destruct (decide _); [lia | reflexivity]. }
  assert (Hgen : forall m : nat,
    let s := foldl (fun s x => kernel_main ops (x, 0, 0) sh s) st0
               (seqZ 0 (Z.of_nat m)) in
    only_buffers [out] st0 s /\
    (forall i, Z.of_nat m <= i -> val i s = val i st0) /\
    written_by (Z.of_nat m) (fun i => val i st0) (data_of st0 out) (data_of s out)).
  2:{ pose proof (Hgen (Z.to_nat d)) as H. cbv zeta in H.
      rewrite Z2Nat.id in H by lia. destruct H as (H1 & _ & H3).
      split; assumption. }
  induction m as [|m IH]; cbv zeta.
  - cbn. split; [apply only_buffers_refl|]. split; [reflexivity|].
    intros i. destruct (decide _); [lia | reflexivity].
  - rewrite seqZ_S, foldl_app. cbn [foldl]. rewrite Z.add_0_l.
    cbv zeta in IH. destruct IH as (Hob & Hv & Hw).
    set (s := foldl _ st0 (seqZ 0 (Z.of_nat m))) in *.
    rewrite (Hker _ s Hob).
    split; [|split].
    + eapply only_buffers_trans; [exact Hob | apply store_only_buffers].
    + intros i Hi. rewrite Hval by lia. apply Hv. lia.
    + rewrite (Hv (Z.of_nat m)) by lia.
      intros i. rewrite data_of_store.
      destruct (decide (out = out)) as [_|]; [|contradiction].
      destruct (Z.of_nat m <? 0) eqn:E; [apply Z.ltb_lt in E; lia|].
      rewrite Nat2Z.id. specialize (Hw i).
      destruct (decide (i = m)) as [->|Hne].
      * destruct (decide (Z.of_nat m < Z.of_nat m)) as [|_]; [lia|].
        destruct (decide (Z.of_nat m < Z.of_nat (S m))) as [_|]; [|lia].
        rewrite <- Hw.
        destruct (data_of s out !! m) as [x|] eqn:Ex.
        { rewrite list_lookup_insert_eq by (apply lookup_lt_Some in Ex; exact Ex).
          reflexivity. }
        { cbn. apply lookup_ge_None. rewrite length_insert.
          apply lookup_ge_None in Ex. exact Ex. }
      * rewrite list_lookup_insert_ne by congruence. rewrite Hw.
        destruct (decide _), (decide _); try reflexivity; lia.
Qed.

End Pointwise.

Section Blocks.

Context {F : Type} (ops : FloatOps F).

#[local] Abbreviation State := (GLState F).
#[local] Abbreviation prog := compile_GPUProgram.

Lemma buffers_add_log d (s : State) : gl_buffers (add_log d s) = gl_buffers s.
Proof. reflexivity. Qed.

Lemma data_of_buffers (s s' : State) name :
  gl_buffers s' = gl_buffers s -> data_of s' name = data_of s name.
Proof. intros E. unfold data_of. rewrite E. reflexivity. Qed.

Lemma peek_buffers (s s' : State) name i :
  gl_buffers s' = gl_buffers s -> peek ops s' name i = peek ops s name i.
Proof. intros E. unfold peek. rewrite (data_of_buffers s s' name E). reflexivity. Qed.

(** [matmul]: [xout[i] = sum over j < n of w[i * n + j + w_offset] *
    x[j + x_offset]] for the rows [i < d]. *)
Lemma matmul_spec xout x w n d x_offset w_offset (st : State) :
  xout <> x -> xout <> w ->
  exists st',
    matmul ops prog xout x w n d x_offset w_offset st = Some (tt, st') /\
    written_by d
      (fun i => sum_loop ops n (fun j =>
                  fmul ops (peek ops st w (i * n + j + w_offset))
                           (peek ops st x (j + x_offset))))
      (data_of st xout) (data_of st' xout) /\
    forall h, h <> xout -> gl_buffers st' !! h = gl_buffers st !! h.
Proof.
  intros Hx Hw. unfold matmul. gl_run. eexists. split; [reflexivity|].
  match goal with |- context [dispatch ops d 1 1 ?s] => set (s0 := s) end.
  assert (Hp : gl_program s0 = Some shader_matmul) by (subst s0; gl_proj; reflexivity).
  assert (Hb : gl_buffers s0 = gl_buffers st)
    by (subst s0; rewrite !buffers_uniform1i; reflexivity).
  assert (H0 : gl_ssbo s0 0%nat = x) by (subst s0; gl_proj; reflexivity).
  assert (H1 : gl_ssbo s0 1%nat = w) by (subst s0; gl_proj; reflexivity).
  assert (H2 : gl_ssbo s0 2%nat = xout) by (subst s0; gl_proj; reflexivity).
  assert (Hn : gl_uniform_i s0 shader_matmul "n" = n)
    by (subst s0; uniform_values; reflexivity).
  assert (Hxo : gl_uniform_i s0 shader_matmul "x_offset" = x_offset)
    by (subst s0; uniform_values; reflexivity).
  assert (Hwo : gl_uniform_i s0 shader_matmul "w_offset" = w_offset)
    by (subst s0; uniform_values; reflexivity).
  unfold dispatch. rewrite Hp. cbv zeta.
  match goal with |- context [run_kernel ops _ _ ?s] => set (st0 := s) end.
  destruct (run_kernel_pointwise ops shader_matmul xout
              (fun i s => sum_loop ops n (fun j =>
                  fmul ops (peek ops s w (i * n + j + w_offset))
                           (peek ops s x (j + x_offset))))
              st0 d) as [Hob Hwr].
  - intros i s (_ & _ & Hs & _ & Hu & _).
    cbn [kernel_main]. unfold main_matmul. cbv zeta. cbn [fst snd].
    unfold wr, rd. fold (peek ops s (gl_ssbo s 1%nat)). rewrite Hs, Hu.
    subst st0. cbn [gl_ssbo gl_uniform_i add_log].
    rewrite H0, H1, H2, Hn, Hxo, Hwo. reflexivity.
  - intros i j v s Hne. apply sum_loop_ext. intros k.
    rewrite !peek_store_buffer by congruence. reflexivity.
  - split.
    + assert (E : forall i, sum_loop ops n (fun j =>
                    fmul ops (peek ops st0 w (i * n + j + w_offset))
                             (peek ops st0 x (j + x_offset))) =
                  sum_loop ops n (fun j =>
                    fmul ops (peek ops st w (i * n + j + w_offset))
                             (peek ops st x (j + x_offset)))).
      { intros i. apply sum_loop_ext. intros j.
        rewrite !(peek_buffers st st0) by exact Hb. reflexivity. }
      intros i. specialize (Hwr i). cbv beta in Hwr.
      rewrite (data_of_buffers st st0 xout Hb) in Hwr. rewrite Hwr.
      destruct (decide _); [rewrite E|]; reflexivity.
    + intros h Hh. destruct Hob as (_&_&_&_&_&_&_&Ha).
      rewrite Ha by (rewrite list_elem_of_singleton; exact Hh).
      subst st0. cbn [gl_buffers add_log]. rewrite Hb. reflexivity.
Qed.

(** The same for a dispatch from the state [s0] the host has set up. *)
Lemma dispatch_pointwise sh out (val : Z -> State -> F) (s0 : State) d :
  gl_program s0 = Some sh ->
  (forall i s, gl_ssbo s = gl_ssbo s0 -> gl_uniform_i s = gl_uniform_i s0 ->
               gl_uniform_f s = gl_uniform_f s0 ->
               kernel_main ops (i, 0, 0) sh s = store out i (val i s) s) ->
  (forall i j v s, i <> j -> val i (store out j v s) = val i s) ->
  (forall i s s', gl_buffers s' = gl_buffers s -> val i s' = val i s) ->
  written_by d (fun i => val i s0) (data_of s0 out)
    (data_of (dispatch ops d 1 1 s0) out) /\
  forall h, h <> out -> gl_buffers (dispatch ops d 1 1 s0) !! h = gl_buffers s0 !! h.
Proof.
  intros Hp Hker Hval Hbuf. unfold dispatch. rewrite Hp. cbv zeta.
  match goal with |- context [run_kernel ops _ _ ?s] => set (st0 := s) end.
  destruct (run_kernel_pointwise ops sh out val st0 d) as [Hob Hwr].
  - intros i s (_ & _ & Hs & _ & Hu & Hf & _). apply Hker; assumption.
  - exact Hval.
  - split.
    + intros i. specialize (Hwr i). cbv beta in Hwr.
      rewrite (Hbuf _ s0 st0 eq_refl) in Hwr. exact Hwr.
    + intros h Hh. destruct Hob as (_&_&_&_&_&_&_&Ha).
      rewrite Ha by (rewrite list_elem_of_singleton; exact Hh). reflexivity.
Qed.

Lemma uniform1f_value sh nm l v (s : State) sh' nm' :
  gl_program s = Some sh -> uniform_at sh l = Some (nm, UFloat) ->
  gl_uniform_f (uniform1f l v s) sh' nm' =
  if decide (sh' = sh /\ nm' = nm) then v else gl_uniform_f s sh' nm'.
Proof. intros Hp Hu. unfold uniform1f. rewrite Hp, Hu. reflexivity. Qed.

(** [accum]: [a[i] = a[i] + b[i]] for [i < size]. *)
Lemma accum_spec a b size (st : State) :
  exists st',
    accum ops prog a b size st = Some (tt, st') /\
    written_by size (fun i => fadd ops (peek ops st a i) (peek ops st b i))
      (data_of st a) (data_of st' a) /\
    forall h, h <> a -> gl_buffers st' !! h = gl_buffers st !! h.
Proof.
  unfold accum. gl_run. eexists. split; [reflexivity|].
  match goal with |- context [dispatch ops size 1 1 ?s] => set (s0 := s) end.
  assert (H0 : gl_ssbo s0 0%nat = a) by (subst s0; gl_proj; reflexivity).
  assert (H1 : gl_ssbo s0 1%nat = b) by (subst s0; gl_proj; reflexivity).
  destruct (dispatch_pointwise shader_accum a
              (fun i s => fadd ops (peek ops s a i) (peek ops s b i)) s0 size)
    as [Hwr Hoth].
  - reflexivity.
  - intros i s Hs _ _. cbn [kernel_main]. unfold main_accum. cbn [fst snd].
    unfold wr, rd. fold (peek ops s (gl_ssbo s 0%nat) i).
    fold (peek ops s (gl_ssbo s 1%nat) i). rewrite Hs, H0, H1. reflexivity.
  - intros i j v s Hne. rewrite !peek_store_index by exact Hne. reflexivity.
  - intros i s s' E. rewrite !(peek_buffers s s') by exact E. reflexivity.
  - split; [exact Hwr | exact Hoth].
Qed.

(** The temperature path of the token loop: the dispatch divides each of
    the [vocab_size] logits by the temperature and the softmax on zero
    rows changes nothing. *)
Lemma apply_temperature_spec fuel state config temperature (st : State) :
  1 <= Config.vocab_size config ->
  (Z.to_nat (Config.vocab_size config) < fuel)%nat ->
  exists st',
    apply_temperature ops fuel prog state config temperature st = Some (tt, st') /\
    written_by (Config.vocab_size config)
      (fun i => fdiv ops (peek ops st (RunState.logits state) i) temperature)
      (data_of st (RunState.logits state)) (data_of st' (RunState.logits state)) /\
    forall h, h <> RunState.logits state ->
              gl_buffers st' !! h = gl_buffers st !! h.
Proof.
  intros Hn Hf. unfold apply_temperature. gl_run.
  match goal with |- context [dispatch ops _ 1 1 ?s] => set (s0 := s) end.
  assert (H0 : gl_ssbo s0 0%nat = RunState.logits state)
    by (subst s0; rewrite ssbo_uniform1f; reflexivity).
  assert (Hp : gl_program s0 = Some shader_temperature)
    by (subst s0; rewrite program_uniform1f; reflexivity).
  assert (Hb : gl_buffers s0 = gl_buffers st)
    by (subst s0; rewrite buffers_uniform1f; reflexivity).
  assert (Ht : gl_uniform_f s0 shader_temperature "temperature" = temperature).
  { subst s0. erewrite uniform1f_value; [|reflexivity|reflexivity].
    rewrite decide_True by (split; reflexivity). reflexivity. }
  destruct (dispatch_pointwise shader_temperature (RunState.logits state)
              (fun i s => fdiv ops (peek ops s (RunState.logits state) i) temperature)
              s0 (Config.vocab_size config)) as [Hwr Hoth].
  - exact Hp.
  - intros i s Hs _ Hu. cbn [kernel_main]. unfold main_temperature. cbv zeta.
    cbn [fst snd]. unfold wr, rd. fold (peek ops s (gl_ssbo s 0%nat) i).
    rewrite Hs, Hu, H0, Ht. reflexivity.
  - intros i j v s Hne. rewrite !peek_store_index by exact Hne. reflexivity.
  - intros i s s' E. rewrite !(peek_buffers s s') by exact E. reflexivity.
  - set (s1 := dispatch ops (Config.vocab_size config) 1 1 s0) in *.
    destruct (softmax_zero_rows ops fuel state (RunState.logits state)
                (Config.vocab_size config) s1 Hn Hf) as (st' & -> & Hsm).
    exists st'. split; [reflexivity|]. split.
    + intros i. specialize (Hwr i). cbv beta in Hwr.
      rewrite (peek_buffers st s0) in Hwr by exact Hb.
      rewrite (data_of_buffers st s0) in Hwr by exact Hb.
      unfold data_of at 1. rewrite Hsm. exact Hwr.
    + intros h Hh. rewrite Hsm, Hoth by exact Hh. rewrite Hb. reflexivity.
Qed.

End Blocks.

(** * Release of the GPU objects *)

Section ReleaseFacts.

Context {F : Type} (ops : FloatOps F).

#[local] Abbreviation State := (GLState F).

(** [create_GPU_buffer] adds one object under the next name. *)
Lemma create_GPU_buffer_insert size data (st : State) :
  0 <= size ->
  exists buf st',
    create_GPU_buffer ops size data st = Some (gl_next_name st, st') /\
    gl_next_name st' = gl_next_name st + 1 /\
    gl_buffers st' = <[gl_next_name st := buf]> (gl_buffers st) /\
    buf_size buf = size.
Proof.
  intros Hsize. unfold create_GPU_buffer, glGenBuffers. gl_run.
  unfold buffer_data. cbn [gl_bound set_bound set_next_name].
  destruct (size <? 0) eqn:E; [apply Z.ltb_lt in E; lia|].
  eexists _, _. split; [reflexivity|].
  cbn [gl_buffers gl_next_name set_buffers]. auto.
Qed.

Lemma free_run_state_run (s : RunState.t) (st : State) :
  exists st',
    free_run_state s st = Some (tt, st') /\
    gl_buffers st' =
    delete (RunState.mulBuffer_3 s) (delete (RunState.mulBuffer_2 s)
      (delete (RunState.mulBuffer_1 s) (delete (RunState.value_cache s)
      (delete (RunState.key_cache s) (delete (RunState.logits s)
      (delete (RunState.att s) (delete (RunState.v s) (delete (RunState.k s)
      (delete (RunState.q s) (delete (RunState.hb2 s) (delete (RunState.hb s)
      (delete (RunState.xb2 s) (delete (RunState.xb s) (delete (RunState.x s)
      (gl_buffers st))))))))))))))).
Proof. eexists. split; reflexivity. Qed.

Lemma free_gpu_weight_run (w : Weights.t F) (st : State) :
  exists st',
    free_gpu_weight w st = Some (tt, st') /\
    gl_buffers st' =
    delete (Weights.wcls w) (delete (Weights.freq_cis_imag w)
      (delete (Weights.freq_cis_real w) (delete (Weights.rms_final_weight w)
      (delete (Weights.w3 w) (delete (Weights.w2 w) (delete (Weights.w1 w)
      (delete (Weights.wo w) (delete (Weights.wv w) (delete (Weights.wk w)
      (delete (Weights.wq w) (delete (Weights.rms_ffn_weight w)
      (delete (Weights.rms_att_weight w) (gl_buffers st))))))))))))).
Proof. eexists. split; reflexivity. Qed.

(** Strips the deletions in front of a lookup at [h]. *)
Ltac lookup_deleted :=
  repeat first
    [ rewrite lookup_delete_eq
    | rewrite lookup_delete_ne by lia ].

Lemma malloc_free_run_state p (st : State) :
  exists s st1 st',
    malloc_run_state ops p st = Some (s, st1) /\
    free_run_state s st1 = Some (tt, st') /\
    size_of st' (RunState.mulBuffer_4 s) = Some (mulBuffer_len_of p) /\
    forall h, h ∈ RunState.names s -> h <> RunState.mulBuffer_4 s ->
              gl_buffers st' !! h = None.
Proof.
  destruct (malloc_run_state_spec ops p st) as (st1 & Hrun & Hsizes).
  destruct (free_run_state_run (fresh_run_state (gl_next_name st) p) st1)
    as (st' & Hfree & Hb).
  exists (fresh_run_state (gl_next_name st) p), st1, st'.
  split; [exact Hrun|]. split; [exact Hfree|].
  unfold mulBuffers in Hsizes.
  apply Forall_cons in Hsizes. destruct Hsizes as [_ Hsizes].
  apply Forall_cons in Hsizes. destruct Hsizes as [_ Hsizes].
  apply Forall_cons in Hsizes. destruct Hsizes as [_ Hsizes].
  apply Forall_cons in Hsizes. destruct Hsizes as [H4 _].
  revert H4 Hb. unfold RunState.names, RunState.activations, fresh_run_state. cbv zeta.
  cbn [RunState.x RunState.xb RunState.xb2 RunState.hb RunState.hb2 RunState.q
       RunState.k RunState.v RunState.att RunState.logits RunState.key_cache
       RunState.value_cache RunState.mulBuffer_1 RunState.mulBuffer_2
       RunState.mulBuffer_3 RunState.mulBuffer_4 app].
  intros H4 Hb. split.
  - unfold size_of in *. rewrite Hb. lookup_deleted. exact H4.
  - intros h Hh Hne. rewrite Hb.
    rewrite !elem_of_cons, elem_of_nil in Hh.
    destruct Hh as [->|[->|[->|[->|[->|[->|[->|[->|[->|[->|[->|[->|[->|[->|[->|[->|[]]]]]]]]]]]]]]]]];
      try (lookup_deleted; reflexivity).
    contradiction.
Qed.

Ltac upload_step :=
  rewrite run_bind;
  let b := fresh "b" in
  let st' := fresh "s" in
  let Hn := fresh "Hn" in
  let Hb := fresh "Hb" in
  match goal with
  | |- context [create_GPU_buffer _ ?size ?data ?st] =>
      destruct (create_GPU_buffer_insert size data st ltac:(apply u32_nonneg))
        as (b & st' & -> & Hn & Hb & _)
  end.

(** [upload_weights] creates thirteen buffers under consecutive names
    and [free_gpu_weight] deletes each of them. *)
Lemma upload_free_gpu_weight local p (st : State) :
  names_fresh st ->
  exists w st1 st',
    upload_weights ops local p st = Some (w, st1) /\
    free_gpu_weight w st1 = Some (tt, st') /\
    weight_names w =
      (fun k => gl_next_name st + k) <$> [0; 5; 1; 2; 3; 4; 6; 7; 8; 9; 10; 11; 12] /\
    (forall h, h ∈ weight_names w -> is_Some (gl_buffers st1 !! h)) /\
    gl_buffers st' = gl_buffers st.
Proof.
  intros Hfresh. unfold upload_weights. cbv zeta.
  do 13 upload_step.
  cbv [mret GL_ret].
  match goal with
  | |- context [Some (?w0, ?s0)] =>
      destruct (free_gpu_weight_run w0 s0) as (st' & Hfree & Hdel)
  end.
  eexists _, _, st'. split; [reflexivity|]. split; [exact Hfree|].
  cbn [Weights.rms_att_weight Weights.rms_ffn_weight Weights.wq Weights.wk Weights.wv
       Weights.wo Weights.w1 Weights.w2 Weights.w3 Weights.rms_final_weight
       Weights.freq_cis_real Weights.freq_cis_imag Weights.wcls] in Hdel.
  unfold weight_names.
  cbn [Weights.rms_att_weight Weights.rms_ffn_weight Weights.wq Weights.wk Weights.wv
       Weights.wo Weights.w1 Weights.w2 Weights.w3 Weights.rms_final_weight
       Weights.freq_cis_real Weights.freq_cis_imag Weights.wcls fmap list_fmap].
  repeat match goal with
         | H : gl_next_name ?s = _ |- _ => rewrite H in *; clear H
         end.
  set (n := gl_next_name st) in *.
  split; [|split].
  - repeat (apply f_equal2; [lia|]). reflexivity.
  - intros h Hh. rewrite !elem_of_cons, elem_of_nil in Hh.
    rewrite Hb11, Hb10, Hb9, Hb8, Hb7, Hb6, Hb5, Hb4, Hb3, Hb2, Hb1, Hb0, Hb.
    destruct Hh as [->|[->|[->|[->|[->|[->|[->|[->|[->|[->|[->|[->|[->|[]]]]]]]]]]]]]];
      rewrite ?lookup_insert_ne by lia; rewrite lookup_insert_eq; eauto.
  - rewrite Hdel, Hb11, Hb10, Hb9, Hb8, Hb7, Hb6, Hb5, Hb4, Hb3, Hb2, Hb1, Hb0, Hb.
    apply map_eq. intros h.
    destruct (decide (n <= h < n + 13)) as [Hin|Hout].
    + rewrite (Hfresh h) by lia.
      assert (h = n \/ h = n + 1 \/ h = n + 2 \/ h = n + 3 \/ h = n + 4 \/ h = n + 5 \/
              h = n + 6 \/ h = n + 7 \/ h = n + 8 \/ h = n + 9 \/ h = n + 10 \/
              h = n + 11 \/ h = n + 12) as Hcase by lia.
      destruct Hcase as [E|[E|[E|[E|[E|[E|[E|[E|[E|[E|[E|[E|E]]]]]]]]]]]];
      repeat first
        [ rewrite lookup_delete_ne by lia
        | match goal with
          | |- context [delete ?k _ !! h] =>
              replace k with h by lia; rewrite lookup_delete_eq
          end ];
      reflexivity.
    + rewrite !lookup_delete_ne by lia. rewrite !lookup_insert_ne by lia. reflexivity.
Qed.

End ReleaseFacts.

(** * Reductions on sizes below 1 *)

Section Degenerate.

Context {F : Type} (ops : FloatOps F).
Variable state : RunState.t.

#[local] Abbreviation State := (GLState F).
#[local] Abbreviation prog := compile_GPUProgram.

(** A halving loop entered with a step size below 1 stays below 1. *)
Lemma halving_diverges (body : Reduce -> GL F Reduce) :
  (forall r st r' st', body r st = Some (r', st') ->
                       nextStepSize r' = Int.halve (nextStepSize r)) ->
  forall fuel r (st : State),
    nextStepSize r <= 0 -> while_loop fuel not_done body r st = None.
Proof.
  intros Hbody fuel r st Hr.
  apply (while_loop_diverges (fun r => nextStepSize r <= 0)); [| |exact Hr].
  - intros r0 H0. unfold not_done.
    destruct (Z.eqb_spec (nextStepSize r0) 1); [lia | reflexivity].
  - intros r0 st0 r1 st1 H0 Hrun. rewrite (Hbody _ _ _ _ Hrun).
    apply halve_nonpos, H0.
Qed.

Lemma reduce_step_next sh size_y r (st : State) r' st' :
  reduce_step ops prog sh size_y r st = Some (r', st') ->
  nextStepSize r' = Int.halve (nextStepSize r).
Proof.
  rewrite reduce_step_run.
  destruct (reduce_pass _ _ _ _ _ _ _) as [[u s]|]; [|discriminate].
  intros E. injection E as <- _. reflexivity.
Qed.

Lemma transformer_sum_step_next xb head_size n_heads r (st : State) r' st' :
  transformer_sum_step ops prog xb head_size n_heads r st = Some (r', st') ->
  nextStepSize r' = Int.halve (nextStepSize r).
Proof.
  unfold transformer_sum_step, reduce_pass. gl_run.
  intros E. injection E as <- _. reflexivity.
Qed.

Lemma rmsnorm_diverges fuel o x weight size weight_offset (st : State) :
  size <= 0 -> rmsnorm ops fuel prog state o x weight size weight_offset st = None.
Proof.
  intros Hs. unfold rmsnorm. gl_run.
  rewrite halving_diverges; [reflexivity| |].
  - intros r s r' s'. apply reduce_step_next.
  - cbn [nextStepSize]. apply halve_nonpos, Hs.
Qed.

Lemma softmax_diverges fuel x size_x size_y (st : State) :
  size_x <= 0 -> softmax ops fuel prog state x size_x size_y st = None.
Proof.
  intros Hs. unfold softmax, do_while. do 2 rewrite run_bind.
  rewrite reduce_step_run.
  destruct (reduce_pass _ _ _ _ _ _ _) as [[u s]|]; [|reflexivity].
  rewrite halving_diverges; [reflexivity| |].
  - intros r s0 r' s'. apply reduce_step_next.
  - cbn [advance nextStepSize]. apply halve_nonpos, Hs.
Qed.

Lemma transformer_sum_diverges fuel xb attMat pos head_size n_heads (st : State) :
  pos <= 0 ->
  transformer_sum ops fuel prog state xb attMat pos head_size n_heads st = None.
Proof.
  intros Hs. unfold transformer_sum. rewrite run_bind.
  rewrite halving_diverges; [reflexivity| |].
  - intros r s r' s'. apply transformer_sum_step_next.
  - cbn [nextStepSize]. exact Hs.
Qed.

(** With one position the loop of [transformer_sum] is not entered. *)
Lemma transformer_sum_one fuel xb attMat head_size n_heads (st : State) :
  (0 < fuel)%nat ->
  transformer_sum ops fuel prog state xb attMat 1 head_size n_heads st = Some (tt, st).
Proof.
  intros Hf. destruct fuel as [|fuel]; [lia|].
  unfold transformer_sum. rewrite run_bind, while_loop_unfold. reflexivity.
Qed.

End Degenerate.

(** * The checkpoint *)

Section CheckpointFacts.

Context {F : Type}.

Lemma at_ptr_tile (f : list F) (o a b : Z) :
  0 <= o -> 0 <= a -> 0 <= b ->
  take (Z.to_nat a) (at_ptr f o) ++ take (Z.to_nat b) (at_ptr f (o + a)) =
  take (Z.to_nat (a + b)) (at_ptr f o).
Proof.
  intros Ho Ha Hb. unfold at_ptr.
  rewrite Z2Nat.inj_add by lia.
  replace (drop (Z.to_nat o + Z.to_nat a) f)
    with (drop (Z.to_nat a) (drop (Z.to_nat o) f))
    by (rewrite drop_drop; reflexivity).
  rewrite take_take_drop, Z2Nat.inj_add by lia. reflexivity.
Qed.

Lemma s32_id (z : Z) : - 2 ^ 31 <= z <= Int.int_max -> Int.s32 z = z.
Proof.
  unfold Int.s32, Int.int_max, Int.two32. intros Hz.
  rewrite Z.mod_small by lia. lia.
Qed.

Lemma s32_mul_l (a b : Z) : Int.s32 (Int.s32 a * b) = Int.s32 (a * b).
Proof.
  unfold Int.s32, Int.two32. f_equal.
  rewrite <- (Zplus_mod_idemp_l (_ * b)), <- (Zplus_mod_idemp_l (a * b)).
  f_equal. f_equal.
  rewrite <- (Zmult_mod_idemp_l _ b), <- (Zmult_mod_idemp_l a b).
  f_equal. f_equal.
  rewrite Zminus_mod_idemp_l. replace (a + 2 ^ 31 - 2 ^ 31) with a by lia.
  reflexivity.
Qed.

Lemma ptr_add_in (f : list F) (ptr n : Z) :
  0 <= ptr + n <= Z.of_nat (length f) -> ptr_add f ptr n = Some (ptr + n).
Proof.
  intros H. unfold ptr_add. cbv zeta.
  destruct (Z.leb_spec 0 (ptr + n)); [|lia].
  destruct (Z.leb_spec (ptr + n) (Z.of_nat (length f))); [|lia]. reflexivity.
Qed.

Lemma int_div_quot (a b : Z) : b <> 0 -> 0 <= a -> int_div a b = Some (Z.quot a b).
Proof.
  intros Hb Ha. unfold int_div.
  destruct (Z.eqb_spec b 0); [contradiction|].
  destruct (Z.eqb_spec a (- 2 ^ 31)); [lia|]. reflexivity.
Qed.

(** Without a head the division traps. *)
Lemma checkpoint_init_weights_no_head (p : Config.t) (f : list F) (shared_weights : Z) :
  Config.n_heads p = 0 -> checkpoint_init_weights p f shared_weights = None.
Proof.
  intros Hh. unfold checkpoint_init_weights, int_div. rewrite Hh. cbv zeta.
  repeat match goal with
         | |- context [ptr_add f ?a ?b] => destruct (ptr_add f a b); [cbn|reflexivity]
         end.
  reflexivity.
Qed.

(** The thirteen arrays lie in the file one after the other. *)
Lemma checkpoint_tiles (p : Config.t) (f : list F) (shared_weights : Z) :
  Config.n_heads p <> 0 ->
  Forall (fun n => 0 <= n <= Int.int_max) (checkpoint_sizes p) ->
  0 <= Config.seq_len p * Z.quot (Config.dim p) (Config.n_heads p) <= Int.int_max ->
  let total := foldr Z.add 0 (checkpoint_sizes p) in
  total <= Z.of_nat (length f) ->
  exists w,
    checkpoint_init_weights p f shared_weights = Some w /\
    concat (zip_with (fun n a => take (Z.to_nat n) a)
              (checkpoint_sizes p) (checkpoint_arrays w))
      = take (Z.to_nat total) f /\
    LocalWeights.wcls w =
      if shared_weights =? 0 then at_ptr f total
      else LocalWeights.token_embedding_table w.
Proof.
  intros Hh Hpos Hrope. cbv zeta. unfold checkpoint_sizes in *. cbv zeta in *.
  repeat match goal with
         | H : Forall _ (_ :: _) |- _ => apply Forall_cons in H; destruct H as [? H]
         end.
  cbn [foldr]. intros Hlen.
  unfold checkpoint_init_weights. cbv zeta.
  rewrite !s32_mul_l.
  rewrite !s32_id by (unfold Int.int_max in *; lia).
  rewrite (int_div_quot (Config.dim p)) by lia.
  repeat (rewrite ptr_add_in by lia; cbn [mbind option_bind]).
  rewrite !s32_id by (unfold Int.int_max in *; lia).
  repeat (rewrite ptr_add_in by lia; cbn [mbind option_bind]).
  eexists. split; [reflexivity|].
  unfold checkpoint_arrays.
  cbn [LocalWeights.token_embedding_table LocalWeights.rms_att_weight
       LocalWeights.rms_ffn_weight LocalWeights.wq LocalWeights.wk LocalWeights.wv
       LocalWeights.wo LocalWeights.w1 LocalWeights.w2 LocalWeights.w3
       LocalWeights.rms_final_weight LocalWeights.freq_cis_real
       LocalWeights.freq_cis_imag LocalWeights.wcls zip_with concat].
  split.
  - rewrite app_nil_r.
    do 12 (rewrite at_ptr_tile by lia).
    unfold at_ptr. cbn [Z.to_nat drop]. f_equal. lia.
  - destruct (shared_weights =? 0); [|reflexivity]. f_equal. lia.
Qed.

End CheckpointFacts.

(** * Further properties of the blocks *)

(** X7.  [matmul] into a buffer other than its two inputs, with sizes and
    offsets for which the indices of the kernel fit in [int], returns,
    stores in [xout[i]], for each row [i < d] inside the buffer, the sum
    over [j < n] of [w[i * n + j + w_offset] * x[j + x_offset]] accumulated
    from the left, and changes nothing else. *)
Theorem matmul_computes_rows {F : Type} (ops : FloatOps F)
    (xout x w : GLuint) (n d x_offset w_offset : Z) (st : GLState F) :
  xout <> x -> xout <> w ->
  0 <= n -> 0 <= d <= Int.int_max -> 0 <= x_offset -> 0 <= w_offset ->
  d * n + w_offset <= Int.int_max -> n + x_offset <= Int.int_max ->
  exists st',
    matmul ops compile_GPUProgram xout x w n d x_offset w_offset st = Some (tt, st') /\
    written_by d
      (fun i => sum_loop ops n (fun j =>
                  fmul ops (peek ops st w (i * n + j + w_offset))
                           (peek ops st x (j + x_offset))))
      (data_of st xout) (data_of st' xout) /\
    forall h, h <> xout -> gl_buffers st' !! h = gl_buffers st !! h.
Proof. intros Hx Hw _ _ _ _ _ _. apply matmul_spec; assumption. Qed.

Lemma matmul_computes_rows_witness :
  exists st',
    matmul R_ops compile_GPUProgram 3 1 19 2 2 0 0 kv_state = Some (tt, st') /\
    data_of kv_state 3 = [0; 0]%R /\
    data_of st' 3 !! 0%nat = Some 5%R /\
    data_of st' 3 !! 1%nat = Some 11%R /\
    forall h, h <> 3 -> gl_buffers st' !! h = gl_buffers kv_state !! h.
Proof.
  destruct (matmul_computes_rows R_ops 3 1 19 2 2 0 0 kv_state)
    as (st' & Hrun & Hw & Hframe);
    try first [discriminate | vm_compute; lia | vm_compute; discriminate
              | vm_compute; split; discriminate].
  exists st'. split; [exact Hrun|]. split; [reflexivity|].
  split; [|split; [|exact Hframe]].
  - etransitivity; [exact (Hw 0%nat)|].
    change (Some (Q2R 0 + 1 * 1 + 2 * 2)%R = Some 5%R).
    f_equal. unfold Q2R. simpl. lra.
  - etransitivity; [exact (Hw 1%nat)|].
    change (Some (Q2R 0 + 3 * 1 + 4 * 2)%R = Some 11%R).
    f_equal. unfold Q2R. simpl. lra.
Defined.

(** X8.  [accum] returns and replaces [a[i]] by [a[i] + b[i]] for each
    [i < size] inside the buffer; the rest of [a] and every other buffer
    are unchanged.  This holds also when [a] and [b] are the same
    buffer. *)
Theorem accum_adds_elementwise {F : Type} (ops : FloatOps F) (a b : GLuint) (size : Z)
    (st : GLState F) :
  exists st',
    accum ops compile_GPUProgram a b size st = Some (tt, st') /\
    written_by size (fun i => fadd ops (peek ops st a i) (peek ops st b i))
      (data_of st a) (data_of st' a) /\
    forall h, h <> a -> gl_buffers st' !! h = gl_buffers st !! h.
Proof. apply accum_spec. Qed.

(** X9.  On the sampling path of the token loop, after the temperature
    dispatch and the softmax call that follows it, the logits buffer holds
    each of the [vocab_size] logits divided by the temperature, and no
    other buffer has changed. *)
Theorem temperature_path_divides_logits {F : Type} (ops : FloatOps F) (fuel : nat)
    (state : RunState.t) (config : Config.t) (temperature : F) (st : GLState F) :
  1 <= Config.vocab_size config ->
  (Z.to_nat (Config.vocab_size config) < fuel)%nat ->
  exists st',
    apply_temperature ops fuel compile_GPUProgram state config temperature st
      = Some (tt, st') /\
    written_by (Config.vocab_size config)
      (fun i => fdiv ops (peek ops st (RunState.logits state) i) temperature)
      (data_of st (RunState.logits state)) (data_of st' (RunState.logits state)) /\
    forall h, h <> RunState.logits state -> gl_buffers st' !! h = gl_buffers st !! h.
Proof. apply apply_temperature_spec. Qed.

Lemma temperature_path_divides_logits_witness :
  exists st',
    apply_temperature R_ops 8 compile_GPUProgram (fresh_run_state 1 kv_config)
      kv_config 2%R kv_state = Some (tt, st') /\
    data_of kv_state 10 = [1; 2; 3]%R /\
    data_of st' 10 !! 2%nat = Some (3 / 2)%R /\
    forall h, h <> 10 -> gl_buffers st' !! h = gl_buffers kv_state !! h.
Proof.
  destruct (temperature_path_divides_logits R_ops 8 (fresh_run_state 1 kv_config)
              kv_config 2%R kv_state) as (st' & Hrun & Hw & Hframe).
  - vm_compute. discriminate.
  - vm_compute. lia.
  - exists st'. split; [exact Hrun|]. split; [reflexivity|].
    split; [|exact Hframe].
    etransitivity; [exact (Hw 2%nat)|]. reflexivity.
Defined.

(** X10.  [free_run_state] after [malloc_run_state] deletes fifteen of the
    sixteen buffers: [mulBuffer_4] keeps its data store. *)
Theorem free_run_state_keeps_mulBuffer_4 {F : Type} (ops : FloatOps F) (p : Config.t)
    (st : GLState F) :
  exists s st1 st',
    malloc_run_state ops p st = Some (s, st1) /\
    free_run_state s st1 = Some (tt, st') /\
    size_of st' (RunState.mulBuffer_4 s) = Some (mulBuffer_len_of p) /\
    forall h, h ∈ RunState.names s -> h <> RunState.mulBuffer_4 s ->
              gl_buffers st' !! h = None.
Proof. apply malloc_free_run_state. Qed.

(** X11.  [upload_weights] creates thirteen buffers under consecutive
    names, and [free_gpu_weight] deletes every one of them: when no object
    has a name yet to be generated, the set of buffer objects after
    [free_gpu_weight] is the one before [upload_weights]. *)
Theorem upload_then_free_gpu_weight {F : Type} (ops : FloatOps F)
    (local : LocalWeights.t F) (p : Config.t) (st : GLState F) :
  names_fresh st ->
  exists w st1 st',
    upload_weights ops local p st = Some (w, st1) /\
    free_gpu_weight w st1 = Some (tt, st') /\
    weight_names w =
      (fun k => gl_next_name st + k) <$> [0; 5; 1; 2; 3; 4; 6; 7; 8; 9; 10; 11; 12] /\
    (forall h, h ∈ weight_names w -> is_Some (gl_buffers st1 !! h)) /\
    gl_buffers st' = gl_buffers st.
Proof. apply upload_free_gpu_weight. Qed.

Lemma upload_then_free_gpu_weight_witness :
  exists w st1 st',
    upload_weights R_ops (rope_weights R_ops 0%R 1%R) rope_config (gl_init R_ops)
      = Some (w, st1) /\
    free_gpu_weight w st1 = Some (tt, st') /\
    weight_names w =
      (fun k => gl_next_name (gl_init R_ops) + k)
        <$> [0; 5; 1; 2; 3; 4; 6; 7; 8; 9; 10; 11; 12] /\
    (forall h, h ∈ weight_names w -> is_Some (gl_buffers st1 !! h)) /\
    gl_buffers st' = gl_buffers (gl_init R_ops).
Proof.
  apply (upload_then_free_gpu_weight R_ops (rope_weights R_ops 0%R 1%R) rope_config
           (gl_init R_ops)).
  intros h _. reflexivity.
Defined.

(** X12.  The reduction loops test [nextStepSize != 1] only: entered with
    a size below 1 the step size stays below 1, and [rmsnorm], [softmax]
    and [transformer_sum] do not return, whatever the fuel. *)
Theorem reductions_diverge_below_one {F : Type} (ops : FloatOps F) (fuel : nat)
    (state : RunState.t) (size : Z) :
  size <= 0 ->
  (forall o x weight weight_offset (st : GLState F),
     rmsnorm ops fuel compile_GPUProgram state o x weight size weight_offset st = None) /\
  (forall x size_y (st : GLState F),
     softmax ops fuel compile_GPUProgram state x size size_y st = None) /\
  (forall xb attMat head_size n_heads (st : GLState F),
     transformer_sum ops fuel compile_GPUProgram state xb attMat size head_size n_heads st
       = None).
Proof.
  intros Hs. split; [|split]; intros.
  - apply rmsnorm_diverges, Hs.
  - apply softmax_diverges, Hs.
  - apply transformer_sum_diverges, Hs.
Qed.

Lemma reductions_diverge_below_one_witness :
  rmsnorm R_ops 100 compile_GPUProgram (fresh_run_state 1 kv_config) 2 1 17 0 0
    (gl_init R_ops) = None.
Proof.
  destruct (reductions_diverge_below_one R_ops 100 (fresh_run_state 1 kv_config) 0)
    as [H _].
  - lia.
  - apply H.
Defined.

(** X13.  At the first position [transformer_sum] is called with one
    position, its loop is not entered, and it returns without a dispatch:
    the state, and with it [xb], is as before. *)
Theorem transformer_sum_first_position {F : Type} (ops : FloatOps F) (fuel : nat)
    (state : RunState.t) (xb attMat head_size n_heads : Z) (st : GLState F) :
  (0 < fuel)%nat ->
  transformer_sum ops fuel compile_GPUProgram state xb attMat (0 + 1) head_size n_heads st
    = Some (tt, st).
Proof. intros Hf. apply transformer_sum_one, Hf. Qed.

Lemma transformer_sum_first_position_witness :
  transformer_sum R_ops 1 compile_GPUProgram (fresh_run_state 1 kv_config) 2 16 (0 + 1)
    2 1 (gl_init R_ops) = Some (tt, gl_init R_ops).
Proof.
  apply (transformer_sum_first_position R_ops 1 (fresh_run_state 1 kv_config) 2 16 2 1
           (gl_init R_ops)).
  lia.
Defined.

(** X14.  For a configuration with [n_heads] other than 0 whose array
    sizes and whose product [seq_len * head_size] are not negative and fit
    in [int], and a file that holds the thirteen arrays,
    [checkpoint_init_weights] returns and lays the arrays out one after the
    other from the start of the mapped floats: their contents, each cut to
    its size, concatenate to the first [total] floats of the file.  The
    classifier weights are the token embedding table when [shared_weights]
    is not 0, and start at [total] otherwise. *)
Theorem checkpoint_arrays_tile_file {F : Type} (p : Config.t) (f : list F)
    (shared_weights : Z) :
  Config.n_heads p <> 0 ->
  Forall (fun n => 0 <= n <= Int.int_max) (checkpoint_sizes p) ->
  0 <= Config.seq_len p * Z.quot (Config.dim p) (Config.n_heads p) <= Int.int_max ->
  let total := foldr Z.add 0 (checkpoint_sizes p) in
  total <= Z.of_nat (length f) ->
  exists w,
    checkpoint_init_weights p f shared_weights = Some w /\
    concat (zip_with (fun n a => take (Z.to_nat n) a)
              (checkpoint_sizes p) (checkpoint_arrays w))
      = take (Z.to_nat total) f /\
    LocalWeights.wcls w =
      if shared_weights =? 0 then at_ptr f total
      else LocalWeights.token_embedding_table w.
Proof. apply checkpoint_tiles. Qed.

Lemma checkpoint_arrays_tile_file_witness :
  exists w,
    checkpoint_init_weights kv_config (seqZ 0 40) 1 = Some w /\
    concat (zip_with (fun n a => take (Z.to_nat n) a)
              (checkpoint_sizes kv_config) (checkpoint_arrays w))
      = take (Z.to_nat (foldr Z.add 0 (checkpoint_sizes kv_config))) (seqZ 0 40) /\
    LocalWeights.wcls w =
      if 1 =? 0 then at_ptr (seqZ 0 40) (foldr Z.add 0 (checkpoint_sizes kv_config))
      else LocalWeights.token_embedding_table w.
Proof.
  apply (checkpoint_arrays_tile_file kv_config (seqZ 0 40) 1).
  - vm_compute. discriminate.
  - apply (bool_decide_unpack _). vm_compute. reflexivity.
  - vm_compute. split; discriminate.
  - vm_compute. discriminate.
Defined.

(** * Stores and reads of the kernels *)

Section Passes.

Context {F : Type} (ops : FloatOps F).

#[local] Abbreviation State := (GLState F).
#[local] Abbreviation prog := compile_GPUProgram.

(** A store outside the data store changes nothing. *)
Lemma store_outside name i v (st : State) :
  (length (data_of st name) <= Z.to_nat i)%nat -> store name i v st = st.
Proof.
  intros Hi. unfold store. destruct (i <? 0); [reflexivity|].
  unfold data_of in Hi.
  destruct (gl_buffers st !! name) as [buf|] eqn:E; [|reflexivity].
  rewrite list_insert_ge by exact Hi.
  destruct buf as [sz d]. cbn [buf_size buf_data].
  unfold set_buffers. rewrite insert_id by exact E. destruct st; reflexivity.
Qed.

Lemma peek_store_same name i v (st : State) :
  0 <= i -> (Z.to_nat i < length (data_of st name))%nat ->
  peek ops (store name i v st) name i = v.
Proof.
  intros H0 Hi. unfold peek. rewrite data_of_store.
  destruct (decide (name = name)); [|contradiction].
  destruct (i <? 0) eqn:E; [apply Z.ltb_lt in E; lia|].
  rewrite list_lookup_insert_eq by exact Hi. reflexivity.
Qed.

(** [b[i] = v; b[i] += w] is one store of [v + w]. *)
Lemma store_read_back name i v (g : F -> F) (st : State) :
  store name i (g (peek ops (store name i v st) name i)) (store name i v st) =
  store name i (g v) st.
Proof.
  destruct (Z.lt_ge_cases i 0) as [Hneg|Hpos].
  { unfold store. apply Z.ltb_lt in Hneg. rewrite Hneg. reflexivity. }
  destruct (decide (Z.to_nat i < length (data_of st name))%nat) as [Hin|Hout].
  - rewrite peek_store_same by assumption. apply store_store.
  - rewrite !(store_outside name i _ st) by lia. reflexivity.
Qed.

Lemma written_by_length d (val : Z -> F) (before after : list F) :
  written_by d val before after -> length after = length before.
Proof.
  intros H.
  assert (Hiff : forall i, is_Some (after !! i) <-> is_Some (before !! i)).
  { intros i. rewrite (H i). destruct (decide _); [|reflexivity].
    rewrite fmap_is_Some. reflexivity. }
  destruct (Nat.lt_trichotomy (length after) (length before)) as [Hlt|[E|Hgt]];
    [|exact E|].
  - exfalso. pose proof (proj2 (Hiff (length after))) as H1.
    rewrite !lookup_lt_is_Some in H1. specialize (H1 Hlt). lia.
  - exfalso. pose proof (proj1 (Hiff (length before))) as H1.
    rewrite !lookup_lt_is_Some in H1. specialize (H1 Hgt). lia.
Qed.

(** What a shader reads from a buffer written by a dispatch that fits
    in it. *)
Lemma written_by_peek d (val : Z -> F) (s s' : State) out i :
  written_by d val (data_of s out) (data_of s' out) ->
  d <= Z.of_nat (length (data_of s out)) ->
  0 <= i < d -> peek ops s' out i = val i.
Proof.
  intros H Hcap Hi. unfold peek.
  destruct (i <? 0) eqn:E; [apply Z.ltb_lt in E; lia|].
  rewrite (H (Z.to_nat i)). rewrite Z2Nat.id by lia.
  destruct (decide (i < d)); [|lia].
  destruct (data_of s out !! Z.to_nat i) as [x|] eqn:Ex; [reflexivity|].
  apply lookup_ge_None in Ex. lia.
Qed.

Lemma rd_wr_other b j v (s : State) b' k :
  gl_ssbo s b' <> gl_ssbo s b -> rd ops (wr b j v s) b' k = rd ops s b' k.
Proof.
  intros Hne. rewrite !rd_peek, wr_ssbo. unfold wr.
  apply peek_store_buffer. exact Hne.
Qed.

(** The kernels of the passes, in the row 0. *)
Lemma main_squares_row i (s : State) :
  gl_ssbo s 0%nat <> gl_ssbo s 1%nat ->
  kernel_main ops (i, 0, 0) shader_rmsnorm_squares_and_sum s =
  store (gl_ssbo s 1%nat) i
    (pairs ops (gl_uniform_i s shader_rmsnorm_squares_and_sum "insize")
       (squares ops (peek ops s (gl_ssbo s 0%nat))) i) s.
Proof.
  intros Hne. cbn [kernel_main]. unfold main_rmsnorm_squares_and_sum. cbv zeta.
  cbn [fst snd]. unfold pairs, pairs_by, squares.
  destruct (i * 2 + 1 <? _); [|reflexivity].
  rewrite !(rd_wr_other 1 i _ s 0) by exact Hne.
  unfold wr at 1. rewrite wr_ssbo. rewrite (rd_peek _ (wr _ _ _ _)), wr_ssbo.
  unfold wr. rewrite !rd_peek.
  exact (store_read_back (gl_ssbo s 1%nat) i _
           (fun v => fadd ops v (fmul ops (peek ops s (gl_ssbo s 0%nat) (i * 2 + 1))
                                         (peek ops s (gl_ssbo s 0%nat) (i * 2 + 1)))) s).
Qed.

(** The first pass of [rmsnorm]: squares, added in pairs. *)
Lemma squares_pass x out n d (s0 : State) :
  gl_program s0 = Some shader_rmsnorm_squares_and_sum ->
  gl_ssbo s0 0%nat = x -> gl_ssbo s0 1%nat = out -> x <> out ->
  gl_uniform_i s0 shader_rmsnorm_squares_and_sum "insize" = n ->
  written_by d (pairs ops n (squares ops (peek ops s0 x)))
    (data_of s0 out) (data_of (dispatch ops d 1 1 s0) out) /\
  forall h, h <> out -> gl_buffers (dispatch ops d 1 1 s0) !! h = gl_buffers s0 !! h.
Proof.
  intros Hp H0 H1 Hne Hn.
  apply (dispatch_pointwise ops shader_rmsnorm_squares_and_sum out
           (fun i s => pairs ops n (squares ops (peek ops s x)) i) s0 d).
  - exact Hp.
  - intros i s Hs Hu _. rewrite main_squares_row by (rewrite Hs, H0, H1; exact Hne).
    rewrite Hs, Hu, H0, H1, Hn. reflexivity.
  - intros i j v s _. unfold pairs, pairs_by, squares.
    rewrite !peek_store_buffer by exact Hne. reflexivity.
  - intros i s s' E. unfold pairs, pairs_by, squares.
    rewrite !(peek_buffers ops s s') by exact E. reflexivity.
Qed.

Lemma data_of_lookup (s s' : State) name :
  gl_buffers s' !! name = gl_buffers s !! name -> data_of s' name = data_of s name.
Proof. intros E. unfold data_of. rewrite E. reflexivity. Qed.

Lemma peek_lookup (s s' : State) name i :
  gl_buffers s' !! name = gl_buffers s !! name -> peek ops s' name i = peek ops s name i.
Proof. intros E. unfold peek. rewrite (data_of_lookup s s' name E). reflexivity. Qed.

End Passes.

Section TreeFacts.

Context {F : Type}.
Variable op : F -> F -> F.

Lemma halve_lt n : 2 <= n -> 1 <= Int.halve n < n.
Proof. apply halve_bounds. Qed.

Lemma pairs_by_ext n (a b : Z -> F) i :
  (forall j, 0 <= j < n -> a j = b j) -> 0 <= i < Int.halve n -> 1 <= n ->
  pairs_by op n a i = pairs_by op n b i.
Proof.
  intros Hab Hi Hn. unfold pairs_by.
  rewrite halve_spec in Hi by lia.
  assert (Hi2 : i * 2 < n).
  { pose proof (Z.div_mod (n + 1) 2 ltac:(lia)).
    pose proof (Z.mod_pos_bound (n + 1) 2 ltac:(lia)). lia. }
  destruct (i * 2 + 1 <? n) eqn:E.
  - apply Z.ltb_lt in E. rewrite !Hab by lia. reflexivity.
  - apply Hab. lia.
Qed.

Lemma tree_reduce_ext : forall fuel n (a b : Z -> F),
  1 <= n -> (forall j, 0 <= j < n -> a j = b j) ->
  tree_reduce op fuel n a = tree_reduce op fuel n b.
Proof.
  induction fuel as [|fuel IH]; intros n a b Hn Hab; cbn [tree_reduce].
  - apply Hab. lia.
  - destruct (Z.eqb_spec n 1) as [_|Hne]; [apply Hab; lia|].
    apply IH; [apply halve_pos; lia|].
    intros j Hj. apply pairs_by_ext; [exact Hab | exact Hj | exact Hn].
Qed.

Lemma tree_reduce_fuel : forall f g n (a : Z -> F),
  1 <= n -> (Z.to_nat n <= S f)%nat -> (Z.to_nat n <= S g)%nat ->
  tree_reduce op f n a = tree_reduce op g n a.
Proof.
  induction f as [|f IH]; intros g n a Hn Hf Hg.
  - assert (n = 1) by lia. subst n. destruct g; reflexivity.
  - cbn [tree_reduce]. destruct (Z.eqb_spec n 1) as [->|Hne].
    + destruct g; reflexivity.
    + destruct g as [|g]; [lia|]. cbn [tree_reduce].
      destruct (Z.eqb_spec n 1) as [|_]; [contradiction|].
      pose proof (halve_lt n ltac:(lia)).
      apply IH; lia.
Qed.

Lemma tree_by_one (a : Z -> F) : tree_by op 1 a = a 0.
Proof. reflexivity. Qed.

Lemma tree_by_step n (a : Z -> F) :
  2 <= n -> tree_by op n a = tree_by op (Int.halve n) (pairs_by op n a).
Proof.
  intros Hn. unfold tree_by.
  destruct (Z.to_nat n) as [|k] eqn:E; [lia|]. cbn [tree_reduce].
  destruct (Z.eqb_spec n 1) as [|_]; [lia|].
  pose proof (halve_lt n Hn).
  apply tree_reduce_fuel; lia.
Qed.

Lemma tree_by_ext n (a b : Z -> F) :
  1 <= n -> (forall j, 0 <= j < n -> a j = b j) -> tree_by op n a = tree_by op n b.
Proof. intros. apply tree_reduce_ext; assumption. Qed.

(** The first pass and the passes of the loop together. *)
Lemma tree_by_first_pass n (a : Z -> F) :
  1 <= n -> tree_by op (Int.halve n) (pairs_by op n a) = tree_by op n a.
Proof.
  intros Hn. destruct (Z.eq_dec n 1) as [->|Hne].
  - rewrite halve_one, !tree_by_one. reflexivity.
  - symmetry. apply tree_by_step. lia.
Qed.

End TreeFacts.

Section TreeSum.

Context {F : Type} (ops : FloatOps F).

Lemma pairs_ext n (a b : Z -> F) i :
  (forall j, 0 <= j < n -> a j = b j) -> 0 <= i < Int.halve n -> 1 <= n ->
  pairs ops n a i = pairs ops n b i.
Proof. apply pairs_by_ext. Qed.

Lemma tree_sum_one (a : Z -> F) : tree_sum ops 1 a = a 0.
Proof. reflexivity. Qed.

Lemma tree_sum_step n (a : Z -> F) :
  2 <= n -> tree_sum ops n a = tree_sum ops (Int.halve n) (pairs ops n a).
Proof. apply (tree_by_step (fadd ops)). Qed.

Lemma tree_sum_ext n (a b : Z -> F) :
  1 <= n -> (forall j, 0 <= j < n -> a j = b j) -> tree_sum ops n a = tree_sum ops n b.
Proof. apply (tree_by_ext (fadd ops)). Qed.

Lemma tree_sum_first_pass n (a : Z -> F) :
  1 <= n -> tree_sum ops (Int.halve n) (pairs ops n a) = tree_sum ops n a.
Proof. apply (tree_by_first_pass (fadd ops)). Qed.

End TreeSum.

(** Over the reals the passes add up all the values. *)
Section TreeReal.

#[local] Open Scope R_scope.

Lemma sum_R_app (l k : list R) : sum_R (l ++ k) = sum_R l + sum_R k.
Proof.
  unfold sum_R. induction l as [|x l IH]; cbn [app foldr]; [lra|].
  rewrite IH. lra.
Qed.

Lemma sum_R_seqZ_S (a : Z -> R) (k : nat) :
  sum_R (a <$> seqZ 0 (Z.of_nat (S k))) =
  sum_R (a <$> seqZ 0 (Z.of_nat k)) + a (Z.of_nat k).
Proof.
  rewrite seqZ_S, fmap_app, sum_R_app. cbn [fmap list_fmap sum_R foldr].
  rewrite Z.add_0_l. unfold sum_R. cbn [foldr]. lra.
Qed.

Lemma sum_R_ext (a b : Z -> R) (n : Z) :
  (forall j, (0 <= j < n)%Z -> a j = b j) ->
  sum_R (a <$> seqZ 0 n) = sum_R (b <$> seqZ 0 n).
Proof.
  intros H. f_equal. apply list_fmap_ext. intros i j Hj.
  apply lookup_seqZ in Hj. apply H. lia.
Qed.

(** Twice [k] values, added in pairs. *)
Lemma sum_R_even (a : Z -> R) (k : nat) :
  sum_R ((fun i => a (i * 2)%Z + a (i * 2 + 1)%Z) <$> seqZ 0 (Z.of_nat k)) =
  sum_R (a <$> seqZ 0 (Z.of_nat (2 * k))).
Proof.
  induction k as [|k IH].
  - reflexivity.
  - rewrite sum_R_seqZ_S, IH.
    replace (2 * S k)%nat with (S (S (2 * k))) by lia.
    rewrite !sum_R_seqZ_S.
    replace (Z.of_nat k * 2)%Z with (Z.of_nat (2 * k)) by lia.
    replace (Z.of_nat (2 * k) + 1)%Z with (Z.of_nat (S (2 * k))) by lia.
    lra.
Qed.

Lemma sum_R_pairs (a : Z -> R) (n : Z) :
  (1 <= n)%Z ->
  sum_R (pairs R_ops n a <$> seqZ 0 (Int.halve n)) = sum_R (a <$> seqZ 0 n).
Proof.
  intros Hn. rewrite halve_spec by lia.
  pose proof (Z.div_mod (n + 1) 2 ltac:(lia)) as Hdm.
  pose proof (Z.mod_pos_bound (n + 1) 2 ltac:(lia)) as Hmod.
  set (h := ((n + 1) / 2)%Z) in *.
  destruct (Z.eq_dec ((n + 1) mod 2) 1%Z) as [Heven|Hodd].
  - (* n = 2 h *)
    rewrite (sum_R_ext (pairs R_ops n a) (fun i => a (i * 2)%Z + a (i * 2 + 1)%Z) h).
    + replace h with (Z.of_nat (Z.to_nat h)) by lia.
      rewrite sum_R_even.
      replace (Z.of_nat (2 * Z.to_nat h)) with n by lia. reflexivity.
    + intros j Hj. unfold pairs, pairs_by.
      destruct (j * 2 + 1 <? n)%Z eqn:E; [reflexivity|]. apply Z.ltb_ge in E. lia.
  - (* n = 2 (h - 1) + 1 *)
    assert (Hh : (1 <= h)%Z) by lia.
    replace h with (Z.of_nat (S (Z.to_nat (h - 1)))) by lia.
    rewrite sum_R_seqZ_S.
    rewrite (sum_R_ext (pairs R_ops n a) (fun i => a (i * 2)%Z + a (i * 2 + 1)%Z)
               (Z.of_nat (Z.to_nat (h - 1)))).
    + rewrite sum_R_even.
      replace (seqZ 0 n) with (seqZ 0 (Z.of_nat (S (2 * Z.to_nat (h - 1)))))
        by (apply f_equal; lia).
      rewrite sum_R_seqZ_S. apply f_equal. unfold pairs, pairs_by.
      destruct (Z.of_nat (Z.to_nat (h - 1)) * 2 + 1 <? n)%Z eqn:E.
      * apply Z.ltb_lt in E. lia.
      * apply f_equal. lia.
    + intros j Hj. unfold pairs, pairs_by.
      destruct (j * 2 + 1 <? n)%Z eqn:E; [reflexivity|]. apply Z.ltb_ge in E. lia.
Qed.

Lemma tree_reduce_sum : forall fuel n (a : Z -> R),
  (1 <= n)%Z -> (Z.to_nat n <= S fuel)%nat ->
  tree_reduce Rplus fuel n a = sum_R (a <$> seqZ 0 n).
Proof.
  induction fuel as [|fuel IH]; intros n a Hn Hf.
  - assert (n = 1%Z) by lia. subst n. cbn [tree_reduce].
    change (seqZ 0 1) with [0%Z]. unfold sum_R. cbn. lra.
  - cbn [tree_reduce]. destruct (Z.eqb_spec n 1) as [->|Hne].
    + change (seqZ 0 1) with [0%Z]. unfold sum_R. cbn. lra.
    + pose proof (halve_lt n ltac:(lia)).
      rewrite IH by lia. apply sum_R_pairs. lia.
Qed.

Lemma tree_sum_real (n : Z) (a : Z -> R) :
  (1 <= n)%Z -> tree_sum R_ops n a = sum_R (a <$> seqZ 0 n).
Proof. intros Hn. apply tree_reduce_sum; lia. Qed.

End TreeReal.

(** * Dispatches with rows *)

Section Scatter.

Context {F : Type} (ops : FloatOps F).

#[local] Abbreviation State := (GLState F).

Lemma lookup_store_written out j v (s : State) :
  0 <= j ->
  data_of (store out j v s) out !! Z.to_nat j =
  (fun _ => v) <$> data_of s out !! Z.to_nat j.
Proof.
  intros Hj. rewrite data_of_store. destruct (decide (out = out)); [|contradiction].
  destruct (j <? 0) eqn:E; [apply Z.ltb_lt in E; lia|].
  destruct (data_of s out !! Z.to_nat j) as [x|] eqn:Ex.
  - rewrite list_lookup_insert_eq by (apply lookup_lt_Some in Ex; exact Ex).
    reflexivity.
  - cbn. apply lookup_ge_None. rewrite length_insert.
    apply lookup_ge_None in Ex. exact Ex.
Qed.

Lemma lookup_store_other out j v (s : State) (k : nat) :
  Z.of_nat k <> j -> data_of (store out j v s) out !! k = data_of s out !! k.
Proof.
  intros Hk. rewrite data_of_store. destruct (decide (out = out)); [|contradiction].
  destruct (j <? 0) eqn:E; [reflexivity|]. apply Z.ltb_ge in E.
  apply list_lookup_insert_ne. lia.
Qed.

(** Invocations that store at different elements of [out], each a value
    that does not depend on what the others store. *)
Lemma run_kernel_scatter sh out (idx : Z * Z * Z -> Z) (val : Z * Z * Z -> State -> F) :
  (forall g g' v s, idx g <> idx g' -> val g (store out (idx g') v s) = val g s) ->
  forall (gs : list (Z * Z * Z)) (st0 : State),
    (forall g s, only_buffers [out] st0 s ->
                 kernel_main ops g sh s = store out (idx g) (val g s) s) ->
    NoDup (idx <$> gs) ->
    only_buffers [out] st0 (run_kernel ops sh gs st0) /\
    (forall g, g ∈ gs -> 0 <= idx g ->
       data_of (run_kernel ops sh gs st0) out !! Z.to_nat (idx g) =
       (fun _ => val g st0) <$> data_of st0 out !! Z.to_nat (idx g)) /\
    (forall k : nat, Z.of_nat k ∉ idx <$> gs ->
       data_of (run_kernel ops sh gs st0) out !! k = data_of st0 out !! k).
Proof.
  intros Hval gs. unfold run_kernel.
  induction gs as [|g gs IH]; intros st0 Hker Hnd.
  - cbn [foldl]. split; [apply only_buffers_refl|]. split; [|reflexivity].
    intros g Hg. apply elem_of_nil in Hg. contradiction.
  - cbn [foldl]. rewrite (Hker g st0 (only_buffers_refl _ _)).
    set (s1 := store out (idx g) (val g st0) st0).
    cbn [fmap list_fmap] in Hnd. apply NoDup_cons in Hnd.
    destruct Hnd as [Hnotin Hnd].
    destruct (IH s1) as (Hob & Hin & Hout).
    { intros g' s Hs. apply Hker.
      eapply only_buffers_trans; [apply store_only_buffers | exact Hs]. }
    { exact Hnd. }
    split; [eapply only_buffers_trans; [apply store_only_buffers | exact Hob]|].
    split.
    + intros g0 Hg0 H0. apply elem_of_cons in Hg0. destruct Hg0 as [-> | Hg0].
      * rewrite Hout by (rewrite Z2Nat.id by lia; exact Hnotin).
        apply lookup_store_written. exact H0.
      * assert (Hne : idx g0 <> idx g).
        { intros E. apply Hnotin. rewrite <- E. apply list_elem_of_fmap_2. exact Hg0. }
        rewrite (Hin g0 Hg0 H0). unfold s1. rewrite Hval by exact Hne.
        rewrite lookup_store_other by (rewrite Z2Nat.id by lia; exact Hne).
        reflexivity.
    + intros k Hk. cbn [fmap list_fmap] in Hk. rewrite not_elem_of_cons in Hk.
      destruct Hk as [Hk1 Hk2].
      rewrite Hout by exact Hk2. apply lookup_store_other. exact Hk1.
Qed.

(** The invocations of [d] by [Y] work groups write the first [d * Y]
    elements, each one once. *)
Lemma work_groups_rows d (k : nat) :
  0 <= d ->
  row_index d <$> work_groups d (Z.of_nat k) 1 = seqZ 0 (d * Z.of_nat k).
Proof.
  intros Hd. unfold work_groups. change (seqZ 0 1) with [0].
  cbn [mbind list_bind]. rewrite app_nil_r.
  induction k as [|k IH].
  - rewrite Z.mul_0_r. reflexivity.
  - rewrite seqZ_S, bind_app, fmap_app, IH.
    replace (d * Z.of_nat (S k)) with (d * Z.of_nat k + d) by lia.
    rewrite seqZ_app by lia. f_equal.
    cbn [mbind list_bind]. rewrite app_nil_r, Z.add_0_l.
    replace (seqZ (0 + d * Z.of_nat k) d) with (Z.add (d * Z.of_nat k) <$> seqZ 0 d)
      by (rewrite fmap_add_seqZ; f_equal; lia).
    clear IH. induction (seqZ 0 d) as [|x l IHl]; [reflexivity|].
    cbn [mbind list_bind fmap list_fmap app] in *. rewrite IHl.
    unfold row_index. cbn [fst snd]. f_equal. lia.
Qed.

Lemma work_groups_NoDup d Y : 0 <= d -> NoDup (row_index d <$> work_groups d Y 1).
Proof.
  intros Hd. destruct (Z.le_gt_cases 0 Y) as [HY|HY].
  - rewrite <- (Z2Nat.id Y) by exact HY. rewrite work_groups_rows by exact Hd.
    apply NoDup_seqZ.
  - unfold work_groups. rewrite (seqZ_nil 0 Y) by lia.
    change (seqZ 0 1) with [0]. cbn. apply NoDup_nil_2.
Qed.

Lemma work_groups_elem d Y x y :
  0 <= x < d -> 0 <= y < Y -> (x, y, 0) ∈ work_groups d Y 1.
Proof.
  intros Hx Hy. unfold work_groups. change (seqZ 0 1) with [0].
  cbn [mbind list_bind]. rewrite app_nil_r.
  apply list_elem_of_bind. exists y. split; [|apply elem_of_seqZ; lia].
  apply list_elem_of_bind. exists x. split; [|apply elem_of_seqZ; lia].
  apply list_elem_of_singleton. reflexivity.
Qed.

Lemma length_of_lookups (l l' : list F) :
  (forall k, is_Some (l' !! k) <-> is_Some (l !! k)) -> length l' = length l.
Proof.
  intros Hiff.
  destruct (Nat.lt_trichotomy (length l') (length l)) as [Hlt|[E|Hgt]]; [|exact E|].
  - exfalso. pose proof (proj2 (Hiff (length l'))) as H1.
    rewrite !lookup_lt_is_Some in H1. specialize (H1 Hlt). lia.
  - exfalso. pose proof (proj1 (Hiff (length l))) as H1.
    rewrite !lookup_lt_is_Some in H1. specialize (H1 Hgt). lia.
Qed.

Lemma peek_of_lookup (s s' : State) out i v :
  data_of s' out !! Z.to_nat i = (fun _ => v) <$> data_of s out !! Z.to_nat i ->
  0 <= i -> (Z.to_nat i < length (data_of s out))%nat ->
  peek ops s' out i = v.
Proof.
  intros H H0 Hi. unfold peek.
  destruct (i <? 0) eqn:E; [apply Z.ltb_lt in E; lia|].
  rewrite H. destruct (data_of s out !! Z.to_nat i) as [x|] eqn:Ex; [reflexivity|].
  apply lookup_ge_None in Ex. lia.
Qed.

(** A dispatch of [d] by [Y] work groups in which the invocation
    [(x, y)] stores [val (x, y)] at the element [x + d * y] of [out]. *)
Lemma dispatch_rows sh out (val : Z * Z * Z -> State -> F) (s0 : State) d Y :
  0 <= d ->
  gl_program s0 = Some sh ->
  (forall g s, gl_ssbo s = gl_ssbo s0 -> gl_uniform_i s = gl_uniform_i s0 ->
               gl_uniform_f s = gl_uniform_f s0 ->
               kernel_main ops g sh s = store out (row_index d g) (val g s) s) ->
  (forall g g' v s, row_index d g <> row_index d g' ->
                    val g (store out (row_index d g') v s) = val g s) ->
  (forall g s s', gl_buffers s' = gl_buffers s -> val g s' = val g s) ->
  (forall h, h <> out -> gl_buffers (dispatch ops d Y 1 s0) !! h = gl_buffers s0 !! h) /\
  length (data_of (dispatch ops d Y 1 s0) out) = length (data_of s0 out) /\
  (forall g, g ∈ work_groups d Y 1 -> 0 <= row_index d g ->
     data_of (dispatch ops d Y 1 s0) out !! Z.to_nat (row_index d g) =
     (fun _ => val g s0) <$> data_of s0 out !! Z.to_nat (row_index d g)) /\
  (forall k : nat, Z.of_nat k ∉ row_index d <$> work_groups d Y 1 ->
     data_of (dispatch ops d Y 1 s0) out !! k = data_of s0 out !! k).
Proof.
  intros Hd Hp Hker Hval Hbuf. unfold dispatch. rewrite Hp. cbv zeta.
  match goal with |- context [run_kernel ops _ _ ?s] => set (st0 := s) end.
  destruct (run_kernel_scatter sh out (row_index d) val Hval (work_groups d Y 1) st0)
    as (Hob & Hin & Hout).
  { intros g s (_ & _ & Hs & _ & Hu & Hf & _). apply Hker; assumption. }
  { apply work_groups_NoDup, Hd. }
  assert (Hin' : forall g, g ∈ work_groups d Y 1 -> 0 <= row_index d g ->
     data_of (run_kernel ops sh (work_groups d Y 1) st0) out !! Z.to_nat (row_index d g) =
     (fun _ => val g s0) <$> data_of s0 out !! Z.to_nat (row_index d g)).
  { intros g Hg H0. rewrite (Hin g Hg H0). rewrite (Hbuf g s0 st0 eq_refl).
    reflexivity. }
  split; [|split; [|split]].
  - intros h Hh. destruct Hob as (_&_&_&_&_&_&_&Ha).
    rewrite Ha by (rewrite list_elem_of_singleton; exact Hh). reflexivity.
  - apply length_of_lookups. intros k.
    destruct (decide (Z.of_nat k ∈ row_index d <$> work_groups d Y 1)) as [Hk|Hk].
    + apply list_elem_of_fmap in Hk. destruct Hk as (g & Ek & Hg).
      pose proof (Hin' g Hg ltac:(lia)) as H. rewrite <- Ek, Nat2Z.id in H.
      rewrite H, fmap_is_Some. reflexivity.
    + rewrite (Hout k Hk). reflexivity.
  - exact Hin'.
  - exact Hout.
Qed.

End Scatter.

(** * The passes of the reductions *)

Section SoftmaxPasses.

Context {F : Type} (ops : FloatOps F).

#[local] Abbreviation State := (GLState F).
#[local] Abbreviation prog := compile_GPUProgram.

(** The kernels of [shader_sum] and [shader_max] in any row. *)
Lemma reduce_kernel sh x y z (s : State) :
  sh = shader_sum \/ sh = shader_max ->
  gl_ssbo s 0%nat <> gl_ssbo s 1%nat ->
  kernel_main ops (x, y, z) sh s =
  store (gl_ssbo s 1%nat) (row_index (gl_uniform_i s sh "shape0") (x, y, z))
    (pairs_by (reduce_op ops sh) (gl_uniform_i s sh "insize")
       (fun j => peek ops s (gl_ssbo s 0%nat) (gl_uniform_i s sh "insize" * y + j)) x) s.
Proof.
  intros [-> | ->] Hne; cbn [kernel_main reduce_op]; unfold row_index, pairs_by;
    cbn [fst snd].
  - unfold main_sum. cbv zeta. cbn [fst snd].
    destruct (x * 2 + 1 <? _); [|reflexivity].
    rewrite !(rd_wr_other ops 1 _ _ s 0) by exact Hne.
    unfold wr at 1. rewrite wr_ssbo. rewrite (rd_peek _ (wr _ _ _ _)), wr_ssbo.
    unfold wr. rewrite !rd_peek, Z.add_assoc.
    exact (store_read_back ops (gl_ssbo s 1%nat) _ _
             (fun v => fadd ops v (peek ops s (gl_ssbo s 0%nat) _)) s).
  - unfold main_max. cbv zeta. cbn [fst snd].
    destruct (x * 2 + 1 <? _); unfold wr; rewrite !rd_peek, ?Z.add_assoc; reflexivity.
Qed.

(** One pass of a reduction on [Y] rows: each row of [currentStepSize]
    values becomes a row of [nextStepSize] values of [out]. *)
Lemma reduce_pass_rows sh r out Y (st : State) :
  sh = shader_sum \/ sh = shader_max ->
  currentBuffer r <> out -> 0 <= nextStepSize r -> 0 <= Y ->
  exists st',
    reduce_pass ops prog sh r out Y st = Some (tt, st') /\
    (forall h, h <> out -> gl_buffers st' !! h = gl_buffers st !! h) /\
    length (data_of st' out) = length (data_of st out) /\
    (forall x y, 0 <= x < nextStepSize r -> 0 <= y < Y ->
       (Z.to_nat (x + nextStepSize r * y) < length (data_of st out))%nat ->
       peek ops st' out (x + nextStepSize r * y) =
       pairs_by (reduce_op ops sh) (currentStepSize r)
         (fun j => peek ops st (currentBuffer r) (currentStepSize r * y + j)) x) /\
    (forall k : nat, ~ Z.of_nat k < nextStepSize r * Y ->
       data_of st' out !! k = data_of st out !! k).
Proof.
  intros Hsh Hne Hd HY. unfold reduce_pass. gl_run. eexists. split; [reflexivity|].
  match goal with |- context [dispatch ops _ Y 1 ?s] => set (s0 := s) end.
  assert (Hp : gl_program s0 = Some sh)
    by (subst s0; destruct Hsh as [-> | ->]; gl_proj; reflexivity).
  assert (Hb : gl_buffers s0 = gl_buffers st)
    by (subst s0; rewrite !buffers_uniform1i; reflexivity).
  assert (H0 : gl_ssbo s0 0%nat = currentBuffer r)
    by (subst s0; destruct Hsh as [-> | ->]; gl_proj; reflexivity).
  assert (H1 : gl_ssbo s0 1%nat = out)
    by (subst s0; destruct Hsh as [-> | ->]; gl_proj; reflexivity).
  assert (Hn : gl_uniform_i s0 sh "insize" = currentStepSize r)
    by (subst s0; destruct Hsh as [-> | ->]; uniform_values; reflexivity).
  assert (Hs0 : gl_uniform_i s0 sh "shape0" = nextStepSize r)
    by (subst s0; destruct Hsh as [-> | ->]; uniform_values; reflexivity).
  destruct (dispatch_rows ops sh out
              (fun g s => pairs_by (reduce_op ops sh) (currentStepSize r)
                 (fun j => peek ops s (currentBuffer r) (currentStepSize r * g.1.2 + j))
                 g.1.1)
              s0 (nextStepSize r) Y Hd Hp) as (Hoth & Hlen & Hin & Hout).
  - intros [[x y] z] s Hs Hu _.
    rewrite (reduce_kernel sh x y z s Hsh) by (rewrite Hs, H0, H1; exact Hne).
    rewrite Hs, Hu, H0, H1, Hn, Hs0. reflexivity.
  - intros g g' v s _. unfold pairs_by.
    rewrite !peek_store_buffer by exact Hne. reflexivity.
  - intros g s s' E. unfold pairs_by.
    rewrite !(peek_buffers ops s s') by exact E. reflexivity.
  - split; [|split; [|split]].
    + intros h Hh. rewrite Hoth by exact Hh. rewrite Hb. reflexivity.
    + rewrite Hlen, (data_of_buffers st s0 out Hb). reflexivity.
    + intros x y Hx Hy Hcap.
      assert (Hg : (x, y, 0) ∈ work_groups (nextStepSize r) Y 1)
        by (apply work_groups_elem; lia).
      assert (Hidx : row_index (nextStepSize r) (x, y, 0) = x + nextStepSize r * y)
        by reflexivity.
      pose proof (Hin (x, y, 0) Hg ltac:(rewrite Hidx; nia)) as H.
      rewrite Hidx in H. rewrite (data_of_buffers st s0 out Hb) in H.
      rewrite (peek_of_lookup ops st _ out _ _ H) by (first [nia | exact Hcap]).
      unfold pairs_by. cbn [fst snd].
      rewrite !(peek_buffers ops st s0) by exact Hb. reflexivity.
    + intros k Hk. rewrite <- (data_of_buffers st s0 out Hb). apply Hout.
      intros Hel. rewrite <- (Z2Nat.id Y) in Hel by exact HY.
      rewrite work_groups_rows in Hel by exact Hd.
      rewrite Z2Nat.id in Hel by exact HY. apply elem_of_seqZ in Hel. lia.
Qed.

(** The same in the row 0. *)
Lemma reduce_pass_row0 sh r out Y (st : State) :
  sh = shader_sum \/ sh = shader_max ->
  currentBuffer r <> out -> 0 <= nextStepSize r -> 1 <= Y ->
  exists st',
    reduce_pass ops prog sh r out Y st = Some (tt, st') /\
    (forall h, h <> out -> gl_buffers st' !! h = gl_buffers st !! h) /\
    length (data_of st' out) = length (data_of st out) /\
    (forall i, 0 <= i < nextStepSize r ->
       (Z.to_nat i < length (data_of st out))%nat ->
       peek ops st' out i =
       pairs_by (reduce_op ops sh) (currentStepSize r) (peek ops st (currentBuffer r)) i).
Proof.
  intros Hsh Hne Hd HY.
  destruct (reduce_pass_rows sh r out Y st Hsh Hne Hd ltac:(lia))
    as (st' & Hrun & Hoth & Hlen & Hrow & _).
  exists st'. split; [exact Hrun|]. split; [exact Hoth|]. split; [exact Hlen|].
  intros i Hi Hcap.
  pose proof (Hrow i 0 Hi ltac:(lia)) as H.
  rewrite Z.mul_0_r, Z.add_0_r in H. rewrite (H Hcap).
  unfold pairs_by. rewrite Z.mul_0_r, !Z.add_0_l. reflexivity.
Qed.

(** A loop of passes between the buffers [b1] and [b2] leaves at index 0
    of its last buffer the values of the row 0 of the buffer it starts
    from, combined by halving passes. *)
Lemma reduce_loop_value sh Y b1 b2 cap fuel r (st : State) :
  sh = shader_sum \/ sh = shader_max -> 1 <= Y -> b1 <> b2 ->
  (currentBuffer r = b1 /\ nextBuffer r = b2 \/
   currentBuffer r = b2 /\ nextBuffer r = b1) ->
  1 <= nextStepSize r <= cap ->
  cap <= Z.of_nat (length (data_of st b1)) ->
  cap <= Z.of_nat (length (data_of st b2)) ->
  (Z.to_nat (nextStepSize r) < fuel)%nat ->
  exists r' st',
    while_loop fuel not_done (reduce_step ops prog sh Y) r st = Some (r', st') /\
    (currentBuffer r' = b1 /\ nextBuffer r' = b2 \/
     currentBuffer r' = b2 /\ nextBuffer r' = b1) /\
    length (data_of st' b1) = length (data_of st b1) /\
    length (data_of st' b2) = length (data_of st b2) /\
    peek ops st' (nextBuffer r') 0 =
      tree_by (reduce_op ops sh) (nextStepSize r) (peek ops st (nextBuffer r)) /\
    forall h, h <> b1 -> h <> b2 -> gl_buffers st' !! h = gl_buffers st !! h.
Proof.
  intros Hsh HY Hm Hbufs Hsz Hc1 Hc2 Hfuel.
  set (V := tree_by (reduce_op ops sh) (nextStepSize r) (peek ops st (nextBuffer r))).
  destruct (while_loop_total
              (fun r1 s1 =>
                 (currentBuffer r1 = b1 /\ nextBuffer r1 = b2 \/
                  currentBuffer r1 = b2 /\ nextBuffer r1 = b1) /\
                 1 <= nextStepSize r1 <= cap /\
                 length (data_of s1 b1) = length (data_of st b1) /\
                 length (data_of s1 b2) = length (data_of st b2) /\
                 (forall h, h <> b1 -> h <> b2 ->
                            gl_buffers s1 !! h = gl_buffers st !! h) /\
                 tree_by (reduce_op ops sh) (nextStepSize r1)
                   (peek ops s1 (nextBuffer r1)) = V)
              (fun r1 => Z.to_nat (nextStepSize r1)) not_done
              (reduce_step ops prog sh Y))
    with (fuel := fuel) (s := r) (st := st)
    as (r' & st' & Hw & (Hb' & Hs' & Hl1' & Hl2' & Hoth & HV) & Hdone).
  - intros r1 s1 (Hb1 & Hs1 & Hl1 & Hl2 & Hoth & HV) Hcond.
    unfold not_done in Hcond. apply negb_true_iff, Z.eqb_neq in Hcond.
    pose proof (halve_bounds (nextStepSize r1) ltac:(lia)) as Hh.
    assert (Hne : currentBuffer (advance r1) <> currentBuffer r1).
    { cbn [advance currentBuffer].
      destruct Hb1 as [[-> ->]|[-> ->]]; congruence. }
    destruct (reduce_pass_row0 sh (advance r1) (currentBuffer r1) Y s1 Hsh Hne)
      as (s2 & Hrun & Hrest & Hlen & Hrow).
    { cbn [advance nextStepSize]. lia. }
    { exact HY. }
    exists (advance r1), s2. split.
    { rewrite reduce_step_run. cbn [advance nextBuffer] in *. rewrite Hrun.
      reflexivity. }
    cbn [advance nextStepSize currentStepSize currentBuffer nextBuffer] in *.
    assert (Hcap : Int.halve (nextStepSize r1)
                   <= Z.of_nat (length (data_of s1 (currentBuffer r1)))).
    { destruct Hb1 as [[-> _]|[-> _]]; lia. }
    split; [|lia].
    split; [destruct Hb1 as [[-> ->]|[-> ->]]; auto|].
    split; [lia|].
    split.
    { destruct Hb1 as [[E1 E2]|[E1 E2]].
      - rewrite E1 in Hlen. rewrite Hlen. exact Hl1.
      - rewrite (data_of_lookup s1 s2 b1); [exact Hl1|].
        apply Hrest. rewrite E1. exact Hm. }
    split.
    { destruct Hb1 as [[E1 E2]|[E1 E2]].
      - rewrite (data_of_lookup s1 s2 b2); [exact Hl2|].
        apply Hrest. rewrite E1. congruence.
      - rewrite E1 in Hlen. rewrite Hlen. exact Hl2. }
    split.
    { intros h H1 H2. rewrite Hrest; [apply Hoth; assumption|].
      destruct Hb1 as [[-> _]|[-> _]]; assumption. }
    rewrite <- HV, (tree_by_step (reduce_op ops sh) (nextStepSize r1)) by lia.
    apply tree_by_ext; [lia|].
    intros j Hj. apply Hrow; lia.
  - split; [exact Hbufs|]. split; [exact Hsz|].
    split; [reflexivity|]. split; [reflexivity|]. split; [reflexivity|].
    reflexivity.
  - exact Hfuel.
  - exists r', st'. split; [exact Hw|].
    unfold not_done in Hdone. apply negb_false_iff, Z.eqb_eq in Hdone.
    split; [exact Hb'|]. split; [exact Hl1'|]. split; [exact Hl2'|].
    split; [|exact Hoth].
    rewrite Hdone, tree_by_one in HV. exact HV.
Qed.

(** The kernel of [shader_softmax_exp_and_sum] in any row. *)
Lemma exp_kernel x y z (s : State) :
  gl_ssbo s 2%nat <> gl_ssbo s 0%nat ->
  let sh := shader_softmax_exp_and_sum in
  let e := fun j => fexp ops (fsub ops (peek ops s (gl_ssbo s 0%nat) j)
                                       (peek ops s (gl_ssbo s 1%nat) 0)) in
  let i0 := x * 2 + gl_uniform_i s sh "insize" * y in
  kernel_main ops (x, y, z) sh s =
  store (gl_ssbo s 2%nat) (row_index (gl_uniform_i s sh "shape0") (x, y, z))
    (if i0 + 1 <? gl_uniform_i s sh "insize" then fadd ops (e i0) (e (i0 + 1)) else e i0)
    s.
Proof.
  intros Hne. cbv zeta. cbn [kernel_main]. unfold main_softmax_exp_and_sum, row_index.
  cbv zeta. cbn [fst snd].
  destruct (_ <? _); [|reflexivity].
  rewrite !(rd_wr_other ops 2 _ _ s 0) by (intros E; apply Hne; symmetry; exact E).
  unfold wr at 1. rewrite wr_ssbo. rewrite (rd_peek _ (wr _ _ _ _)), wr_ssbo.
  unfold wr. rewrite !rd_peek.
  exact (store_read_back ops (gl_ssbo s 2%nat) _ _
           (fun v => fadd ops v (fexp ops (fsub ops (peek ops s (gl_ssbo s 0%nat) _)
                                                    (peek ops s (gl_ssbo s 1%nat) 0)))) s).
Qed.

(** The pass of [shader_softmax_exp_and_sum]: what it leaves in the
    row 0 of [out]. *)
Lemma exp_pass x mx out n d Y (s0 : State) :
  gl_program s0 = Some shader_softmax_exp_and_sum ->
  gl_ssbo s0 0%nat = x -> gl_ssbo s0 1%nat = mx -> gl_ssbo s0 2%nat = out ->
  out <> x -> out <> mx -> 0 <= d ->
  gl_uniform_i s0 shader_softmax_exp_and_sum "insize" = n ->
  gl_uniform_i s0 shader_softmax_exp_and_sum "shape0" = d ->
  (forall h, h <> out -> gl_buffers (dispatch ops d Y 1 s0) !! h = gl_buffers s0 !! h) /\
  length (data_of (dispatch ops d Y 1 s0) out) = length (data_of s0 out) /\
  (1 <= Y -> forall i, 0 <= i < d -> (Z.to_nat i < length (data_of s0 out))%nat ->
     peek ops (dispatch ops d Y 1 s0) out i =
     pairs ops n (fun j => fexp ops (fsub ops (peek ops s0 x j) (peek ops s0 mx 0))) i).
Proof.
  intros Hp H0 H1 H2 Hox Hom Hd Hn Hs0.
  destruct (dispatch_rows ops shader_softmax_exp_and_sum out
              (fun g s =>
                 let e := fun j => fexp ops (fsub ops (peek ops s x j) (peek ops s mx 0)) in
                 let i0 := g.1.1 * 2 + n * g.1.2 in
                 if i0 + 1 <? n then fadd ops (e i0) (e (i0 + 1)) else e i0)
              s0 d Y Hd Hp) as (Hoth & Hlen & Hin & _).
  - intros [[gx gy] gz] s Hs Hu _.
    rewrite exp_kernel by (rewrite Hs, H0, H2; exact Hox).
    rewrite Hs, Hu, H0, H1, H2, Hn, Hs0. reflexivity.
  - intros g g' v s _. cbv beta zeta.
    rewrite !(peek_store_buffer ops out _ _ s x) by congruence.
    rewrite !(peek_store_buffer ops out _ _ s mx) by congruence.
    reflexivity.
  - intros g s s' E. cbv beta zeta.
    rewrite !(peek_buffers ops s s') by exact E. reflexivity.
  - split; [exact Hoth|]. split; [exact Hlen|].
    intros HY i Hi Hcap.
    assert (Hg : (i, 0, 0) ∈ work_groups d Y 1) by (apply work_groups_elem; lia).
    assert (Hidx : row_index d (i, 0, 0) = i)
      by (unfold row_index; cbn [fst snd]; lia).
    pose proof (Hin (i, 0, 0) Hg ltac:(rewrite Hidx; lia)) as H.
    rewrite Hidx in H.
    rewrite (peek_of_lookup ops s0 _ out i _ H) by lia.
    cbv beta zeta. unfold pairs, pairs_by. cbn [fst snd].
    rewrite Z.mul_0_r, !Z.add_0_r. reflexivity.
Qed.

(** The pass of [shader_softmax_normalize]: every element of the [Y]
    rows is divided by the element 0 of the buffer of the sums. *)
Lemma normalize_rows sm x n Y (s0 : State) :
  gl_program s0 = Some shader_softmax_normalize ->
  gl_ssbo s0 0%nat = sm -> gl_ssbo s0 2%nat = x -> x <> sm ->
  0 <= n -> 0 <= Y ->
  gl_uniform_i s0 shader_softmax_normalize "shape0" = n ->
  (forall h, h <> x -> gl_buffers (dispatch ops n Y 1 s0) !! h = gl_buffers s0 !! h) /\
  written_by (n * Y) (fun k => fdiv ops (peek ops s0 x k) (peek ops s0 sm 0))
    (data_of s0 x) (data_of (dispatch ops n Y 1 s0) x).
Proof.
  intros Hp H0 H2 Hne Hn HY Hs0.
  destruct (dispatch_rows ops shader_softmax_normalize x
              (fun g s => fdiv ops (peek ops s x (row_index n g)) (peek ops s sm 0))
              s0 n Y Hn Hp) as (Hoth & _ & Hin & Hout).
  - intros [[gx gy] gz] s Hs Hu _. cbn [kernel_main].
    unfold main_softmax_normalize, row_index. cbv zeta. cbn [fst snd].
    unfold wr. rewrite !rd_peek, Hs, Hu, H0, H2, Hs0. reflexivity.
  - intros g g' v s Hidx.
    rewrite peek_store_index by exact Hidx.
    rewrite peek_store_buffer by (intros E; apply Hne; symmetry; exact E).
    reflexivity.
  - intros g s s' E. rewrite !(peek_buffers ops s s') by exact E. reflexivity.
  - split; [exact Hoth|]. intros k.
    destruct (decide (Z.of_nat k < n * Y)) as [Hk|Hk].
    + assert (Hel : Z.of_nat k ∈ row_index n <$> work_groups n Y 1).
      { rewrite <- (Z2Nat.id Y) by exact HY. rewrite work_groups_rows by exact Hn.
        rewrite Z2Nat.id by exact HY. apply elem_of_seqZ. lia. }
      apply list_elem_of_fmap in Hel. destruct Hel as (g & Ek & Hg).
      pose proof (Hin g Hg ltac:(lia)) as H. rewrite <- Ek, Nat2Z.id in H.
      exact H.
    + apply Hout. intros Hel.
      rewrite <- (Z2Nat.id Y) in Hel by exact HY.
      rewrite work_groups_rows in Hel by exact Hn.
      rewrite Z2Nat.id in Hel by exact HY. apply elem_of_seqZ in Hel. lia.
Qed.

End SoftmaxPasses.

(** * The value of [rmsnorm] *)

Section RmsnormValue.

Context {F : Type} (ops : FloatOps F).
Variable state : RunState.t.

#[local] Abbreviation State := (GLState F).
#[local] Abbreviation prog := compile_GPUProgram.
#[local] Abbreviation m1 := (RunState.mulBuffer_1 state).
#[local] Abbreviation m2 := (RunState.mulBuffer_2 state).

(** The last dispatch of [rmsnorm], writing the buffer [out] at its
    binding [b]: 3, or 2 when [o] is [x]. *)
Lemma normalize_pass sh nb weight x out size weight_offset (s0 : State) :
  (sh = shader_rmsnorm_normalize_and_scale /\ gl_ssbo s0 3%nat = out \/
   sh = shader_rmsnorm_normalize_and_scale_currentPos /\ x = out) ->
  gl_program s0 = Some sh ->
  gl_ssbo s0 0%nat = nb -> gl_ssbo s0 1%nat = weight -> gl_ssbo s0 2%nat = x ->
  gl_uniform_i s0 sh "size" = size ->
  gl_uniform_i s0 sh "weight_offset" = weight_offset ->
  out <> nb -> out <> weight ->
  written_by size
    (fun i => fmul ops (peek ops s0 weight (i + weight_offset))
                (fmul ops (inv_rms ops (peek ops s0 nb 0) size) (peek ops s0 x i)))
    (data_of s0 out) (data_of (dispatch ops size 1 1 s0) out) /\
  forall h, h <> out -> gl_buffers (dispatch ops size 1 1 s0) !! h = gl_buffers s0 !! h.
Proof.
  intros Hsh Hp H0 H1 H2 Hsz Hwo Hnb Hw.
  apply (dispatch_pointwise ops sh out
           (fun i s => fmul ops (peek ops s weight (i + weight_offset))
                (fmul ops (inv_rms ops (peek ops s nb 0) size) (peek ops s x i)))
           s0 size).
  - exact Hp.
  - intros i s Hs Hu _.
    destruct Hsh as [[-> H3]|[-> H3]]; cbn [kernel_main];
      unfold main_rmsnorm_normalize_and_scale,
             main_rmsnorm_normalize_and_scale_currentPos;
      cbv zeta; cbn [fst snd]; unfold wr; rewrite !rd_peek;
      rewrite Hs, Hu, H0, H1, H2, Hsz, Hwo; [rewrite H3|rewrite <- H3];
      reflexivity.
  - intros i j v s Hij.
    rewrite (peek_store_buffer ops out j v s weight) by congruence.
    rewrite (peek_store_buffer ops out j v s nb) by congruence.
    destruct (decide (x = out)) as [->|Hx].
    + rewrite peek_store_index by exact Hij. reflexivity.
    + rewrite (peek_store_buffer ops out j v s x) by exact Hx. reflexivity.
  - intros i s s' E. rewrite !(peek_buffers ops s s') by exact E. reflexivity.
Qed.

(** [rmsnorm]: [o[i] = weight[i + weight_offset] * (ss * x[i])] for
    [i < size], where [ss] is [1 / sqrt(sum / size + 0.00001)] and [sum]
    adds the squares of [x] by halving passes. *)
Lemma rmsnorm_value fuel o x weight size weight_offset (st : State) :
  m1 <> m2 -> x <> m1 -> x <> m2 -> weight <> m1 -> weight <> m2 ->
  o <> m1 -> o <> m2 -> o <> weight ->
  1 <= size -> (Z.to_nat size < fuel)%nat ->
  Int.halve size <= Z.of_nat (length (data_of st m1)) ->
  Int.halve size <= Z.of_nat (length (data_of st m2)) ->
  exists st',
    rmsnorm ops fuel prog state o x weight size weight_offset st = Some (tt, st') /\
    written_by size
      (fun i => fmul ops (peek ops st weight (i + weight_offset))
                  (fmul ops (inv_rms ops (tree_sum ops size (squares ops (peek ops st x)))
                               size)
                            (peek ops st x i)))
      (data_of st o) (data_of st' o) /\
    forall h, h <> o -> h <> m1 -> h <> m2 -> gl_buffers st' !! h = gl_buffers st !! h.
Proof.
  intros Hm Hx1 Hx2 Hw1 Hw2 Ho1 Ho2 How Hsize Hfuel Hc1 Hc2.
  unfold rmsnorm. gl_run.
  match goal with |- context [dispatch ops (Int.halve size) 1 1 ?s] => set (s0 := s) end.
  assert (Hp0 : gl_program s0 = Some shader_rmsnorm_squares_and_sum)
    by (subst s0; gl_proj; reflexivity).
  assert (Hb0 : gl_buffers s0 = gl_buffers st)
    by (subst s0; rewrite !buffers_uniform1i; reflexivity).
  assert (H00 : gl_ssbo s0 0%nat = x) by (subst s0; gl_proj; reflexivity).
  assert (H01 : gl_ssbo s0 1%nat = m2) by (subst s0; gl_proj; reflexivity).
  assert (Hn0 : gl_uniform_i s0 shader_rmsnorm_squares_and_sum "insize" = size)
    by (subst s0; uniform_values; reflexivity).
  destruct (squares_pass ops x m2 size (Int.halve size) s0 Hp0 H00 H01 Hx2 Hn0)
    as [Hwr1 Hoth1].
  set (s1 := dispatch ops (Int.halve size) 1 1 s0) in *.
  pose proof (halve_pos size Hsize) as Hh1.
  assert (Hh2 : Int.halve size <= size).
  { destruct (Z.eq_dec size 1) as [->|]; [rewrite halve_one; lia|].
    pose proof (halve_bounds size ltac:(lia)). lia. }
  assert (Hl1 : data_of s1 m1 = data_of st m1).
  { apply data_of_lookup. rewrite Hoth1 by exact Hm. rewrite Hb0. reflexivity. }
  assert (Hl2 : length (data_of s1 m2) = length (data_of st m2)).
  { rewrite (written_by_length _ _ _ _ Hwr1), (data_of_buffers st s0 m2 Hb0).
    reflexivity. }
  destruct (reduce_loop_value ops shader_sum 1 m1 m2 (Int.halve size) fuel
              {| currentStepSize := size; nextStepSize := Int.halve size;
                 currentBuffer := m1; nextBuffer := m2 |} s1)
    as (r' & s2 & Hloop & Hb' & _ & _ & Hpk & Hoth2).
  { left. reflexivity. }
  { lia. }
  { exact Hm. }
  { left. split; reflexivity. }
  { cbn [nextStepSize]. lia. }
  { rewrite Hl1. exact Hc1. }
  { rewrite Hl2. exact Hc2. }
  { cbn [nextStepSize]. lia. }
  assert (Hnb : nextBuffer r' = m1 \/ nextBuffer r' = m2)
    by (destruct Hb' as [[_ ->]|[_ ->]]; auto).
  rewrite Hloop. cbn [nextStepSize nextBuffer] in Hpk.
  (* the sum of the squares *)
  assert (Hsum : peek ops s2 (nextBuffer r') 0 =
                 tree_sum ops size (squares ops (peek ops st x))).
  { rewrite Hpk. fold (tree_sum ops (Int.halve size) (peek ops s1 m2)).
    rewrite <- (tree_sum_first_pass ops size) by exact Hsize.
    apply tree_sum_ext; [exact Hh1|]. intros j Hj.
    rewrite (written_by_peek ops _ _ s0 s1 m2 j Hwr1); [| |exact Hj].
    - apply pairs_ext; [|exact Hj|exact Hsize].
      intros k _. unfold squares.
      rewrite !(peek_buffers ops st s0) by exact Hb0. reflexivity.
    - rewrite (data_of_buffers st s0 m2 Hb0). exact Hc2. }
  assert (Hrest : forall h, h <> m1 -> h <> m2 ->
                            gl_buffers s2 !! h = gl_buffers st !! h).
  { intros h H1 H2. rewrite Hoth2, Hoth1 by assumption. rewrite Hb0. reflexivity. }
  assert (Hnbx : x <> nextBuffer r') by (destruct Hnb as [-> | ->]; assumption).
  assert (Hnbo : o <> nextBuffer r') by (destruct Hnb as [-> | ->]; assumption).
  match goal with |- context [dispatch ops size 1 1] => idtac end.
  destruct (decide (o = x)) as [Hox|Hox].
  - match goal with |- context [dispatch ops size 1 1 ?s] => set (s3 := s) end.
    assert (Hb3 : gl_buffers s3 = gl_buffers s2)
      by (subst s3; rewrite !buffers_uniform1i; reflexivity).
    destruct (normalize_pass shader_rmsnorm_normalize_and_scale_currentPos
                (nextBuffer r') weight x o size weight_offset s3) as [Hwr3 Hoth3].
    { right. split; [reflexivity | symmetry; exact Hox]. }
    { subst s3; gl_proj; reflexivity. }
    { subst s3; gl_proj; reflexivity. }
    { subst s3; gl_proj; reflexivity. }
    { subst s3; gl_proj; reflexivity. }
    { subst s3; uniform_values; reflexivity. }
    { subst s3; uniform_values; reflexivity. }
    { exact Hnbo. }
    { exact How. }
    eexists. split; [reflexivity|]. split.
    + intros i. specialize (Hwr3 i). cbv beta in Hwr3. rewrite Hwr3.
      rewrite (data_of_buffers s2 s3 o Hb3).
      rewrite (data_of_lookup st s2 o (Hrest o Ho1 Ho2)).
      destruct (decide _); [|reflexivity].
      rewrite !(peek_buffers ops s2 s3) by exact Hb3.
      rewrite Hsum.
      rewrite (peek_lookup ops st s2 weight _ (Hrest weight Hw1 Hw2)).
      rewrite (peek_lookup ops st s2 x _ (Hrest x Hx1 Hx2)). reflexivity.
    + intros h H1 H2 H3. rewrite Hoth3 by exact H1. rewrite Hb3.
      apply Hrest; assumption.
  - match goal with |- context [dispatch ops size 1 1 ?s] => set (s3 := s) end.
    assert (Hb3 : gl_buffers s3 = gl_buffers s2)
      by (subst s3; rewrite !buffers_uniform1i; reflexivity).
    destruct (normalize_pass shader_rmsnorm_normalize_and_scale
                (nextBuffer r') weight x o size weight_offset s3) as [Hwr3 Hoth3].
    { left. split; [reflexivity | subst s3; gl_proj; reflexivity]. }
    { subst s3; gl_proj; reflexivity. }
    { subst s3; gl_proj; reflexivity. }
    { subst s3; gl_proj; reflexivity. }
    { subst s3; gl_proj; reflexivity. }
    { subst s3; uniform_values; reflexivity. }
    { subst s3; uniform_values; reflexivity. }
    { exact Hnbo. }
    { exact How. }
    eexists. split; [reflexivity|]. split.
    + intros i. specialize (Hwr3 i). cbv beta in Hwr3. rewrite Hwr3.
      rewrite (data_of_buffers s2 s3 o Hb3).
      rewrite (data_of_lookup st s2 o (Hrest o Ho1 Ho2)).
      destruct (decide _); [|reflexivity].
      rewrite !(peek_buffers ops s2 s3) by exact Hb3.
      rewrite Hsum.
      rewrite (peek_lookup ops st s2 weight _ (Hrest weight Hw1 Hw2)).
      rewrite (peek_lookup ops st s2 x _ (Hrest x Hx1 Hx2)). reflexivity.
    + intros h H1 H2 H3. rewrite Hoth3 by exact H1. rewrite Hb3.
      apply Hrest; assumption.
Qed.

End RmsnormValue.

(** X16.  [rmsnorm] on [size >= 1] values returns, given enough fuel,
    scratch buffers [mulBuffer_1] and [mulBuffer_2] that hold half of
    [size] floats (rounded up) and are different from each other and from
    [x], [weight] and [o], and [o] different from [weight] ([o] may be
    [x]).  It replaces [o[i]], for each [i < size] inside the buffer, by
    [weight[i + weight_offset] * (ss * x[i])], where [ss] is
    [1 / sqrt(sum / size + 0.00001)] and [sum] adds the squares of the
    first [size] values of [x] pairwise, pass after pass.  Only [o] and
    the two scratch buffers change. *)
Theorem rmsnorm_normalizes {F : Type} (ops : FloatOps F) (state : RunState.t)
    (fuel : nat) (o x weight : GLuint) (size weight_offset : Z) (st : GLState F) :
  RunState.mulBuffer_1 state <> RunState.mulBuffer_2 state ->
  x <> RunState.mulBuffer_1 state -> x <> RunState.mulBuffer_2 state ->
  weight <> RunState.mulBuffer_1 state -> weight <> RunState.mulBuffer_2 state ->
  o <> RunState.mulBuffer_1 state -> o <> RunState.mulBuffer_2 state ->
  o <> weight ->
  1 <= size -> (Z.to_nat size < fuel)%nat ->
  Int.halve size <= Z.of_nat (length (data_of st (RunState.mulBuffer_1 state))) ->
  Int.halve size <= Z.of_nat (length (data_of st (RunState.mulBuffer_2 state))) ->
  exists st',
    rmsnorm ops fuel compile_GPUProgram state o x weight size weight_offset st
      = Some (tt, st') /\
    written_by size
      (fun i => fmul ops (peek ops st weight (i + weight_offset))
                  (fmul ops (inv_rms ops (tree_sum ops size (squares ops (peek ops st x)))
                               size)
                            (peek ops st x i)))
      (data_of st o) (data_of st' o) /\
    forall h, h <> o -> h <> RunState.mulBuffer_1 state ->
              h <> RunState.mulBuffer_2 state ->
              gl_buffers st' !! h = gl_buffers st !! h.
Proof. apply rmsnorm_value. Qed.

Lemma rmsnorm_normalizes_witness :
  exists st',
    rmsnorm R_ops 3 compile_GPUProgram (fresh_run_state 1 kv_config) 1 1 17 2 0 norm_state
      = Some (tt, st') /\
    written_by 2
      (fun i => fmul R_ops (peek R_ops norm_state 17 (i + 0))
                  (fmul R_ops
                     (inv_rms R_ops
                        (tree_sum R_ops 2 (squares R_ops (peek R_ops norm_state 1))) 2)
                     (peek R_ops norm_state 1 i)))
      (data_of norm_state 1) (data_of st' 1) /\
    forall h, h <> 1 -> h <> RunState.mulBuffer_1 (fresh_run_state 1 kv_config) ->
              h <> RunState.mulBuffer_2 (fresh_run_state 1 kv_config) ->
              gl_buffers st' !! h = gl_buffers norm_state !! h.
Proof.
  apply (rmsnorm_normalizes R_ops (fresh_run_state 1 kv_config) 3 1 1 17 2 0 norm_state).
  - vm_compute. discriminate.
  - vm_compute. discriminate.
  - vm_compute. discriminate.
  - vm_compute. discriminate.
  - vm_compute. discriminate.
  - vm_compute. discriminate.
  - vm_compute. discriminate.
  - vm_compute. discriminate.
  - lia.
  - vm_compute. lia.
  - vm_compute. discriminate.
  - vm_compute. discriminate.
Defined.

(** X17.  In exact arithmetic the passes of [rmsnorm] add up all the
    squares: under the conditions of X16, [o[i]] becomes
    [weight[i + weight_offset] * (ss * x[i])] with
    [ss = 1 / sqrt((x[0]^2 + ... + x[size-1]^2) / size + 0.00001)]. *)
Theorem rmsnorm_root_mean_square (state : RunState.t) (fuel : nat) (o x weight : GLuint)
    (size weight_offset : Z) (st : GLState R) :
  RunState.mulBuffer_1 state <> RunState.mulBuffer_2 state ->
  x <> RunState.mulBuffer_1 state -> x <> RunState.mulBuffer_2 state ->
  weight <> RunState.mulBuffer_1 state -> weight <> RunState.mulBuffer_2 state ->
  o <> RunState.mulBuffer_1 state -> o <> RunState.mulBuffer_2 state ->
  o <> weight ->
  1 <= size -> (Z.to_nat size < fuel)%nat ->
  Int.halve size <= Z.of_nat (length (data_of st (RunState.mulBuffer_1 state))) ->
  Int.halve size <= Z.of_nat (length (data_of st (RunState.mulBuffer_2 state))) ->
  exists st',
    rmsnorm R_ops fuel compile_GPUProgram state o x weight size weight_offset st
      = Some (tt, st') /\
    written_by size
      (fun i =>
         (peek R_ops st weight (i + weight_offset) *
          (inv_rms R_ops
             (sum_R ((fun j => peek R_ops st x j * peek R_ops st x j) <$> seqZ 0 size))
             size *
           peek R_ops st x i))%R)
      (data_of st o) (data_of st' o).
Proof.
  intros Hm Hx1 Hx2 Hw1 Hw2 Ho1 Ho2 How Hsize Hfuel Hc1 Hc2.
  destruct (rmsnorm_value R_ops state fuel o x weight size weight_offset st
              Hm Hx1 Hx2 Hw1 Hw2 Ho1 Ho2 How Hsize Hfuel Hc1 Hc2)
    as (st' & Hrun & Hwr & _).
  exists st'. split; [exact Hrun|].
  intros i. rewrite (Hwr i). rewrite tree_sum_real by exact Hsize. reflexivity.
Qed.

Lemma rmsnorm_root_mean_square_witness :
  exists st',
    rmsnorm R_ops 3 compile_GPUProgram (fresh_run_state 1 kv_config) 1 1 17 2 0 norm_state
      = Some (tt, st') /\
    written_by 2
      (fun i =>
         (peek R_ops norm_state 17%Z (i + 0) *
          (inv_rms R_ops
             (sum_R ((fun j => peek R_ops norm_state 1%Z j * peek R_ops norm_state 1%Z j)
                       <$> seqZ 0 2))
             2 *
           peek R_ops norm_state 1%Z i))%R)
      (data_of norm_state 1) (data_of st' 1).
Proof.
  apply (rmsnorm_root_mean_square (fresh_run_state 1 kv_config) 3 1 1 17 2 0 norm_state).
  - vm_compute. discriminate.
  - vm_compute. discriminate.
  - vm_compute. discriminate.
  - vm_compute. discriminate.
  - vm_compute. discriminate.
  - vm_compute. discriminate.
  - vm_compute. discriminate.
  - vm_compute. discriminate.
  - lia.
  - vm_compute. lia.
  - vm_compute. discriminate.
  - vm_compute. discriminate.
Defined.

(** * The weights on the GPU *)

Section UploadFacts.

Context {F : Type} (ops : FloatOps F).

#[local] Abbreviation State := (GLState F).

(** [create_GPU_buffer] with data: the new object holds the floats that
    fit in [size] bytes. *)
Lemma create_GPU_buffer_data size l (st : State) :
  0 <= size ->
  exists st',
    create_GPU_buffer ops size (Some l) st = Some (gl_next_name st, st') /\
    gl_next_name st' = gl_next_name st + 1 /\
    gl_buffers st' =
      <[gl_next_name st :=
          mkBuffer size (take (floats_of size)
                           (l ++ replicate (floats_of size) (fconst ops 0)))]>
        (gl_buffers st).
Proof.
  intros Hsize. unfold create_GPU_buffer, glGenBuffers. gl_run.
  unfold buffer_data. cbn [gl_bound set_bound set_next_name].
  destruct (size <? 0) eqn:E; [apply Z.ltb_lt in E; lia|].
  eexists. split; [reflexivity|].
  cbn [gl_buffers gl_next_name set_buffers]. auto.
Qed.

(** A byte size below 4 GiB is not changed by the conversion to
    [GLuint]. *)
Lemma floats_of_u32 bytes n :
  0 <= n < 2 ^ 30 -> bytes = sizeof_float * n ->
  floats_of (Int.u32 bytes) = Z.to_nat n.
Proof.
  intros Hn ->. unfold floats_of, Int.u32, Int.two32, sizeof_float.
  rewrite Z.mod_small by lia.
  rewrite Z.mul_comm, Z.div_mul by lia. reflexivity.
Qed.

Lemma floats_of_u32_half a b :
  0 <= a * b -> Z.quot (a * b) 2 < 2 ^ 30 ->
  floats_of (Int.u32 (sizeof_float * a * b / 2)) = Z.to_nat (Z.quot (a * b) 2).
Proof.
  intros Hm Hn. rewrite <- Z.mul_assoc. set (m := a * b) in *.
  rewrite Z.quot_div_nonneg in * by lia.
  unfold floats_of, Int.u32, Int.two32, sizeof_float.
  replace (4 * m / 2) with (2 * m)
    by (replace (4 * m) with (2 * m * 2) by lia; rewrite Z.div_mul by lia; lia).
  pose proof (Z.div_mod m 2 ltac:(lia)) as Hdm.
  pose proof (Z.mod_pos_bound m 2 ltac:(lia)) as Hmod.
  rewrite Z.mod_small by lia.
  apply f_equal.
  replace (2 * m) with (m * 2) by lia.
  replace 4 with (2 * 2) by lia.
  rewrite Z.div_mul_cancel_r by lia. reflexivity.
Qed.

Lemma take_padded n (l zeros : list F) :
  (n <= length l)%nat -> take n (l ++ zeros) = take n l.
Proof. intros H. apply take_app_le, H. Qed.

Ltac upload_data_step :=
  rewrite run_bind;
  let st' := fresh "s" in
  let Hn := fresh "Hn" in
  let Hb := fresh "Hb" in
  match goal with
  | |- context [create_GPU_buffer _ ?size (Some ?l) ?st] =>
      destruct (create_GPU_buffer_data size l st ltac:(apply u32_nonneg))
        as (st' & -> & Hn & Hb)
  end.

(** [upload_weights] on arrays that are long enough and below 4 GiB:
    each buffer holds the floats of its array. *)
Lemma upload_weights_data local p (st : State) :
  0 <= Config.seq_len p * Z.quot (Config.dim p) (Config.n_heads p) ->
  Forall2 (fun n a => 0 <= n < 2 ^ 30 /\ n <= Z.of_nat (length a))
    (upload_sizes p) (upload_arrays local) ->
  exists w st1,
    upload_weights ops local p st = Some (w, st1) /\
    data_of st1 <$> upload_names w =
      zip_with (fun n a => take (Z.to_nat n) a) (upload_sizes p) (upload_arrays local).
Proof.
  intros Hsh Hall.
  unfold upload_sizes, upload_arrays, checkpoint_sizes, checkpoint_arrays in *.
  cbv zeta in *. cbn [drop app zip_with] in *.
  repeat match goal with
         | H : Forall2 _ (_ :: _) (_ :: _) |- _ =>
             apply Forall2_cons in H; destruct H as [[? ?] H]
         end.
  clear Hall.
  unfold upload_weights. cbv zeta.
  do 13 upload_data_step.
  cbv [mret GL_ret]. eexists _, _. split; [reflexivity|].
  unfold upload_names.
  cbn [Weights.rms_att_weight Weights.rms_ffn_weight Weights.wq Weights.wk Weights.wv
       Weights.wo Weights.w1 Weights.w2 Weights.w3 Weights.rms_final_weight
       Weights.freq_cis_real Weights.freq_cis_imag Weights.wcls fmap list_fmap].
  repeat match goal with
         | H : gl_next_name ?s = _ |- _ => rewrite H in *; clear H
         end.
  set (n := gl_next_name st) in *.
  unfold data_of.
  rewrite Hb11, Hb10, Hb9, Hb8, Hb7, Hb6, Hb5, Hb4, Hb3, Hb2, Hb1, Hb0, Hb.
  repeat (apply (f_equal2 cons);
          [ rewrite ?lookup_insert_ne by lia; rewrite lookup_insert_eq;
            cbn [buf_data];
            match goal with
            | |- take (floats_of (Int.u32 ?b)) _ = take (Z.to_nat ?k) _ =>
                first [ rewrite (floats_of_u32 b k) by (first [assumption | unfold sizeof_float; lia])
                      | rewrite floats_of_u32_half by (first [assumption | lia]) ]
            end;
            apply take_padded; lia
          | ]).
  reflexivity.
Qed.

End UploadFacts.

(** X18.  [upload_weights] returns, and each of its thirteen buffers holds
    the floats of the array it was created from, when the product
    [seq_len * head_size] is not negative and each array has its number of
    floats, below 2^30 (a byte size below 4 GiB, which the [GLuint] length
    fields can hold).  The numbers of floats are those by which
    [checkpoint_init_weights] advances through the file, and
    [dim * vocab_size] for the classifier weights. *)
Theorem upload_weights_copies_arrays {F : Type} (ops : FloatOps F)
    (local : LocalWeights.t F) (p : Config.t) (st : GLState F) :
  0 <= Config.seq_len p * Z.quot (Config.dim p) (Config.n_heads p) ->
  Forall2 (fun n a => 0 <= n < 2 ^ 30 /\ n <= Z.of_nat (length a))
    (upload_sizes p) (upload_arrays local) ->
  exists w st1,
    upload_weights ops local p st = Some (w, st1) /\
    data_of st1 <$> upload_names w =
      zip_with (fun n a => take (Z.to_nat n) a) (upload_sizes p) (upload_arrays local).
Proof. apply upload_weights_data. Qed.

Lemma upload_weights_copies_arrays_witness :
  exists w st1,
    upload_weights R_ops (rope_weights R_ops 0%R 1%R)
      rope_config (gl_init R_ops) = Some (w, st1) /\
    data_of st1 <$> upload_names w =
      zip_with (fun n a => take (Z.to_nat n) a) (upload_sizes rope_config)
        (upload_arrays (rope_weights R_ops 0%R 1%R)).
Proof.
  apply (upload_weights_copies_arrays R_ops
           (rope_weights R_ops 0%R 1%R) rope_config
           (gl_init R_ops)).
  - vm_compute. discriminate.
  - apply (bool_decide_unpack _). vm_compute. reflexivity.
Defined.

(** * The value of [softmax] *)

Section SoftmaxValue.

Context {F : Type} (ops : FloatOps F).
Variable state : RunState.t.

#[local] Abbreviation State := (GLState F).
#[local] Abbreviation prog := compile_GPUProgram.
#[local] Abbreviation m1 := (RunState.mulBuffer_1 state).
#[local] Abbreviation m2 := (RunState.mulBuffer_2 state).
#[local] Abbreviation m3 := (RunState.mulBuffer_3 state).

Lemma softmax_value fuel x n Y (st : State) :
  m1 <> m2 -> m3 <> m1 -> m3 <> m2 -> x <> m1 -> x <> m2 -> x <> m3 ->
  1 <= n -> 1 <= Y -> (Z.to_nat n < fuel)%nat ->
  Int.halve n <= Z.of_nat (length (data_of st m1)) ->
  Int.halve n <= Z.of_nat (length (data_of st m2)) ->
  Int.halve n <= Z.of_nat (length (data_of st m3)) ->
  exists st',
    softmax ops fuel prog state x n Y st = Some (tt, st') /\
    written_by (n * Y)
      (fun k => fdiv ops (peek ops st x k)
                 (tree_sum ops n
                    (fun j => fexp ops (fsub ops (peek ops st x j)
                                                 (tree_max ops n (peek ops st m2))))))
      (data_of st x) (data_of st' x) /\
    forall h, h <> x -> h <> m1 -> h <> m2 -> h <> m3 ->
              gl_buffers st' !! h = gl_buffers st !! h.
Proof.
  intros H12 H31 H32 Hx1 Hx2 Hx3 Hn HY Hfuel Hc1 Hc2 Hc3.
  pose proof (halve_pos n Hn) as Hh1.
  assert (Hh2 : Int.halve n <= n).
  { destruct (Z.eq_dec n 1) as [->|]; [rewrite halve_one; lia|].
    pose proof (halve_bounds n ltac:(lia)). lia. }
  unfold softmax, do_while. do 2 rewrite run_bind. rewrite reduce_step_run.
  match goal with |- context [reduce_pass ops prog shader_max ?r ?o Y st] =>
    destruct (reduce_pass_row0 ops shader_max r o Y st) as (s1 & -> & Hoth1 & Hlen1 & Hrow1)
  end.
  { right. reflexivity. }
  { cbn. congruence. }
  { cbn [advance nextStepSize]. lia. }
  { exact HY. }
  cbn [advance nextStepSize currentStepSize currentBuffer nextBuffer] in *.
  set (r0 := {| currentStepSize := n; nextStepSize := Int.halve n;
                currentBuffer := m2; nextBuffer := m1 |}).
  (* the maximum of the scratch buffer *)
  destruct (reduce_loop_value ops shader_max Y m1 m2 (Int.halve n) fuel r0 s1)
    as (r1 & s2 & Hloop1 & Hb1 & Hl21 & Hl22 & Hmax & Hoth2).
  { right. reflexivity. }
  { exact HY. }
  { exact H12. }
  { right. split; reflexivity. }
  { cbn [r0 nextStepSize]. lia. }
  { rewrite Hlen1. exact Hc1. }
  { rewrite (data_of_lookup st s1 m2) by (apply Hoth1; congruence). exact Hc2. }
  { cbn [r0 nextStepSize]. lia. }
  change (advance _) with r0. rewrite Hloop1. cbn [r0 nextStepSize nextBuffer] in Hmax.
  set (mx := nextBuffer r1) in *. set (c := currentBuffer r1) in *.
  assert (HM : peek ops s2 mx 0 = tree_max ops n (peek ops st m2)).
  { rewrite Hmax. unfold tree_max.
    rewrite <- (tree_by_first_pass (fmax ops) n) by exact Hn.
    apply tree_by_ext; [exact Hh1|]. intros j Hj. apply Hrow1; lia. }
  assert (Hcm : c <> mx) by (destruct Hb1 as [[-> ->]|[-> ->]]; congruence).
  assert (Hc3' : c <> m3) by (destruct Hb1 as [[-> _]|[-> _]]; congruence).
  assert (Hmx3 : m3 <> mx) by (destruct Hb1 as [[_ ->]|[_ ->]]; congruence).
  assert (Hxc : x <> c) by (destruct Hb1 as [[-> _]|[-> _]]; congruence).
  assert (Hrest2 : forall h, h <> m1 -> h <> m2 ->
                             gl_buffers s2 !! h = gl_buffers st !! h).
  { intros h Ha Hb. rewrite Hoth2, Hoth1 by assumption. reflexivity. }
  assert (Hlc : Int.halve n <= Z.of_nat (length (data_of s2 c))).
  { destruct Hb1 as [[E _]|[E _]]; rewrite E.
    - rewrite Hl21, Hlen1. exact Hc1.
    - rewrite Hl22, (data_of_lookup st s1 m2) by (apply Hoth1; congruence). exact Hc2. }
  (* exp and sum *)
  gl_run.
  match goal with |- context [dispatch ops (Int.halve n) Y 1 ?s] => set (se := s) end.
  assert (Hbe : gl_buffers se = gl_buffers s2)
    by (subst se; rewrite !buffers_uniform1i; reflexivity).
  destruct (exp_pass ops x mx m3 n (Int.halve n) Y se) as (Hoth3 & Hlen3 & Hrow3).
  { subst se; gl_proj; reflexivity. }
  { subst se; gl_proj; reflexivity. }
  { subst se; gl_proj; reflexivity. }
  { subst se; gl_proj; reflexivity. }
  { congruence. }
  { exact Hmx3. }
  { lia. }
  { subst se; uniform_values; reflexivity. }
  { subst se; uniform_values; reflexivity. }
  specialize (Hrow3 HY).
  set (s3 := dispatch ops (Int.halve n) Y 1 se) in *.
  set (r2 := {| currentStepSize := n; nextStepSize := Int.halve n;
                currentBuffer := c; nextBuffer := m3 |}).
  destruct (reduce_loop_value ops shader_sum Y c m3 (Int.halve n) fuel r2 s3)
    as (r3 & s4 & Hloop2 & Hb3 & _ & _ & Hsum & Hoth4).
  { left. reflexivity. }
  { exact HY. }
  { exact Hc3'. }
  { left. split; reflexivity. }
  { cbn [r2 nextStepSize]. lia. }
  { rewrite (data_of_lookup se s3 c) by (apply Hoth3; exact Hc3').
    rewrite (data_of_buffers s2 se c Hbe). exact Hlc. }
  { rewrite Hlen3, (data_of_buffers s2 se m3 Hbe).
    rewrite (data_of_lookup st s2 m3) by (apply Hrest2; assumption). exact Hc3. }
  { cbn [r2 nextStepSize]. lia. }
  rewrite Hloop2. cbn [r2 nextStepSize nextBuffer] in Hsum.
  set (sm := nextBuffer r3) in *.
  assert (Hxsm : x <> sm) by (destruct Hb3 as [[_ ->]|[_ ->]]; congruence).
  assert (Hx4 : forall k, peek ops s4 x k = peek ops st x k).
  { intros k. rewrite (peek_lookup ops s3 s4) by (apply Hoth4; assumption).
    rewrite (peek_lookup ops se s3) by (apply Hoth3; exact Hx3).
    rewrite (peek_buffers ops s2 se) by exact Hbe.
    apply peek_lookup, Hrest2; assumption. }
  assert (HS : peek ops s4 sm 0 =
               tree_sum ops n
                 (fun j => fexp ops (fsub ops (peek ops st x j)
                                              (tree_max ops n (peek ops st m2))))).
  { rewrite Hsum. fold (tree_sum ops (Int.halve n) (peek ops s3 m3)).
    rewrite <- (tree_sum_first_pass ops n) by exact Hn.
    apply tree_sum_ext; [exact Hh1|]. intros j Hj.
    rewrite Hrow3.
    - apply pairs_ext; [|exact Hj|exact Hn].
      intros k _. rewrite !(peek_buffers ops s2 se) by exact Hbe.
      rewrite HM. rewrite (peek_lookup ops st s2) by (apply Hrest2; assumption).
      reflexivity.
    - lia.
    - rewrite (data_of_buffers s2 se m3 Hbe).
      rewrite (data_of_lookup st s2 m3) by (apply Hrest2; assumption). lia. }
  (* normalize *)
  match goal with |- context [dispatch ops n Y 1 ?s] => set (sn := s) end.
  assert (Hbn : gl_buffers sn = gl_buffers s4)
    by (subst sn; rewrite !buffers_uniform1i; reflexivity).
  destruct (normalize_rows ops sm x n Y sn) as (Hoth5 & Hwr).
  { subst sn; gl_proj; reflexivity. }
  { subst sn; gl_proj; reflexivity. }
  { subst sn; gl_proj; reflexivity. }
  { exact Hxsm. }
  { lia. }
  { lia. }
  { subst sn; uniform_values; reflexivity. }
  eexists. split; [reflexivity|]. split.
  - intros k. rewrite (Hwr k).
    rewrite (data_of_buffers s4 sn x Hbn).
    rewrite (data_of_lookup s3 s4 x) by (apply Hoth4; assumption).
    rewrite (data_of_lookup se s3 x) by (apply Hoth3; exact Hx3).
    rewrite (data_of_buffers s2 se x Hbe).
    rewrite (data_of_lookup st s2 x) by (apply Hrest2; assumption).
    destruct (decide _); [|reflexivity].
    rewrite !(peek_buffers ops s4 sn) by exact Hbn.
    rewrite Hx4, HS. reflexivity.
  - intros h Hhx Hh1' Hh2' Hh3'.
    rewrite Hoth5 by exact Hhx. rewrite Hbn.
    rewrite Hoth4;
      [|destruct Hb1 as [[E _]|[E _]]; rewrite E; assumption|assumption].
    rewrite Hoth3 by exact Hh3'. rewrite Hbe.
    apply Hrest2; assumption.
Qed.


End SoftmaxValue.

(** X19.  [softmax] on [size_y >= 1] rows of [size_x >= 1] values returns,
    given enough fuel and scratch buffers [mulBuffer_1], [mulBuffer_2] and
    [mulBuffer_3] that hold half of [size_x] floats (rounded up) and are
    different from each other and from [x].  It replaces [x[k]], for each
    [k < size_x * size_y] inside the buffer, by [x[k] / sum], the same
    [sum] for every row: [sum] adds [exp(x[j] - m)] over the first row,
    [j < size_x], pairwise, pass after pass, and [m] is what the passes of
    [shader_max] make of the first [size_x] floats that [mulBuffer_2]
    holds on entry.  The exponentials go to [mulBuffer_3], not to [x].
    Only [x] and the three scratch buffers change. *)
Theorem softmax_divides_by_first_row_sum {F : Type} (ops : FloatOps F)
    (state : RunState.t) (fuel : nat) (x : GLuint) (size_x size_y : Z) (st : GLState F) :
  RunState.mulBuffer_1 state <> RunState.mulBuffer_2 state ->
  RunState.mulBuffer_3 state <> RunState.mulBuffer_1 state ->
  RunState.mulBuffer_3 state <> RunState.mulBuffer_2 state ->
  x <> RunState.mulBuffer_1 state -> x <> RunState.mulBuffer_2 state ->
  x <> RunState.mulBuffer_3 state ->
  1 <= size_x -> 1 <= size_y -> (Z.to_nat size_x < fuel)%nat ->
  Int.halve size_x <= Z.of_nat (length (data_of st (RunState.mulBuffer_1 state))) ->
  Int.halve size_x <= Z.of_nat (length (data_of st (RunState.mulBuffer_2 state))) ->
  Int.halve size_x <= Z.of_nat (length (data_of st (RunState.mulBuffer_3 state))) ->
  exists st',
    softmax ops fuel compile_GPUProgram state x size_x size_y st = Some (tt, st') /\
    written_by (size_x * size_y)
      (fun k => fdiv ops (peek ops st x k)
                 (tree_sum ops size_x
                    (fun j => fexp ops
                       (fsub ops (peek ops st x j)
                          (tree_max ops size_x
                             (peek ops st (RunState.mulBuffer_2 state)))))))
      (data_of st x) (data_of st' x) /\
    forall h, h <> x -> h <> RunState.mulBuffer_1 state ->
              h <> RunState.mulBuffer_2 state -> h <> RunState.mulBuffer_3 state ->
              gl_buffers st' !! h = gl_buffers st !! h.
Proof. apply softmax_value. Qed.

Lemma softmax_divides_by_first_row_sum_witness :
  exists st',
    softmax R_ops 3 compile_GPUProgram (fresh_run_state 1 kv_config) 16 2 2 rows_state
      = Some (tt, st') /\
    written_by (2 * 2)
      (fun k => fdiv R_ops (peek R_ops rows_state 16 k)
                 (tree_sum R_ops 2
                    (fun j => fexp R_ops
                       (fsub R_ops (peek R_ops rows_state 16 j)
                          (tree_max R_ops 2
                             (peek R_ops rows_state
                                (RunState.mulBuffer_2 (fresh_run_state 1 kv_config))))))))
      (data_of rows_state 16) (data_of st' 16) /\
    forall h, h <> 16 -> h <> RunState.mulBuffer_1 (fresh_run_state 1 kv_config) ->
              h <> RunState.mulBuffer_2 (fresh_run_state 1 kv_config) ->
              h <> RunState.mulBuffer_3 (fresh_run_state 1 kv_config) ->
              gl_buffers st' !! h = gl_buffers rows_state !! h.
Proof.
  apply (softmax_divides_by_first_row_sum R_ops (fresh_run_state 1 kv_config) 3 16 2 2
           rows_state).
  - vm_compute. discriminate.
  - vm_compute. discriminate.
  - vm_compute. discriminate.
  - vm_compute. discriminate.
  - vm_compute. discriminate.
  - vm_compute. discriminate.
  - lia.
  - lia.
  - vm_compute. lia.
  - vm_compute. discriminate.
  - vm_compute. discriminate.
  - vm_compute. discriminate.
Defined.

(** * The value of [transformer_sum] *)

Section SumRows.

Context {F : Type} (ops : FloatOps F).
Variable state : RunState.t.

#[local] Abbreviation State := (GLState F).
#[local] Abbreviation prog := compile_GPUProgram.
#[local] Abbreviation m1 := (RunState.mulBuffer_1 state).

Lemma halve_mono a b : 0 <= a <= b -> Int.halve a <= Int.halve b.
Proof.
  intros H. rewrite !halve_spec by lia. apply Z.div_le_mono; lia.
Qed.

Lemma lookup_peek (s : State) b (k : nat) :
  (k < length (data_of s b))%nat ->
  data_of s b !! k = Some (peek ops s b (Z.of_nat k)).
Proof.
  intros Hk. unfold peek.
  destruct (Z.of_nat k <? 0) eqn:E; [apply Z.ltb_lt in E; lia|].
  rewrite Nat2Z.id.
  destruct (data_of s b !! k) as [v|] eqn:Ev; [reflexivity|].
  apply lookup_ge_None in Ev. lia.
Qed.

Lemma transformer_sum_step_run xb head_size n_heads r (st : State) :
  transformer_sum_step ops prog xb head_size n_heads r st =
  match reduce_pass ops prog shader_sum (advance r)
          (if nextStepSize (advance r) =? 1 then xb else nextBuffer (advance r))
          (n_heads * head_size) st with
  | Some (_, st') => Some (advance r, st')
  | None => None
  end.
Proof. reflexivity. Qed.

(** [transformer_sum] on [pos >= 2] values per row: [xb[y]] becomes the
    sum of the row [y] of [attMat]. *)
Lemma transformer_sum_value fuel xb a pos head_size n_heads (st : State) :
  2 <= pos -> 0 <= n_heads * head_size ->
  m1 <> a -> xb <> m1 -> xb <> a ->
  (Z.to_nat pos < fuel)%nat ->
  Int.halve pos * (n_heads * head_size) <= Z.of_nat (length (data_of st m1)) ->
  Int.halve pos * (n_heads * head_size) <= Z.of_nat (length (data_of st a)) ->
  n_heads * head_size <= Z.of_nat (length (data_of st xb)) ->
  exists st',
    transformer_sum ops fuel prog state xb a pos head_size n_heads st = Some (tt, st') /\
    written_by (n_heads * head_size)
      (fun y => tree_sum ops pos (fun t => peek ops st a (pos * y + t)))
      (data_of st xb) (data_of st' xb) /\
    forall h, h <> xb -> h <> m1 -> h <> a -> gl_buffers st' !! h = gl_buffers st !! h.
Proof.
  set (Y := n_heads * head_size).
  intros Hpos HY Hma Hx1 Hxa Hfuel Hc1 Hca Hcx.
  set (V := fun y => tree_sum ops pos (fun t => peek ops st a (pos * y + t))).
  unfold transformer_sum. rewrite run_bind.
  destruct (while_loop_total
              (fun r1 s1 =>
                 1 <= nextStepSize r1 /\
                 ((nextStepSize r1 <> 1 /\
                   (currentBuffer r1 = m1 /\ nextBuffer r1 = a \/
                    currentBuffer r1 = a /\ nextBuffer r1 = m1) /\
                   nextStepSize r1 <= pos /\
                   length (data_of s1 m1) = length (data_of st m1) /\
                   length (data_of s1 a) = length (data_of st a) /\
                   (forall h, h <> m1 -> h <> a ->
                              gl_buffers s1 !! h = gl_buffers st !! h) /\
                   (forall y, 0 <= y < Y ->
                      tree_sum ops (nextStepSize r1)
                        (fun j => peek ops s1 (nextBuffer r1) (nextStepSize r1 * y + j))
                      = V y)) \/
                  (nextStepSize r1 = 1 /\
                   written_by Y V (data_of st xb) (data_of s1 xb) /\
                   (forall h, h <> xb -> h <> m1 -> h <> a ->
                              gl_buffers s1 !! h = gl_buffers st !! h))))
              (fun r1 => Z.to_nat (nextStepSize r1)) not_done
              (transformer_sum_step ops prog xb head_size n_heads))
    with (fuel := fuel)
         (s := {| currentStepSize := 0; nextStepSize := pos;
                  currentBuffer := m1; nextBuffer := a |}) (st := st)
    as (r' & st' & Hw & (_ & Hfin) & Hdone).
  - intros r1 s1 (Hge & Hinv) Hcond.
    unfold not_done in Hcond. apply negb_true_iff, Z.eqb_neq in Hcond.
    destruct Hinv as [(_ & Hb1 & Hle & Hl1 & Hla & Hoth & Hrows)|(E & _)];
      [|contradiction].
    pose proof (halve_bounds (nextStepSize r1) ltac:(lia)) as Hh.
    pose proof (halve_mono (nextStepSize r1) pos ltac:(lia)) as Hhm.
    set (d := Int.halve (nextStepSize r1)) in *.
    set (out := if nextStepSize (advance r1) =? 1 then xb
                else nextBuffer (advance r1)).
    assert (Hne : currentBuffer (advance r1) <> out).
    { subst out. cbn [advance currentBuffer nextBuffer nextStepSize].
      destruct (_ =? 1); destruct Hb1 as [[E1 E2]|[E1 E2]]; rewrite ?E1, ?E2;
        congruence. }
    destruct (reduce_pass_rows ops shader_sum (advance r1) out Y s1)
      as (s2 & Hrun & Hrest & Hlen & Hrow & Hout).
    { left. reflexivity. }
    { exact Hne. }
    { cbn [advance nextStepSize]. lia. }
    { exact HY. }
    exists (advance r1), s2. split.
    { rewrite transformer_sum_step_run. fold Y. fold out. rewrite Hrun. reflexivity. }
    cbn [advance nextStepSize currentStepSize currentBuffer nextBuffer] in *.
    fold d in Hrow, Hout.
    split; [|lia]. split; [lia|].
    subst out. cbn [advance nextStepSize nextBuffer] in *. fold d in Hrest, Hlen, Hrow, Hout.
    destruct (Z.eqb_spec d 1) as [Ed|Ed].
    + (* the last pass, to xb *)
      right. split; [exact Ed|]. split.
      * assert (Exb : data_of s1 xb = data_of st xb)
          by (apply data_of_lookup, Hoth; assumption).
        intros k. destruct (decide (Z.of_nat k < Y)) as [Hk|Hk].
        -- assert (Hkl : (k < length (data_of st xb))%nat) by lia.
           rewrite (lookup_peek s2 xb k) by (rewrite Hlen, Exb; exact Hkl).
           destruct (data_of st xb !! k) as [v|] eqn:Ev;
             [|apply lookup_ge_None in Ev; lia].
           cbn [fmap option_fmap option_map]. f_equal.
           pose proof (Hrow 0 (Z.of_nat k) ltac:(lia) ltac:(lia)) as H.
           rewrite Ed, Z.mul_1_l, Z.add_0_l in H.
           rewrite H by (rewrite Exb, Nat2Z.id; exact Hkl).
           rewrite <- (Hrows (Z.of_nat k)) by lia.
           unfold tree_sum.
           rewrite (tree_by_step (fadd ops) (nextStepSize r1)) by lia.
           fold d. rewrite Ed, tree_by_one. reflexivity.
        -- rewrite Hout by (rewrite Ed; lia). rewrite Exb. reflexivity.
      * intros h H1 H2 H3. rewrite Hrest by exact H1. apply Hoth; assumption.
    + (* a pass between the scratch buffers *)
      left. split; [exact Ed|].
      split; [destruct Hb1 as [[-> ->]|[-> ->]]; auto|].
      split; [lia|].
      assert (Hcapw : d * Y <= Z.of_nat (length (data_of s1 (currentBuffer r1)))).
      { destruct Hb1 as [[-> _]|[-> _]]; nia. }
      split.
      { destruct Hb1 as [[E1 E2]|[E1 E2]].
        - rewrite E1 in Hlen. rewrite Hlen. exact Hl1.
        - rewrite (data_of_lookup s1 s2 m1); [exact Hl1|].
          apply Hrest. rewrite E1. exact Hma. }
      split.
      { destruct Hb1 as [[E1 E2]|[E1 E2]].
        - rewrite (data_of_lookup s1 s2 a); [exact Hla|].
          apply Hrest. rewrite E1. congruence.
        - rewrite E1 in Hlen. rewrite Hlen. exact Hla. }
      split.
      { intros h H1 H2. rewrite Hrest; [apply Hoth; assumption|].
        destruct Hb1 as [[-> _]|[-> _]]; assumption. }
      intros y Hy. rewrite <- (Hrows y Hy). unfold tree_sum.
      rewrite (tree_by_step (fadd ops) (nextStepSize r1)) by lia. fold d.
      apply tree_by_ext; [lia|].
      intros j Hj. rewrite (Z.add_comm (d * y) j).
      apply Hrow; [lia | exact Hy | nia].
  - split; [cbn [nextStepSize]; lia|]. left.
    cbn [nextStepSize currentBuffer nextBuffer].
    split; [lia|]. split; [left; split; reflexivity|]. split; [lia|].
    split; [reflexivity|]. split; [reflexivity|]. split; [reflexivity|].
    intros y _. reflexivity.
  - cbn [nextStepSize]. exact Hfuel.
  - rewrite Hw. unfold not_done in Hdone. apply negb_false_iff, Z.eqb_eq in Hdone.
    destruct Hfin as [(Hne & _)|(_ & Hwr & Hoth)]; [contradiction|].
    exists st'. split; [reflexivity|]. split; [exact Hwr | exact Hoth].
Qed.

End SumRows.

(** X20.  [transformer_sum] with [pos >= 2] values per row and
    [n_heads * head_size >= 0] rows returns, given enough fuel, buffers
    [mulBuffer_1], [attMat] and [xb] different from each other, room for
    half of [pos] (rounded up) times the number of rows in [mulBuffer_1]
    and [attMat], and for one float per row in [xb].  It replaces [xb[y]],
    for each row [y], by the sum of the [pos] values
    [attMat[pos * y], ..., attMat[pos * y + pos - 1]], added pairwise,
    pass after pass.  The rest of [xb] is as before; [mulBuffer_1] and
    [attMat] serve as scratch, and no other buffer changes. *)
Theorem transformer_sum_adds_rows {F : Type} (ops : FloatOps F) (state : RunState.t)
    (fuel : nat) (xb attMat : GLuint) (pos head_size n_heads : Z) (st : GLState F) :
  2 <= pos -> 0 <= n_heads * head_size ->
  RunState.mulBuffer_1 state <> attMat ->
  xb <> RunState.mulBuffer_1 state -> xb <> attMat ->
  (Z.to_nat pos < fuel)%nat ->
  Int.halve pos * (n_heads * head_size)
    <= Z.of_nat (length (data_of st (RunState.mulBuffer_1 state))) ->
  Int.halve pos * (n_heads * head_size) <= Z.of_nat (length (data_of st attMat)) ->
  n_heads * head_size <= Z.of_nat (length (data_of st xb)) ->
  exists st',
    transformer_sum ops fuel compile_GPUProgram state xb attMat pos head_size n_heads st
      = Some (tt, st') /\
    written_by (n_heads * head_size)
      (fun y => tree_sum ops pos (fun t => peek ops st attMat (pos * y + t)))
      (data_of st xb) (data_of st' xb) /\
    forall h, h <> xb -> h <> RunState.mulBuffer_1 state -> h <> attMat ->
              gl_buffers st' !! h = gl_buffers st !! h.
Proof. apply transformer_sum_value. Qed.

Lemma transformer_sum_adds_rows_witness :
  exists st',
    transformer_sum R_ops 3 compile_GPUProgram (fresh_run_state 1 kv_config) 2 16 2 2 1
      rows_state = Some (tt, st') /\
    written_by (1 * 2)
      (fun y => tree_sum R_ops 2 (fun t => peek R_ops rows_state 16 (2 * y + t)))
      (data_of rows_state 2) (data_of st' 2) /\
    forall h, h <> 2 -> h <> RunState.mulBuffer_1 (fresh_run_state 1 kv_config) ->
              h <> 16 -> gl_buffers st' !! h = gl_buffers rows_state !! h.
Proof.
  apply (transformer_sum_adds_rows R_ops (fresh_run_state 1 kv_config) 3 2 16 2 2 1
           rows_state).
  - lia.
  - lia.
  - vm_compute. discriminate.
  - vm_compute. discriminate.
  - vm_compute. discriminate.
  - vm_compute. lia.
  - vm_compute. discriminate.
  - vm_compute. discriminate.
  - vm_compute. discriminate.
Defined.
